(** * go_bank: ledger and credit scheduling engine

    A shallow embedding of the money-moving core of the banking service:
    the account ledger ([AccountRepo.UpdateBalance]), transfers
    ([TransactionSvc.Transfer]), the amortization engine
    ([CalculateMonthlyPayment], [GeneratePaymentSchedule], [ToCredit]),
    the installment state machine ([UpdateScheduleStatus]) and the payment
    collection sweep ([CreditSvc.ProcessPayments]); further the services
    around them: deposits, withdrawals and card payments, the reading of a
    transaction, the update and deletion of an account, the issuing of a
    credit ([CreditSvc.Create]) and the view of its schedule
    ([CreditSvc.GetSchedule]), and the generated account and card numbers.

    Amounts are Go [float64] values and are embedded as Rocq's primitive
    binary64 floats, so every arithmetic step rounds as it does in the
    program (each operation on its own, as the amd64 build does; no fused
    multiply-add).  The clock is an argument: a function that calls
    [time.Now()] takes the reading as [now].  The database is a record of
    finite maps; every call into the driver may fail, which is decided by a
    script of faults carried by the state. *)

From Stdlib Require Import ZArith QArith Qabs Qpower Qfield Lqa Floats List String Ascii Lia Bool.
From stdpp Require Import base option list gmap sorting pretty.
Import ListNotations.

Set Warnings "-inexact-float".
Local Open Scope Z_scope.

(* ===================================================================== *)
(** ** Go's [float64] and the parts of package [math] the program calls  *)
(* ===================================================================== *)

Module F64.

(** [float64(n)] for an integer [n]: the nearest binary64 value. *)
Definition of_int (z : Z) : float :=
  SF2Prim (binary_normalize prec emax z 0 false).

Definition minInt64 : Z := - 2 ^ 63.
Definition maxInt64 : Z := 2 ^ 63 - 1.

(** The integer part of a finite float, toward zero (0 for the others). *)
Definition trunc (f : float) : Z :=
  match Prim2SF f with
  | S754_finite s m e =>
      let a := if 0 <=? e then Z.pos m * 2 ^ e else Z.pos m / 2 ^ (- e) in
      if s then - a else a
  | _ => 0
  end.

(** [int(f)]: truncation toward zero.  For a value that does not fit
    (and for an infinity or NaN) the result is the one amd64 produces, the
    least int64. *)
Definition to_int (f : float) : Z :=
  if PrimFloat.is_finite f && (minInt64 <=? trunc f) && (trunc f <=? maxInt64)
  then trunc f else minInt64.

(** [math.Round]: the nearest integer, halves away from zero; the sign
    of the argument is kept, also on a zero result. *)
Definition Round (x : float) : float :=
  match Prim2SF x with
  | S754_finite s m e =>
      if 0 <=? e then x
      else
        let d := 2 ^ (- e) in
        let q := Z.pos m / d in
        let r := Z.pos m mod d in
        let n := if d <=? 2 * r then q + 1 else q in
        if s then (- of_int n)%float else of_int n
  | _ => x
  end.

Definition Signbit (x : float) : bool :=
  match Prim2SF x with
  | S754_zero s | S754_infinity s | S754_finite s _ _ => s
  | S754_nan => false
  end.

Definition Frexp (x : float) : float * Z := Z.frexp x.
Definition Ldexp (frac : float) (exp : Z) : float := Z.ldexp frac exp.

(** The loop of [math.Pow] over the bits of the integer part of the
    exponent, least significant first: [for i := int64(yi); i != 0; i >>= 1].
    The state is the accumulator [a1 * 2^ae] and the running square
    [x1 * 2^xe]. *)
Definition pow_overflow (xe : Z) : bool := (xe <? - 2 ^ 12) || (2 ^ 12 <? xe).

Definition pow_square (x1 : float) (xe : Z) : float * Z :=
  let x1 := (x1 * x1)%float in
  let xe := 2 * xe in
  if (x1 <? 0.5)%float then ((x1 + x1)%float, xe - 1) else (x1, xe).

Fixpoint pow_loop (i : positive) (a1 : float) (ae : Z) (x1 : float) (xe : Z)
  : float * Z :=
  if pow_overflow xe then (a1, ae + xe)
  else
    match i with
    | xH => ((a1 * x1)%float, ae + xe)
    | xO i' =>
        let '(x1', xe') := pow_square x1 xe in
        pow_loop i' a1 ae x1' xe'
    | xI i' =>
        let '(x1', xe') := pow_square x1 xe in
        pow_loop i' (a1 * x1)%float (ae + xe) x1' xe'
    end.

(** [isOddInt] for a float without fractional part. *)
Definition isOddInt (y : float) : bool := Z.odd (trunc y).

(** [math.Pow(x, float64(n))] for an int [n]: Go's pure-Go algorithm,
    along the cases an exponent without fractional part can take (the
    program always passes [float64(termMonths)]; such an exponent is never
    NaN, infinite or a half, and the step through [Exp] and [Log] for a
    fractional part is never taken).  The special cases come first, in the
    order of the library. *)
Definition Pow (x : float) (n : Z) : float :=
  let y := of_int n in
  if (y =? 0)%float || (x =? 1)%float then 1%float
  else if (y =? 1)%float then x
  else if PrimFloat.is_nan x then nan
  else if (x =? 0)%float then
    if (y <? 0)%float
    then (if Signbit x && isOddInt y then neg_infinity else infinity)
    else (if Signbit x && isOddInt y then x else 0%float)
  else if PrimFloat.is_infinity x then
    if Signbit x
    then (* Pow(1/x, -y), that is Pow(-0, -y) *)
         (if (y <? 0)%float
          then (if isOddInt y then (-0)%float else 0%float)
          else (if isOddInt y then neg_infinity else infinity))
    else (if (y <? 0)%float then 0%float else infinity)
  else
    let yi := trunc (abs y) in
    if 2 ^ 63 <=? yi then
      (* an even exponent too large for int64 *)
      if (x =? -1)%float then 1%float
      else if Bool.eqb (abs x <? 1)%float (0 <? y)%float then 0%float
      else infinity
    else
      let '(x1, xe) := Frexp x in
      let '(a1, ae) :=
        match yi with
        | Z.pos i => pow_loop i 1%float 0 x1 xe
        | _ => (1%float, 0)
        end in
      if (y <? 0)%float then Ldexp (1 / a1)%float (- ae) else Ldexp a1 ae.

(** The exact rational value of a finite float (0 for the others), used
    to state bounds without a second rounding. *)
Definition to_Q (x : float) : Q :=
  match Prim2SF x with
  | S754_finite s m e =>
      let v := inject_Z (if s then Z.neg m else Z.pos m) in
      if 0 <=? e then (v * inject_Z (2 ^ e))%Q else (v / inject_Z (2 ^ (- e)))%Q
  | _ => 0%Q
  end.

End F64.

(* ===================================================================== *)
(** ** Package [time]: instants, durations and calendar months           *)
(* ===================================================================== *)

Module GoTime.

(** An instant is a count of nanoseconds since the Unix epoch; the
    location is UTC.  In a location with daylight-saving time the
    program's [AddDate] keeps the wall clock, so a step of one month can
    differ from a whole number of days by the change of the offset; the
    statements about due dates below use of [AddDate] only that it moves an
    instant forward. *)
Definition Time := Z.
Definition Duration := Z.   (* int64 nanoseconds *)

Definition Second : Z := 1000000000.
Definition Hour : Z := 3600 * Second.
Definition nsPerDay : Z := 24 * Hour.

(** [t.After(u)] *)
Definition After (t u : Time) : bool := u <? t.

(** [t.Sub(u)]: saturates at the ends of int64. *)
Definition Sub (t u : Time) : Duration :=
  Z.max F64.minInt64 (Z.min F64.maxInt64 (t - u)).

(** [d.Hours()]: the integer hours and the fraction are converted apart,
    as the library does. *)
Definition Hours (d : Duration) : float :=
  (F64.of_int (Z.quot d Hour) + F64.of_int (Z.rem d Hour) / 3600000000000)%float.

(** Days since the epoch of a civil date and back (proleptic Gregorian). *)
Definition days_from_civil (y m d : Z) : Z :=
  let y' := if m <=? 2 then y - 1 else y in
  let era := y' / 400 in
  let yoe := y' - era * 400 in
  let doy := (153 * (m + (if 2 <? m then -3 else 9)) + 2) / 5 + d - 1 in
  let doe := yoe * 365 + yoe / 4 - yoe / 100 + doy in
  era * 146097 + doe - 719468.

Definition civil_from_days (z : Z) : Z * Z * Z :=
  let z := z + 719468 in
  let era := z / 146097 in
  let doe := z - era * 146097 in
  let yoe := (doe - doe / 1460 + doe / 36524 - doe / 146096) / 365 in
  let doy := doe - (365 * yoe + yoe / 4 - yoe / 100) in
  let mp := (5 * doy + 2) / 153 in
  let d := doy - (153 * mp + 2) / 5 + 1 in
  let m := if mp <? 10 then mp + 3 else mp - 9 in
  let y := yoe + era * 400 in
  (if m <=? 2 then y + 1 else y, m, d).

(** [t.AddDate(years, months, days)]: the month is normalised into the
    year, a day past the end of the month runs over into the next. *)
Definition AddDate (years months days : Z) (t : Time) : Time :=
  let dayNum := t / nsPerDay in
  let tod := t mod nsPerDay in
  let '(y, m, d) := civil_from_days dayNum in
  let m0 := m - 1 + months in
  let y' := y + years + m0 / 12 in
  let m' := m0 mod 12 + 1 in
  (days_from_civil y' m' 1 + (d - 1) + days) * nsPerDay + tod.

End GoTime.
Import GoTime.

(* ===================================================================== *)
(** ** Package [models]                                                   *)
(* ===================================================================== *)

Inductive CreditStatus : Set :=
| CreditStatusActive | CreditStatusClosed | CreditStatusOverdue | CreditStatusRejected.

Inductive PaymentStatus : Set :=
| PaymentStatusPending | PaymentStatusPaid | PaymentStatusOverdue | PaymentStatusCancelled.

Inductive Currency : Set := CurrencyRUB | CurrencyUSD | CurrencyEUR.

Inductive AccountType : Set :=
| AccountTypeChecking | AccountTypeSavings | AccountTypeCredit.

Inductive TransactionType : Set :=
| TransactionTypeDeposit | TransactionTypeWithdrawal | TransactionTypeTransfer
| TransactionTypePayment | TransactionTypeFee | TransactionTypeInterest.

Inductive TransactionStatus : Set :=
| TransactionStatusPending | TransactionStatusCompleted
| TransactionStatusFailed | TransactionStatusCancelled.

#[global] Instance CreditStatus_eq_dec : EqDecision CreditStatus.
Proof. solve_decision. Defined.
#[global] Instance PaymentStatus_eq_dec : EqDecision PaymentStatus.
Proof. solve_decision. Defined.
#[global] Instance Currency_eq_dec : EqDecision Currency.
Proof. solve_decision. Defined.

(** The structs.  The columns [created_at] and [updated_at] are written by
    the database alone and read by nothing modelled here; they are left
    out. *)
Record Credit : Type := mkCredit {
  cr_ID : Z;
  cr_UserID : Z;
  cr_AccountID : Z;
  cr_Amount : float;
  cr_InterestRate : float;
  cr_TermMonths : Z;
  cr_MonthlyPayment : float;
  cr_StartDate : Time;
  cr_EndDate : Time;
  cr_Status : CreditStatus
}.

Record PaymentSchedule : Type := mkPaymentSchedule {
  ps_ID : Z;
  ps_CreditID : Z;
  ps_PaymentDate : Time;
  ps_PrincipalAmount : float;
  ps_InterestAmount : float;
  ps_TotalAmount : float;
  ps_Status : PaymentStatus;
  ps_IsOverdue : bool;
  ps_PenaltyAmount : float
}.

Record CreditRequest : Type := mkCreditRequest {
  rq_UserID : Z;
  rq_Amount : float;
  rq_TermMonths : Z;
  rq_InterestRate : float
}.

Record Account : Type := mkAccount {
  acc_ID : Z;
  acc_UserID : Z;
  acc_AccountNumber : string;
  acc_Balance : float;
  acc_Currency : Currency;
  acc_AccountType : AccountType;
  acc_IsActive : bool
}.

Record Transaction : Type := mkTransaction {
  txn_ID : Z;
  txn_TransactionType : TransactionType;
  txn_SourceAccountID : option Z;
  txn_DestinationAccountID : option Z;
  txn_Amount : float;
  txn_Currency : Currency;
  txn_Description : string;
  txn_Status : TransactionStatus;
  txn_CardID : option Z;
  txn_TransactionDate : Time
}.

Record TransferRequest : Type := mkTransferRequest {
  tr_SourceAccountID : Z;
  tr_DestinationAccountID : Z;
  tr_Amount : float;
  tr_Description : string
}.

(** Field updates, one per assignment the program makes. *)
Definition ps_set_ID (v : Z) (p : PaymentSchedule) : PaymentSchedule :=
  mkPaymentSchedule v (ps_CreditID p) (ps_PaymentDate p) (ps_PrincipalAmount p)
    (ps_InterestAmount p) (ps_TotalAmount p) (ps_Status p) (ps_IsOverdue p)
    (ps_PenaltyAmount p).
Definition ps_set_Status (v : PaymentStatus) (p : PaymentSchedule) : PaymentSchedule :=
  mkPaymentSchedule (ps_ID p) (ps_CreditID p) (ps_PaymentDate p) (ps_PrincipalAmount p)
    (ps_InterestAmount p) (ps_TotalAmount p) v (ps_IsOverdue p) (ps_PenaltyAmount p).
Definition ps_set_IsOverdue (v : bool) (p : PaymentSchedule) : PaymentSchedule :=
  mkPaymentSchedule (ps_ID p) (ps_CreditID p) (ps_PaymentDate p) (ps_PrincipalAmount p)
    (ps_InterestAmount p) (ps_TotalAmount p) (ps_Status p) v (ps_PenaltyAmount p).
Definition ps_set_PenaltyAmount (v : float) (p : PaymentSchedule) : PaymentSchedule :=
  mkPaymentSchedule (ps_ID p) (ps_CreditID p) (ps_PaymentDate p) (ps_PrincipalAmount p)
    (ps_InterestAmount p) (ps_TotalAmount p) (ps_Status p) (ps_IsOverdue p) v.

Definition cr_set_ID (v : Z) (c : Credit) : Credit :=
  mkCredit v (cr_UserID c) (cr_AccountID c) (cr_Amount c) (cr_InterestRate c)
    (cr_TermMonths c) (cr_MonthlyPayment c) (cr_StartDate c) (cr_EndDate c) (cr_Status c).
Definition cr_set_Status (v : CreditStatus) (c : Credit) : Credit :=
  mkCredit (cr_ID c) (cr_UserID c) (cr_AccountID c) (cr_Amount c) (cr_InterestRate c)
    (cr_TermMonths c) (cr_MonthlyPayment c) (cr_StartDate c) (cr_EndDate c) v.
Definition cr_set_MonthlyPayment (v : float) (c : Credit) : Credit :=
  mkCredit (cr_ID c) (cr_UserID c) (cr_AccountID c) (cr_Amount c) (cr_InterestRate c)
    (cr_TermMonths c) v (cr_StartDate c) (cr_EndDate c) (cr_Status c).

Definition acc_set_ID (v : Z) (a : Account) : Account :=
  mkAccount v (acc_UserID a) (acc_AccountNumber a) (acc_Balance a) (acc_Currency a)
    (acc_AccountType a) (acc_IsActive a).
Definition acc_set_Balance (v : float) (a : Account) : Account :=
  mkAccount (acc_ID a) (acc_UserID a) (acc_AccountNumber a) v (acc_Currency a)
    (acc_AccountType a) (acc_IsActive a).

Definition txn_set_ID (v : Z) (t : Transaction) : Transaction :=
  mkTransaction v (txn_TransactionType t) (txn_SourceAccountID t)
    (txn_DestinationAccountID t) (txn_Amount t) (txn_Currency t) (txn_Description t)
    (txn_Status t) (txn_CardID t) (txn_TransactionDate t).
Definition txn_set_Currency (v : Currency) (t : Transaction) : Transaction :=
  mkTransaction (txn_ID t) (txn_TransactionType t) (txn_SourceAccountID t)
    (txn_DestinationAccountID t) (txn_Amount t) v (txn_Description t)
    (txn_Status t) (txn_CardID t) (txn_TransactionDate t).
Definition txn_set_Status (v : TransactionStatus) (t : Transaction) : Transaction :=
  mkTransaction (txn_ID t) (txn_TransactionType t) (txn_SourceAccountID t)
    (txn_DestinationAccountID t) (txn_Amount t) (txn_Currency t) (txn_Description t)
    v (txn_CardID t) (txn_TransactionDate t).

(** *** credit.go *)

(** [ValidateCreditRequest]: [None] is Go's [nil]. *)
Definition ValidateCreditRequest (c : CreditRequest) : option string :=
  if (rq_Amount c <=? 0)%float then Some "amount must be positive"%string
  else if (rq_TermMonths c <? 1) || (360 <? rq_TermMonths c)
       then Some "term must be between 1 and 360 months"%string
  else if (rq_InterestRate c <? 0)%float
       then Some "interest rate cannot be negative"%string
  else None.

Definition CalculateMonthlyPayment
    (principal annualInterestRate : float) (termMonths : Z) : float :=
  let monthlyInterestRate := (annualInterestRate / 12 / 100)%float in
  if (monthlyInterestRate =? 0)%float then
    (principal / F64.of_int termMonths)%float
  else
    (principal * monthlyInterestRate * F64.Pow (1 + monthlyInterestRate) termMonths
     / (F64.Pow (1 + monthlyInterestRate) termMonths - 1))%float.

Definition roundToTwoDecimal (value : float) : float :=
  (F64.Round (value * 100) / 100)%float.

Definition addOneMonth (date : Time) : Time := AddDate 0 1 0 date.

(** The body of the loop of [GeneratePaymentSchedule], for the iteration
    [i], with the loop variables [remainingPrincipal] and [paymentDate]
    passed in and handed on. *)
Fixpoint schedule_loop (credit : Credit) (monthlyInterestRate : float)
    (iterations : nat) (i : Z) (remainingPrincipal : float) (paymentDate : Time)
  : list PaymentSchedule :=
  match iterations with
  | O => []
  | S iterations' =>
      let interestAmount := (remainingPrincipal * monthlyInterestRate)%float in
      let principalAmount :=
        if i =? cr_TermMonths credit - 1 then remainingPrincipal
        else (cr_MonthlyPayment credit - interestAmount)%float in
      let principalAmount :=
        if (principalAmount <? 0)%float then 0%float else principalAmount in
      let remainingPrincipal := (remainingPrincipal - principalAmount)%float in
      let paymentScheduleItem :=
        {| ps_ID := 0;
           ps_CreditID := cr_ID credit;
           ps_PaymentDate := paymentDate;
           ps_PrincipalAmount := roundToTwoDecimal principalAmount;
           ps_InterestAmount := roundToTwoDecimal interestAmount;
           ps_TotalAmount := roundToTwoDecimal (principalAmount + interestAmount);
           ps_Status := PaymentStatusPending;
           ps_IsOverdue := false;
           ps_PenaltyAmount := 0%float |} in
      paymentScheduleItem
        :: schedule_loop credit monthlyInterestRate iterations' (i + 1)
             remainingPrincipal (addOneMonth paymentDate)
  end.

Definition GeneratePaymentSchedule (credit : Credit) : list PaymentSchedule :=
  let monthlyInterestRate := (cr_InterestRate credit / 12 / 100)%float in
  schedule_loop credit monthlyInterestRate (Z.to_nat (cr_TermMonths credit)) 0
    (cr_Amount credit) (cr_StartDate credit).

(** [ToCredit]; [now] is the reading of [time.Now()]. *)
Definition ToCredit (now : Time) (c : CreditRequest) (accountID : Z)
    (baseInterestRate : float) : Credit :=
  let interestRate :=
    if (rq_InterestRate c =? 0)%float then (baseInterestRate + 5)%float
    else rq_InterestRate c in
  let startDate := now in
  let endDate := AddDate 0 (rq_TermMonths c) 0 startDate in
  let monthlyPayment :=
    CalculateMonthlyPayment (rq_Amount c) interestRate (rq_TermMonths c) in
  {| cr_ID := 0;
     cr_UserID := rq_UserID c;
     cr_AccountID := accountID;
     cr_Amount := rq_Amount c;
     cr_InterestRate := interestRate;
     cr_TermMonths := rq_TermMonths c;
     cr_MonthlyPayment := roundToTwoDecimal monthlyPayment;
     cr_StartDate := startDate;
     cr_EndDate := endDate;
     cr_Status := CreditStatusActive |}.

(** *** payment_schedule.go *)

(** [UpdateScheduleStatus]; [now] is the reading of [time.Now()].  The
    struct is updated in place in the program; here the new value is
    returned. *)
Definition UpdateScheduleStatus (now : Time) (schedule : PaymentSchedule)
  : PaymentSchedule :=
  if bool_decide (ps_Status schedule = PaymentStatusPending)
     && After now (ps_PaymentDate schedule)
  then
    let schedule := ps_set_IsOverdue true schedule in
    let schedule := ps_set_Status PaymentStatusOverdue schedule in
    let daysOverdue :=
      F64.to_int (Hours (Sub now (ps_PaymentDate schedule)) / 24)%float in
    if 1 <? daysOverdue
    then ps_set_PenaltyAmount
           (roundToTwoDecimal (ps_TotalAmount schedule * 0.1)%float) schedule
    else schedule
  else schedule.

(** *** transaction.go *)

Definition ValidateTransferRequest (t : TransferRequest) : option string :=
  if tr_SourceAccountID t =? tr_DestinationAccountID t
  then Some "source and destination accounts cannot be the same"%string
  else if (tr_Amount t <=? 0)%float then Some "amount must be positive"%string
  else None.

(** [TransferRequest.ToTransaction]; [now] is the reading of [time.Now()]. *)
Definition ToTransaction (now : Time) (t : TransferRequest) : Transaction :=
  {| txn_ID := 0;
     txn_TransactionType := TransactionTypeTransfer;
     txn_SourceAccountID := Some (tr_SourceAccountID t);
     txn_DestinationAccountID := Some (tr_DestinationAccountID t);
     txn_Amount := tr_Amount t;
     txn_Currency := CurrencyRUB;
     txn_Description := tr_Description t;
     txn_Status := TransactionStatusPending;
     txn_CardID := None;
     txn_TransactionDate := now |}.

(** [DepositRequest], [WithdrawalRequest] and [PaymentRequest], with their
    validation and conversion methods.  Each [ToTransaction] reads
    [time.Now()], passed as [now]. *)
Record DepositRequest : Type := mkDepositRequest {
  dr_AccountID : Z;
  dr_Amount : float;
  dr_Description : string
}.

Record WithdrawalRequest : Type := mkWithdrawalRequest {
  wr_AccountID : Z;
  wr_Amount : float;
  wr_Description : string
}.

Record PaymentRequest : Type := mkPaymentRequest {
  pr_AccountID : Z;
  pr_CardID : Z;
  pr_Amount : float;
  pr_Description : string
}.

Definition ValidateDepositRequest (d : DepositRequest) : option string :=
  if (dr_Amount d <=? 0)%float then Some "amount must be positive"%string else None.

Definition DepositRequest_ToTransaction (now : Time) (d : DepositRequest) : Transaction :=
  {| txn_ID := 0;
     txn_TransactionType := TransactionTypeDeposit;
     txn_SourceAccountID := None;
     txn_DestinationAccountID := Some (dr_AccountID d);
     txn_Amount := dr_Amount d;
     txn_Currency := CurrencyRUB;
     txn_Description := dr_Description d;
     txn_Status := TransactionStatusPending;
     txn_CardID := None;
     txn_TransactionDate := now |}.

Definition ValidateWithdrawalRequest (w : WithdrawalRequest) : option string :=
  if (wr_Amount w <=? 0)%float then Some "amount must be positive"%string else None.

Definition WithdrawalRequest_ToTransaction (now : Time) (w : WithdrawalRequest)
  : Transaction :=
  {| txn_ID := 0;
     txn_TransactionType := TransactionTypeWithdrawal;
     txn_SourceAccountID := Some (wr_AccountID w);
     txn_DestinationAccountID := None;
     txn_Amount := wr_Amount w;
     txn_Currency := CurrencyRUB;
     txn_Description := wr_Description w;
     txn_Status := TransactionStatusPending;
     txn_CardID := None;
     txn_TransactionDate := now |}.

Definition ValidatePaymentRequest (p : PaymentRequest) : option string :=
  if (pr_Amount p <=? 0)%float then Some "amount must be positive"%string else None.

Definition PaymentRequest_ToTransaction (now : Time) (p : PaymentRequest) : Transaction :=
  {| txn_ID := 0;
     txn_TransactionType := TransactionTypePayment;
     txn_SourceAccountID := Some (pr_AccountID p);
     txn_DestinationAccountID := None;
     txn_Amount := pr_Amount p;
     txn_Currency := CurrencyRUB;
     txn_Description := pr_Description p;
     txn_Status := TransactionStatusPending;
     txn_CardID := Some (pr_CardID p);
     txn_TransactionDate := now |}.

(** *** payment_schedule.go: responses and the summary *)

Record PaymentScheduleResponse : Type := mkPaymentScheduleResponse {
  psr_ID : Z;
  psr_CreditID : Z;
  psr_PaymentNumber : Z;
  psr_PaymentDate : Time;
  psr_PrincipalAmount : float;
  psr_InterestAmount : float;
  psr_TotalAmount : float;
  psr_Status : PaymentStatus;
  psr_IsOverdue : bool;
  psr_PenaltyAmount : float
}.

Record PaymentScheduleSummary : Type := mkPaymentScheduleSummary {
  sm_TotalPayments : Z;
  sm_TotalPrincipal : float;
  sm_TotalInterest : float;
  sm_TotalAmount : float;
  sm_RemainingPayments : Z;
  sm_RemainingPrincipal : float;
  sm_RemainingInterest : float;
  sm_RemainingAmount : float;
  sm_PaidPayments : Z;
  sm_PaidPrincipal : float;
  sm_PaidInterest : float;
  sm_PaidAmount : float;
  sm_OverduePayments : Z;
  sm_OverduePrincipal : float;
  sm_OverdueInterest : float;
  sm_OverdueAmount : float;
  sm_TotalPenalties : float
}.

Definition ToPaymentScheduleResponse (p : PaymentSchedule) (paymentNumber : Z)
  : PaymentScheduleResponse :=
  {| psr_ID := ps_ID p;
     psr_CreditID := ps_CreditID p;
     psr_PaymentNumber := paymentNumber;
     psr_PaymentDate := ps_PaymentDate p;
     psr_PrincipalAmount := ps_PrincipalAmount p;
     psr_InterestAmount := ps_InterestAmount p;
     psr_TotalAmount := ps_TotalAmount p;
     psr_Status := ps_Status p;
     psr_IsOverdue := ps_IsOverdue p;
     psr_PenaltyAmount := ps_PenaltyAmount p |}.

(** The body of the loop of [CalculatePaymentScheduleSummary]: the four
    totals first, then the [switch] on the status, which has no case for a
    cancelled installment. *)
Definition summary_add (summary : PaymentScheduleSummary) (payment : PaymentSchedule)
  : PaymentScheduleSummary :=
  let totalPrincipal := (sm_TotalPrincipal summary + ps_PrincipalAmount payment)%float in
  let totalInterest := (sm_TotalInterest summary + ps_InterestAmount payment)%float in
  let totalAmount := (sm_TotalAmount summary + ps_TotalAmount payment)%float in
  let totalPenalties := (sm_TotalPenalties summary + ps_PenaltyAmount payment)%float in
  match ps_Status payment with
  | PaymentStatusPaid =>
      {| sm_TotalPayments := sm_TotalPayments summary;
         sm_TotalPrincipal := totalPrincipal;
         sm_TotalInterest := totalInterest;
         sm_TotalAmount := totalAmount;
         sm_RemainingPayments := sm_RemainingPayments summary;
         sm_RemainingPrincipal := sm_RemainingPrincipal summary;
         sm_RemainingInterest := sm_RemainingInterest summary;
         sm_RemainingAmount := sm_RemainingAmount summary;
         sm_PaidPayments := sm_PaidPayments summary + 1;
         sm_PaidPrincipal := (sm_PaidPrincipal summary + ps_PrincipalAmount payment)%float;
         sm_PaidInterest := (sm_PaidInterest summary + ps_InterestAmount payment)%float;
         sm_PaidAmount := (sm_PaidAmount summary + ps_TotalAmount payment)%float;
         sm_OverduePayments := sm_OverduePayments summary;
         sm_OverduePrincipal := sm_OverduePrincipal summary;
         sm_OverdueInterest := sm_OverdueInterest summary;
         sm_OverdueAmount := sm_OverdueAmount summary;
         sm_TotalPenalties := totalPenalties |}
  | PaymentStatusPending =>
      {| sm_TotalPayments := sm_TotalPayments summary;
         sm_TotalPrincipal := totalPrincipal;
         sm_TotalInterest := totalInterest;
         sm_TotalAmount := totalAmount;
         sm_RemainingPayments := sm_RemainingPayments summary + 1;
         sm_RemainingPrincipal :=
           (sm_RemainingPrincipal summary + ps_PrincipalAmount payment)%float;
         sm_RemainingInterest :=
           (sm_RemainingInterest summary + ps_InterestAmount payment)%float;
         sm_RemainingAmount := (sm_RemainingAmount summary + ps_TotalAmount payment)%float;
         sm_PaidPayments := sm_PaidPayments summary;
         sm_PaidPrincipal := sm_PaidPrincipal summary;
         sm_PaidInterest := sm_PaidInterest summary;
         sm_PaidAmount := sm_PaidAmount summary;
         sm_OverduePayments := sm_OverduePayments summary;
         sm_OverduePrincipal := sm_OverduePrincipal summary;
         sm_OverdueInterest := sm_OverdueInterest summary;
         sm_OverdueAmount := sm_OverdueAmount summary;
         sm_TotalPenalties := totalPenalties |}
  | PaymentStatusOverdue =>
      {| sm_TotalPayments := sm_TotalPayments summary;
         sm_TotalPrincipal := totalPrincipal;
         sm_TotalInterest := totalInterest;
         sm_TotalAmount := totalAmount;
         sm_RemainingPayments := sm_RemainingPayments summary;
         sm_RemainingPrincipal := sm_RemainingPrincipal summary;
         sm_RemainingInterest := sm_RemainingInterest summary;
         sm_RemainingAmount := sm_RemainingAmount summary;
         sm_PaidPayments := sm_PaidPayments summary;
         sm_PaidPrincipal := sm_PaidPrincipal summary;
         sm_PaidInterest := sm_PaidInterest summary;
         sm_PaidAmount := sm_PaidAmount summary;
         sm_OverduePayments := sm_OverduePayments summary + 1;
         sm_OverduePrincipal :=
           (sm_OverduePrincipal summary + ps_PrincipalAmount payment)%float;
         sm_OverdueInterest :=
           (sm_OverdueInterest summary + ps_InterestAmount payment)%float;
         sm_OverdueAmount := (sm_OverdueAmount summary + ps_TotalAmount payment)%float;
         sm_TotalPenalties := totalPenalties |}
  | PaymentStatusCancelled =>
      {| sm_TotalPayments := sm_TotalPayments summary;
         sm_TotalPrincipal := totalPrincipal;
         sm_TotalInterest := totalInterest;
         sm_TotalAmount := totalAmount;
         sm_RemainingPayments := sm_RemainingPayments summary;
         sm_RemainingPrincipal := sm_RemainingPrincipal summary;
         sm_RemainingInterest := sm_RemainingInterest summary;
         sm_RemainingAmount := sm_RemainingAmount summary;
         sm_PaidPayments := sm_PaidPayments summary;
         sm_PaidPrincipal := sm_PaidPrincipal summary;
         sm_PaidInterest := sm_PaidInterest summary;
         sm_PaidAmount := sm_PaidAmount summary;
         sm_OverduePayments := sm_OverduePayments summary;
         sm_OverduePrincipal := sm_OverduePrincipal summary;
         sm_OverdueInterest := sm_OverdueInterest summary;
         sm_OverdueAmount := sm_OverdueAmount summary;
         sm_TotalPenalties := totalPenalties |}
  end.

(** [summary := &PaymentScheduleSummary{}] with [TotalPayments] set to
    [len(schedules)]. *)
Definition empty_summary (totalPayments : Z) : PaymentScheduleSummary :=
  mkPaymentScheduleSummary totalPayments 0 0 0 0 0 0 0 0 0 0 0 0 0 0 0 0.

Definition CalculatePaymentScheduleSummary (schedules : list PaymentSchedule)
  : PaymentScheduleSummary :=
  foldl summary_add (empty_summary (Z.of_nat (length schedules))) schedules.

(** *** card.go and account.go: generated numbers *)

(** The pseudo-random source is an argument: [rnd k] is the value the
    [k]-th call of [rand.Intn(10)] returns to the function, a number from
    0 to 9. *)

(** [string(rune(r))] for a rune below 128: the one byte [r]. *)
Definition rune_string (r : Z) : string :=
  String (ascii_of_N (Z.to_N r)) EmptyString.

(** ['0'] *)
Definition zero_rune : Z := 48.

(** [for i := 0; i < count; i++ { s += string(rune('0' + rand.Intn(10))) }],
    drawing from the [i]-th value on. *)
Fixpoint append_random_digits (rnd : nat -> Z) (i count : nat) (s : string) : string :=
  match count with
  | O => s
  | S count' =>
      append_random_digits rnd (S i) count' (s ++ rune_string (zero_rune + rnd i))
  end.

(** The body of the checksum loop of [GenerateCardNumber], which runs
    over the bytes from the last to the first; [cardNumber[i] - '0'] is
    byte arithmetic. *)
Definition luhn_step (acc : Z * bool) (c : ascii) : Z * bool :=
  let '(sum, alternate) := acc in
  let digit := (Z.of_N (N_of_ascii c) - zero_rune) mod 256 in
  let digit :=
    if alternate then
      let digit := digit * 2 in
      if 9 <? digit then digit - 9 else digit
    else digit in
  (sum + digit, negb alternate).

Definition luhn_sum (cardNumber : string) : Z :=
  fst (foldl luhn_step (0, false) (rev (list_ascii_of_string cardNumber))).

Definition GenerateCardNumber (rnd : nat -> Z) : string :=
  let prefix := "2200"%string in
  let cardNumber := append_random_digits rnd 0 11 prefix in
  let sum := luhn_sum cardNumber in
  let checkDigit := Z.rem (10 - Z.rem sum 10) 10 in
  (cardNumber ++ rune_string (zero_rune + checkDigit))%string.

Definition GenerateCVV (rnd : nat -> Z) : string :=
  append_random_digits rnd 0 3 EmptyString.

(** [GenerateAccountNumber]; the reseeding of the source at its start
    decides which values [rnd] holds and nothing else. *)
Definition GenerateAccountNumber (rnd : nat -> Z) : string :=
  append_random_digits rnd 0 12 "40817".

(** [type CardType string] *)
Definition CardType : Type := string.

(** The fields of [Card] that the modelled code reads or writes; the
    encrypted columns are opaque to it and left out. *)
Record Card : Type := mkCard {
  card_ID : Z;
  card_AccountID : Z;
  card_CardNumber : string;
  card_ExpiryDate : string;
  card_CVV : string;
  card_CardType : CardType;
  card_IsActive : bool
}.

Record CardResponse : Type := mkCardResponse {
  cres_ID : Z;
  cres_AccountID : Z;
  cres_CardNumber : string;
  cres_ExpiryDate : string;
  cres_CardType : CardType;
  cres_IsActive : bool
}.

Definition card_set_ID (v : Z) (c : Card) : Card :=
  mkCard v (card_AccountID c) (card_CardNumber c) (card_ExpiryDate c) (card_CVV c)
    (card_CardType c) (card_IsActive c).

(** [ToCardResponse]: [maskedNumber[:6] + strings.Repeat("*", 6) +
    maskedNumber[12:]] for a number of 16 bytes or more. *)
Definition ToCardResponse (c : Card) : CardResponse :=
  let maskedNumber := card_CardNumber c in
  let maskedNumber :=
    if (16 <=? String.length maskedNumber)%nat
    then (substring 0 6 maskedNumber ++ "******"
          ++ substring 12 (String.length maskedNumber - 12) maskedNumber)%string
    else maskedNumber in
  {| cres_ID := card_ID c;
     cres_AccountID := card_AccountID c;
     cres_CardNumber := maskedNumber;
     cres_ExpiryDate := card_ExpiryDate c;
     cres_CardType := card_CardType c;
     cres_IsActive := card_IsActive c |}.

(** *** user.go *)

Record User : Type := mkUser {
  usr_ID : Z;
  usr_Username : string;
  usr_Email : string;
  usr_PassHash : string;
  usr_FirstName : string;
  usr_LastName : string
}.

Definition usr_set_ID (v : Z) (u : User) : User :=
  mkUser v (usr_Username u) (usr_Email u) (usr_PassHash u) (usr_FirstName u)
    (usr_LastName u).

(** More field updates of [Account]. *)
Definition acc_set_UserID (v : Z) (a : Account) : Account :=
  mkAccount (acc_ID a) v (acc_AccountNumber a) (acc_Balance a) (acc_Currency a)
    (acc_AccountType a) (acc_IsActive a).
Definition acc_set_AccountNumber (v : string) (a : Account) : Account :=
  mkAccount (acc_ID a) (acc_UserID a) v (acc_Balance a) (acc_Currency a)
    (acc_AccountType a) (acc_IsActive a).
Definition acc_set_Currency (v : Currency) (a : Account) : Account :=
  mkAccount (acc_ID a) (acc_UserID a) (acc_AccountNumber a) (acc_Balance a) v
    (acc_AccountType a) (acc_IsActive a).
Definition acc_set_AccountType (v : AccountType) (a : Account) : Account :=
  mkAccount (acc_ID a) (acc_UserID a) (acc_AccountNumber a) (acc_Balance a)
    (acc_Currency a) v (acc_IsActive a).
Definition acc_set_IsActive (v : bool) (a : Account) : Account :=
  mkAccount (acc_ID a) (acc_UserID a) (acc_AccountNumber a) (acc_Balance a)
    (acc_Currency a) (acc_AccountType a) v.

(* ===================================================================== *)
(** ** Errors                                                             *)
(* ===================================================================== *)

(** A Go [error]: the errors that come out of [database/sql] ([ErrNoRows],
    and [ErrDriver] for any other failure of the driver, whose message is
    taken not to speak of funds), and the values built by [errors.New] (or
    [fmt.Errorf] without an operand) and by [fmt.Errorf] wrapping an error
    with [%w]. *)
Inductive error : Type :=
| ErrNoRows
| ErrDriver
| New (msg : string)
| Wrap (msg : string) (err : error).

Fixpoint Error (e : error) : string :=
  match e with
  | ErrNoRows => "sql: no rows in result set"
  | ErrDriver => "driver: bad connection"
  | New msg => msg
  | Wrap msg e' => msg ++ ": " ++ Error e'
  end%string.

(** [strings.HasPrefix] and [strings.Contains] *)
Fixpoint HasPrefix (s prefix : string) : bool :=
  match prefix, s with
  | EmptyString, _ => true
  | String _ _, EmptyString => false
  | String c prefix', String d s' => Ascii.eqb c d && HasPrefix s' prefix'
  end.

Fixpoint Contains (s substr : string) : bool :=
  HasPrefix s substr
  || match s with
     | EmptyString => false
     | String _ s' => Contains s' substr
     end.

(* ===================================================================== *)
(** ** The database                                                       *)
(* ===================================================================== *)

(** The tables, each keyed by its primary key [id].  A row keeps the
    values the program wrote, as [float64] and as instants: the column
    types of schema.sql (DECIMAL(15,2), DATE) and its CHECK constraints
    belong to the database engine and are not modelled.  The [transactions]
    table only grows.  Execution is sequential; row locks are not
    modelled. *)
Record DB : Type := mkDB {
  accounts : gmap Z Account;
  credits : gmap Z Credit;
  payment_schedules : gmap Z PaymentSchedule;
  transactions : list Transaction
}.

(** The state the program runs in: the committed tables, the script of
    driver faults still to come (one entry per call into the driver,
    [true] for a call that fails; no entry left means no fault), and the
    number of transactions begun and neither committed nor rolled back. *)
Record World : Type := mkWorld {
  db : DB;
  faults : list bool;
  open_tx : nat
}.

Definition set_db (d : DB) (w : World) : World := mkWorld d (faults w) (open_tx w).

Definition driver_call (w : World) : bool * World :=
  match faults w with
  | [] => (false, w)
  | f :: fs => (f, mkWorld (db w) fs (open_tx w))
  end.

(** The id a [SERIAL] column gives to a new row: one the table does not
    hold.  The model takes the one after the largest in the table. *)
Definition next_id {A : Type} (m : gmap Z A) : Z :=
  1 + foldr Z.max 0 (fst <$> map_to_list m).

(** *** [sql.Tx] *)

(** The one statement the program runs inside a transaction:
    [UPDATE accounts SET balance = $1 WHERE id = $2]. *)
Inductive stmt : Type :=
| SetBalance (newBalance : float) (id : Z).

Definition exec_stmt (d : DB) (s : stmt) : DB :=
  match s with
  | SetBalance newBalance id =>
      mkDB (alter (acc_set_Balance newBalance) id (accounts d))
           (credits d) (payment_schedules d) (transactions d)
  end.

(** A transaction handle holds the writes made through it; they reach the
    tables at [Commit]. *)
Record Tx : Type := mkTx { tx_writes : list stmt }.

Definition close_tx (w : World) : World :=
  mkWorld (db w) (faults w) (Nat.pred (open_tx w)).

Definition BeginTx (w : World) : (error + Tx) * World :=
  let '(f, w) := driver_call w in
  if f then (inl ErrDriver, w)
  else (inr (mkTx []), mkWorld (db w) (faults w) (S (open_tx w))).

Definition Tx_Rollback (tx : Tx) (w : World) : World := close_tx w.

(** A [Commit] that fails ends the transaction without applying it. *)
Definition Tx_Commit (tx : Tx) (w : World) : option error * World :=
  let '(f, w) := driver_call w in
  if f then (Some ErrDriver, close_tx w)
  else (None, close_tx (set_db (foldl exec_stmt (db w) (tx_writes tx)) w)).

(** [SELECT balance FROM accounts WHERE id = $1 FOR UPDATE] *)
Definition Tx_QueryRow_balance (tx : Tx) (id : Z) (w : World)
  : (error + float) * World :=
  let '(f, w) := driver_call w in
  if f then (inl ErrDriver, w)
  else match accounts (foldl exec_stmt (db w) (tx_writes tx)) !! id with
       | None => (inl ErrNoRows, w)
       | Some row => (inr (acc_Balance row), w)
       end.

Definition Tx_Exec (tx : Tx) (s : stmt) (w : World) : (error + Tx) * World :=
  let '(f, w) := driver_call w in
  if f then (inl ErrDriver, w)
  else (inr (mkTx (tx_writes tx ++ [s])), w).

(** *** account_repository.go *)

Module AccountRepo.

Definition GetByID (id : Z) (w : World) : (error + Account) * World :=
  let '(f, w) := driver_call w in
  if f then (inl (Wrap "failed to get account" ErrDriver), w)
  else match accounts (db w) !! id with
       | None => (inl (Wrap "account not found" ErrNoRows), w)
       | Some row => (inr (acc_set_ID id row), w)
       end.

(** [UpdateBalance] opens a transaction of its own on the pool and
    commits it.  The deferred function rolls back when the local [err]
    is set; at the return for insufficient funds [err] is still [nil]
    (the query succeeded), so there the transaction is left open. *)
Definition UpdateBalance (id : Z) (amount : float) (w : World)
  : option error * World :=
  match BeginTx w with
  | (inl err, w) => (Some (Wrap "failed to begin transaction" err), w)
  | (inr tx, w) =>
      match Tx_QueryRow_balance tx id w with
      | (inl err, w) =>
          (Some (Wrap "failed to get current balance" err),
           Tx_Rollback tx w)
      | (inr currentBalance, w) =>
          let newBalance := (currentBalance + amount)%float in
          if (newBalance <? 0)%float then
            (Some (New "insufficient funds"), w)
          else
            match Tx_Exec tx (SetBalance newBalance id) w with
            | (inl err, w) =>
                (Some (Wrap "failed to update balance" err),
                 Tx_Rollback tx w)
            | (inr tx, w) =>
                match Tx_Commit tx w with
                | (Some err, w) =>
                    (* the deferred Rollback finds the transaction over *)
                    (Some (Wrap "failed to commit transaction" err), w)
                | (None, w) => (None, w)
                end
            end
      end
  end.

(** [UpdateBalanceTx]: the same read, check and write inside a
    transaction of the caller, which is handed back with the write in
    it. *)
Definition UpdateBalanceTx (tx : Tx) (id : Z) (amount : float) (w : World)
  : (error + Tx) * World :=
  match Tx_QueryRow_balance tx id w with
  | (inl err, w) => (inl (Wrap "failed to get current balance" err), w)
  | (inr currentBalance, w) =>
      let newBalance := (currentBalance + amount)%float in
      if (newBalance <? 0)%float then (inl (New "insufficient funds"), w)
      else
        match Tx_Exec tx (SetBalance newBalance id) w with
        | (inl err, w) => (inl (Wrap "failed to update balance" err), w)
        | (inr tx, w) => (inr tx, w)
        end
  end.

(** [INSERT INTO accounts ... RETURNING id], run on the pool. *)
Definition Create (account : Account) (w : World) : (error + Z) * World :=
  let '(f, w) := driver_call w in
  if f then (inl (Wrap "failed to create account" ErrDriver), w)
  else
    let id := next_id (accounts (db w)) in
    (inr id,
     set_db (mkDB (<[id := acc_set_ID id account]> (accounts (db w))) (credits (db w))
                  (payment_schedules (db w)) (transactions (db w))) w).

(** [UPDATE accounts SET currency = $1, account_type = $2, is_active = $3
    WHERE id = $4] *)
Definition Update (account : Account) (w : World) : option error * World :=
  let '(f, w) := driver_call w in
  if f then (Some (Wrap "failed to update account" ErrDriver), w)
  else match accounts (db w) !! acc_ID account with
       | None => (Some (New "account not found"), w)
       | Some row =>
           let row := acc_set_IsActive (acc_IsActive account)
                        (acc_set_AccountType (acc_AccountType account)
                           (acc_set_Currency (acc_Currency account) row)) in
           (None,
            set_db (mkDB (<[acc_ID account := row]> (accounts (db w))) (credits (db w))
                         (payment_schedules (db w)) (transactions (db w))) w)
       end.

(** [Delete]: the balance is read and the row deleted inside one
    transaction; the deletion reaches the table at [Commit].  As in
    [UpdateBalance], the deferred function rolls back only when the local
    [err] is set, which it is not at the return for a positive balance.
    The row read under [FOR UPDATE] is still there when the [DELETE] runs,
    so the branch for zero affected rows is not taken. *)
Definition Delete (id : Z) (w : World) : option error * World :=
  match BeginTx w with
  | (inl err, w) => (Some (Wrap "failed to begin transaction" err), w)
  | (inr tx, w) =>
      match Tx_QueryRow_balance tx id w with
      | (inl ErrNoRows, w) =>
          (Some (Wrap "account not found" ErrNoRows), Tx_Rollback tx w)
      | (inl err, w) =>
          (Some (Wrap "failed to check account balance" err), Tx_Rollback tx w)
      | (inr balance, w) =>
          if (0 <? balance)%float then
            (Some (New "cannot delete account with non-zero balance"), w)
          else
            let '(f, w) := driver_call w in
            if f then (Some (Wrap "failed to delete account" ErrDriver), Tx_Rollback tx w)
            else
              match Tx_Commit tx w with
              | (Some err, w) => (Some (Wrap "failed to commit transaction" err), w)
              | (None, w) =>
                  (None,
                   set_db (mkDB (delete id (accounts (db w))) (credits (db w))
                                (payment_schedules (db w)) (transactions (db w))) w)
              end
      end
  end.

End AccountRepo.

Module CreditRepo.

Definition GetByID (id : Z) (w : World) : (error + Credit) * World :=
  let '(f, w) := driver_call w in
  if f then (inl (Wrap "failed to get credit" ErrDriver), w)
  else match credits (db w) !! id with
       | None => (inl (Wrap "credit not found" ErrNoRows), w)
       | Some row => (inr (cr_set_ID id row), w)
       end.

(** [UPDATE credits SET status = $1, monthly_payment = $2 WHERE id = $3] *)
Definition Update (credit : Credit) (w : World) : option error * World :=
  let '(f, w) := driver_call w in
  if f then (Some (Wrap "failed to update credit" ErrDriver), w)
  else match credits (db w) !! cr_ID credit with
       | None => (Some (New "credit not found"), w)
       | Some row =>
           let row := cr_set_MonthlyPayment (cr_MonthlyPayment credit)
                        (cr_set_Status (cr_Status credit) row) in
           (None,
            set_db (mkDB (accounts (db w)) (<[cr_ID credit := row]> (credits (db w)))
                         (payment_schedules (db w)) (transactions (db w))) w)
       end.

(** [INSERT INTO credits ... RETURNING id], run on the pool. *)
Definition Create (credit : Credit) (w : World) : (error + Z) * World :=
  let '(f, w) := driver_call w in
  if f then (inl (Wrap "failed to create credit" ErrDriver), w)
  else
    let id := next_id (credits (db w)) in
    (inr id,
     set_db (mkDB (accounts (db w)) (<[id := cr_set_ID id credit]> (credits (db w)))
                  (payment_schedules (db w)) (transactions (db w))) w).

End CreditRepo.

Module PaymentScheduleRepo.

(** [UPDATE payment_schedules SET status = $1, is_overdue = $2,
    penalty_amount = $3 WHERE id = $4] *)
Definition Update (schedule : PaymentSchedule) (w : World) : option error * World :=
  let '(f, w) := driver_call w in
  if f then (Some (Wrap "failed to update payment schedule" ErrDriver), w)
  else match payment_schedules (db w) !! ps_ID schedule with
       | None => (Some (New "payment schedule not found"), w)
       | Some row =>
           let row := ps_set_PenaltyAmount (ps_PenaltyAmount schedule)
                        (ps_set_IsOverdue (ps_IsOverdue schedule)
                           (ps_set_Status (ps_Status schedule) row)) in
           (None,
            set_db (mkDB (accounts (db w)) (credits (db w))
                         (<[ps_ID schedule := row]> (payment_schedules (db w)))
                         (transactions (db w))) w)
       end.

(** The rows the query of [GetPendingPayments] selects:
    [WHERE ps.status = 'PENDING' AND ps.payment_date <= $2], joined with
    [credits], [ORDER BY ps.payment_date]. *)
Definition is_pending_due (date : Time) (d : DB) (p : PaymentSchedule) : bool :=
  bool_decide (ps_Status p = PaymentStatusPending)
  && (ps_PaymentDate p <=? date)
  && bool_decide (is_Some (credits d !! ps_CreditID p)).

Definition by_payment_date (p q : PaymentSchedule) : Prop :=
  ps_PaymentDate p <= ps_PaymentDate q.

#[global] Instance by_payment_date_dec p q : Decision (by_payment_date p q).
Proof. unfold by_payment_date. apply _. Defined.

Definition scan_rows (d : DB) : list PaymentSchedule :=
  map (fun kv => ps_set_ID (fst kv) (snd kv)) (map_to_list (payment_schedules d)).

Definition pending_rows (date : Time) (d : DB) : list PaymentSchedule :=
  merge_sort by_payment_date
    (List.filter (is_pending_due date d) (scan_rows d)).

Definition GetPendingPayments (date : Time) (w : World)
  : (error + list PaymentSchedule) * World :=
  let '(f, w) := driver_call w in
  if f then (inl (Wrap "failed to get pending payments" ErrDriver), w)
  else (inr (pending_rows date (db w)), w).

(** The rows the query of [GetByCreditID] selects:
    [WHERE credit_id = $1 ORDER BY payment_date]. *)
Definition credit_rows (creditID : Z) (d : DB) : list PaymentSchedule :=
  merge_sort by_payment_date
    (List.filter (fun p => ps_CreditID p =? creditID) (scan_rows d)).

Definition GetByCreditID (creditID : Z) (w : World)
  : (error + list PaymentSchedule) * World :=
  let '(f, w) := driver_call w in
  if f then (inl (Wrap "failed to get payment schedules" ErrDriver), w)
  else (inr (credit_rows creditID (db w)), w).

(** The rows of one multi-row [INSERT], each under a new id. *)
Fixpoint insert_rows (schedules : list PaymentSchedule) (m : gmap Z PaymentSchedule)
  : gmap Z PaymentSchedule :=
  match schedules with
  | [] => m
  | schedule :: rest =>
      let id := next_id m in
      insert_rows rest (<[id := ps_set_ID id schedule]> m)
  end.

(** [CreateBatch]: one [INSERT] with a [VALUES] row per item, inside a
    transaction of its own; the rows reach the table at [Commit].  For an
    empty list the statement ends after [VALUES], which the engine
    rejects. *)
Definition CreateBatch (schedules : list PaymentSchedule) (w : World)
  : option error * World :=
  match BeginTx w with
  | (inl err, w) => (Some (Wrap "failed to begin transaction" err), w)
  | (inr tx, w) =>
      let '(f, w) := driver_call w in
      if f || bool_decide (schedules = []) then
        (Some (Wrap "failed to insert payment schedules" ErrDriver), Tx_Rollback tx w)
      else
        match Tx_Commit tx w with
        | (Some err, w) => (Some (Wrap "failed to commit transaction" err), w)
        | (None, w) =>
            (None,
             set_db (mkDB (accounts (db w)) (credits (db w))
                          (insert_rows schedules (payment_schedules (db w)))
                          (transactions (db w))) w)
        end
  end.

End PaymentScheduleRepo.

Module TransactionRepo.

(** [INSERT INTO transactions ... RETURNING id], run on the pool: the
    row is in the table when the call returns. *)
Definition Create (transaction : Transaction) (w : World) : (error + Z) * World :=
  let '(f, w) := driver_call w in
  if f then (inl (Wrap "failed to create transaction" ErrDriver), w)
  else
    let id := Z.of_nat (length (transactions (db w))) + 1 in
    (inr id,
     set_db (mkDB (accounts (db w)) (credits (db w)) (payment_schedules (db w))
                  (transactions (db w) ++ [txn_set_ID id transaction])) w).

(** [SELECT ... FROM transactions WHERE id = $1]: the row with that id
    (the column is the primary key). *)
Definition GetByID (id : Z) (w : World) : (error + Transaction) * World :=
  let '(f, w) := driver_call w in
  if f then (inl (Wrap "failed to get transaction" ErrDriver), w)
  else match List.find (fun t => txn_ID t =? id) (transactions (db w)) with
       | None => (inl (Wrap "transaction not found" ErrNoRows), w)
       | Some row => (inr row, w)
       end.

End TransactionRepo.

(** The tables [cards] and [users] are only read by the code modelled
    here; they are arguments of the functions that query them. *)
Module CardRepo.

Definition GetByID (cards : gmap Z Card) (id : Z) (w : World)
  : (error + Card) * World :=
  let '(f, w) := driver_call w in
  if f then (inl (Wrap "failed to get card" ErrDriver), w)
  else match cards !! id with
       | None => (inl (Wrap "card not found" ErrNoRows), w)
       | Some row => (inr (card_set_ID id row), w)
       end.

(** [SELECT ... FROM cards WHERE account_id = $1]; the order of the rows
    is the engine's. *)
Definition GetByAccountID (cards : gmap Z Card) (accountID : Z) (w : World)
  : (error + list Card) * World :=
  let '(f, w) := driver_call w in
  if f then (inl (Wrap "failed to get cards" ErrDriver), w)
  else
    (inr (List.filter (fun c => card_AccountID c =? accountID)
            (map (fun kv => card_set_ID (fst kv) (snd kv)) (map_to_list cards))),
     w).

End CardRepo.

Module UserRepo.

Definition GetByID (users : gmap Z User) (id : Z) (w : World)
  : (error + User) * World :=
  let '(f, w) := driver_call w in
  if f then (inl (Wrap "failed to get user" ErrDriver), w)
  else match users !! id with
       | None => (inl (Wrap "user not found" ErrNoRows), w)
       | Some row => (inr (usr_set_ID id row), w)
       end.

End UserRepo.


(* ===================================================================== *)
(** ** Package [service]                                                  *)
(* ===================================================================== *)

(** Log lines and the notification goroutines started after the work is
    done write nothing to the tables; they are not modelled. *)

Module AccountSvc.

(** [GetByID]: the lookup and the ownership check. *)
Definition GetByID (id userID : Z) (w : World) : (error + Account) * World :=
  match AccountRepo.GetByID id w with
  | (inl err, w) => (inl (Wrap "failed to get account" err), w)
  | (inr account, w) =>
      if negb (acc_UserID account =? userID) then
        (inl (New "access denied: account belongs to another user"), w)
      else (inr account, w)
  end.

(** [Deposit]; [now] is the reading of [time.Now()].  The balance of
    [accountID] is raised; the record is built from the request, whose
    status is left as [ToTransaction] set it. *)
Definition Deposit (now : Time) (accountID userID : Z) (deposit : DepositRequest)
    (w : World) : (error + Z) * World :=
  match ValidateDepositRequest deposit with
  | Some msg => (inl (Wrap "invalid deposit request" (New msg)), w)
  | None =>
  match GetByID accountID userID w with
  | (inl err, w) => (inl err, w)
  | (inr account, w) =>
  if negb (acc_IsActive account) then (inl (New "account is inactive"), w)
  else
  match BeginTx w with
  | (inl err, w) => (inl (Wrap "failed to begin transaction" err), w)
  | (inr tx, w) =>
  match AccountRepo.UpdateBalance accountID (dr_Amount deposit) w with
  | (Some err, w) => (inl (Wrap "failed to update balance" err), Tx_Rollback tx w)
  | (None, w) =>
  let transaction := DepositRequest_ToTransaction now deposit in
  match TransactionRepo.Create transaction w with
  | (inl err, w) =>
      (inl (Wrap "failed to create transaction record" err), Tx_Rollback tx w)
  | (inr transactionID, w) =>
  match Tx_Commit tx w with
  | (Some err, w) => (inl (Wrap "failed to commit transaction" err), w)
  | (None, w) => (inr transactionID, w)
  end end end end end end.

(** [Withdraw]; [now] is the reading of [time.Now()]. *)
Definition Withdraw (now : Time) (accountID userID : Z) (withdrawal : WithdrawalRequest)
    (w : World) : (error + Z) * World :=
  match ValidateWithdrawalRequest withdrawal with
  | Some msg => (inl (Wrap "invalid withdrawal request" (New msg)), w)
  | None =>
  match GetByID accountID userID w with
  | (inl err, w) => (inl err, w)
  | (inr account, w) =>
  if negb (acc_IsActive account) then (inl (New "account is inactive"), w)
  else if (acc_Balance account <? wr_Amount withdrawal)%float then
    (inl (New "insufficient funds"), w)
  else
  match BeginTx w with
  | (inl err, w) => (inl (Wrap "failed to begin transaction" err), w)
  | (inr tx, w) =>
  match AccountRepo.UpdateBalance accountID (- wr_Amount withdrawal)%float w with
  | (Some err, w) => (inl (Wrap "failed to update balance" err), Tx_Rollback tx w)
  | (None, w) =>
  let transaction := WithdrawalRequest_ToTransaction now withdrawal in
  match TransactionRepo.Create transaction w with
  | (inl err, w) =>
      (inl (Wrap "failed to create transaction record" err), Tx_Rollback tx w)
  | (inr transactionID, w) =>
  match Tx_Commit tx w with
  | (Some err, w) => (inl (Wrap "failed to commit transaction" err), w)
  | (None, w) => (inr transactionID, w)
  end end end end end end.

(** [Update]: the three fields taken over from the stored account are
    assigned to the struct before it goes to the repository. *)
Definition Update (account : Account) (userID : Z) (w : World) : option error * World :=
  match GetByID (acc_ID account) userID w with
  | (inl err, w) => (Some err, w)
  | (inr originalAccount, w) =>
      let account := acc_set_UserID (acc_UserID originalAccount) account in
      let account := acc_set_AccountNumber (acc_AccountNumber originalAccount) account in
      let account := acc_set_Balance (acc_Balance originalAccount) account in
      match AccountRepo.Update account w with
      | (Some err, w) => (Some (Wrap "failed to update account" err), w)
      | (None, w) => (None, w)
      end
  end.

(** [Delete]; [cards] is the table of cards. *)
Definition Delete (cards : gmap Z Card) (id userID : Z) (w : World)
  : option error * World :=
  match GetByID id userID w with
  | (inl err, w) => (Some err, w)
  | (inr _, w) =>
      match CardRepo.GetByAccountID cards id w with
      | (inl err, w) => (Some (Wrap "failed to get cards" err), w)
      | (inr accountCards, w) =>
          if existsb card_IsActive accountCards then
            (Some (New "cannot delete account with active cards"), w)
          else
            match AccountRepo.Delete id w with
            | (Some err, w) => (Some (Wrap "failed to delete account" err), w)
            | (None, w) => (None, w)
            end
      end
  end.

End AccountSvc.

Module TransactionSvc.

(** [Transfer]; [now] is the reading of [time.Now()].  The deferred
    function rolls the outer transaction back whenever [err] is set. *)
Definition Transfer (now : Time) (transfer : TransferRequest) (userID : Z)
    (w : World) : (error + Z) * World :=
  match ValidateTransferRequest transfer with
  | Some msg => (inl (Wrap "invalid transfer request" (New msg)), w)
  | None =>
  match AccountRepo.GetByID (tr_SourceAccountID transfer) w with
  | (inl err, w) => (inl (Wrap "failed to get source account" err), w)
  | (inr sourceAccount, w) =>
  if negb (acc_UserID sourceAccount =? userID) then
    (inl (New "access denied: source account belongs to another user"), w)
  else if negb (acc_IsActive sourceAccount) then
    (inl (New "source account is inactive"), w)
  else if (acc_Balance sourceAccount <? tr_Amount transfer)%float then
    (inl (New "insufficient funds"), w)
  else
  match AccountRepo.GetByID (tr_DestinationAccountID transfer) w with
  | (inl err, w) => (inl (Wrap "failed to get destination account" err), w)
  | (inr destAccount, w) =>
  if negb (acc_IsActive destAccount) then
    (inl (New "destination account is inactive"), w)
  else if negb (bool_decide (acc_Currency sourceAccount = acc_Currency destAccount)) then
    (inl (New "currency mismatch between accounts"), w)
  else
  match BeginTx w with
  | (inl err, w) => (inl (Wrap "failed to begin transaction" err), w)
  | (inr tx, w) =>
  match AccountRepo.UpdateBalance (tr_SourceAccountID transfer)
          (- tr_Amount transfer)%float w with
  | (Some err, w) =>
      (inl (Wrap "failed to update source account balance" err), Tx_Rollback tx w)
  | (None, w) =>
  match AccountRepo.UpdateBalance (tr_DestinationAccountID transfer)
          (tr_Amount transfer) w with
  | (Some err, w) =>
      (inl (Wrap "failed to update destination account balance" err),
       Tx_Rollback tx w)
  | (None, w) =>
  let transaction := ToTransaction now transfer in
  let transaction := txn_set_Currency (acc_Currency sourceAccount) transaction in
  let transaction := txn_set_Status TransactionStatusCompleted transaction in
  match TransactionRepo.Create transaction w with
  | (inl err, w) =>
      (inl (Wrap "failed to create transaction record" err), Tx_Rollback tx w)
  | (inr transactionID, w) =>
  match Tx_Commit tx w with
  | (Some err, w) => (inl (Wrap "failed to commit transaction" err), w)
  | (None, w) => (inr transactionID, w)
  end end end end end end end end.

(** [Pay]; [now] is the reading of [time.Now()], [cards] the table of
    cards. *)
Definition Pay (now : Time) (cards : gmap Z Card) (payment : PaymentRequest)
    (userID : Z) (w : World) : (error + Z) * World :=
  match ValidatePaymentRequest payment with
  | Some msg => (inl (Wrap "invalid payment request" (New msg)), w)
  | None =>
  match AccountRepo.GetByID (pr_AccountID payment) w with
  | (inl err, w) => (inl (Wrap "failed to get account" err), w)
  | (inr account, w) =>
  if negb (acc_UserID account =? userID) then
    (inl (New "access denied: account belongs to another user"), w)
  else if negb (acc_IsActive account) then (inl (New "account is inactive"), w)
  else
  match CardRepo.GetByID cards (pr_CardID payment) w with
  | (inl err, w) => (inl (Wrap "failed to get card" err), w)
  | (inr card, w) =>
  if negb (card_AccountID card =? pr_AccountID payment) then
    (inl (New "card does not belong to specified account"), w)
  else if negb (card_IsActive card) then (inl (New "card is inactive"), w)
  else if (acc_Balance account <? pr_Amount payment)%float then
    (inl (New "insufficient funds"), w)
  else
  match BeginTx w with
  | (inl err, w) => (inl (Wrap "failed to begin transaction" err), w)
  | (inr tx, w) =>
  match AccountRepo.UpdateBalance (pr_AccountID payment)
          (- pr_Amount payment)%float w with
  | (Some err, w) =>
      (inl (Wrap "failed to update account balance" err), Tx_Rollback tx w)
  | (None, w) =>
  let transaction := PaymentRequest_ToTransaction now payment in
  let transaction := txn_set_Currency (acc_Currency account) transaction in
  let transaction := txn_set_Status TransactionStatusCompleted transaction in
  match TransactionRepo.Create transaction w with
  | (inl err, w) =>
      (inl (Wrap "failed to create transaction record" err), Tx_Rollback tx w)
  | (inr transactionID, w) =>
  match Tx_Commit tx w with
  | (Some err, w) => (inl (Wrap "failed to commit transaction" err), w)
  | (None, w) => (inr transactionID, w)
  end end end end end end end.

(** The ownership loop of [GetByID]: an account that cannot be fetched is
    passed over, the first one owned by the user ends the loop. *)
Fixpoint owned_by (userID : Z) (accountIDs : list Z) (w : World) : bool * World :=
  match accountIDs with
  | [] => (false, w)
  | accountID :: rest =>
      match AccountRepo.GetByID accountID w with
      | (inl _, w) => owned_by userID rest w
      | (inr account, w) =>
          if acc_UserID account =? userID then (true, w)
          else owned_by userID rest w
      end
  end.

Definition GetByID (id userID : Z) (w : World) : (error + Transaction) * World :=
  match TransactionRepo.GetByID id w with
  | (inl err, w) => (inl (Wrap "failed to get transaction" err), w)
  | (inr transaction, w) =>
      let accountIDs :=
        match txn_SourceAccountID transaction with
        | Some sourceAccountID => [sourceAccountID]
        | None => []
        end in
      let accountIDs :=
        match txn_DestinationAccountID transaction with
        | Some destinationAccountID => accountIDs ++ [destinationAccountID]
        | None => accountIDs
        end in
      if (length accountIDs =? 0)%nat then
        (inl (New "invalid transaction: no source or destination account"), w)
      else
        let '(owned, w) := owned_by userID accountIDs w in
        if negb owned then
          (inl (New "access denied: transaction does not involve your accounts"), w)
        else (inr transaction, w)
  end.

End TransactionSvc.

Module CreditSvc.

(** The amount the sweep tries to collect for an installment, after
    [UpdateScheduleStatus]. *)
Definition totalAmount (payment : PaymentSchedule) : float :=
  if ps_IsOverdue payment
  then (ps_TotalAmount payment + ps_PenaltyAmount payment)%float
  else ps_TotalAmount payment.

(** The branch of [ProcessPayments] taken when the debit reports
    insufficient funds: first the three assignments to the struct, then
    the two updates, whose errors are logged and dropped. *)
Definition marked_overdue (payment : PaymentSchedule) : PaymentSchedule :=
  let payment := ps_set_Status PaymentStatusOverdue payment in
  let payment := ps_set_IsOverdue true payment in
  if (ps_PenaltyAmount payment =? 0)%float
  then ps_set_PenaltyAmount (ps_TotalAmount payment * 0.1)%float payment
  else payment.

Definition mark_overdue (payment : PaymentSchedule) (credit : Credit)
    (w : World) : World :=
  let payment := marked_overdue payment in
  let '(_, w) := PaymentScheduleRepo.Update payment w in
  let credit := cr_set_Status CreditStatusOverdue credit in
  let '(_, w) := CreditRepo.Update credit w in
  w.

(** One iteration of the loop of [ProcessPayments]; every [continue]
    hands back the state reached so far. *)
Definition process_payment (now : Time) (w : World) (payment : PaymentSchedule)
  : World :=
  match CreditRepo.GetByID (ps_CreditID payment) w with
  | (inl _, w) => w
  | (inr credit, w) =>
  match AccountRepo.GetByID (cr_AccountID credit) w with
  | (inl _, w) => w
  | (inr account, w) =>
  let payment := UpdateScheduleStatus now payment in
  let totalAmount := totalAmount payment in
  match BeginTx w with
  | (inl _, w) => w
  | (inr tx, w) =>
  match AccountRepo.UpdateBalance (acc_ID account) (- totalAmount)%float w with
  | (Some err, w) =>
      let w := Tx_Rollback tx w in
      if Contains (Error err) "insufficient funds"
      then mark_overdue payment credit w
      else w
  | (None, w) =>
  let paymentTransaction :=
    {| txn_ID := 0;
       txn_TransactionType := TransactionTypePayment;
       txn_SourceAccountID := Some (acc_ID account);
       txn_DestinationAccountID := None;
       txn_Amount := totalAmount;
       txn_Currency := CurrencyRUB;
       txn_Description :=
         ("Credit payment for credit #" ++ pretty (cr_ID credit))%string;
       txn_Status := TransactionStatusCompleted;
       txn_CardID := None;
       txn_TransactionDate := now |} in
  match TransactionRepo.Create paymentTransaction w with
  | (inl _, w) => Tx_Rollback tx w
  | (inr _, w) =>
  let payment := ps_set_Status PaymentStatusPaid payment in
  match PaymentScheduleRepo.Update payment w with
  | (Some _, w) => Tx_Rollback tx w
  | (None, w) => snd (Tx_Commit tx w)
  end end end end end end.

(** [ProcessPayments]; [now] is the reading of [time.Now()] for the run. *)
Definition ProcessPayments (now : Time) (w : World) : option error * World :=
  match PaymentScheduleRepo.GetPendingPayments now w with
  | (inl err, w) => (Some (Wrap "failed to get pending payments" err), w)
  | (inr pendingPayments, w) =>
      (None, foldl (process_payment now) w pendingPayments)
  end.

(** [GetByID]: the lookup and the ownership check. *)
Definition GetByID (id userID : Z) (w : World) : (error + Credit) * World :=
  match CreditRepo.GetByID id w with
  | (inl err, w) => (inl (Wrap "failed to get credit" err), w)
  | (inr credit, w) =>
      if negb (cr_UserID credit =? userID) then
        (inl (New "access denied: credit belongs to another user"), w)
      else (inr credit, w)
  end.

(** The first loop of [GetSchedule]: the structs are updated in place, so
    the list handed on holds the updated ones whether or not the row could
    be written; [updated] is set by a row that was written. *)
Fixpoint refresh_schedules (now : Time) (schedules : list PaymentSchedule)
    (updated : bool) (w : World) : list PaymentSchedule * bool * World :=
  match schedules with
  | [] => ([], updated, w)
  | schedule :: rest =>
      if bool_decide (ps_Status schedule = PaymentStatusPending) then
        let prevStatus := ps_Status schedule in
        let schedule := UpdateScheduleStatus now schedule in
        if negb (bool_decide (prevStatus = ps_Status schedule)) then
          match PaymentScheduleRepo.Update schedule w with
          | (Some _, w) =>
              let '(rest, updated, w) := refresh_schedules now rest updated w in
              (schedule :: rest, updated, w)
          | (None, w) =>
              let '(rest, updated, w) := refresh_schedules now rest true w in
              (schedule :: rest, updated, w)
          end
        else
          let '(rest, updated, w) := refresh_schedules now rest updated w in
          (schedule :: rest, updated, w)
      else
        let '(rest, updated, w) := refresh_schedules now rest updated w in
        (schedule :: rest, updated, w)
  end.

(** [GetSchedule]; [now] is the reading of [time.Now()]. *)
Definition GetSchedule (now : Time) (creditID userID : Z) (w : World)
  : (error + list PaymentScheduleResponse * PaymentScheduleSummary) * World :=
  match GetByID creditID userID w with
  | (inl err, w) => (inl err, w)
  | (inr credit, w) =>
  match PaymentScheduleRepo.GetByCreditID creditID w with
  | (inl err, w) => (inl (Wrap "failed to get payment schedule" err), w)
  | (inr schedules, w) =>
  let '(schedules, updated, w) := refresh_schedules now schedules false w in
  let w :=
    if updated
    then snd (CreditRepo.Update (cr_set_Status CreditStatusOverdue credit) w)
    else w in
  let responses :=
    imap (fun i schedule => ToPaymentScheduleResponse schedule (Z.of_nat i + 1))
      schedules in
  let summary := CalculatePaymentScheduleSummary schedules in
  (inr (responses, summary), w)
  end end.

(** [Create]; [now] is the reading of [time.Now()] that [ToCredit] takes,
    [later] the one taken for the deposit record, [users] the table of
    users, [keyRate] what [GetKeyRate] returns (the answer of the central
    bank's service, or an error), [rnd] the pseudo-random source. *)
Definition Create (now later : Time) (users : gmap Z User) (keyRate : error + float)
    (rnd : nat -> Z) (creditReq : CreditRequest) (w : World) : (error + Z) * World :=
  match ValidateCreditRequest creditReq with
  | Some msg => (inl (Wrap "invalid credit request" (New msg)), w)
  | None =>
  match UserRepo.GetByID users (rq_UserID creditReq) w with
  | (inl err, w) => (inl (Wrap "user not found" err), w)
  | (inr user, w) =>
  let baseRate :=
    match keyRate with
    | inl _ => 7%float
    | inr baseRate => baseRate
    end in
  match BeginTx w with
  | (inl err, w) => (inl (Wrap "failed to begin transaction" err), w)
  | (inr tx, w) =>
  let creditAccount :=
    {| acc_ID := 0;
       acc_UserID := rq_UserID creditReq;
       acc_AccountNumber := GenerateAccountNumber rnd;
       acc_Balance := 0%float;
       acc_Currency := CurrencyRUB;
       acc_AccountType := AccountTypeCredit;
       acc_IsActive := true |} in
  match AccountRepo.Create creditAccount w with
  | (inl err, w) =>
      (inl (Wrap "failed to create credit account" err), Tx_Rollback tx w)
  | (inr accountID, w) =>
  let credit := ToCredit now creditReq accountID baseRate in
  match CreditRepo.Create credit w with
  | (inl err, w) => (inl (Wrap "failed to create credit" err), Tx_Rollback tx w)
  | (inr creditID, w) =>
  let credit := cr_set_ID creditID credit in
  let schedule := GeneratePaymentSchedule credit in
  match PaymentScheduleRepo.CreateBatch schedule w with
  | (Some err, w) =>
      (inl (Wrap "failed to create payment schedule" err), Tx_Rollback tx w)
  | (None, w) =>
  match AccountRepo.UpdateBalance accountID (rq_Amount creditReq) w with
  | (Some err, w) =>
      (inl (Wrap "failed to update credit account balance" err), Tx_Rollback tx w)
  | (None, w) =>
  let depositTransaction :=
    {| txn_ID := 0;
       txn_TransactionType := TransactionTypeDeposit;
       txn_SourceAccountID := None;
       txn_DestinationAccountID := Some accountID;
       txn_Amount := rq_Amount creditReq;
       txn_Currency := CurrencyRUB;
       txn_Description := ("Credit #" ++ pretty creditID ++ " issued")%string;
       txn_Status := TransactionStatusCompleted;
       txn_CardID := None;
       txn_TransactionDate := later |} in
  match TransactionRepo.Create depositTransaction w with
  | (inl err, w) =>
      (inl (Wrap "failed to create deposit transaction" err), Tx_Rollback tx w)
  | (inr _, w) =>
  match Tx_Commit tx w with
  | (Some err, w) => (inl (Wrap "failed to commit transaction" err), w)
  | (None, w) => (inr creditID, w)
  end end end end end end end end end.

End CreditSvc.

(* ===================================================================== *)
(** ** The words of the specification, for the amortization engine       *)
(* ===================================================================== *)

(** The standard fixed-rate annuity amount for a monthly rate [r]:
    [P * r * (1+r)^n / ((1+r)^n - 1)], and [P / n] when [r] is zero, in
    exact rational arithmetic. *)
Definition annuity_exact (principal annualRatePercent : Q) (n : Z) : Q :=
  let r := (annualRatePercent / 12 / 100)%Q in
  if Qeq_bool r 0 then (principal / inject_Z n)%Q
  else (principal * r * (1 + r) ^ n / ((1 + r) ^ n - 1))%Q.

(** What is left of a loan of [balance] after [n] months in which
    interest at the monthly rate [r] is added and [payment] is paid. *)
Fixpoint balance_after (n : nat) (r payment balance : Q) : Q :=
  match n with
  | O => balance
  | S n' => balance_after n' r payment (Qred (balance * (1 + r) - payment))
  end.

(** The geometric sum [1 + q + ... + q^(k-1)]. *)
Fixpoint geometric (k : nat) (q : Q) : Q :=
  match k with
  | O => 0%Q
  | S k' => (q ^ Z.of_nat k' + geometric k' q)%Q
  end.

(** The sum of the principal components of a schedule, exactly. *)
Definition sum_principal (schedule : list PaymentSchedule) : Q :=
  fold_right (fun p acc => Qred (F64.to_Q (ps_PrincipalAmount p) + acc)) 0%Q schedule.

(** [int(now.Sub(due).Hours() / 24)], the day count of [UpdateScheduleStatus]. *)
Definition daysOverdue (now due : Time) : Z :=
  F64.to_int (Hours (Sub now due) / 24)%float.

(* ===================================================================== *)
(** ** Scenarios used by the closed lemmas                                *)
(* ===================================================================== *)

(** A request for 1000 over 12 months that names no rate. *)
Definition request_without_rate : CreditRequest := mkCreditRequest 1 1000 12 0.

(** 1000 at 12% over 120 months, and the credit issued for it. *)
Definition request_120 : CreditRequest := mkCreditRequest 1 1000 120 12.
Definition credit_120 : Credit := ToCredit 1700000000000000000 request_120 5 7.

(** 1000 at 12% over 360 months, and the credit issued for it. *)
Definition request_360 : CreditRequest := mkCreditRequest 1 1000 360 12.
Definition credit_360 : Credit := ToCredit 1700000000000000000 request_360 5 7.

(** An installment of 88.85 due at the epoch, still pending. *)
Definition installment_due_at_epoch : PaymentSchedule :=
  mkPaymentSchedule 5 10 0 80 8.85 88.85 PaymentStatusPending false 0.

Definition checking_account (userID : Z) (balance : float) : Account :=
  mkAccount 0 userID "4081700000000001" balance CurrencyRUB AccountTypeChecking true.

(** Two accounts, 100 on the first and 50 on the second, nothing else. *)
Definition two_accounts : DB :=
  mkDB (<[1 := checking_account 7 100]> (<[2 := checking_account 8 50]> ∅)) ∅ ∅ [].

(** A transfer of 30 from the first account to the second, asked for by
    the owner of the first. *)
Definition transfer_30 : TransferRequest := mkTransferRequest 1 2 30 "rent".

(** The driver fails at its eighth call: the two lookups, the outer
    [BeginTx] and the four calls of the debit go through, the [BeginTx] of
    the credit does not. *)
Definition fault_at_credit : list bool :=
  [false; false; false; false; false; false; false; true].

(** One credit on an account holding 300, with one installment of 88.85
    due at the epoch. *)
Definition credit_on_account_1 : Credit :=
  mkCredit 0 7 1 1000 12 12 88.85 0 0 CreditStatusActive.

Definition one_due_installment : DB :=
  mkDB (<[1 := checking_account 7 300]> ∅)
       (<[10 := credit_on_account_1]> ∅)
       (<[5 := installment_due_at_epoch]> ∅)
       [].

(** The driver fails at its ninth call of a sweep over one installment:
    the fetch, the two lookups, [BeginTx] and the four calls of the debit
    go through, the insert of the transaction record does not. *)
Definition fault_at_record : list bool :=
  [false; false; false; false; false; false; false; false; true].

(** The driver fails at its tenth call of a sweep over one installment:
    the debit is committed and the transaction record inserted, the
    [Update] that would store the installment as PAID does not go through. *)
Definition fault_at_update : list bool :=
  [false; false; false; false; false; false; false; false; false; true].

(** The same installment on an account holding 50. *)
Definition one_due_installment_poor : DB :=
  mkDB (<[1 := checking_account 7 50]> ∅)
       (<[10 := credit_on_account_1]> ∅)
       (<[5 := installment_due_at_epoch]> ∅)
       [].

(** The struct the fetch builds for that installment. *)
Definition fetched_installment : PaymentSchedule := ps_set_ID 5 installment_due_at_epoch.

(* ===================================================================== *)
(** ** Notions used in the statements and proofs                          *)
(* ===================================================================== *)

(** The least exponent of binary64. *)
Definition emin64 : Z := -1074.

(** The value of a finite float as an integer multiple of [2^ez], for an
    exponent [ez] not above its own. *)
Definition aligned (s : bool) (m : positive) (e ez : Z) : Z :=
  cond_Zopp s (Z.pos m * 2 ^ (e - ez)).

(** The row an update of [payment_schedules] leaves: the three columns it
    sets are taken from the struct, the others stay. *)
Definition schedule_row_written (schedule row : PaymentSchedule) : PaymentSchedule :=
  ps_set_PenaltyAmount (ps_PenaltyAmount schedule)
    (ps_set_IsOverdue (ps_IsOverdue schedule)
       (ps_set_Status (ps_Status schedule) row)).

Definition credit_row_written (credit row : Credit) : Credit :=
  cr_set_MonthlyPayment (cr_MonthlyPayment credit)
    (cr_set_Status (cr_Status credit) row).

(** The writes one iteration of the sweep may leave in each table. *)
Definition schedules_step (p : PaymentSchedule) (m m' : gmap Z PaymentSchedule) : Prop :=
  m' = m
  \/ exists row row',
       m !! ps_ID p = Some row
       /\ ps_Status row' <> PaymentStatusPending
       /\ ps_PaymentDate row' = ps_PaymentDate row
       /\ ps_CreditID row' = ps_CreditID row
       /\ m' = <[ps_ID p := row']> m.

Definition credits_step (m m' : gmap Z Credit) : Prop :=
  m' = m
  \/ exists id row row',
       m !! id = Some row /\ cr_AccountID row' = cr_AccountID row
       /\ m' = <[id := row']> m.

Definition accounts_step (m m' : gmap Z Account) : Prop :=
  m' = m \/ exists id v, m' = alter (acc_set_Balance v) id m.

(** Over any number of iterations: a schedule row stays, and either is
    untouched or has left the pending state with its date and credit kept;
    no row appears; a credit keeps its account; no account appears or
    disappears. *)
Definition evolves (d d' : DB) : Prop :=
  (forall k,
      match payment_schedules d !! k with
      | Some row =>
          exists row',
            payment_schedules d' !! k = Some row'
            /\ (row' = row \/ ps_Status row' <> PaymentStatusPending)
      | None => payment_schedules d' !! k = None
      end)
  /\ (forall k, cr_AccountID <$> credits d' !! k = cr_AccountID <$> credits d !! k)
  /\ (forall k, accounts d' !! k = None <-> accounts d !! k = None).

(** An installment the sweep cannot get further with: its credit names an
    account that has no row. *)
Definition stuck (d : DB) (q : PaymentSchedule) : Prop :=
  exists c, credits d !! ps_CreditID q = Some c /\ accounts d !! cr_AccountID c = None.

(** An installment a run is done with: it has left the pending state, or
    it is stuck. *)
Definition settled (d : DB) (q : PaymentSchedule) : Prop :=
  (exists row, payment_schedules d !! ps_ID q = Some row
               /\ ps_Status row <> PaymentStatusPending)
  \/ stuck d q.

(** No account holds less than nothing. *)
Definition nonneg_balances (d : DB) : Prop :=
  forall id row, accounts d !! id = Some row -> (acc_Balance row <? 0)%float = false.

(** An ASCII decimal digit, and a string made of them. *)
Definition is_digit (c : ascii) : bool :=
  (48 <=? N_of_ascii c)%N && (N_of_ascii c <=? 57)%N.

Definition all_digits (s : string) : bool :=
  forallb is_digit (list_ascii_of_string s).

(* ===================================================================== *)
(** ** Notions used in the further statements                            *)
(* ===================================================================== *)

(** The number of installments of a schedule in a given state. *)
Definition count_status (st : PaymentStatus) (l : list PaymentSchedule) : Z :=
  Z.of_nat (length (List.filter (fun p => bool_decide (ps_Status p = st)) l)).


(** The tables after [amount] has been added to the balance of the
    account [id]. *)
Definition balance_added (id : Z) (amount : float) (d : DB) : DB :=
  mkDB (alter (fun row => acc_set_Balance (acc_Balance row + amount)%float row) id
          (accounts d))
       (credits d) (payment_schedules d) (transactions d).

(** The id the next transaction record gets, and the tables after the
    record [t] has been appended. *)
Definition next_transaction_id (d : DB) : Z := Z.of_nat (length (transactions d)) + 1.

Definition record_added (t : Transaction) (d : DB) : DB :=
  mkDB (accounts d) (credits d) (payment_schedules d)
       (transactions d ++ [txn_set_ID (next_transaction_id d) t]).

(** What the money-moving services may do to an account: nothing but set
    its balance, and never to a value below zero. *)
Definition account_kept (row row' : Account) : Prop :=
  acc_UserID row' = acc_UserID row
  /\ acc_AccountNumber row' = acc_AccountNumber row
  /\ acc_Currency row' = acc_Currency row
  /\ acc_AccountType row' = acc_AccountType row
  /\ acc_IsActive row' = acc_IsActive row
  /\ (acc_Balance row' = acc_Balance row \/ (acc_Balance row' <? 0)%float = false).

Definition accounts_kept (d d' : DB) : Prop :=
  forall id,
    match accounts d !! id with
    | Some row => exists row', accounts d' !! id = Some row' /\ account_kept row row'
    | None => accounts d' !! id = None
    end.

(** Besides, no transaction record is changed or removed: the table
    only grows at its end. *)
Definition ledger_kept (d d' : DB) : Prop :=
  accounts_kept d d' /\ transactions d `prefix_of` transactions d'.

(** A pending installment whose due date lies before [now]. *)
Definition past_due (now : Time) (p : PaymentSchedule) : bool :=
  bool_decide (ps_Status p = PaymentStatusPending) && After now (ps_PaymentDate p).

(** A row of the table of installments after [GetSchedule] has gone over
    the credit [creditID]. *)
Definition refreshed (now : Time) (creditID : Z) (row : PaymentSchedule)
  : PaymentSchedule :=
  if ps_CreditID row =? creditID then UpdateScheduleStatus now row else row.

(** The byte [string(rune('0' + d))] holds, and draws that are digits, as
    [rand.Intn(10)] returns them. *)
Definition digit_char (d : Z) : ascii := ascii_of_N (Z.to_N (zero_rune + d)).

Definition digit_draws (rnd : nat -> Z) : Prop := forall k, 0 <= rnd k <= 9.

(** The Luhn check of a complete number: the sum that the loop of
    [GenerateCardNumber] forms, taken over all the digits, is a multiple
    of 10. *)
Definition luhn_valid (number : string) : bool := luhn_sum number mod 10 =? 0.

(** The draws [rnd] with the [k]-th one replaced by [d]. *)
Definition with_draw (k : nat) (d : Z) (rnd : nat -> Z) : nat -> Z :=
  fun i => if (i =? k)%nat then d else rnd i.

(** What a digit counts for in the sum when it is one of the doubled. *)
Definition luhn_double (d : Z) : Z := if 9 <? d * 2 then d * 2 - 9 else d * 2.

(** The table of installments after the items [items] have been inserted
    under the ids [ids]. *)
Definition rows_inserted (ids : list Z) (items : list PaymentSchedule)
    (m : gmap Z PaymentSchedule) : gmap Z PaymentSchedule :=
  list_to_map (zip ids (zip_with ps_set_ID ids items)) ∪ m.

(** The base rate [Create] goes on with. *)
Definition base_rate (keyRate : error + float) : float :=
  match keyRate with
  | inl _ => 7%float
  | inr baseRate => baseRate
  end.

(** The tables after a row has been inserted into [accounts] or into
    [credits] under a new id, and after a list of installments has been
    inserted. *)
Definition account_added (account : Account) (d : DB) : DB :=
  mkDB (<[next_id (accounts d) := acc_set_ID (next_id (accounts d)) account]> (accounts d))
       (credits d) (payment_schedules d) (transactions d).

Definition credit_added (credit : Credit) (d : DB) : DB :=
  mkDB (accounts d)
       (<[next_id (credits d) := cr_set_ID (next_id (credits d)) credit]> (credits d))
       (payment_schedules d) (transactions d).

Definition schedule_added (items : list PaymentSchedule) (d : DB) : DB :=
  mkDB (accounts d) (credits d)
       (PaymentScheduleRepo.insert_rows items (payment_schedules d)) (transactions d).

(** The account [Create] opens for a credit, and the record of the loan
    being paid out. *)
Definition credit_account (rnd : nat -> Z) (creditReq : CreditRequest) : Account :=
  {| acc_ID := 0;
     acc_UserID := rq_UserID creditReq;
     acc_AccountNumber := GenerateAccountNumber rnd;
     acc_Balance := 0%float;
     acc_Currency := CurrencyRUB;
     acc_AccountType := AccountTypeCredit;
     acc_IsActive := true |}.

Definition issue_record (later : Time) (creditReq : CreditRequest) (accountID creditID : Z)
  : Transaction :=
  {| txn_ID := 0;
     txn_TransactionType := TransactionTypeDeposit;
     txn_SourceAccountID := None;
     txn_DestinationAccountID := Some accountID;
     txn_Amount := rq_Amount creditReq;
     txn_Currency := CurrencyRUB;
     txn_Description := ("Credit #" ++ pretty creditID ++ " issued")%string;
     txn_Status := TransactionStatusCompleted;
     txn_CardID := None;
     txn_TransactionDate := later |}.

(** A user, and a table holding her under the id 1. *)
Definition ann : User := mkUser 0 "ann" "ann@example.org" "$2a$10$hash" "Ann" "Lee".

Definition one_user : gmap Z User := <[1 := ann]> ∅.

(** A table holding one active card, on the account 1. *)
Definition one_card : gmap Z Card :=
  <[3 := mkCard 0 1 "2200012345678901" "01/30" "123" "debit" true]> ∅.

(* ===================================================================== *)
(** ** Addition of [float64]: the sign of a rounded sum                   *)
(* ===================================================================== *)

Lemma digits2_pos_bounds (p : positive) :
  2 ^ (Z.pos (digits2_pos p) - 1) <= Z.pos p < 2 ^ Z.pos (digits2_pos p).
Proof.
  induction p as [p IH|p IH|]; cbn [digits2_pos].
  - rewrite Pos2Z.inj_succ.
    replace (Z.succ (Z.pos (digits2_pos p)) - 1) with (Z.succ (Z.pos (digits2_pos p) - 1)) by lia.
    rewrite !Z.pow_succ_r by lia. lia.
  - rewrite Pos2Z.inj_succ.
    replace (Z.succ (Z.pos (digits2_pos p)) - 1) with (Z.succ (Z.pos (digits2_pos p) - 1)) by lia.
    rewrite !Z.pow_succ_r by lia. lia.
  - cbn. lia.
Qed.

Lemma shr_1_m (mrs : shr_record) :
  0 <= shr_m mrs -> shr_m (shr_1 mrs) = shr_m mrs / 2.
Proof.
  destruct mrs as [m r s]. cbn [shr_m]. intros Hm.
  destruct m as [|[p|p|]|p]; cbn [shr_1 shr_m].
  - reflexivity.
  - apply Z.div_unique with (r := 1); lia.
  - apply Z.div_unique with (r := 0); lia.
  - reflexivity.
  - lia.
Qed.

Lemma iter_shr_1_m (p : positive) (mrs : shr_record) :
  0 <= shr_m mrs ->
  shr_m (SpecFloat.iter_pos shr_1 p mrs) = shr_m mrs / 2 ^ Z.pos p.
Proof.
  revert mrs. induction p as [p IH|p IH|]; intros mrs Hm; cbn [SpecFloat.iter_pos].
  - assert (H1 : 0 <= shr_m (shr_1 mrs)) by (rewrite shr_1_m by lia; apply Z.div_pos; lia).
    assert (H2 : 0 <= shr_m (SpecFloat.iter_pos shr_1 p (shr_1 mrs)))
      by (rewrite IH by lia; apply Z.div_pos; lia).
    rewrite IH, IH, shr_1_m by lia.
    rewrite !Z.div_div by lia. f_equal.
    replace (Z.pos p~1) with (1 + Z.pos p + Z.pos p) by lia.
    rewrite !Z.pow_add_r by lia. rewrite Z.pow_1_r. lia.
  - assert (H2 : 0 <= shr_m (SpecFloat.iter_pos shr_1 p mrs))
      by (rewrite IH by lia; apply Z.div_pos; lia).
    rewrite IH, IH by lia. rewrite Z.div_div by lia. f_equal.
    replace (Z.pos p~0) with (Z.pos p + Z.pos p) by lia.
    rewrite Z.pow_add_r by lia. reflexivity.
  - rewrite shr_1_m by lia. reflexivity.
Qed.

Lemma shr_record_of_loc_m (m : Z) (l : location) : shr_m (shr_record_of_loc m l) = m.
Proof. destruct l as [|[]]; reflexivity. Qed.

Lemma shr_fexp_pos (m e : Z) (l : location) :
  0 < m -> emin64 <= e ->
  0 < shr_m (fst (shr_fexp prec emax m e l))
  /\ emin64 <= snd (shr_fexp prec emax m e l).
Proof.
  intros Hm He. unfold shr_fexp, shr.
  destruct m as [|p|p]; try lia. cbn [Zdigits2].
  pose proof (digits2_pos_bounds p) as [Hlo _].
  set (d := Z.pos (digits2_pos p)) in *.
  assert (Hd : 0 < d) by (subst d; lia).
  destruct (fexp prec emax (d + e) - e) as [|q|q] eqn:Hn; cbn [fst snd];
    rewrite ?shr_record_of_loc_m; try (split; lia).
  assert (Hq : Z.pos q = d - 53).
  { revert Hn. unfold fexp, emin, prec, emax, emin64 in *. lia. }
  rewrite iter_shr_1_m by (rewrite shr_record_of_loc_m; lia).
  rewrite shr_record_of_loc_m. split; [|lia].
  apply Z.div_str_pos. split; [apply Z.pow_pos_nonneg; lia|].
  etransitivity; [|exact Hlo]. apply Z.pow_le_mono_r; lia.
Qed.

Lemma round_nearest_even_pos (m : Z) (l : location) :
  0 < m -> 0 < round_nearest_even m l.
Proof. intros Hm. destruct l as [|[]]; cbn; try lia. destruct (Z.even m); lia. Qed.

(** Rounding a positive mantissa at an exponent not below [emin] never
    gives a zero or a NaN, and keeps the sign. *)
Lemma binary_round_aux_sign (sx : bool) (m e : Z) (l : location) :
  0 < m -> emin64 <= e ->
  match binary_round_aux prec emax sx m e l with
  | S754_finite s _ _ | S754_infinity s => s = sx
  | _ => False
  end.
Proof.
  intros Hm He. unfold binary_round_aux.
  pose proof (shr_fexp_pos m e l Hm He) as [H1 H1e].
  destruct (shr_fexp prec emax m e l) as [mrs' e']. cbn [fst snd] in H1, H1e.
  pose proof (shr_fexp_pos _ e' loc_Exact
                (round_nearest_even_pos _ (loc_of_shr_record mrs') H1) H1e) as [H2 _].
  destruct (shr_fexp prec emax _ e' loc_Exact) as [mrs'' e'']. cbn [fst snd] in H2.
  destruct (shr_m mrs'') as [|q|q]; try lia.
  destruct (e'' <=? emax - prec); reflexivity.
Qed.

Lemma shl_align_value (m : positive) (e e' : Z) :
  Z.pos (fst (shl_align m e e')) = Z.pos m * 2 ^ (e - snd (shl_align m e e'))
  /\ snd (shl_align m e e') = Z.min e e'.
Proof.
  unfold shl_align. destruct (e' - e) as [|d|d] eqn:Hd; cbn [fst snd].
  - rewrite Z.sub_diag. split; lia.
  - rewrite Z.sub_diag. split; lia.
  - split; [|lia]. replace (e - e') with (Z.pos d) by lia.
    clear Hd. induction d as [|d IH] using Pos.peano_ind.
    + cbn. lia.
    + rewrite Pos.iter_succ, Pos2Z.inj_succ, Z.pow_succ_r by lia.
      rewrite Pos2Z.inj_xO, IH. lia.
Qed.

Lemma binary_round_sign (sx : bool) (mx : positive) (ex : Z) :
  emin64 <= ex ->
  match binary_round prec emax sx mx ex with
  | S754_finite s _ _ | S754_infinity s => s = sx
  | _ => False
  end.
Proof.
  intros He. unfold binary_round.
  pose proof (shl_align_value mx ex (fexp prec emax (Z.pos (digits2_pos mx) + ex)))
    as [_ Hez].
  destruct (shl_align mx ex _) as [mz ez]. cbn [snd] in Hez.
  apply binary_round_aux_sign; [lia|].
  rewrite Hez. unfold fexp, emin, prec, emax, emin64 in *. lia.
Qed.

Lemma binary_normalize_sign (m e : Z) (szero : bool) :
  m <> 0 -> emin64 <= e ->
  match binary_normalize prec emax m e szero with
  | S754_finite s _ _ | S754_infinity s => s = (m <? 0)
  | _ => False
  end.
Proof.
  intros Hm He. destruct m as [|p|p]; [lia| |]; cbn [binary_normalize];
    apply binary_round_sign; exact He.
Qed.

(** What validity says of a finite float: the exponent is not below
    [emin], the mantissa has at most [prec] digits, and exactly [prec]
    above [emin]. *)
Lemma valid_finite (s : bool) (m : positive) (e : Z) :
  SpecFloat.valid_binary prec emax (S754_finite s m e) = true ->
  emin64 <= e
  /\ Z.pos (digits2_pos m) <= 53
  /\ (emin64 < e -> Z.pos (digits2_pos m) = 53).
Proof.
  cbn [valid_binary]. unfold bounded, canonical_mantissa.
  rewrite andb_true_iff, Z.eqb_eq, Z.leb_le.
  unfold fexp, emin, prec, emax, emin64. lia.
Qed.

Lemma SFadd_finite (sx : bool) (mx : positive) (ex : Z)
    (sy : bool) (my : positive) (ey : Z) :
  SFadd prec emax (S754_finite sx mx ex) (S754_finite sy my ey)
  = binary_normalize prec emax
      (aligned sx mx ex (Z.min ex ey) + aligned sy my ey (Z.min ex ey))
      (Z.min ex ey) false.
Proof.
  cbn [SFadd]. unfold aligned.
  destruct (shl_align_value mx ex (Z.min ex ey)) as [-> ->].
  destruct (shl_align_value my ey (Z.min ex ey)) as [-> ->].
  replace (Z.min ex (Z.min ex ey)) with (Z.min ex ey) by lia.
  replace (Z.min ey (Z.min ex ey)) with (Z.min ex ey) by lia.
  reflexivity.
Qed.

Lemma mantissa_lt_of_exponent_lt (m1 : positive) (e1 : Z) (m2 : positive) (e2 : Z) :
  emin64 <= e1 -> Z.pos (digits2_pos m1) <= 53 ->
  (emin64 < e2 -> Z.pos (digits2_pos m2) = 53) ->
  e1 < e2 ->
  Z.pos m1 * 2 ^ (e1 - e1) < Z.pos m2 * 2 ^ (e2 - e1).
Proof.
  intros He1 Hd1 Hd2 Hlt. rewrite Z.sub_diag, Z.pow_0_r, Z.mul_1_r.
  pose proof (digits2_pos_bounds m1) as [_ H1].
  pose proof (digits2_pos_bounds m2) as [H2 _].
  rewrite Hd2 in H2 by lia.
  assert (Z.pos m1 < 2 ^ 53).
  { eapply Z.lt_le_trans; [exact H1|]. apply Z.pow_le_mono_r; lia. }
  assert (2 ^ 1 <= 2 ^ (e2 - e1)) by (apply Z.pow_le_mono_r; lia).
  change (2 ^ (53 - 1)) with 4503599627370496 in H2.
  change (2 ^ 53) with 9007199254740992 in H.
  change (2 ^ 1) with 2 in H0. nia.
Qed.

Lemma SFcompare_finite_Lt (sx : bool) (mx : positive) (ex : Z)
    (sy : bool) (my : positive) (ey : Z) :
  SpecFloat.valid_binary prec emax (S754_finite sx mx ex) = true ->
  SpecFloat.valid_binary prec emax (S754_finite sy my ey) = true ->
  SFcompare (S754_finite sx mx ex) (S754_finite sy my ey) = Some Lt ->
  aligned sx mx ex (Z.min ex ey) < aligned sy my ey (Z.min ex ey).
Proof.
  intros Hvx Hvy.
  apply valid_finite in Hvx as (Hex & Hdx & Hnx).
  apply valid_finite in Hvy as (Hey & Hdy & Hny).
  assert (Hpx : 0 < Z.pos mx * 2 ^ (ex - Z.min ex ey))
    by (apply Z.mul_pos_pos; [lia | apply Z.pow_pos_nonneg; lia]).
  assert (Hpy : 0 < Z.pos my * 2 ^ (ey - Z.min ex ey))
    by (apply Z.mul_pos_pos; [lia | apply Z.pow_pos_nonneg; lia]).
  cbn [SFcompare]. unfold aligned.
  destruct sx, sy; cbn [cond_Zopp]; intros Hc; try discriminate; try lia.
  - (* both negative *)
    destruct (Z.compare_spec ex ey) as [Heq|Hlt|Hgt]; try discriminate.
    + subst ey. rewrite Z.min_id, Z.sub_diag, Z.pow_0_r, !Z.mul_1_r.
      change (Pos.compare_cont Eq mx my) with (Pos.compare mx my) in Hc.
      destruct (Pos.compare_spec mx my); cbn in Hc; try discriminate. lia.
    + rewrite Z.min_r by lia.
      pose proof (mantissa_lt_of_exponent_lt my ey mx ex Hey Hdy Hnx ltac:(lia)). lia.
  - (* both positive *)
    destruct (Z.compare_spec ex ey) as [Heq|Hlt|Hgt]; try discriminate.
    + subst ey. rewrite Z.min_id, Z.sub_diag, Z.pow_0_r, !Z.mul_1_r.
      change (Pos.compare_cont Eq mx my) with (Pos.compare mx my) in Hc.
      destruct (Pos.compare_spec mx my); cbn in Hc; try discriminate. lia.
    + rewrite Z.min_l by lia.
      pose proof (mantissa_lt_of_exponent_lt mx ex my ey Hex Hdx Hny ltac:(lia)). lia.
Qed.

Lemma aligned_negb (s : bool) (m : positive) (e ez : Z) :
  aligned (negb s) m e ez = - aligned s m e ez.
Proof. unfold aligned. destruct s; cbn [cond_Zopp negb]; lia. Qed.

Lemma aligned_sign (s : bool) (m : positive) (e ez : Z) :
  ez <= e -> (if s then aligned s m e ez < 0 else 0 < aligned s m e ez).
Proof.
  intros He. unfold aligned.
  assert (0 < Z.pos m * 2 ^ (e - ez))
    by (apply Z.mul_pos_pos; [lia | apply Z.pow_pos_nonneg; lia]).
  destruct s; cbn [cond_Zopp]; lia.
Qed.

Lemma SFltb_add_opp_finite (sb : bool) (mb : positive) (eb : Z)
    (st : bool) (mt : positive) (et : Z) :
  SpecFloat.valid_binary prec emax (S754_finite sb mb eb) = true ->
  SpecFloat.valid_binary prec emax (S754_finite st mt et) = true ->
  SFcompare (S754_finite sb mb eb) (S754_finite st mt et) = Some Lt ->
  SFcompare (SFadd prec emax (S754_finite sb mb eb) (S754_finite (negb st) mt et))
            (S754_zero false) = Some Lt.
Proof.
  intros Hvb Hvt Hc.
  pose proof (SFcompare_finite_Lt _ _ _ _ _ _ Hvb Hvt Hc) as Hlt.
  rewrite SFadd_finite, aligned_negb.
  apply valid_finite in Hvb as (Heb & _). apply valid_finite in Hvt as (Het & _).
  pose proof (binary_normalize_sign
                (aligned sb mb eb (Z.min eb et) + - aligned st mt et (Z.min eb et))
                (Z.min eb et) false ltac:(lia) ltac:(lia)) as Hs.
  replace (_ <? 0) with true in Hs by (symmetry; apply Z.ltb_lt; lia).
  destruct (binary_normalize _ _ _ _ _) as [|s| |s m e]; try contradiction;
    subst; reflexivity.
Qed.

(** If [b < t] then [b + (-t) < 0]: the rounding of the sum keeps its sign
    and never reaches zero. *)
Theorem ltb_add_opp_neg (b t : float) :
  (b <? t)%float = true -> (b + - t <? 0)%float = true.
Proof.
  rewrite !FloatAxioms.ltb_spec, FloatAxioms.add_spec, FloatAxioms.opp_spec.
  replace (Prim2SF 0) with (S754_zero false) by reflexivity.
  pose proof (Prim2SF_valid b) as Hvb. pose proof (Prim2SF_valid t) as Hvt.
  unfold SFltb, SF64add.
  destruct (Prim2SF b) as [sb|sb| |sb mb eb], (Prim2SF t) as [st|st| |st mt et];
    try (intros Hc; cbn [SFopp];
         rewrite (SFltb_add_opp_finite _ _ _ _ _ _ Hvb Hvt); [reflexivity|];
         destruct (SFcompare _ _) as [[]|]; congruence);
    cbn [SFcompare SFopp SFadd];
    repeat match goal with s : bool |- _ => destruct s end;
    cbn; congruence.
Qed.

Lemma SFadd_pos_finite (mx : positive) (ex : Z) (mc : positive) (ec : Z) :
  SpecFloat.valid_binary prec emax (S754_finite false mx ex) = true ->
  SpecFloat.valid_binary prec emax (S754_finite false mc ec) = true ->
  SFcompare (SFadd prec emax (S754_finite false mx ex) (S754_finite false mc ec))
            (S754_zero false) = Some Gt.
Proof.
  intros Hvx Hvc. rewrite SFadd_finite.
  apply valid_finite in Hvx as (Hex & _). apply valid_finite in Hvc as (Hec & _).
  pose proof (aligned_sign false mx ex (Z.min ex ec) ltac:(lia)) as H1.
  pose proof (aligned_sign false mc ec (Z.min ex ec) ltac:(lia)) as H2.
  cbv beta iota in H1, H2.
  pose proof (binary_normalize_sign
                (aligned false mx ex (Z.min ex ec) + aligned false mc ec (Z.min ex ec))
                (Z.min ex ec) false ltac:(lia) ltac:(lia)) as Hs.
  replace (_ <? 0) with false in Hs by (symmetry; apply Z.ltb_ge; lia).
  destruct (binary_normalize _ _ _ _ _) as [|s| |s m e]; try contradiction;
    subst; reflexivity.
Qed.

(** A sum of a non-negative and a positive float is never zero. *)
Theorem add_nonneg_pos_nonzero (x c : float) :
  (0 <=? x)%float = true -> (0 <? c)%float = true -> (x + c =? 0)%float = false.
Proof.
  rewrite FloatAxioms.leb_spec, FloatAxioms.ltb_spec, FloatAxioms.eqb_spec, FloatAxioms.add_spec.
  replace (Prim2SF 0) with (S754_zero false) by reflexivity.
  pose proof (Prim2SF_valid x) as Hvx. pose proof (Prim2SF_valid c) as Hvc.
  unfold SFleb, SFltb, SFeqb, SF64add.
  destruct (Prim2SF x) as [sx|sx| |sx mx ex], (Prim2SF c) as [sc|sc| |sc mc ec];
    cbn [SFcompare];
    repeat match goal with s : bool |- _ => destruct s end;
    try discriminate;
    try (intros _ _; rewrite (SFadd_pos_finite _ _ _ _ Hvx Hvc); reflexivity);
    cbn; congruence.
Qed.

(** A sum of two finite floats is zero only if they are opposite. *)
Lemma SFadd_finite_zero (sx : bool) (mx : positive) (ex : Z)
    (sy : bool) (my : positive) (ey : Z) :
  SpecFloat.valid_binary prec emax (S754_finite sx mx ex) = true ->
  SpecFloat.valid_binary prec emax (S754_finite sy my ey) = true ->
  SFcompare (SFadd prec emax (S754_finite sx mx ex) (S754_finite sy my ey))
            (S754_zero false) = Some Eq ->
  sx = negb sy /\ mx = my /\ ex = ey.
Proof.
  intros Hvx Hvy. rewrite SFadd_finite.
  apply valid_finite in Hvx as (Hex & Hdx & Hnx).
  apply valid_finite in Hvy as (Hey & Hdy & Hny).
  set (z := aligned sx mx ex (Z.min ex ey) + aligned sy my ey (Z.min ex ey)).
  destruct (Z.eq_dec z 0) as [Hz|Hz].
  - intros _. subst z.
    pose proof (aligned_sign sx mx ex (Z.min ex ey) ltac:(lia)) as Hsx.
    pose proof (aligned_sign sy my ey (Z.min ex ey) ltac:(lia)) as Hsy.
    assert (Hs : sx = negb sy) by (destruct sx, sy; cbn in *; try reflexivity; lia).
    split; [exact Hs|].
    assert (Hm : Z.pos mx * 2 ^ (ex - Z.min ex ey) = Z.pos my * 2 ^ (ey - Z.min ex ey)).
    { revert Hz. unfold aligned. rewrite Hs.
      destruct sy; cbn [negb cond_Zopp]; lia. }
    destruct (Z.lt_trichotomy ex ey) as [Hlt|[Heq|Hgt]].
    + rewrite Z.min_l in Hm by lia.
      pose proof (mantissa_lt_of_exponent_lt mx ex my ey Hex Hdx Hny Hlt). lia.
    + subst ey. rewrite Z.min_id, Z.sub_diag, Z.pow_0_r, !Z.mul_1_r in Hm.
      split; [lia | reflexivity].
    + rewrite Z.min_r in Hm by lia.
      pose proof (mantissa_lt_of_exponent_lt my ey mx ex Hey Hdy Hnx ltac:(lia)). lia.
  - pose proof (binary_normalize_sign z (Z.min ex ey) false Hz ltac:(lia)) as Hs.
    destruct (binary_normalize _ _ _ _ _) as [|s| |s m e]; try contradiction;
      destruct s; discriminate.
Qed.

Lemma SFcompare_finite_Eq (sx : bool) (mx : positive) (ex : Z)
    (sy : bool) (my : positive) (ey : Z) :
  SFcompare (S754_finite sx mx ex) (S754_finite sy my ey) = Some Eq ->
  sx = sy /\ mx = my /\ ex = ey.
Proof.
  cbn [SFcompare].
  destruct sx, sy; try discriminate;
    destruct (Z.compare_spec ex ey) as [Heq|Hlt|Hgt]; try discriminate;
    change (Pos.compare_cont Eq mx my) with (Pos.compare mx my);
    destruct (Pos.compare_spec mx my); cbn; try discriminate;
    intros _; subst; repeat split.
Qed.

(** The sum of a float and 5 is zero exactly when the float is -5. *)
Theorem add_five_eq_zero (x : float) : (x + 5 =? 0)%float = (x =? -5)%float.
Proof.
  rewrite !FloatAxioms.eqb_spec, FloatAxioms.add_spec.
  pose proof (Prim2SF_valid x) as Hvx. pose proof (Prim2SF_valid 5) as Hv5.
  replace (Prim2SF 0) with (S754_zero false) by reflexivity.
  replace (Prim2SF (-5)) with (S754_finite true 5629499534213120 (-50)) by reflexivity.
  replace (Prim2SF 5) with (S754_finite false 5629499534213120 (-50)) in * by reflexivity.
  unfold SFeqb, SF64add.
  destruct (Prim2SF x) as [sx|sx| |sx mx ex].
  - destruct sx; reflexivity.
  - destruct sx; reflexivity.
  - reflexivity.
  - destruct (SFcompare (SFadd _ _ _ _) _) as [[]|] eqn:Hadd.
    + apply (SFadd_finite_zero _ _ _ _ _ _ Hvx Hv5) in Hadd as (-> & -> & ->).
      reflexivity.
    + destruct (SFcompare (S754_finite sx mx ex) _) as [[]|] eqn:Hc; try reflexivity.
      apply SFcompare_finite_Eq in Hc as (-> & -> & ->).
      revert Hadd. vm_compute. discriminate.
    + destruct (SFcompare (S754_finite sx mx ex) _) as [[]|] eqn:Hc; try reflexivity.
      apply SFcompare_finite_Eq in Hc as (-> & -> & ->).
      revert Hadd. vm_compute. discriminate.
    + destruct (SFcompare (S754_finite sx mx ex) _) as [[]|] eqn:Hc; try reflexivity.
      apply SFcompare_finite_Eq in Hc as (-> & -> & ->).
      revert Hadd. vm_compute. discriminate.
Qed.

(* ===================================================================== *)
(** ** Amortization engine: theorems                                      *)
(* ===================================================================== *)

Section ExactAnnuity.
Local Open Scope Q_scope.

Lemma Qpower_succ_nat (q : Q) (k : nat) :
  q ^ Z.of_nat (S k) == q * q ^ Z.of_nat k.
Proof.
  rewrite Nat2Z.inj_succ. unfold Z.succ. rewrite Z.add_comm.
  rewrite Qpower_plus' by lia. rewrite Qpower_1_r. reflexivity.
Qed.

Lemma balance_after_eq (k : nat) (r payment b b' : Q) :
  b == b' -> balance_after k r payment b == balance_after k r payment b'.
Proof.
  intros Hb. destruct k as [|k]; cbn [balance_after]; [exact Hb|].
  assert (H : b * (1 + r) - payment == b' * (1 + r) - payment)
    by (rewrite Hb; reflexivity).
  rewrite (Qred_complete _ _ H). reflexivity.
Qed.

Lemma balance_after_closed (k : nat) (r payment b : Q) :
  balance_after k r payment b
  == b * (1 + r) ^ Z.of_nat k - payment * geometric k (1 + r).
Proof.
  revert b. induction k as [|k IH]; intros b.
  - cbn [balance_after geometric Z.of_nat]. rewrite Qpower_0_r. ring.
  - cbn [balance_after geometric]. rewrite IH, Qred_correct, Qpower_succ_nat. ring.
Qed.

Lemma geometric_rate (k : nat) (r : Q) :
  r * geometric k (1 + r) == (1 + r) ^ Z.of_nat k - 1.
Proof.
  induction k as [|k IH].
  - cbn [geometric Z.of_nat]. rewrite Qpower_0_r. ring.
  - cbn [geometric]. rewrite Qpower_succ_nat.
    rewrite Qmult_plus_distr_r, IH. ring.
Qed.

Lemma geometric_pos (k : nat) (q : Q) : 0 < q -> (0 < k)%nat -> 0 < geometric k q.
Proof.
  intros Hq Hk. destruct k as [|k]; [lia|]. clear Hk.
  induction k as [|k IH].
  - cbn. reflexivity.
  - cbn [geometric] in *. 
    assert (0 < q ^ Z.of_nat (S k)) by (apply Qpower_0_lt; exact Hq).
    lra.
Qed.

Lemma geometric_one (k : nat) (q : Q) : q == 1 -> geometric k q == inject_Z (Z.of_nat k).
Proof.
  intros Hq. induction k as [|k IH].
  - reflexivity.
  - cbn [geometric]. rewrite IH, Hq, Qpower_1, Nat2Z.inj_succ.
    unfold Z.succ. rewrite inject_Z_plus. ring.
Qed.

(** The exact annuity amount brings the loan to zero in [n] months. *)
Theorem annuity_exact_amortizes (principal rate : Q) (n : nat) :
  0 <= rate -> (0 < n)%nat ->
  balance_after n (rate / 12 / 100) (annuity_exact principal rate (Z.of_nat n)) principal == 0.
Proof.
  intros Hrate Hn. rewrite balance_after_closed. unfold annuity_exact.
  set (r := rate / 12 / 100).
  assert (Hr : 0 <= r).
  { subst r. unfold Qdiv. apply Qmult_le_0_compat; [apply Qmult_le_0_compat|];
      [exact Hrate | discriminate | discriminate]. }
  destruct (Qeq_bool r 0) eqn:Hz.
  - apply Qeq_bool_eq in Hz.
    rewrite geometric_one by (rewrite Hz; reflexivity).
    rewrite Hz. rewrite Qplus_0_r, Qpower_1. field.
    intros H. apply (inject_Z_injective (Z.of_nat n) 0%Z) in H. lia.
  - apply Qeq_bool_neq in Hz.
    assert (Hpos : 0 < r) by (destruct (Qlt_le_dec 0 r) as [|Hle]; [assumption|];
                              exfalso; apply Hz; apply Qle_antisym; assumption).
    pose proof (geometric_rate n r) as Hg.
    pose proof (geometric_pos n (1 + r) ltac:(lra) Hn) as Hgp.
    assert (Hden : ~ (1 + r) ^ Z.of_nat n - 1 == 0).
    { rewrite <- Hg. intros H. apply Qmult_integral in H. destruct H; lra. }
    assert (Hgeo : geometric n (1 + r) == ((1 + r) ^ Z.of_nat n - 1) / r).
    { rewrite <- Hg. field. exact Hz. }
    rewrite Hgeo. field. split; assumption.
Qed.

End ExactAnnuity.

Lemma to_Q_nonneg (x : float) : (0 <=? x)%float = true -> (0 <= F64.to_Q x)%Q.
Proof.
  rewrite FloatAxioms.leb_spec.
  replace (Prim2SF 0) with (S754_zero false) by reflexivity.
  unfold F64.to_Q, SFleb.
  destruct (Prim2SF x) as [s|s| |s m e]; cbn [SFcompare]; try (intros _; apply Qle_refl).
  destruct s; [discriminate|]. intros _.
  destruct (0 <=? e).
  - apply Qmult_le_0_compat; [discriminate|].
    change 0%Q with (inject_Z 0). rewrite <- Zle_Qle. apply Z.pow_nonneg. lia.
  - apply Qmult_le_0_compat; [discriminate|].
    apply Qinv_le_0_compat.
    change 0%Q with (inject_Z 0). rewrite <- Zle_Qle. apply Z.pow_nonneg. lia.
Qed.

(** The parts of the annuity requirement that hold: when the monthly rate
    is zero the amount is exactly [principal / termMonths]; the exact
    annuity amount is the payment that brings the principal to zero in
    [termMonths] months; and for principal 100000, rate 12%, term 12 the
    amount is 8884.88 to the cent, within 1e-9 of the exact amount. *)
Lemma monthly_payment_zero_rate_and_example :
  forall (principal annualInterestRate : float) (termMonths : Z),
    (0 <=? annualInterestRate)%float = true ->
    0 < termMonths ->
    ((annualInterestRate / 12 / 100 =? 0)%float = true ->
        CalculateMonthlyPayment principal annualInterestRate termMonths
          = (principal / F64.of_int termMonths)%float)
    /\ (balance_after (Z.to_nat termMonths) (F64.to_Q annualInterestRate / 12 / 100)
          (annuity_exact (F64.to_Q principal) (F64.to_Q annualInterestRate) termMonths)
          (F64.to_Q principal) == 0)%Q
    /\ roundToTwoDecimal (CalculateMonthlyPayment 100000 12 12) = 8884.88%float
    /\ (Qabs (F64.to_Q (CalculateMonthlyPayment 100000 12 12)
               - annuity_exact 100000 12 12) < 1 # 1000000000)%Q.
Proof.
  intros principal rate n Hrate Hn.
  unfold CalculateMonthlyPayment.
  split; [|split].
  - intros Hr. rewrite Hr. reflexivity.
  - rewrite <- (Z2Nat.id n) at 2 by lia.
    apply annuity_exact_amortizes; [apply to_Q_nonneg; exact Hrate | lia].
  - split; vm_compute; reflexivity.
Qed.

(** C7. [CalculateMonthlyPayment] is not the annuity amount for every
    valid request.  Its guard takes out the monthly rate that is exactly
    zero, but for a rate that is positive and tiny the sum [1 + r] is
    rounded to the neighbouring float and the denominator [(1+r)^n - 1]
    keeps no correct digit.  A request for 1000 over 12 months at 5e-13 %
    passes validation; the exact annuity amount, the payment that brings
    the loan to zero in 12 months, lies between 83.33 and 83.34; the
    function returns 78.1874..., stored on the credit as 78.19.  At 1e-13 %
    the sum [1 + r] is 1, the denominator is zero and the function returns
    +Inf.  At 10000 % over 360 months both powers overflow and the function
    returns NaN, where the exact amount lies between 8333 and 8334. *)
Theorem C7_tiny_rate_misses_annuity :
  let tiny := mkCreditRequest 1 1000 12 5e-13 in
  let tinier := mkCreditRequest 1 1000 12 1e-13 in
  let huge := mkCreditRequest 1 1000 360 10000 in
  ValidateCreditRequest tiny = None
  /\ (5e-13 / 12 / 100 =? 0)%float = false
  /\ CalculateMonthlyPayment 1000 5e-13 12 = 78.187493530738195%float
  /\ cr_MonthlyPayment (ToCredit 0 tiny 1 7) = 78.19%float
  /\ (83.33 < annuity_exact (F64.to_Q 1000) (F64.to_Q 5e-13) 12)%Q
  /\ (annuity_exact (F64.to_Q 1000) (F64.to_Q 5e-13) 12 < 83.34)%Q
  /\ (balance_after 12 (F64.to_Q 5e-13 / 12 / 100)
        (annuity_exact (F64.to_Q 1000) (F64.to_Q 5e-13) 12) (F64.to_Q 1000) == 0)%Q
  /\ (F64.to_Q (CalculateMonthlyPayment 1000 5e-13 12) < 78.19)%Q
  /\ ValidateCreditRequest tinier = None
  /\ CalculateMonthlyPayment 1000 1e-13 12 = infinity
  /\ cr_MonthlyPayment (ToCredit 0 tinier 1 7) = infinity
  /\ ValidateCreditRequest huge = None
  /\ CalculateMonthlyPayment 1000 10000 360 = nan
  /\ cr_MonthlyPayment (ToCredit 0 huge 1 7) = nan
  /\ (8333 < annuity_exact (F64.to_Q 1000) (F64.to_Q 10000) 360)%Q
  /\ (annuity_exact (F64.to_Q 1000) (F64.to_Q 10000) 360 < 8334)%Q.
Proof. cbv zeta. repeat apply conj; vm_compute; reflexivity. Qed.

(** C10, as the specification states it, fails: nothing checks the sign
    of the base rate.  A request for 1000 over 12 months that names no rate
    passes validation; with a base rate of -5 [ToCredit] takes [-5 + 5.0],
    which is zero, and the monthly payment comes from the zero-rate branch
    of [CalculateMonthlyPayment].  Issued by [CreditSvc.Create] when the
    rate service answers -5, the credit is stored with rate 0. *)
Lemma C10_counterexample :
  ValidateCreditRequest request_without_rate = None
  /\ rq_InterestRate request_without_rate = 0%float
  /\ cr_InterestRate (ToCredit 0 request_without_rate 5 (-5)) = 0%float
  /\ cr_MonthlyPayment (ToCredit 0 request_without_rate 5 (-5)) = 83.33%float
  /\ fst (CreditSvc.Create 0 1 one_user (inr (-5)%float) (fun _ => 0)
            request_without_rate (mkWorld (mkDB ∅ ∅ ∅ []) [] 0)) = inr 1
  /\ (cr_InterestRate
        <$> credits (db (snd (CreditSvc.Create 0 1 one_user (inr (-5)%float) (fun _ => 0)
                                request_without_rate (mkWorld (mkDB ∅ ∅ ∅ []) [] 0))))
            !! 1)
     = Some 0%float.
Proof. repeat apply conj; vm_compute; reflexivity. Qed.

(** C10, amended. A request whose rate is zero passes validation (only
    negative rates are refused), and [ToCredit] takes
    [baseInterestRate + 5.0] as the rate of its credit.  The credit built by
    [ToCredit] has a zero rate exactly when the requested rate is zero and
    the base rate is -5; in particular never for a base rate that is not
    negative, such as the fallback 7.0. *)
Theorem C10_zero_rate_only_at_base_minus_five :
  forall (now : Time) (c : CreditRequest) (accountID : Z) (baseInterestRate : float),
    ((rq_InterestRate c =? 0)%float = true ->
       ((rq_Amount c <=? 0)%float = false -> 1 <= rq_TermMonths c <= 360 ->
          ValidateCreditRequest c = None)
       /\ cr_InterestRate (ToCredit now c accountID baseInterestRate)
            = (baseInterestRate + 5)%float)
    /\ (cr_InterestRate (ToCredit now c accountID baseInterestRate) =? 0)%float
       = ((rq_InterestRate c =? 0)%float && (baseInterestRate =? -5)%float)
    /\ ((0 <=? baseInterestRate)%float = true ->
          (cr_InterestRate (ToCredit now c accountID baseInterestRate) =? 0)%float
          = false).
Proof.
  intros now c accountID base.
  assert (Hiff : (cr_InterestRate (ToCredit now c accountID base) =? 0)%float
                 = ((rq_InterestRate c =? 0)%float && (base =? -5)%float)).
  { unfold ToCredit. cbn [cr_InterestRate].
    destruct (rq_InterestRate c =? 0)%float eqn:Hz; cbn [andb];
      [apply add_five_eq_zero | exact Hz]. }
  split; [|split; [exact Hiff|]].
  - intros Hz. split.
    + intros Hamt Hterm. unfold ValidateCreditRequest. rewrite Hamt.
      replace (rq_TermMonths c <? 1) with false by lia.
      replace (360 <? rq_TermMonths c) with false by lia.
      simpl.
      destruct (rq_InterestRate c <? 0)%float eqn:Hneg; [|reflexivity].
      exfalso. revert Hz Hneg.
      rewrite FloatAxioms.eqb_spec, FloatAxioms.ltb_spec.
      unfold SFeqb, SFltb.
      destruct (SFcompare (Prim2SF (rq_InterestRate c)) (Prim2SF 0)) as [[]|];
        discriminate.
    + unfold ToCredit. cbn [cr_InterestRate]. rewrite Hz. reflexivity.
  - intros Hnonneg. rewrite Hiff.
    destruct (rq_InterestRate c =? 0)%float; cbn [andb]; [|reflexivity].
    rewrite <- add_five_eq_zero.
    apply add_nonneg_pos_nonzero; [exact Hnonneg|reflexivity].
Qed.

Lemma C10_witness :
  cr_InterestRate (ToCredit 0 request_without_rate 5 7) = 12%float
  /\ PrimFloat.eqb (cr_InterestRate (ToCredit 0 request_without_rate 5 7)) 0 = false
  /\ ValidateCreditRequest request_without_rate = None.
Proof.
  destruct (C10_zero_rate_only_at_base_minus_five 0 request_without_rate 5 7)
    as (H1 & _ & H3).
  destruct H1 as [Hv Hr]; [reflexivity|].
  split; [rewrite Hr; reflexivity|]. split; [apply H3; reflexivity|].
  apply Hv; [reflexivity | cbn; lia].
Defined.

(** C2. The principal components of a generated schedule need not add up
    to the principal of the credit within one cent.  For the credit issued
    for 1000 at 12% over 120 months (monthly payment 14.35) the stored
    components add up to 999.93; over 360 months (monthly payment 10.29) the
    running remainder goes negative, the last component is clamped to 0 and
    the components add up to 1003.19. *)
Theorem C2_principal_sum_drifts :
  ValidateCreditRequest request_120 = None
  /\ cr_MonthlyPayment credit_120 = 14.35%float
  /\ length (GeneratePaymentSchedule credit_120) = 120%nat
  /\ (6 # 100 < F64.to_Q (cr_Amount credit_120)
                - sum_principal (GeneratePaymentSchedule credit_120))%Q
  /\ ValidateCreditRequest request_360 = None
  /\ cr_MonthlyPayment credit_360 = 10.29%float
  /\ (ps_PrincipalAmount <$> last (GeneratePaymentSchedule credit_360)) = Some 0%float
  /\ (3 < sum_principal (GeneratePaymentSchedule credit_360)
          - F64.to_Q (cr_Amount credit_360))%Q.
Proof. repeat split; vm_compute; reflexivity. Qed.

(* ===================================================================== *)
(** ** Installment state machine: theorems                                *)
(* ===================================================================== *)

(** C4, as the specification states it, fails: one hour after the due date
    the day count is 0, and the overdue flag is set all the same. *)
Lemma C4_counterexample :
  ps_Status installment_due_at_epoch = PaymentStatusPending
  /\ After Hour (ps_PaymentDate installment_due_at_epoch) = true
  /\ daysOverdue Hour (ps_PaymentDate installment_due_at_epoch) = 0
  /\ ps_IsOverdue (UpdateScheduleStatus Hour installment_due_at_epoch) = true
  /\ ps_PenaltyAmount (UpdateScheduleStatus Hour installment_due_at_epoch) = 0%float.
Proof. repeat split; vm_compute; reflexivity. Qed.

(** C4, amended. For a pending installment whose due date has passed,
    [UpdateScheduleStatus] sets the status to OVERDUE and the overdue flag
    at once; the penalty of 10% of the total, rounded to the cent, is set
    only when the day count exceeds 1, and is left as it was otherwise;
    nothing else changes. *)
Theorem C4_overdue_flag_and_penalty :
  forall (now : Time) (p : PaymentSchedule),
    ps_Status p = PaymentStatusPending ->
    After now (ps_PaymentDate p) = true ->
    let p' := UpdateScheduleStatus now p in
    ps_Status p' = PaymentStatusOverdue
    /\ ps_IsOverdue p' = true
    /\ (1 < daysOverdue now (ps_PaymentDate p) ->
          ps_PenaltyAmount p' = roundToTwoDecimal (ps_TotalAmount p * 0.1)%float)
    /\ (daysOverdue now (ps_PaymentDate p) <= 1 ->
          ps_PenaltyAmount p' = ps_PenaltyAmount p)
    /\ ps_ID p' = ps_ID p /\ ps_CreditID p' = ps_CreditID p
    /\ ps_PaymentDate p' = ps_PaymentDate p
    /\ ps_PrincipalAmount p' = ps_PrincipalAmount p
    /\ ps_InterestAmount p' = ps_InterestAmount p
    /\ ps_TotalAmount p' = ps_TotalAmount p.
Proof.
  intros now p Hst Hafter p'. subst p'.
  unfold UpdateScheduleStatus. rewrite Hst, Hafter.
  rewrite bool_decide_eq_true_2 by reflexivity. cbn [andb].
  change (F64.to_int _) with (daysOverdue now (ps_PaymentDate p)).
  destruct (Z.ltb_spec 1 (daysOverdue now (ps_PaymentDate p))) as [Hlate | Hgrace];
    cbn; repeat split; intros; try reflexivity; lia.
Qed.

Lemma C4_witness :
  ps_Status (UpdateScheduleStatus (48 * Hour) installment_due_at_epoch)
    = PaymentStatusOverdue
  /\ ps_IsOverdue (UpdateScheduleStatus (48 * Hour) installment_due_at_epoch) = true
  /\ ps_PenaltyAmount (UpdateScheduleStatus (48 * Hour) installment_due_at_epoch)
     = 8.89%float
  /\ ps_PenaltyAmount (UpdateScheduleStatus (48 * Hour - 1) installment_due_at_epoch)
     = 0%float.
Proof.
  destruct (C4_overdue_flag_and_penalty (48 * Hour) installment_due_at_epoch)
    as (H1 & H2 & H3 & _); [reflexivity | reflexivity |].
  destruct (C4_overdue_flag_and_penalty (48 * Hour - 1) installment_due_at_epoch)
    as (_ & _ & _ & H4 & _); [reflexivity | reflexivity |].
  split; [exact H1|]. split; [exact H2|]. split.
  - rewrite H3 by (vm_compute; reflexivity). vm_compute. reflexivity.
  - rewrite H4 by (vm_compute; discriminate). reflexivity.
Defined.

(* ===================================================================== *)
(** ** Account ledger: theorems                                           *)
(* ===================================================================== *)

Lemma driver_call_inv (w w' : World) (f : bool) :
  driver_call w = (f, w') -> db w' = db w.
Proof.
  unfold driver_call. destruct (faults w); intros [= <- <-]; reflexivity.
Qed.

Lemma driver_call_no_fault (w : World) :
  faults w = [] -> driver_call w = (false, w).
Proof. unfold driver_call. intros ->. reflexivity. Qed.

(** One call into the driver: name its outcome, keep what it leaves of the
    tables, and split on whether it failed. *)
Ltac driver_step :=
  match goal with
  | |- context [driver_call ?x] =>
      let f := fresh "f" in
      let w := fresh "w" in
      let E := fresh "E" in
      destruct (driver_call x) as [f w] eqn:E;
      apply driver_call_inv in E; cbn in E;
      destruct f; cbn
  end.

(** What [UpdateBalance] does to the tables: nothing when it fails, and
    one balance written when it succeeds. *)
Lemma UpdateBalance_db (id : Z) (amount : float) (w : World) :
  let r := AccountRepo.UpdateBalance id amount w in
  match fst r with
  | Some _ => db (snd r) = db w
  | None =>
      exists row,
        accounts (db w) !! id = Some row
        /\ ((acc_Balance row + amount <? 0)%float = false)
        /\ db (snd r) = exec_stmt (db w) (SetBalance (acc_Balance row + amount) id)
  end.
Proof.
  unfold AccountRepo.UpdateBalance, BeginTx, Tx_QueryRow_balance, Tx_Exec,
    Tx_Commit, Tx_Rollback, close_tx, set_db.
  driver_step; [congruence|].
  driver_step; [congruence|].
  destruct (accounts (db w1) !! id) as [row|] eqn:Hrow; cbn; [|congruence].
  destruct (acc_Balance row + amount <? 0)%float eqn:Hneg; cbn; [congruence|].
  driver_step; [congruence|].
  driver_step; [congruence|].
  exists row. split; [congruence|]. split; [exact Hneg|].
  congruence.
Qed.

(** With a driver that does not fail and the row present, the only way
    [UpdateBalance] fails is the balance check. *)
Lemma UpdateBalance_no_fault (id : Z) (amount : float) (w : World) (row : Account) :
  faults w = [] ->
  accounts (db w) !! id = Some row ->
  AccountRepo.UpdateBalance id amount w
  = if (acc_Balance row + amount <? 0)%float
    then (Some (New "insufficient funds"),
          mkWorld (db w) [] (S (open_tx w)))
    else (None,
          mkWorld (exec_stmt (db w) (SetBalance (acc_Balance row + amount) id))
                  [] (open_tx w)).
Proof.
  intros Hf Hrow. destruct w as [d fs n]. cbn in Hf, Hrow. subst fs.
  unfold AccountRepo.UpdateBalance, BeginTx, Tx_QueryRow_balance, Tx_Exec,
    Tx_Commit, Tx_Rollback, close_tx, set_db, driver_call. cbn.
  rewrite Hrow. cbn.
  destruct (acc_Balance row + amount <? 0)%float; reflexivity.
Qed.

Lemma exec_SetBalance_accounts (d : DB) (id : Z) (row : Account) (v : float) :
  accounts d !! id = Some row ->
  accounts (exec_stmt d (SetBalance v id)) = <[id := acc_set_Balance v row]> (accounts d).
Proof. intros H. cbn. apply alter_alt_Some. exact H. Qed.

(** C3. For an account with balance [b] and a signed amount [a]:
    [UpdateBalance] reports insufficient funds only when [b + a < 0], and,
    when the driver does not fail, exactly then; whenever it fails the
    tables are as they were; when it succeeds the stored balance is
    [b + a] and no other row has changed. *)
Theorem C3_UpdateBalance_insufficient_funds :
  forall (w : World) (id : Z) (row : Account) (a : float),
    accounts (db w) !! id = Some row ->
    let b := acc_Balance row in
    let r := AccountRepo.UpdateBalance id a w in
    (fst r = Some (New "insufficient funds") -> (b + a <? 0)%float = true)
    /\ (faults w = [] ->
          (fst r = Some (New "insufficient funds") <-> (b + a <? 0)%float = true))
    /\ (forall err, fst r = Some err -> db (snd r) = db w)
    /\ (fst r = None ->
          accounts (db (snd r)) = <[id := acc_set_Balance (b + a) row]> (accounts (db w))
          /\ credits (db (snd r)) = credits (db w)
          /\ payment_schedules (db (snd r)) = payment_schedules (db w)
          /\ transactions (db (snd r)) = transactions (db w)).
Proof.
  intros w id row a Hrow b r.
  assert (Honly : fst r = Some (New "insufficient funds") -> (b + a <? 0)%float = true).
  { subst r b.
    unfold AccountRepo.UpdateBalance, BeginTx, Tx_QueryRow_balance, Tx_Exec,
      Tx_Commit, Tx_Rollback, close_tx, set_db.
    driver_step; [discriminate|].
    driver_step; [discriminate|].
    replace (db w1) with (db w) by congruence. rewrite Hrow. cbn.
    destruct (acc_Balance row + a <? 0)%float eqn:Hneg; cbn; [reflexivity|].
    driver_step; [discriminate|].
    driver_step; discriminate. }
  split; [exact Honly|]. split; [|split].
  - intros Hf. split; [exact Honly|].
    intros Hneg. subst r. rewrite (UpdateBalance_no_fault id a w row Hf Hrow).
    fold b. rewrite Hneg. reflexivity.
  - intros err Herr. pose proof (UpdateBalance_db id a w) as H.
    cbv zeta in H. fold r in H. rewrite Herr in H. exact H.
  - intros Hok. pose proof (UpdateBalance_db id a w) as H.
    cbv zeta in H. fold r in H. rewrite Hok in H.
    destruct H as (row' & Hrow' & _ & Hdb).
    assert (row' = row) by congruence. subst row'.
    rewrite Hdb. fold b. split; [|repeat split].
    apply exec_SetBalance_accounts. exact Hrow.
Qed.

Lemma C3_witness :
  fst (AccountRepo.UpdateBalance 1 (-30) (mkWorld two_accounts [] 0)) = None
  /\ (acc_Balance <$> accounts (db (snd (AccountRepo.UpdateBalance 1 (-30)
                                           (mkWorld two_accounts [] 0)))) !! 1)
     = Some 70%float
  /\ fst (AccountRepo.UpdateBalance 1 (-130) (mkWorld two_accounts [] 0))
     = Some (New "insufficient funds").
Proof.
  pose proof (C3_UpdateBalance_insufficient_funds (mkWorld two_accounts [] 0) 1
                (checking_account 7 100) (-30) eq_refl) as (_ & _ & _ & Hok).
  pose proof (C3_UpdateBalance_insufficient_funds (mkWorld two_accounts [] 0) 1
                (checking_account 7 100) (-130) eq_refl) as (_ & Hiff & _).
  split; [reflexivity|]. split.
  - destruct Hok as [Hacc _]; [reflexivity|]. rewrite Hacc.
    rewrite lookup_insert_eq. reflexivity.
  - apply Hiff; reflexivity.
Defined.

(* ===================================================================== *)
(** ** Transfers: theorems                                                *)
(* ===================================================================== *)

(** C1. A transfer whose debit went through and whose credit failed leaves
    the debit in place.  30 is moved from an account holding 100; the
    driver fails when the credit opens its transaction; [Transfer] returns
    the error, rolls its own (empty) transaction back, and the source
    account holds 70, the destination 50 as before, with no record
    written. *)
Theorem C1_failed_credit_keeps_debit :
  let w := mkWorld two_accounts fault_at_credit 0 in
  let r := TransactionSvc.Transfer 0 transfer_30 7 w in
  (acc_Balance <$> accounts (db w) !! 1) = Some 100%float
  /\ fst r = inl (Wrap "failed to update destination account balance"
                    (Wrap "failed to begin transaction" ErrDriver))
  /\ (acc_Balance <$> accounts (db (snd r)) !! 1) = Some 70%float
  /\ (acc_Balance <$> accounts (db (snd r)) !! 2) = Some 50%float
  /\ transactions (db (snd r)) = []
  /\ open_tx (snd r) = 0%nat.
Proof. repeat split; vm_compute; reflexivity. Qed.

(** The transaction-aware sibling of [UpdateBalance] writes nothing to the
    tables: its write waits in the transaction of the caller. *)
Lemma UpdateBalanceTx_db (tx : Tx) (id : Z) (amount : float) (w : World) :
  db (snd (AccountRepo.UpdateBalanceTx tx id amount w)) = db w.
Proof.
  unfold AccountRepo.UpdateBalanceTx, Tx_QueryRow_balance, Tx_Exec.
  driver_step; [congruence|].
  destruct (accounts _ !! id) as [row|]; cbn; [|congruence].
  destruct (acc_Balance row + amount <? 0)%float; cbn; [congruence|].
  driver_step; congruence.
Qed.

(* ===================================================================== *)
(** ** Collection sweep: what one call may write                          *)
(* ===================================================================== *)

Lemma CreditRepo_GetByID_inv (id : Z) (w w' : World) (r : error + Credit) :
  CreditRepo.GetByID id w = (r, w') ->
  db w' = db w
  /\ forall credit, r = inr credit ->
       exists row, credits (db w) !! id = Some row /\ credit = cr_set_ID id row.
Proof.
  unfold CreditRepo.GetByID.
  destruct (driver_call w) as [f w1] eqn:E. apply driver_call_inv in E.
  destruct f.
  - intros [= <- <-]. split; [exact E|]. intros c [=].
  - rewrite E. destruct (credits (db w) !! id) as [row|] eqn:Hrow; intros [= <- <-];
      (split; [exact E|]); intros c [=]. subst c. exists row. split; reflexivity.
Qed.

Lemma AccountRepo_GetByID_inv (id : Z) (w w' : World) (r : error + Account) :
  AccountRepo.GetByID id w = (r, w') ->
  db w' = db w
  /\ forall account, r = inr account ->
       exists row, accounts (db w) !! id = Some row /\ account = acc_set_ID id row.
Proof.
  unfold AccountRepo.GetByID.
  destruct (driver_call w) as [f w1] eqn:E. apply driver_call_inv in E.
  destruct f.
  - intros [= <- <-]. split; [exact E|]. intros c [=].
  - rewrite E. destruct (accounts (db w) !! id) as [row|] eqn:Hrow; intros [= <- <-];
      (split; [exact E|]); intros c [=]. subst c. exists row. split; reflexivity.
Qed.

Lemma BeginTx_inv (w w' : World) (r : error + Tx) :
  BeginTx w = (r, w') -> db w' = db w /\ forall tx, r = inr tx -> tx = mkTx [].
Proof.
  unfold BeginTx.
  destruct (driver_call w) as [f w1] eqn:E. apply driver_call_inv in E.
  destruct f; intros [= <- <-]; (split; [exact E|]); intros tx [=]; congruence.
Qed.

Lemma Tx_Commit_empty_db (w : World) : db (snd (Tx_Commit (mkTx []) w)) = db w.
Proof.
  unfold Tx_Commit.
  destruct (driver_call w) as [f w1] eqn:E. apply driver_call_inv in E.
  destruct f; cbn; exact E.
Qed.

Lemma TransactionRepo_Create_inv (t : Transaction) (w w' : World) (r : error + Z) :
  TransactionRepo.Create t w = (r, w') ->
  accounts (db w') = accounts (db w)
  /\ credits (db w') = credits (db w)
  /\ payment_schedules (db w') = payment_schedules (db w)
  /\ match r with
     | inl _ => transactions (db w') = transactions (db w)
     | inr id => transactions (db w') = transactions (db w) ++ [txn_set_ID id t]
     end.
Proof.
  unfold TransactionRepo.Create.
  destruct (driver_call w) as [f w1] eqn:E. apply driver_call_inv in E.
  destruct f; intros [= <- <-]; cbn; rewrite ?E; repeat split; reflexivity.
Qed.

(** The same for every state and every script of driver faults: whenever
    [Transfer] fails at the credit of the destination, the tables are the
    ones it started from with the debit of the source applied. *)
Lemma Transfer_failed_credit_db (now : Time) (transfer : TransferRequest)
    (userID : Z) (w w' : World) (err : error) :
  TransactionSvc.Transfer now transfer userID w
  = (inl (Wrap "failed to update destination account balance" err), w') ->
  exists row,
    accounts (db w) !! tr_SourceAccountID transfer = Some row
    /\ db w'
       = exec_stmt (db w)
           (SetBalance (acc_Balance row + - tr_Amount transfer)
              (tr_SourceAccountID transfer)).
Proof.
  unfold TransactionSvc.Transfer.
  destruct (ValidateTransferRequest transfer); [discriminate|].
  destruct (AccountRepo.GetByID _ w) as [[e|sourceAccount] w1] eqn:E1;
    [discriminate|].
  apply AccountRepo_GetByID_inv in E1 as [D1 _].
  destruct (negb (acc_UserID sourceAccount =? userID)); [discriminate|].
  destruct (negb (acc_IsActive sourceAccount)); [discriminate|].
  destruct (acc_Balance sourceAccount <? tr_Amount transfer)%float; [discriminate|].
  destruct (AccountRepo.GetByID _ w1) as [[e|destAccount] w2] eqn:E2;
    [discriminate|].
  apply AccountRepo_GetByID_inv in E2 as [D2 _].
  destruct (negb (acc_IsActive destAccount)); [discriminate|].
  destruct (negb (bool_decide _)); [discriminate|].
  destruct (BeginTx w2) as [[e|tx] w3] eqn:E3; [discriminate|].
  apply BeginTx_inv in E3 as [D3 _].
  pose proof (UpdateBalance_db (tr_SourceAccountID transfer)
                (- tr_Amount transfer)%float w3) as H4. cbv zeta in H4.
  destruct (AccountRepo.UpdateBalance _ _ w3) as [[e|] w4]; [discriminate|].
  cbn [fst snd] in H4. destruct H4 as (row & Hrow & _ & D4).
  pose proof (UpdateBalance_db (tr_DestinationAccountID transfer)
                (tr_Amount transfer) w4) as H5. cbv zeta in H5.
  destruct (AccountRepo.UpdateBalance _ _ w4) as [[e|] w5].
  - cbn [fst snd] in H5. intros [= <- <-].
    exists row. split; [congruence|].
    cbn [Tx_Rollback close_tx db]. congruence.
  - destruct (TransactionRepo.Create _ w5) as [[e|tid] w6]; [discriminate|].
    destruct (Tx_Commit tx w6) as [[e|] w7]; discriminate.
Qed.

Lemma PaymentScheduleRepo_Update_inv (p : PaymentSchedule) (w w' : World)
    (r : option error) :
  PaymentScheduleRepo.Update p w = (r, w') ->
  accounts (db w') = accounts (db w)
  /\ credits (db w') = credits (db w)
  /\ transactions (db w') = transactions (db w)
  /\ match r with
     | Some _ => payment_schedules (db w') = payment_schedules (db w)
     | None =>
         exists row,
           payment_schedules (db w) !! ps_ID p = Some row
           /\ payment_schedules (db w')
              = <[ps_ID p := schedule_row_written p row]> (payment_schedules (db w))
     end.
Proof.
  unfold PaymentScheduleRepo.Update.
  destruct (driver_call w) as [f w1] eqn:E. apply driver_call_inv in E.
  destruct f.
  - intros [= <- <-]. rewrite E. repeat split; reflexivity.
  - rewrite E. destruct (payment_schedules (db w) !! ps_ID p) as [row|] eqn:Hrow;
      intros [= <- <-]; cbn; rewrite ?E; repeat split; try reflexivity.
    exists row. split; reflexivity.
Qed.

Lemma CreditRepo_Update_inv (c : Credit) (w w' : World) (r : option error) :
  CreditRepo.Update c w = (r, w') ->
  accounts (db w') = accounts (db w)
  /\ payment_schedules (db w') = payment_schedules (db w)
  /\ transactions (db w') = transactions (db w)
  /\ match r with
     | Some _ => credits (db w') = credits (db w)
     | None =>
         exists row,
           credits (db w) !! cr_ID c = Some row
           /\ credits (db w') = <[cr_ID c := credit_row_written c row]> (credits (db w))
     end.
Proof.
  unfold CreditRepo.Update.
  destruct (driver_call w) as [f w1] eqn:E. apply driver_call_inv in E.
  destruct f.
  - intros [= <- <-]. rewrite E. repeat split; reflexivity.
  - rewrite E. destruct (credits (db w) !! cr_ID c) as [row|] eqn:Hrow;
      intros [= <- <-]; cbn; rewrite ?E; repeat split; try reflexivity.
    exists row. split; reflexivity.
Qed.

Lemma mark_overdue_step (p : PaymentSchedule) (c : Credit) (w : World) :
  let w' := CreditSvc.mark_overdue p c w in
  schedules_step p (payment_schedules (db w)) (payment_schedules (db w'))
  /\ credits_step (credits (db w)) (credits (db w'))
  /\ accounts (db w') = accounts (db w)
  /\ transactions (db w') = transactions (db w).
Proof.
  unfold CreditSvc.mark_overdue.
  set (p1 := CreditSvc.marked_overdue p).
  assert (Hid : ps_ID p1 = ps_ID p)
    by (subst p1; unfold CreditSvc.marked_overdue; destruct (_ =? 0)%float; reflexivity).
  assert (Hst : ps_Status p1 = PaymentStatusOverdue)
    by (subst p1; unfold CreditSvc.marked_overdue; destruct (_ =? 0)%float; reflexivity).
  destruct (PaymentScheduleRepo.Update p1 w) as [r1 w1] eqn:E1.
  apply PaymentScheduleRepo_Update_inv in E1 as (A1 & C1 & T1 & S1).
  destruct (CreditRepo.Update _ w1) as [r2 w2] eqn:E2.
  apply CreditRepo_Update_inv in E2 as (A2 & S2 & T2 & C2).
  cbn zeta. rewrite A2, A1, T2, T1, S2. repeat split.
  - destruct r1 as [e|].
    + left. exact S1.
    + right. destruct S1 as (row & Hrow & Heq). rewrite Hid in Hrow, Heq.
      exists row, (schedule_row_written p1 row). repeat split; try assumption.
      cbn. rewrite Hst. discriminate.
  - destruct r2 as [e|].
    + left. congruence.
    + right. destruct C2 as (row & Hrow & Heq). rewrite C1 in Hrow, Heq.
      eexists _, row, _. split; [exact Hrow|]. split; [|exact Heq]. reflexivity.
Qed.

Lemma accounts_step_UpdateBalance (id : Z) (amount : float) (w : World) :
  let w' := snd (AccountRepo.UpdateBalance id amount w) in
  accounts_step (accounts (db w)) (accounts (db w'))
  /\ credits (db w') = credits (db w)
  /\ payment_schedules (db w') = payment_schedules (db w)
  /\ transactions (db w') = transactions (db w).
Proof.
  pose proof (UpdateBalance_db id amount w) as H. cbv zeta in H |- *.
  destruct (fst (AccountRepo.UpdateBalance id amount w)) as [e|].
  - rewrite H. repeat split. left. reflexivity.
  - destruct H as (row & _ & _ & ->). cbn. repeat split. right. eauto.
Qed.

Lemma process_payment_step (now : Time) (w : World) (p : PaymentSchedule) :
  let w' := CreditSvc.process_payment now w p in
  schedules_step p (payment_schedules (db w)) (payment_schedules (db w'))
  /\ credits_step (credits (db w)) (credits (db w'))
  /\ accounts_step (accounts (db w)) (accounts (db w')).
Proof.
  unfold CreditSvc.process_payment.
  destruct (CreditRepo.GetByID _ w) as [[e|credit] w1] eqn:E1;
    apply CreditRepo_GetByID_inv in E1 as [D1 _].
  { rewrite D1. repeat split; left; reflexivity. }
  destruct (AccountRepo.GetByID _ w1) as [[e|account] w2] eqn:E2;
    apply AccountRepo_GetByID_inv in E2 as [D2 _].
  { rewrite D2, D1. repeat split; left; reflexivity. }
  destruct (BeginTx w2) as [[e|tx] w3] eqn:E3;
    apply BeginTx_inv in E3 as [D3 Htx].
  { rewrite D3, D2, D1. repeat split; left; reflexivity. }
  specialize (Htx tx eq_refl). subst tx.
  set (p1 := UpdateScheduleStatus now p).
  assert (Hid : ps_ID p1 = ps_ID p).
  { subst p1. unfold UpdateScheduleStatus.
    destruct (_ && _); [destruct (1 <? _)|]; reflexivity. }
  pose proof (accounts_step_UpdateBalance (acc_ID account)
                (- CreditSvc.totalAmount p1)%float w3) as (A4 & C4 & S4 & T4).
  destruct (AccountRepo.UpdateBalance _ _ w3) as [[err|] w4] eqn:E4; cbn [snd] in *.
  - (* the debit failed *)
    rewrite <- D1, <- D2, <- D3.
    destruct (Contains _ _).
    + pose proof (mark_overdue_step p1 credit (Tx_Rollback (mkTx []) w4))
        as (S5 & C5 & A5 & _).
      cbn zeta in S5, C5, A5. cbn [Tx_Rollback close_tx db] in S5, C5, A5.
      rewrite S4 in S5. rewrite C4 in C5. rewrite A5.
      split; [|split; assumption].
      destruct S5 as [->|(row & row' & ? & ? & ? & ? & ->)]; [left; reflexivity|].
      right. rewrite Hid in *. exists row, row'. repeat split; assumption.
    + cbn. rewrite S4, C4. repeat split; try (left; reflexivity). exact A4.
  - (* the debit went through *)
    rewrite <- D1, <- D2, <- D3.
    destruct (TransactionRepo.Create _ w4) as [[e|tid] w5] eqn:E5;
      apply TransactionRepo_Create_inv in E5 as (A5 & C5 & S5 & _).
    { cbn. rewrite S5, S4, C5, C4, A5. repeat split; try (left; reflexivity). exact A4. }
    destruct (PaymentScheduleRepo.Update _ w5) as [[e|] w6] eqn:E6;
      apply PaymentScheduleRepo_Update_inv in E6 as (A6 & C6 & _ & S6).
    { cbn. rewrite S6, S5, S4, C6, C5, C4, A6, A5.
      repeat split; try (left; reflexivity). exact A4. }
    rewrite Tx_Commit_empty_db. rewrite C6, C5, C4, A6, A5.
    split; [|split; [left; reflexivity | exact A4]].
    right. destruct S6 as (row & Hrow & Heq). cbn [ps_ID ps_set_Status] in Hrow, Heq.
    rewrite Hid, S5, S4 in Hrow, Heq.
    eexists row, _. split; [exact Hrow|]. split; [|split; [|split; [|exact Heq]]];
      cbn; try reflexivity. discriminate.
Qed.

(** One iteration appends at most one transaction record. *)
Lemma process_payment_transactions (now : Time) (w : World) (p : PaymentSchedule) :
  let w' := CreditSvc.process_payment now w p in
  transactions (db w') = transactions (db w)
  \/ exists t, transactions (db w') = transactions (db w) ++ [t].
Proof.
  unfold CreditSvc.process_payment.
  destruct (CreditRepo.GetByID _ w) as [[e|credit] w1] eqn:E1;
    apply CreditRepo_GetByID_inv in E1 as [D1 _].
  { left. congruence. }
  destruct (AccountRepo.GetByID _ w1) as [[e|account] w2] eqn:E2;
    apply AccountRepo_GetByID_inv in E2 as [D2 _].
  { left. congruence. }
  destruct (BeginTx w2) as [[e|tx] w3] eqn:E3;
    apply BeginTx_inv in E3 as [D3 Htx].
  { left. congruence. }
  specialize (Htx tx eq_refl). subst tx.
  set (p1 := UpdateScheduleStatus now p).
  pose proof (accounts_step_UpdateBalance (acc_ID account)
                (- CreditSvc.totalAmount p1)%float w3) as (_ & _ & _ & T4).
  destruct (AccountRepo.UpdateBalance _ _ w3) as [[err|] w4] eqn:E4; cbn [snd] in *.
  - left. rewrite <- D1, <- D2, <- D3, <- T4.
    destruct (Contains _ _); [|reflexivity].
    pose proof (mark_overdue_step p1 credit (Tx_Rollback (mkTx []) w4)) as (_ & _ & _ & T5).
    exact T5.
  - rewrite <- D1, <- D2, <- D3, <- T4.
    destruct (TransactionRepo.Create _ w4) as [[e|tid] w5] eqn:E5;
      apply TransactionRepo_Create_inv in E5 as (_ & _ & _ & T5).
    { left. exact T5. }
    right. eexists.
    destruct (PaymentScheduleRepo.Update _ w5) as [[e|] w6] eqn:E6;
      apply PaymentScheduleRepo_Update_inv in E6 as (_ & _ & T6 & _).
    + cbn [Tx_Rollback close_tx db]. rewrite T6. exact T5.
    + rewrite Tx_Commit_empty_db, T6. exact T5.
Qed.

Lemma sweep_transactions (now : Time) (l : list PaymentSchedule) (w : World) :
  (length (transactions (db w))
   <= length (transactions (db (foldl (CreditSvc.process_payment now) w l)))
   <= length (transactions (db w)) + length l)%nat.
Proof.
  revert w. induction l as [|p l IH]; intros w; cbn [foldl length]; [lia|].
  specialize (IH (CreditSvc.process_payment now w p)).
  destruct (process_payment_transactions now w p) as [Heq|[t Heq]];
    cbv zeta in Heq; rewrite Heq in IH; [lia|].
  rewrite length_app in IH. cbn [length] in IH. lia.
Qed.

(** *** The rows the fetch selects *)

Lemma elem_of_pending_rows (date : Time) (d : DB) (p : PaymentSchedule) :
  p ∈ PaymentScheduleRepo.pending_rows date d
  <-> exists row,
        payment_schedules d !! ps_ID p = Some row
        /\ p = ps_set_ID (ps_ID p) row
        /\ PaymentScheduleRepo.is_pending_due date d p = true.
Proof.
  unfold PaymentScheduleRepo.pending_rows, PaymentScheduleRepo.scan_rows.
  rewrite merge_sort_Permutation, list_elem_of_In, filter_In, in_map_iff.
  split.
  - intros [([k row] & Heq & Hin) Hdue].
    apply list_elem_of_In, elem_of_map_to_list in Hin.
    cbn in Heq. subst p. cbn. exists row. repeat split; assumption.
  - intros (row & Hrow & Heq & Hdue). split; [|exact Hdue].
    exists (ps_ID p, row). split; [symmetry; exact Heq|].
    apply list_elem_of_In, elem_of_map_to_list. exact Hrow.
Qed.

Lemma is_pending_due_spec (date : Time) (d : DB) (p : PaymentSchedule) :
  PaymentScheduleRepo.is_pending_due date d p = true
  <-> ps_Status p = PaymentStatusPending
      /\ ps_PaymentDate p <= date
      /\ is_Some (credits d !! ps_CreditID p).
Proof.
  unfold PaymentScheduleRepo.is_pending_due.
  rewrite !andb_true_iff, !bool_decide_eq_true, Z.leb_le. tauto.
Qed.

Lemma NoDup_ids_filter (P : PaymentSchedule -> bool) (l : list PaymentSchedule) :
  NoDup (ps_ID <$> l) -> NoDup (ps_ID <$> List.filter P l).
Proof.
  induction l as [|p l IH]; cbn; [intros; constructor|].
  rewrite NoDup_cons. intros [Hnotin Hnd].
  destruct (P p); cbn; [|auto].
  apply NoDup_cons. split; [|auto].
  intros Hin. apply Hnotin.
  apply list_elem_of_fmap in Hin as (q & Hq & Hin).
  apply list_elem_of_In, filter_In in Hin as [Hin _].
  apply list_elem_of_fmap. exists q. split; [exact Hq|]. apply list_elem_of_In, Hin.
Qed.

Lemma NoDup_ids_pending_rows (date : Time) (d : DB) :
  NoDup (ps_ID <$> PaymentScheduleRepo.pending_rows date d).
Proof.
  unfold PaymentScheduleRepo.pending_rows.
  rewrite merge_sort_Permutation. apply NoDup_ids_filter.
  unfold PaymentScheduleRepo.scan_rows.
  change (map ?f ?l) with (f <$> l). rewrite <- list_fmap_compose.
  apply (NoDup_fst_map_to_list (payment_schedules d)).
Qed.

(** *** How the tables move over a run of iterations *)

Lemma evolves_refl (d : DB) : evolves d d.
Proof.
  repeat split; try tauto. intros k.
  destruct (payment_schedules d !! k) as [row|]; eauto.
Qed.

Lemma evolves_trans (d1 d2 d3 : DB) : evolves d1 d2 -> evolves d2 d3 -> evolves d1 d3.
Proof.
  intros (S12 & C12 & A12) (S23 & C23 & A23). repeat split.
  - intros k. specialize (S12 k). specialize (S23 k).
    destruct (payment_schedules d1 !! k) as [row|].
    + destruct S12 as (row2 & H2 & Hor2). rewrite H2 in S23.
      destruct S23 as (row3 & H3 & Hor3). exists row3. split; [exact H3|].
      destruct Hor3 as [->|?]; [exact Hor2 | right; assumption].
    + rewrite S12 in S23. exact S23.
  - intros k. rewrite C23. apply C12.
  - rewrite A23. apply A12.
  - rewrite A23. apply A12.
Qed.

Lemma process_payment_evolves (now : Time) (w : World) (p : PaymentSchedule) :
  evolves (db w) (db (CreditSvc.process_payment now w p)).
Proof.
  destruct (process_payment_step now w p) as (HS & HC & HA).
  repeat split.
  - intros k.
    destruct HS as [->|(row & row' & Hrow & Hst & _ & _ & ->)].
    { destruct (payment_schedules (db w) !! k); eauto. }
    destruct (decide (k = ps_ID p)) as [->|Hne].
    + rewrite Hrow, lookup_insert_eq. eauto.
    + rewrite lookup_insert_ne by congruence.
      destruct (payment_schedules (db w) !! k); eauto.
  - intros k. destruct HC as [->|(id & row & row' & Hrow & Hacc & ->)]; [reflexivity|].
    destruct (decide (k = id)) as [->|Hne].
    + rewrite Hrow, lookup_insert_eq. cbn. congruence.
    + rewrite lookup_insert_ne by congruence. reflexivity.
  - destruct HA as [->|(id & v & ->)]; [tauto|].
    rewrite lookup_alter_None. tauto.
  - destruct HA as [->|(id & v & ->)]; [tauto|].
    rewrite lookup_alter_None. tauto.
Qed.

Lemma process_payment_frame (now : Time) (w : World) (p : PaymentSchedule) (k : Z) :
  k <> ps_ID p ->
  payment_schedules (db (CreditSvc.process_payment now w p)) !! k
  = payment_schedules (db w) !! k.
Proof.
  intros Hne. destruct (process_payment_step now w p) as (HS & _).
  destruct HS as [->|(row & row' & _ & _ & _ & _ & ->)]; [reflexivity|].
  apply lookup_insert_ne. congruence.
Qed.

Lemma sweep_evolves (now : Time) (l : list PaymentSchedule) (w : World) :
  evolves (db w) (db (foldl (CreditSvc.process_payment now) w l)).
Proof.
  revert w. induction l as [|p l IH]; intros w; cbn; [apply evolves_refl|].
  eapply evolves_trans; [apply process_payment_evolves | apply IH].
Qed.

Lemma sweep_frame (now : Time) (l : list PaymentSchedule) (w : World) (k : Z) :
  k ∉ ps_ID <$> l ->
  payment_schedules (db (foldl (CreditSvc.process_payment now) w l)) !! k
  = payment_schedules (db w) !! k.
Proof.
  revert w. induction l as [|p l IH]; intros w; cbn; [reflexivity|].
  rewrite not_elem_of_cons. intros [Hne Hnotin].
  rewrite IH by exact Hnotin. apply process_payment_frame. exact Hne.
Qed.

(** *** One iteration with a driver that does not fail *)

Arguments AccountRepo.UpdateBalance : simpl never.
Arguments CreditSvc.mark_overdue : simpl never.
Arguments TransactionRepo.Create : simpl never.
Arguments PaymentScheduleRepo.Update : simpl never.
Arguments CreditRepo.Update : simpl never.
Arguments Tx_Commit : simpl never.
Arguments Tx_Rollback : simpl never.
Arguments UpdateScheduleStatus : simpl never.
Arguments CreditSvc.totalAmount : simpl never.

Lemma UpdateScheduleStatus_ID (now : Time) (p : PaymentSchedule) :
  ps_ID (UpdateScheduleStatus now p) = ps_ID p.
Proof.
  unfold UpdateScheduleStatus. destruct (_ && _); [destruct (1 <? _)|]; reflexivity.
Qed.

Lemma marked_overdue_fields (p : PaymentSchedule) :
  ps_ID (CreditSvc.marked_overdue p) = ps_ID p
  /\ ps_Status (CreditSvc.marked_overdue p) = PaymentStatusOverdue
  /\ ps_IsOverdue (CreditSvc.marked_overdue p) = true
  /\ ps_PenaltyAmount (CreditSvc.marked_overdue p)
     = (if (ps_PenaltyAmount p =? 0)%float
        then (ps_TotalAmount p * 0.1)%float else ps_PenaltyAmount p).
Proof.
  unfold CreditSvc.marked_overdue. cbn.
  destruct (ps_PenaltyAmount p =? 0)%float; repeat split; reflexivity.
Qed.

(** The credit has no account row: the iteration stops at the lookup. *)
Lemma process_payment_no_account (now : Time) (w : World) (p : PaymentSchedule)
    (c : Credit) :
  faults w = [] ->
  credits (db w) !! ps_CreditID p = Some c ->
  accounts (db w) !! cr_AccountID c = None ->
  CreditSvc.process_payment now w p = w.
Proof.
  intros Hf Hc Ha. destruct w as [d fs n]. cbn in Hf, Hc, Ha. subst fs.
  unfold CreditSvc.process_payment, CreditRepo.GetByID, driver_call. cbn.
  rewrite Hc. cbn.
  unfold AccountRepo.GetByID, driver_call. cbn. rewrite Ha. reflexivity.
Qed.

(** The balance does not cover the amount: the installment and the credit
    are written as overdue, nothing else moves; the transaction that
    [UpdateBalance] opened stays open. *)
Lemma process_payment_insufficient (now : Time) (w : World) (p row : PaymentSchedule)
    (c : Credit) (a : Account) :
  faults w = [] ->
  payment_schedules (db w) !! ps_ID p = Some row ->
  credits (db w) !! ps_CreditID p = Some c ->
  accounts (db w) !! cr_AccountID c = Some a ->
  (acc_Balance a + - CreditSvc.totalAmount (UpdateScheduleStatus now p) <? 0)%float = true ->
  CreditSvc.process_payment now w p
  = mkWorld
      (mkDB (accounts (db w))
            (<[ps_CreditID p := cr_set_Status CreditStatusOverdue c]> (credits (db w)))
            (<[ps_ID p := schedule_row_written
                            (CreditSvc.marked_overdue (UpdateScheduleStatus now p)) row]>
               (payment_schedules (db w)))
            (transactions (db w)))
      [] (S (open_tx w)).
Proof.
  intros Hf Hrow Hc Ha Hneg. destruct w as [d fs n]. cbn in Hf, Hrow, Hc, Ha. subst fs.
  unfold CreditSvc.process_payment, CreditRepo.GetByID, driver_call. cbn.
  rewrite Hc. cbn.
  unfold AccountRepo.GetByID, driver_call. cbn. rewrite Ha. cbn.
  unfold BeginTx, driver_call. cbn.
  rewrite (UpdateBalance_no_fault _ _ (mkWorld d [] (S n)) a eq_refl Ha). rewrite Hneg.
  replace (Contains _ _) with true by (vm_compute; reflexivity).
  unfold CreditSvc.mark_overdue, PaymentScheduleRepo.Update, CreditRepo.Update,
    Tx_Rollback, close_tx, set_db, driver_call.
  cbn [db faults open_tx Nat.pred].
  destruct (marked_overdue_fields (UpdateScheduleStatus now p)) as (Hid & _).
  rewrite Hid, UpdateScheduleStatus_ID. cbn. rewrite Hrow. cbn.
  rewrite Hc. cbn. destruct c. reflexivity.
Qed.

(** The balance covers the amount: the balance is written, the record is
    appended and the installment is written as paid. *)
Lemma process_payment_collected (now : Time) (w : World) (p row : PaymentSchedule)
    (c : Credit) (a : Account) :
  faults w = [] ->
  payment_schedules (db w) !! ps_ID p = Some row ->
  credits (db w) !! ps_CreditID p = Some c ->
  accounts (db w) !! cr_AccountID c = Some a ->
  (acc_Balance a + - CreditSvc.totalAmount (UpdateScheduleStatus now p) <? 0)%float = false ->
  let w' := CreditSvc.process_payment now w p in
  faults w' = []
  /\ accounts (db w')
     = <[cr_AccountID c :=
           acc_set_Balance
             (acc_Balance a + - CreditSvc.totalAmount (UpdateScheduleStatus now p)) a]>
         (accounts (db w))
  /\ credits (db w') = credits (db w)
  /\ payment_schedules (db w')
     = <[ps_ID p := schedule_row_written
                      (ps_set_Status PaymentStatusPaid (UpdateScheduleStatus now p)) row]>
         (payment_schedules (db w))
  /\ length (transactions (db w')) = S (length (transactions (db w))).
Proof.
  intros Hf Hrow Hc Ha Hneg. destruct w as [d fs n]. cbn in Hf, Hrow, Hc, Ha. subst fs.
  unfold CreditSvc.process_payment, CreditRepo.GetByID, driver_call. cbn.
  rewrite Hc. cbn.
  unfold AccountRepo.GetByID, driver_call. cbn. rewrite Ha. cbn.
  unfold BeginTx, driver_call. cbn.
  rewrite (UpdateBalance_no_fault _ _ (mkWorld d [] (S n)) a eq_refl Ha). rewrite Hneg.
  unfold TransactionRepo.Create, PaymentScheduleRepo.Update, Tx_Commit,
    close_tx, set_db, driver_call.
  cbn [db faults open_tx Nat.pred exec_stmt accounts credits payment_schedules
       transactions ps_ID ps_set_Status fst snd].
  rewrite UpdateScheduleStatus_ID, Hrow.
  cbn [db faults open_tx Nat.pred exec_stmt accounts credits payment_schedules
       transactions fst snd foldl tx_writes].
  repeat split.
  - apply alter_alt_Some. exact Ha.
  - rewrite length_app. cbn. lia.
Qed.

(** *** A whole run with a driver that does not fail *)

Lemma evolves_is_Some_schedule (d d' : DB) (k : Z) :
  evolves d d' -> is_Some (payment_schedules d !! k) -> is_Some (payment_schedules d' !! k).
Proof.
  intros (HS & _) [row Hrow]. specialize (HS k). rewrite Hrow in HS.
  destruct HS as (row' & -> & _). eauto.
Qed.

Lemma evolves_is_Some_credit (d d' : DB) (k : Z) :
  evolves d d' -> (is_Some (credits d' !! k) <-> is_Some (credits d !! k)).
Proof.
  intros (_ & HC & _). specialize (HC k).
  destruct (credits d !! k), (credits d' !! k); cbn in HC; try discriminate;
    split; intros [? ?]; try discriminate; eauto.
Qed.

Lemma evolves_settled (d d' : DB) (q : PaymentSchedule) :
  evolves d d' -> settled d q -> settled d' q.
Proof.
  intros Hev [(row & Hrow & Hst)|(c & Hc & Ha)].
  - left. destruct Hev as (HS & _). specialize (HS (ps_ID q)). rewrite Hrow in HS.
    destruct HS as (row' & Hrow' & [->|Hst']); eauto.
  - right. destruct Hev as (_ & HC & HA). specialize (HC (ps_CreditID q)).
    rewrite Hc in HC. destruct (credits d' !! ps_CreditID q) as [c'|] eqn:Hc';
      [|discriminate].
    injection HC as HC. exists c'. split; [exact Hc'|].
    rewrite HC. apply HA. exact Ha.
Qed.

Lemma process_payment_settles (now : Time) (w : World) (p : PaymentSchedule) :
  faults w = [] ->
  is_Some (payment_schedules (db w) !! ps_ID p) ->
  is_Some (credits (db w) !! ps_CreditID p) ->
  faults (CreditSvc.process_payment now w p) = []
  /\ settled (db (CreditSvc.process_payment now w p)) p.
Proof.
  intros Hf [row Hrow] [c Hc].
  destruct (accounts (db w) !! cr_AccountID c) as [a|] eqn:Ha.
  - destruct (acc_Balance a + - CreditSvc.totalAmount (UpdateScheduleStatus now p) <? 0)%float
      eqn:Hneg.
    + rewrite (process_payment_insufficient now w p row c a Hf Hrow Hc Ha Hneg).
      split; [reflexivity|]. left. cbn. rewrite lookup_insert_eq.
      eexists. split; [reflexivity|]. cbn.
      destruct (marked_overdue_fields (UpdateScheduleStatus now p)) as (_ & -> & _).
      discriminate.
    + destruct (process_payment_collected now w p row c a Hf Hrow Hc Ha Hneg)
        as (Hf' & _ & _ & HS & _).
      split; [exact Hf'|]. left. rewrite HS, lookup_insert_eq.
      eexists. split; [reflexivity|]. cbn. discriminate.
  - rewrite (process_payment_no_account now w p c Hf Hc Ha).
    split; [exact Hf|]. right. exists c. split; assumption.
Qed.

Lemma sweep_settles (now : Time) (l : list PaymentSchedule) (w : World) :
  faults w = [] ->
  (forall q, q ∈ l ->
     is_Some (payment_schedules (db w) !! ps_ID q)
     /\ is_Some (credits (db w) !! ps_CreditID q)) ->
  faults (foldl (CreditSvc.process_payment now) w l) = []
  /\ forall q, q ∈ l -> settled (db (foldl (CreditSvc.process_payment now) w l)) q.
Proof.
  revert w. induction l as [|p l IH]; intros w Hf Hl; cbn.
  { split; [exact Hf|]. intros q Hq. inversion Hq. }
  destruct (Hl p) as [Hp1 Hp2]; [left|].
  destruct (process_payment_settles now w p Hf Hp1 Hp2) as [Hf1 Hset].
  pose proof (process_payment_evolves now w p) as Hev.
  destruct (IH (CreditSvc.process_payment now w p) Hf1) as [Hf2 Hrest].
  { intros q Hq. destruct (Hl q) as [Hq1 Hq2]; [right; exact Hq|]. split.
    - eapply evolves_is_Some_schedule; eauto.
    - apply (evolves_is_Some_credit _ _ _ Hev). exact Hq2. }
  split; [exact Hf2|]. intros q Hq. apply elem_of_cons in Hq as [->|Hq].
  - eapply evolves_settled; [apply sweep_evolves | exact Hset].
  - apply Hrest, Hq.
Qed.

Lemma sweep_over_stuck (now : Time) (l : list PaymentSchedule) (w : World) :
  faults w = [] ->
  (forall q, q ∈ l -> stuck (db w) q) ->
  foldl (CreditSvc.process_payment now) w l = w.
Proof.
  intros Hf. induction l as [|p l IH]; intros Hl; cbn; [reflexivity|].
  destruct (Hl p) as (c & Hc & Ha); [left|].
  rewrite (process_payment_no_account now w p c Hf Hc Ha).
  apply IH. intros q Hq. apply Hl. right. exact Hq.
Qed.

Lemma ProcessPayments_no_fault (now : Time) (w : World) :
  faults w = [] ->
  CreditSvc.ProcessPayments now w
  = (None, foldl (CreditSvc.process_payment now) w
             (PaymentScheduleRepo.pending_rows now (db w))).
Proof.
  intros Hf. unfold CreditSvc.ProcessPayments, PaymentScheduleRepo.GetPendingPayments.
  rewrite (driver_call_no_fault w Hf). reflexivity.
Qed.

Lemma ProcessPayments_db (now : Time) (w : World) :
  db (snd (CreditSvc.ProcessPayments now w)) = db w
  \/ exists w0,
       db w0 = db w
       /\ snd (CreditSvc.ProcessPayments now w)
          = foldl (CreditSvc.process_payment now) w0
              (PaymentScheduleRepo.pending_rows now (db w)).
Proof.
  unfold CreditSvc.ProcessPayments, PaymentScheduleRepo.GetPendingPayments.
  destruct (driver_call w) as [f w0] eqn:E. apply driver_call_inv in E.
  destruct f; cbn; [left; exact E|].
  right. exists w0. rewrite E. split; reflexivity.
Qed.

Lemma pending_row_is_pending (date : Time) (d : DB) (p : PaymentSchedule) :
  p ∈ PaymentScheduleRepo.pending_rows date d ->
  exists row,
    payment_schedules d !! ps_ID p = Some row
    /\ p = ps_set_ID (ps_ID p) row
    /\ ps_Status row = PaymentStatusPending
    /\ ps_PaymentDate row <= date
    /\ is_Some (credits d !! ps_CreditID row).
Proof.
  intros Hp. apply elem_of_pending_rows in Hp as (row & Hrow & Heq & Hdue).
  apply is_pending_due_spec in Hdue. exists row.
  rewrite Heq in Hdue. cbn in Hdue. tauto.
Qed.

(** A second run right after a run without driver faults finds only stuck
    installments. *)
Lemma second_fetch_is_stuck (now : Time) (w : World) (q : PaymentSchedule) :
  faults w = [] ->
  let w1 := foldl (CreditSvc.process_payment now) w
              (PaymentScheduleRepo.pending_rows now (db w)) in
  q ∈ PaymentScheduleRepo.pending_rows now (db w1) -> stuck (db w1) q.
Proof.
  intros Hf w1 Hq.
  pose proof (sweep_evolves now (PaymentScheduleRepo.pending_rows now (db w)) w) as Hev.
  fold w1 in Hev.
  destruct (pending_row_is_pending _ _ _ Hq) as (row1 & Hrow1 & Heq & Hst & Hdate & Hcr).
  assert (Hq0 : q ∈ PaymentScheduleRepo.pending_rows now (db w)).
  { apply elem_of_pending_rows.
    destruct Hev as (HS & _). specialize (HS (ps_ID q)).
    destruct (payment_schedules (db w) !! ps_ID q) as [row0|] eqn:Hrow0;
      [|congruence].
    destruct HS as (row' & Hrow' & Hor).
    assert (row' = row1) by congruence. subst row'.
    destruct Hor as [->|Hne]; [|contradiction].
    exists row0. split; [reflexivity|]. split; [exact Heq|].
    apply is_pending_due_spec. rewrite Heq. cbn. repeat split; try assumption.
    apply (evolves_is_Some_credit (db w) (db w1)); [|exact Hcr].
    apply sweep_evolves. }
  destruct (sweep_settles now (PaymentScheduleRepo.pending_rows now (db w)) w Hf)
    as [_ Hall].
  { intros p Hp. destruct (pending_row_is_pending _ _ _ Hp)
      as (row & Hrow & Heqp & _ & _ & Hc).
    split; [eauto|]. rewrite Heqp. exact Hc. }
  destruct (Hall q Hq0) as [(row & Hrow & Hne)|Hstuck]; [|exact Hstuck].
  fold w1 in Hrow. congruence.
Qed.

(* ===================================================================== *)
(** ** Collection sweep: theorems                                         *)
(* ===================================================================== *)

(** C5. An installment the sweep has fetched, whose account holds less
    than the amount due, processed with a driver that does not fail: the
    stored installment is OVERDUE with the overdue flag set; its penalty is
    the one [UpdateScheduleStatus] had set if that is not zero, and 10% of
    the total otherwise, so 10% is charged once; the credit is OVERDUE; no
    balance has changed and no transaction record has been written. *)
Theorem C5_insufficient_funds_marks_overdue :
  forall (now : Time) (w : World) (payment : PaymentSchedule) (c : Credit) (a : Account),
    faults w = [] ->
    payment ∈ PaymentScheduleRepo.pending_rows now (db w) ->
    credits (db w) !! ps_CreditID payment = Some c ->
    accounts (db w) !! cr_AccountID c = Some a ->
    let due := UpdateScheduleStatus now payment in
    (acc_Balance a <? CreditSvc.totalAmount due)%float = true ->
    let w' := CreditSvc.process_payment now w payment in
    exists row',
      payment_schedules (db w') !! ps_ID payment = Some row'
      /\ ps_Status row' = PaymentStatusOverdue
      /\ ps_IsOverdue row' = true
      /\ ps_PenaltyAmount row'
         = (if (ps_PenaltyAmount due =? 0)%float
            then (ps_TotalAmount payment * 0.1)%float else ps_PenaltyAmount due)
      /\ ((ps_PenaltyAmount payment =? 0)%float = true ->
            ps_PenaltyAmount row' = (ps_TotalAmount payment * 0.1)%float
            \/ ps_PenaltyAmount row'
               = roundToTwoDecimal (ps_TotalAmount payment * 0.1)%float)
      /\ (cr_Status <$> credits (db w') !! ps_CreditID payment) = Some CreditStatusOverdue
      /\ accounts (db w') = accounts (db w)
      /\ transactions (db w') = transactions (db w).
Proof.
  intros now w payment c a Hf Hin Hc Ha due Hlt w'. subst due w'.
  pose proof (ltb_add_opp_neg _ _ Hlt) as Hneg.
  destruct (pending_row_is_pending _ _ _ Hin) as (row & Hrow & _ & _).
  rewrite (process_payment_insufficient now w payment row c a Hf Hrow Hc Ha Hneg).
  cbn [db payment_schedules credits accounts transactions].
  rewrite !lookup_insert_eq. eexists. split; [reflexivity|].
  destruct (marked_overdue_fields (UpdateScheduleStatus now payment))
    as (_ & Hst & Hov & Hpen).
  assert (Htotal : ps_TotalAmount (UpdateScheduleStatus now payment)
                   = ps_TotalAmount payment).
  { unfold UpdateScheduleStatus.
    destruct (_ && _); [destruct (1 <? _)|]; reflexivity. }
  rewrite Htotal in Hpen.
  cbn [schedule_row_written ps_Status ps_IsOverdue ps_PenaltyAmount
       ps_set_PenaltyAmount ps_set_IsOverdue ps_set_Status].
  split; [exact Hst|]. split; [exact Hov|]. split; [exact Hpen|].
  split; [|repeat split].
  intros Hzero. rewrite Hpen.
  destruct (ps_PenaltyAmount (UpdateScheduleStatus now payment) =? 0)%float eqn:Hdz;
    [left; reflexivity|].
  right. revert Hdz. unfold UpdateScheduleStatus.
  destruct (_ && _); [destruct (1 <? _)|]; cbn; intros Hdz;
    [reflexivity | congruence | congruence].
Qed.

Lemma C5_witness :
  exists row',
    payment_schedules
      (db (CreditSvc.process_payment 1000 (mkWorld one_due_installment_poor [] 0)
             fetched_installment)) !! 5 = Some row'
    /\ ps_Status row' = PaymentStatusOverdue
    /\ ps_IsOverdue row' = true
    /\ ps_PenaltyAmount row' = (88.85 * 0.1)%float.
Proof.
  destruct (C5_insufficient_funds_marks_overdue 1000
              (mkWorld one_due_installment_poor [] 0) fetched_installment
              credit_on_account_1 (checking_account 7 50))
    as (row' & H1 & H2 & H3 & H4 & _).
  - reflexivity.
  - replace (PaymentScheduleRepo.pending_rows _ _) with [fetched_installment]
      by (vm_compute; reflexivity).
    left.
  - reflexivity.
  - reflexivity.
  - vm_compute. reflexivity.
  - exists row'. split; [exact H1|]. split; [exact H2|]. split; [exact H3|].
    rewrite H4. reflexivity.
Defined.

(** The part of the idempotence requirement that holds.  The fetch takes
    PENDING rows only, each once; so a row that is not pending (PAID in
    particular) is left exactly as it is by a sweep, whatever the driver
    does; a sweep appends at most one transaction record for each
    installment it fetched, and writes nothing when it fetched nothing; and
    a second sweep at the same instant, after a sweep during which the
    driver did not fail, changes nothing at all. *)
Lemma sweep_leaves_settled_rows :
  forall (now : Time) (w : World),
    (forall p, p ∈ PaymentScheduleRepo.pending_rows now (db w) ->
       ps_Status p = PaymentStatusPending)
    /\ NoDup (ps_ID <$> PaymentScheduleRepo.pending_rows now (db w))
    /\ (forall k row,
          payment_schedules (db w) !! k = Some row ->
          ps_Status row <> PaymentStatusPending ->
          payment_schedules (db (snd (CreditSvc.ProcessPayments now w))) !! k = Some row)
    /\ (length (transactions (db (snd (CreditSvc.ProcessPayments now w))))
        <= length (transactions (db w))
           + length (PaymentScheduleRepo.pending_rows now (db w)))%nat
    /\ (PaymentScheduleRepo.pending_rows now (db w) = [] ->
          db (snd (CreditSvc.ProcessPayments now w)) = db w)
    /\ (faults w = [] ->
          snd (CreditSvc.ProcessPayments now (snd (CreditSvc.ProcessPayments now w)))
          = snd (CreditSvc.ProcessPayments now w)).
Proof.
  intros now w. split; [|split; [|split; [|split; [|split]]]].
  - intros p Hp. destruct (pending_row_is_pending _ _ _ Hp) as (row & _ & -> & Hst & _).
    exact Hst.
  - apply NoDup_ids_pending_rows.
  - intros k row Hrow Hst.
    destruct (ProcessPayments_db now w) as [->|(w0 & Hdb & ->)]; [exact Hrow|].
    rewrite sweep_frame; [rewrite Hdb; exact Hrow|].
    intros Hin. apply list_elem_of_fmap in Hin as (q & Hk & Hq).
    destruct (pending_row_is_pending _ _ _ Hq) as (rowq & Hrowq & _ & Hstq & _).
    subst k. congruence.
  - destruct (ProcessPayments_db now w) as [->|(w0 & Hdb & ->)]; [lia|].
    rewrite <- Hdb.
    pose proof (sweep_transactions now
                  (PaymentScheduleRepo.pending_rows now (db w0)) w0). lia.
  - intros Hnil. destruct (ProcessPayments_db now w) as [->|(w0 & Hdb & ->)];
      [reflexivity|]. rewrite Hnil. exact Hdb.
  - intros Hf. rewrite (ProcessPayments_no_fault now w Hf). cbn [snd].
    destruct (sweep_settles now (PaymentScheduleRepo.pending_rows now (db w)) w Hf)
      as [Hf1 _].
    { intros p Hp. destruct (pending_row_is_pending _ _ _ Hp)
        as (row & Hrow & Heqp & _ & _ & Hc).
      split; [eauto|]. rewrite Heqp. exact Hc. }
    rewrite (ProcessPayments_no_fault now _ Hf1). cbn [snd].
    apply sweep_over_stuck; [exact Hf1|].
    intros q Hq. apply (second_fetch_is_stuck now w q Hf Hq).
Qed.

Lemma second_sweep_after_clean_sweep :
  (ps_Status <$> payment_schedules
     (db (snd (CreditSvc.ProcessPayments 1000 (mkWorld one_due_installment [] 0)))) !! 5)
  = Some PaymentStatusPaid
  /\ snd (CreditSvc.ProcessPayments 1000
            (snd (CreditSvc.ProcessPayments 1000 (mkWorld one_due_installment [] 0))))
     = snd (CreditSvc.ProcessPayments 1000 (mkWorld one_due_installment [] 0)).
Proof.
  destruct (sweep_leaves_settled_rows 1000 (mkWorld one_due_installment [] 0))
    as (_ & _ & _ & _ & _ & H).
  split; [vm_compute; reflexivity|]. apply H. reflexivity.
Qed.

(** C6. An installment can be collected twice.  One installment of 88.85
    is due on an account holding 300; the driver fails at the [Update] that
    would store the installment as PAID.  The sweep returns no error; the
    debit is committed (211.15 left) and the transaction record is written,
    but the installment is still PENDING, so the fetch of a second sweep at
    the same instant selects it again.  That sweep debits the account a
    second time (122.30 left), writes a second record for the same
    installment and only then stores it as PAID: one PAID transition, two
    debits and two transaction records, where the requirement is exactly
    one of each. *)
Theorem C6_failed_update_collects_twice :
  let w := mkWorld one_due_installment fault_at_update 0 in
  let w1 := snd (CreditSvc.ProcessPayments 1000 w) in
  let w2 := snd (CreditSvc.ProcessPayments 1000 w1) in
  PaymentScheduleRepo.pending_rows 1000 (db w) = [fetched_installment]
  /\ fst (CreditSvc.ProcessPayments 1000 w) = None
  /\ (acc_Balance <$> accounts (db w) !! 1) = Some 300%float
  /\ (acc_Balance <$> accounts (db w1) !! 1) = Some 211.15%float
  /\ (txn_Amount <$> transactions (db w1)) = [88.85%float]
  /\ (ps_Status <$> payment_schedules (db w1) !! 5) = Some PaymentStatusPending
  /\ PaymentScheduleRepo.pending_rows 1000 (db w1) = [fetched_installment]
  /\ faults w1 = []
  /\ fst (CreditSvc.ProcessPayments 1000 w1) = None
  /\ (acc_Balance <$> accounts (db w2) !! 1) = Some 122.30000000000001%float
  /\ (ps_Status <$> payment_schedules (db w2) !! 5) = Some PaymentStatusPaid
  /\ (txn_Amount <$> transactions (db w2)) = [88.85%float; 88.85%float]
  /\ (txn_Description <$> transactions (db w2))
     = ["Credit payment for credit #10"; "Credit payment for credit #10"]
  /\ (txn_SourceAccountID <$> transactions (db w2)) = [Some 1; Some 1].
Proof. cbv zeta. repeat apply conj; vm_compute; reflexivity. Qed.

(** C8. A failure in the middle of one installment leaves part of its
    writes behind.  One installment of 88.85 is due on an account holding
    300; the driver fails when the transaction record is inserted.  The
    sweep returns no error and the installment stays PENDING with no record,
    yet the account holds 211.15: the debit was committed by
    [UpdateBalance] in a transaction of its own, out of reach of the
    [Rollback] of the sweep.  The next sweep collects the same installment
    again: one installment, two debits. *)
Theorem C8_failed_record_keeps_debit :
  let w := mkWorld one_due_installment fault_at_record 0 in
  let w1 := snd (CreditSvc.ProcessPayments 1000 w) in
  let w2 := snd (CreditSvc.ProcessPayments 1000 w1) in
  fst (CreditSvc.ProcessPayments 1000 w) = None
  /\ (acc_Balance <$> accounts (db w) !! 1) = Some 300%float
  /\ (acc_Balance <$> accounts (db w1) !! 1) = Some 211.15%float
  /\ (ps_Status <$> payment_schedules (db w1) !! 5) = Some PaymentStatusPending
  /\ transactions (db w1) = []
  /\ (acc_Balance <$> accounts (db w2) !! 1) = Some 122.30000000000001%float
  /\ (ps_Status <$> payment_schedules (db w2) !! 5) = Some PaymentStatusPaid
  /\ length (transactions (db w2)) = 1%nat.
Proof. repeat split; vm_compute; reflexivity. Qed.

(** The part of C8 that holds: no failure inside an iteration ends the
    run; once the fetch has succeeded every fetched installment gets its
    iteration and the sweep returns no error. *)
Lemma sweep_never_aborts (now : Time) (w : World) (pending : list PaymentSchedule)
    (w0 : World) :
  PaymentScheduleRepo.GetPendingPayments now w = (inr pending, w0) ->
  CreditSvc.ProcessPayments now w
  = (None, foldl (CreditSvc.process_payment now) w0 pending).
Proof. unfold CreditSvc.ProcessPayments. intros ->. reflexivity. Qed.

(** C9, as the specification states it, fails: an installment that failed
    for insufficient funds is stored as OVERDUE, and the fetch of the next
    run, a day later, does not select it. *)
Lemma C9_counterexample :
  let w := mkWorld one_due_installment_poor [] 0 in
  let w1 := snd (CreditSvc.ProcessPayments 1000 w) in
  PaymentScheduleRepo.pending_rows 1000 (db w) = [fetched_installment]
  /\ (acc_Balance <$> accounts (db w1) !! 1) = Some 50%float
  /\ (ps_Status <$> payment_schedules (db w1) !! 5) = Some PaymentStatusOverdue
  /\ PaymentScheduleRepo.pending_rows (1000 + nsPerDay) (db w1) = [].
Proof. repeat split; vm_compute; reflexivity. Qed.

(** The iterations that stop before the ledger is touched: the lookup of
    the credit, the lookup of the account or the opening of the transaction
    fails.  Nothing is written. *)
Lemma process_payment_skipped (now : Time) (w : World) (p : PaymentSchedule)
    (rest : list bool) :
  faults w = true :: rest
  \/ faults w = false :: true :: rest
  \/ faults w = false :: false :: true :: rest ->
  db (CreditSvc.process_payment now w p) = db w.
Proof.
  destruct w as [d fs n]. cbn [faults]. intros Hfs.
  unfold CreditSvc.process_payment, CreditRepo.GetByID, AccountRepo.GetByID,
    BeginTx, driver_call.
  destruct Hfs as [->|[->| ->]]; cbn.
  - reflexivity.
  - destruct (credits d !! ps_CreditID p); reflexivity.
  - destruct (credits d !! ps_CreditID p) as [c|]; cbn; [|reflexivity].
    destruct (accounts d !! cr_AccountID c); reflexivity.
Qed.

(** C9, amended. After a sweep, whatever the driver did, a fetched
    installment still has its row.  If the row is still PENDING, the fetch
    of the next run, at the same or a later date and on the tables as this
    run left them, selects it again; if it is not (OVERDUE after
    insufficient funds, or PAID) the fetch of the next run does not select
    it.  An iteration that is skipped at the lookup of the credit, at the
    lookup of the account or at the opening of the transaction, from any
    state [wi], writes nothing, so it leaves the installment PENDING. *)
Theorem C9_only_pending_is_fetched_again :
  forall (now now' : Time) (w : World) (p : PaymentSchedule),
    p ∈ PaymentScheduleRepo.pending_rows now (db w) ->
    now <= now' ->
    let w' := snd (CreditSvc.ProcessPayments now w) in
    (exists row',
       payment_schedules (db w') !! ps_ID p = Some row'
       /\ (ps_Status row' = PaymentStatusPending ->
             p ∈ PaymentScheduleRepo.pending_rows now' (db w'))
       /\ (ps_Status row' <> PaymentStatusPending ->
             forall q, q ∈ PaymentScheduleRepo.pending_rows now' (db w') ->
                       ps_ID q <> ps_ID p))
    /\ (forall (wi : World) (rest : list bool),
          faults wi = true :: rest
          \/ faults wi = false :: true :: rest
          \/ faults wi = false :: false :: true :: rest ->
          db (CreditSvc.process_payment now wi p) = db wi).
Proof.
  intros now now' w p Hp Hle w'. split; [|intros wi rest; apply process_payment_skipped].
  destruct (pending_row_is_pending _ _ _ Hp) as (row & Hrow & Heq & Hst & Hdate & Hcr).
  assert (Hev : evolves (db w) (db w')).
  { subst w'. destruct (ProcessPayments_db now w) as [->|(w0 & Hdb & ->)];
      [apply evolves_refl|]. rewrite <- Hdb. apply sweep_evolves. }
  pose proof Hev as (HS & _). specialize (HS (ps_ID p)). rewrite Hrow in HS.
  destruct HS as (row' & Hrow' & Hor). exists row'. split; [exact Hrow'|]. split.
  - intros Hst'. destruct Hor as [->|Hne]; [|contradiction].
    apply elem_of_pending_rows. exists row. split; [exact Hrow'|]. split; [exact Heq|].
    apply is_pending_due_spec. rewrite Heq. cbn. repeat split; [exact Hst | lia |].
    apply (evolves_is_Some_credit _ _ _ Hev). exact Hcr.
  - intros Hne q Hq Hid.
    destruct (pending_row_is_pending _ _ _ Hq) as (rowq & Hrowq & _ & Hstq & _).
    rewrite Hid in Hrowq. congruence.
Qed.

Lemma C9_witness :
  (ps_Status <$> payment_schedules
     (db (snd (CreditSvc.ProcessPayments 1000
                 (mkWorld one_due_installment_poor [false; true] 0)))) !! 5)
  = Some PaymentStatusPending
  /\ fetched_installment
     ∈ PaymentScheduleRepo.pending_rows (1000 + nsPerDay)
         (db (snd (CreditSvc.ProcessPayments 1000
                     (mkWorld one_due_installment_poor [false; true] 0)))).
Proof.
  destruct (C9_only_pending_is_fetched_again 1000 (1000 + nsPerDay)
              (mkWorld one_due_installment_poor [false; true] 0) fetched_installment)
    as [(row' & H1 & H2 & _) _].
  - replace (PaymentScheduleRepo.pending_rows _ _) with [fetched_installment]
      by (vm_compute; reflexivity).
    left.
  - vm_compute. discriminate.
  - assert (Hrow : row' = installment_due_at_epoch).
    { revert H1. vm_compute. intros [= <-]. reflexivity. }
    split; [vm_compute; reflexivity|]. apply H2. rewrite Hrow. reflexivity.
Defined.

(* ===================================================================== *)
(** ** Generated schedules                                               *)
(* ===================================================================== *)

Lemma schedule_loop_length (credit : Credit) (r : float) (n : nat) (i : Z)
    (rem : float) (d : Time) :
  length (schedule_loop credit r n i rem d) = n.
Proof.
  revert i rem d. induction n as [|n IH]; intros i rem d; cbn; [reflexivity|].
  rewrite IH. reflexivity.
Qed.

Lemma schedule_loop_lookup (credit : Credit) (r : float) (n : nat) (i : Z)
    (rem : float) (d : Time) (k : nat) (p : PaymentSchedule) :
  schedule_loop credit r n i rem d !! k = Some p ->
  ps_ID p = 0 /\ ps_CreditID p = cr_ID credit
  /\ ps_Status p = PaymentStatusPending /\ ps_IsOverdue p = false
  /\ ps_PenaltyAmount p = 0%float
  /\ ps_PaymentDate p = Nat.iter k addOneMonth d.
Proof.
  revert i rem d k. induction n as [|n IH]; intros i rem d k; cbn [schedule_loop].
  - intros H. discriminate.
  - destruct k as [|k].
    + cbn. intros [= <-]. cbn. repeat split; reflexivity.
    + cbn [lookup list_lookup]. intros H. apply IH in H.
      rewrite Nat.iter_succ_r. exact H.
Qed.

(** X1. [GeneratePaymentSchedule] returns one installment for each month of
    the term.  Each carries the id of the credit and no id of its own, is
    PENDING, is not flagged overdue and has no penalty; the [k]-th (from 0)
    is due [k] steps of [addOneMonth] after the start date. *)
Theorem GeneratePaymentSchedule_shape (credit : Credit) :
  let schedule := GeneratePaymentSchedule credit in
  length schedule = Z.to_nat (cr_TermMonths credit)
  /\ (forall k p, schedule !! k = Some p ->
        ps_ID p = 0 /\ ps_CreditID p = cr_ID credit
        /\ ps_Status p = PaymentStatusPending /\ ps_IsOverdue p = false
        /\ ps_PenaltyAmount p = 0%float
        /\ ps_PaymentDate p = Nat.iter k addOneMonth (cr_StartDate credit)).
Proof.
  cbv zeta. unfold GeneratePaymentSchedule. split.
  - apply schedule_loop_length.
  - intros k p. apply schedule_loop_lookup.
Qed.

(* ===================================================================== *)
(** ** Calendar months: [AddDate] by one month                           *)
(* ===================================================================== *)

Lemma civil_from_days_round_trip (z : Z) :
  let '(y, m, d) := civil_from_days z in
  days_from_civil y m d = z /\ 1 <= m <= 12 /\ 1 <= d <= 31.
Proof.
  unfold civil_from_days, days_from_civil. cbv zeta.
  set (era := (z + 719468) / 146097).
  set (doe := z + 719468 - era * 146097).
  assert (Hdoe : 0 <= doe < 146097).
  { subst doe era. pose proof (Z.div_mod (z + 719468) 146097 ltac:(lia)).
    pose proof (Z.mod_pos_bound (z + 719468) 146097 ltac:(lia)). lia. }
  assert (Hz : z = era * 146097 + doe - 719468) by (subst doe; lia).
  clearbody doe era.
  set (yoe := (doe - doe / 1460 + doe / 36524 - doe / 146096) / 365).
  set (doy := doe - (365 * yoe + yoe / 4 - yoe / 100)).
  assert (Hyoe : 0 <= yoe <= 399) by (subst yoe; Z.div_mod_to_equations; lia).
  assert (Hdoy : 0 <= doy <= 365)
    by (subst doy yoe; Z.div_mod_to_equations; lia).
  assert (Hdoe' : doe = yoe * 365 + yoe / 4 - yoe / 100 + doy) by (subst doy; lia).
  clearbody doy. clearbody yoe.
  set (mp := (5 * doy + 2) / 153).
  assert (Hmp : 0 <= mp <= 11) by (subst mp; Z.div_mod_to_equations; lia).
  set (d := doy - (153 * mp + 2) / 5 + 1).
  assert (Hd : 1 <= d <= 31) by (subst d mp; Z.div_mod_to_equations; lia).
  assert (Hdoy' : doy = (153 * mp + 2) / 5 + d - 1) by (subst d; lia).
  clearbody d. clearbody mp.
  destruct (mp <? 10) eqn:Emp; [apply Z.ltb_lt in Emp | apply Z.ltb_ge in Emp].
  - replace (mp + 3 <=? 2) with false by (symmetry; apply Z.leb_gt; lia).
    replace (2 <? mp + 3) with true by (symmetry; apply Z.ltb_lt; lia).
    split; [|lia].
    replace ((yoe + era * 400) / 400) with era
      by (Z.div_mod_to_equations; lia).
    replace (yoe + era * 400 - era * 400) with yoe by lia.
    replace (mp + 3 + -3) with mp by lia. lia.
  - replace (mp - 9 <=? 2) with true by (symmetry; apply Z.leb_le; lia).
    replace (2 <? mp - 9) with false by (symmetry; apply Z.ltb_ge; lia).
    split; [|lia].
    replace (yoe + era * 400 + 1 - 1) with (yoe + era * 400) by lia.
    replace ((yoe + era * 400) / 400) with era
      by (Z.div_mod_to_equations; lia).
    replace (yoe + era * 400 - era * 400) with yoe by lia.
    replace (mp - 9 + 9) with mp by lia. lia.
Qed.

Lemma days_from_civil_day (y m d : Z) :
  days_from_civil y m d = days_from_civil y m 1 + (d - 1).
Proof. unfold days_from_civil. cbv zeta. lia. Qed.

(** The first of the month after [m] lies 28 to 31 days after the first of [m]. *)
Lemma next_month_start (y m : Z) :
  1 <= m <= 12 ->
  28 <= days_from_civil (y + 0 + (m - 1 + 1) / 12) ((m - 1 + 1) mod 12 + 1) 1
        - days_from_civil y m 1 <= 31.
Proof.
  intros Hm.
  assert (Hcases : m = 1 \/ m = 2 \/ m = 3 \/ m = 4 \/ m = 5 \/ m = 6 \/ m = 7
                   \/ m = 8 \/ m = 9 \/ m = 10 \/ m = 11 \/ m = 12) by lia.
  unfold days_from_civil. cbv zeta.
  repeat (destruct Hcases as [->|Hcases]); [..|subst m];
    repeat match goal with
           | |- context [?a <=? ?b] =>
               let v := eval vm_compute in (a <=? b) in
               progress change (a <=? b) with v
           | |- context [?a <? ?b] =>
               let v := eval vm_compute in (a <? b) in
               progress change (a <? b) with v
           end;
    cbv iota; Z.div_mod_to_equations; lia.
Qed.

Lemma addOneMonth_days (t : Time) :
  exists n, 28 <= n <= 31 /\ addOneMonth t = t + n * nsPerDay.
Proof.
  unfold addOneMonth, AddDate.
  pose proof (civil_from_days_round_trip (t / nsPerDay)) as Hrt.
  destruct (civil_from_days (t / nsPerDay)) as [[y m] d].
  destruct Hrt as (Hz & Hm & Hd).
  pose proof (next_month_start y m Hm) as Hn.
  rewrite days_from_civil_day in Hz.
  eexists. split; [exact Hn|].
  pose proof (Z.div_mod t nsPerDay ltac:(discriminate)) as Hdm.
  lia.
Qed.

(** [n] steps of [addOneMonth] lead at least [28 n] days on. *)
Lemma addOneMonth_iter_grows (t : Time) (n : nat) :
  t + 28 * nsPerDay * Z.of_nat n <= Nat.iter n addOneMonth t.
Proof.
  induction n as [|n IH]; [cbn; lia|].
  rewrite Nat.iter_succ.
  destruct (addOneMonth_days (Nat.iter n addOneMonth t)) as (d & Hd & ->).
  unfold nsPerDay, Hour, Second in *. lia.
Qed.

(** The rows of a generated schedule, in the order of their making, are
    in the strict order of their due dates. *)
Lemma schedule_dates_increase (credit : Credit) (j k : nat) (p q : PaymentSchedule) :
  (j < k)%nat ->
  GeneratePaymentSchedule credit !! j = Some p ->
  GeneratePaymentSchedule credit !! k = Some q ->
  ps_PaymentDate p < ps_PaymentDate q.
Proof.
  intros Hjk Hp Hq.
  apply schedule_loop_lookup in Hp as (_ & _ & _ & _ & _ & Hp).
  apply schedule_loop_lookup in Hq as (_ & _ & _ & _ & _ & Hq).
  rewrite Hp, Hq.
  assert (Hk : exists n, k = (n + j)%nat /\ (0 < n)%nat) by (exists (k - j)%nat; lia).
  destruct Hk as (n & -> & Hn). rewrite Nat.iter_add.
  pose proof (addOneMonth_iter_grows (Nat.iter j addOneMonth (cr_StartDate credit)) n).
  unfold nsPerDay, Hour, Second in *. nia.
Qed.

(** X2. The due dates of a generated schedule: the first installment is
    due at the start date of the credit itself, no installment is due
    before it, and of two installments the later one in the schedule is due
    strictly later. *)
Theorem GeneratePaymentSchedule_dates (credit : Credit) :
  let schedule := GeneratePaymentSchedule credit in
  (forall p, schedule !! 0%nat = Some p -> ps_PaymentDate p = cr_StartDate credit)
  /\ (forall k p, schedule !! k = Some p -> cr_StartDate credit <= ps_PaymentDate p)
  /\ (forall j k p q, (j < k)%nat -> schedule !! j = Some p -> schedule !! k = Some q ->
        ps_PaymentDate p < ps_PaymentDate q).
Proof.
  cbv zeta. split; [|split].
  - intros p Hp. apply schedule_loop_lookup in Hp as (_ & _ & _ & _ & _ & Hp). exact Hp.
  - intros k p Hp. apply schedule_loop_lookup in Hp as (_ & _ & _ & _ & _ & ->).
    pose proof (addOneMonth_iter_grows (cr_StartDate credit) k).
    unfold nsPerDay, Hour, Second in *. lia.
  - intros j k p q. apply schedule_dates_increase.
Qed.

(* ===================================================================== *)
(** ** The summary of a schedule                                         *)
(* ===================================================================== *)

Lemma count_status_cons (st : PaymentStatus) (p : PaymentSchedule) (l : list PaymentSchedule) :
  count_status st (p :: l)
  = (if bool_decide (ps_Status p = st) then 1 else 0) + count_status st l.
Proof.
  unfold count_status. cbn [List.filter]. destruct (bool_decide _); cbn [length]; lia.
Qed.

Lemma summary_counts (l : list PaymentSchedule) (s : PaymentScheduleSummary) :
  let s' := foldl summary_add s l in
  sm_TotalPayments s' = sm_TotalPayments s
  /\ sm_PaidPayments s' = sm_PaidPayments s + count_status PaymentStatusPaid l
  /\ sm_RemainingPayments s' = sm_RemainingPayments s + count_status PaymentStatusPending l
  /\ sm_OverduePayments s' = sm_OverduePayments s + count_status PaymentStatusOverdue l.
Proof.
  revert s. induction l as [|p l IH]; intros s; cbn [foldl].
  - unfold count_status. cbn. repeat split; lia.
  - specialize (IH (summary_add s p)). cbv zeta in IH |- *.
    destruct IH as (H1 & H2 & H3 & H4).
    rewrite H1, H2, H3, H4, !count_status_cons.
    unfold summary_add.
    destruct (ps_Status p); cbn; repeat case_bool_decide; try congruence;
      repeat split; lia.
Qed.

Lemma count_status_total (l : list PaymentSchedule) :
  count_status PaymentStatusPaid l + count_status PaymentStatusPending l
  + count_status PaymentStatusOverdue l + count_status PaymentStatusCancelled l
  = Z.of_nat (length l).
Proof.
  induction l as [|p l IH]; [reflexivity|].
  rewrite !count_status_cons. cbn [length].
  destruct (ps_Status p); repeat case_bool_decide; try congruence; lia.
Qed.

(** X3. [CalculatePaymentScheduleSummary] counts the installments by their
    status: the paid, the pending (as remaining) and the overdue ones.  A
    cancelled installment is counted in the total only, so the total is
    the sum of the three counts and the number of cancelled installments. *)
Theorem summary_counts_partition (schedules : list PaymentSchedule) :
  let s := CalculatePaymentScheduleSummary schedules in
  sm_TotalPayments s = Z.of_nat (length schedules)
  /\ sm_PaidPayments s = count_status PaymentStatusPaid schedules
  /\ sm_RemainingPayments s = count_status PaymentStatusPending schedules
  /\ sm_OverduePayments s = count_status PaymentStatusOverdue schedules
  /\ sm_TotalPayments s
     = sm_PaidPayments s + sm_RemainingPayments s + sm_OverduePayments s
       + count_status PaymentStatusCancelled schedules.
Proof.
  cbv zeta. unfold CalculatePaymentScheduleSummary.
  destruct (summary_counts schedules (empty_summary (Z.of_nat (length schedules))))
    as (H1 & H2 & H3 & H4).
  cbv zeta in H1, H2, H3, H4. rewrite H1, H2, H3, H4. cbn.
  pose proof (count_status_total schedules). repeat split; lia.
Qed.

(** One step of the summary over a pending installment. *)
Lemma summary_add_pending (s : PaymentScheduleSummary) (p : PaymentSchedule) :
  ps_Status p = PaymentStatusPending ->
  sm_TotalPrincipal (summary_add s p) = (sm_TotalPrincipal s + ps_PrincipalAmount p)%float
  /\ sm_TotalInterest (summary_add s p) = (sm_TotalInterest s + ps_InterestAmount p)%float
  /\ sm_TotalAmount (summary_add s p) = (sm_TotalAmount s + ps_TotalAmount p)%float
  /\ sm_TotalPenalties (summary_add s p) = (sm_TotalPenalties s + ps_PenaltyAmount p)%float
  /\ sm_RemainingPrincipal (summary_add s p)
     = (sm_RemainingPrincipal s + ps_PrincipalAmount p)%float
  /\ sm_RemainingInterest (summary_add s p)
     = (sm_RemainingInterest s + ps_InterestAmount p)%float
  /\ sm_RemainingAmount (summary_add s p) = (sm_RemainingAmount s + ps_TotalAmount p)%float
  /\ sm_PaidPrincipal (summary_add s p) = sm_PaidPrincipal s
  /\ sm_PaidInterest (summary_add s p) = sm_PaidInterest s
  /\ sm_PaidAmount (summary_add s p) = sm_PaidAmount s
  /\ sm_OverduePrincipal (summary_add s p) = sm_OverduePrincipal s
  /\ sm_OverdueInterest (summary_add s p) = sm_OverdueInterest s
  /\ sm_OverdueAmount (summary_add s p) = sm_OverdueAmount s.
Proof. intros H. unfold summary_add. rewrite H. cbn. repeat split; reflexivity. Qed.

(** A schedule in which every installment is pending and carries no
    penalty: the remaining sums are the totals, computed by the same
    additions. *)
Lemma summary_all_pending (l : list PaymentSchedule) (s : PaymentScheduleSummary) :
  Forall (fun p => ps_Status p = PaymentStatusPending /\ ps_PenaltyAmount p = 0%float) l ->
  sm_RemainingPrincipal s = sm_TotalPrincipal s ->
  sm_RemainingInterest s = sm_TotalInterest s ->
  sm_RemainingAmount s = sm_TotalAmount s ->
  sm_TotalPenalties s = 0%float ->
  let s' := foldl summary_add s l in
  sm_RemainingPrincipal s' = sm_TotalPrincipal s'
  /\ sm_RemainingInterest s' = sm_TotalInterest s'
  /\ sm_RemainingAmount s' = sm_TotalAmount s'
  /\ sm_TotalPenalties s' = 0%float
  /\ sm_PaidPrincipal s' = sm_PaidPrincipal s
  /\ sm_PaidInterest s' = sm_PaidInterest s
  /\ sm_PaidAmount s' = sm_PaidAmount s
  /\ sm_OverduePrincipal s' = sm_OverduePrincipal s
  /\ sm_OverdueInterest s' = sm_OverdueInterest s
  /\ sm_OverdueAmount s' = sm_OverdueAmount s.
Proof.
  revert s. induction l as [|p l IH]; intros s Hall HP HI HA HPen; cbn [foldl].
  - repeat split; assumption.
  - apply Forall_cons in Hall as [[Hst Hpen] Hall].
    destruct (summary_add_pending s p Hst)
      as (E1 & E2 & E3 & E4 & E5 & E6 & E7 & E8 & E9 & E10 & E11 & E12 & E13).
    specialize (IH (summary_add s p) Hall). cbv zeta in IH |- *.
    rewrite <- E8, <- E9, <- E10, <- E11, <- E12, <- E13.
    apply IH.
    + rewrite E5, E1, HP. reflexivity.
    + rewrite E6, E2, HI. reflexivity.
    + rewrite E7, E3, HA. reflexivity.
    + rewrite E4, HPen, Hpen. reflexivity.
Qed.

Lemma count_status_all (st : PaymentStatus) (l : list PaymentSchedule) :
  Forall (fun p => ps_Status p = st) l -> count_status st l = Z.of_nat (length l).
Proof.
  induction 1 as [|p l Hp _ IH]; [reflexivity|].
  rewrite count_status_cons, IH, bool_decide_eq_true_2 by exact Hp. cbn [length]. lia.
Qed.

Lemma count_status_none (st st' : PaymentStatus) (l : list PaymentSchedule) :
  st <> st' -> Forall (fun p => ps_Status p = st) l -> count_status st' l = 0.
Proof.
  intros Hne. induction 1 as [|p l Hp _ IH]; [reflexivity|].
  rewrite count_status_cons, IH, bool_decide_eq_false_2 by congruence. reflexivity.
Qed.

(** X4. The summary of a schedule as [GeneratePaymentSchedule] returns it:
    every installment remains, none is paid or overdue, the remaining sums
    are the totals, and the penalties and the paid and overdue sums are
    zero. *)
Theorem summary_of_new_schedule (credit : Credit) :
  let s := CalculatePaymentScheduleSummary (GeneratePaymentSchedule credit) in
  sm_TotalPayments s = Z.of_nat (Z.to_nat (cr_TermMonths credit))
  /\ sm_RemainingPayments s = sm_TotalPayments s
  /\ sm_PaidPayments s = 0 /\ sm_OverduePayments s = 0
  /\ sm_RemainingPrincipal s = sm_TotalPrincipal s
  /\ sm_RemainingInterest s = sm_TotalInterest s
  /\ sm_RemainingAmount s = sm_TotalAmount s
  /\ sm_TotalPenalties s = 0%float
  /\ sm_PaidPrincipal s = 0%float /\ sm_PaidInterest s = 0%float
  /\ sm_PaidAmount s = 0%float
  /\ sm_OverduePrincipal s = 0%float /\ sm_OverdueInterest s = 0%float
  /\ sm_OverdueAmount s = 0%float.
Proof.
  cbv zeta.
  assert (Hall : Forall (fun p => ps_Status p = PaymentStatusPending
                                  /\ ps_PenaltyAmount p = 0%float)
                   (GeneratePaymentSchedule credit)).
  { apply Forall_lookup. intros k p Hk.
    apply schedule_loop_lookup in Hk as (_ & _ & Hst & _ & Hpen & _). split; assumption. }
  assert (Hst : Forall (fun p => ps_Status p = PaymentStatusPending)
                  (GeneratePaymentSchedule credit)).
  { eapply Forall_impl; [exact Hall|]. intros p [H _]. exact H. }
  assert (Hlen : length (GeneratePaymentSchedule credit) = Z.to_nat (cr_TermMonths credit))
    by apply schedule_loop_length.
  unfold CalculatePaymentScheduleSummary.
  set (l := GeneratePaymentSchedule credit) in *.
  destruct (summary_counts l (empty_summary (Z.of_nat (length l))))
    as (H1 & H2 & H3 & H4).
  destruct (summary_all_pending l (empty_summary (Z.of_nat (length l))) Hall
              eq_refl eq_refl eq_refl eq_refl)
    as (E1 & E2 & E3 & E4 & E5 & E6 & E7 & E8 & E9 & E10).
  cbv zeta in *.
  rewrite H1, H2, H3, H4, E1, E2, E3, E4, E5, E6, E7, E8, E9, E10.
  rewrite (count_status_all _ _ Hst).
  rewrite (count_status_none PaymentStatusPending PaymentStatusPaid l) by (congruence || exact Hst).
  rewrite (count_status_none PaymentStatusPending PaymentStatusOverdue l) by (congruence || exact Hst).
  cbn. rewrite Hlen. repeat split; reflexivity.
Qed.

(* ===================================================================== *)
(** ** Addition of [float64]: sums that are not below zero               *)
(* ===================================================================== *)

Lemma SFcompare_finite_not_Lt (sx : bool) (mx : positive) (ex : Z)
    (sy : bool) (my : positive) (ey : Z) :
  SpecFloat.valid_binary prec emax (S754_finite sx mx ex) = true ->
  SpecFloat.valid_binary prec emax (S754_finite sy my ey) = true ->
  SFcompare (S754_finite sx mx ex) (S754_finite sy my ey) <> Some Lt ->
  aligned sy my ey (Z.min ex ey) <= aligned sx mx ex (Z.min ex ey).
Proof.
  intros Hvx Hvy.
  apply valid_finite in Hvx as (Hex & Hdx & Hnx).
  apply valid_finite in Hvy as (Hey & Hdy & Hny).
  assert (Hpx : 0 < Z.pos mx * 2 ^ (ex - Z.min ex ey))
    by (apply Z.mul_pos_pos; [lia | apply Z.pow_pos_nonneg; lia]).
  assert (Hpy : 0 < Z.pos my * 2 ^ (ey - Z.min ex ey))
    by (apply Z.mul_pos_pos; [lia | apply Z.pow_pos_nonneg; lia]).
  cbn [SFcompare]. unfold aligned.
  destruct sx, sy; cbn [cond_Zopp]; intros Hc; try congruence; try lia.
  - (* both negative *)
    destruct (Z.compare_spec ex ey) as [Heq|Hlt|Hgt]; try congruence.
    + subst ey. rewrite Z.min_id, Z.sub_diag, Z.pow_0_r, !Z.mul_1_r.
      change (Pos.compare_cont Eq mx my) with (Pos.compare mx my) in Hc.
      destruct (Pos.compare_spec mx my); cbn in Hc; try congruence; lia.
    + rewrite Z.min_l by lia.
      pose proof (mantissa_lt_of_exponent_lt mx ex my ey Hex Hdx Hny ltac:(lia)). lia.
  - (* both positive *)
    destruct (Z.compare_spec ex ey) as [Heq|Hlt|Hgt]; try congruence.
    + subst ey. rewrite Z.min_id, Z.sub_diag, Z.pow_0_r, !Z.mul_1_r.
      change (Pos.compare_cont Eq mx my) with (Pos.compare mx my) in Hc.
      destruct (Pos.compare_spec mx my); cbn in Hc; try congruence; lia.
    + rewrite Z.min_r by lia.
      pose proof (mantissa_lt_of_exponent_lt my ey mx ex Hey Hdy Hnx ltac:(lia)). lia.
Qed.

(** A normalised integer that is not negative is not below zero. *)
Lemma binary_normalize_nonneg (m e : Z) :
  0 <= m -> emin64 <= e ->
  SFcompare (binary_normalize prec emax m e false) (S754_zero false) <> Some Lt.
Proof.
  intros Hm He. destruct (Z.eq_dec m 0) as [->|Hne].
  - cbn. discriminate.
  - pose proof (binary_normalize_sign m e false Hne He) as Hs.
    replace (m <? 0) with false in Hs by (symmetry; apply Z.ltb_ge; lia).
    destruct (binary_normalize _ _ _ _ _) as [|s| |s mm ee]; try contradiction;
      subst; cbn; discriminate.
Qed.

Lemma SFltb_add_opp_finite_false (sb : bool) (mb : positive) (eb : Z)
    (st : bool) (mt : positive) (et : Z) :
  SpecFloat.valid_binary prec emax (S754_finite sb mb eb) = true ->
  SpecFloat.valid_binary prec emax (S754_finite st mt et) = true ->
  SFcompare (S754_finite sb mb eb) (S754_finite st mt et) <> Some Lt ->
  SFcompare (SFadd prec emax (S754_finite sb mb eb) (S754_finite (negb st) mt et))
            (S754_zero false) <> Some Lt.
Proof.
  intros Hvb Hvt Hc.
  pose proof (SFcompare_finite_not_Lt _ _ _ _ _ _ Hvb Hvt Hc) as Hle.
  rewrite SFadd_finite, aligned_negb.
  apply valid_finite in Hvb as (Heb & _). apply valid_finite in Hvt as (Het & _).
  apply binary_normalize_nonneg; lia.
Qed.

(** If [b < t] does not hold then neither does [b + (-t) < 0]. *)
Lemma ltb_add_opp_nonneg (b t : float) :
  (b <? t)%float = false -> (b + - t <? 0)%float = false.
Proof.
  rewrite !FloatAxioms.ltb_spec, FloatAxioms.add_spec, FloatAxioms.opp_spec.
  replace (Prim2SF 0) with (S754_zero false) by reflexivity.
  pose proof (Prim2SF_valid b) as Hvb. pose proof (Prim2SF_valid t) as Hvt.
  unfold SFltb, SF64add.
  destruct (Prim2SF b) as [sb|sb| |sb mb eb], (Prim2SF t) as [st|st| |st mt et];
    try (intros Hc; cbn [SFopp];
         pose proof (SFltb_add_opp_finite_false _ _ _ _ _ _ Hvb Hvt) as Hn;
         destruct (SFcompare (SFadd _ _ _ _) _) as [[]|]; try reflexivity;
         exfalso; apply Hn; [|reflexivity];
         destruct (SFcompare _ _) as [[]|]; congruence);
    cbn [SFcompare SFopp SFadd];
    repeat match goal with s : bool |- _ => destruct s end;
    cbn; congruence.
Qed.

(** Adding an amount that is not [<= 0] to a balance that is not [< 0]
    gives a balance that is not [< 0]. *)
Lemma ltb_add_pos_nonneg (b a : float) :
  (b <? 0)%float = false -> (a <=? 0)%float = false -> (b + a <? 0)%float = false.
Proof.
  rewrite !FloatAxioms.ltb_spec, FloatAxioms.leb_spec, FloatAxioms.add_spec.
  replace (Prim2SF 0) with (S754_zero false) by reflexivity.
  pose proof (Prim2SF_valid b) as Hvb. pose proof (Prim2SF_valid a) as Hva.
  unfold SFleb, SFltb, SF64add.
  destruct (Prim2SF b) as [sb|sb| |sb mb eb], (Prim2SF a) as [sa|sa| |sa ma ea];
    cbn [SFcompare];
    repeat match goal with s : bool |- _ => destruct s end;
    try discriminate;
    try (intros _ _; rewrite (SFadd_pos_finite _ _ _ _ Hvb Hva); reflexivity);
    cbn; congruence.
Qed.

(* ===================================================================== *)
(** ** Deposits, withdrawals, payments and transfers: theorems            *)
(* ===================================================================== *)

Lemma exec_SetBalance_balance_added (d : DB) (id : Z) (row : Account) (amount : float) :
  accounts d !! id = Some row ->
  exec_stmt d (SetBalance (acc_Balance row + amount) id) = balance_added id amount d.
Proof.
  intros Hrow. unfold balance_added. cbn. f_equal.
  apply alter_ext. intros row' Hrow'. congruence.
Qed.

(** [UpdateBalance] seen from a caller: an error leaves the tables as they
    were, success adds the amount to the one balance. *)
Lemma UpdateBalance_cases (id : Z) (amount : float) (w w' : World) (r : option error) :
  AccountRepo.UpdateBalance id amount w = (r, w') ->
  match r with
  | Some _ => db w' = db w
  | None =>
      db w' = balance_added id amount (db w)
      /\ exists row, accounts (db w) !! id = Some row
                     /\ (acc_Balance row + amount <? 0)%float = false
  end.
Proof.
  intros E. pose proof (UpdateBalance_db id amount w) as H. cbv zeta in H.
  rewrite E in H. cbn [fst snd] in H. destruct r as [e|]; [exact H|].
  destruct H as (row & Hrow & Hneg & Hdb). split; [|eauto].
  rewrite Hdb. apply exec_SetBalance_balance_added. exact Hrow.
Qed.

Lemma TransactionRepo_Create_cases (t : Transaction) (w w' : World) (r : error + Z) :
  TransactionRepo.Create t w = (r, w') ->
  match r with
  | inl _ => db w' = db w
  | inr id => id = next_transaction_id (db w) /\ db w' = record_added t (db w)
  end.
Proof.
  unfold TransactionRepo.Create.
  destruct (driver_call w) as [f w1] eqn:E. apply driver_call_inv in E.
  destruct f; intros [= <- <-]; cbn; [exact E|].
  unfold next_transaction_id, record_added. rewrite E. split; reflexivity.
Qed.

Lemma Tx_Commit_empty_cases (w w' : World) (r : option error) :
  Tx_Commit (mkTx []) w = (r, w') -> db w' = db w.
Proof.
  intros E. pose proof (Tx_Commit_empty_db w) as H. rewrite E in H. exact H.
Qed.

Lemma AccountSvc_GetByID_inv (id userID : Z) (w w' : World) (r : error + Account) :
  AccountSvc.GetByID id userID w = (r, w') ->
  db w' = db w
  /\ forall account, r = inr account ->
       exists row, accounts (db w) !! id = Some row
                   /\ account = acc_set_ID id row /\ acc_UserID row = userID.
Proof.
  unfold AccountSvc.GetByID.
  destruct (AccountRepo.GetByID id w) as [[e|account] w1] eqn:E;
    apply AccountRepo_GetByID_inv in E as [D Hacc].
  - intros [= <- <-]. split; [exact D|]. intros a [=].
  - destruct (Hacc account eq_refl) as (row & Hrow & ->).
    cbn [acc_UserID acc_set_ID].
    destruct (Z.eqb_spec (acc_UserID row) userID) as [Hown|Hown]; cbn [negb];
      intros [= <- <-]; (split; [exact D|]); intros a [=]. subst a.
    exists row. repeat split; assumption.
Qed.

(** The same calls with a driver that does not fail. *)
Lemma AccountRepo_GetByID_no_fault (id : Z) (w : World) (row : Account) :
  faults w = [] -> accounts (db w) !! id = Some row ->
  AccountRepo.GetByID id w = (inr (acc_set_ID id row), w).
Proof.
  intros Hf Hrow. unfold AccountRepo.GetByID.
  rewrite (driver_call_no_fault w Hf), Hrow. reflexivity.
Qed.

Lemma BeginTx_no_fault (w : World) :
  faults w = [] ->
  BeginTx w = (inr (mkTx []), mkWorld (db w) [] (S (open_tx w))).
Proof.
  intros Hf. unfold BeginTx. rewrite (driver_call_no_fault w Hf), Hf. reflexivity.
Qed.

Lemma TransactionRepo_Create_no_fault (t : Transaction) (w : World) :
  faults w = [] ->
  TransactionRepo.Create t w
  = (inr (next_transaction_id (db w)),
     mkWorld (record_added t (db w)) [] (open_tx w)).
Proof.
  intros Hf. unfold TransactionRepo.Create.
  rewrite (driver_call_no_fault w Hf). unfold set_db. rewrite Hf. reflexivity.
Qed.

Lemma Tx_Commit_empty_no_fault (w : World) :
  faults w = [] ->
  Tx_Commit (mkTx []) w = (None, mkWorld (db w) [] (Nat.pred (open_tx w))).
Proof.
  intros Hf. unfold Tx_Commit. rewrite (driver_call_no_fault w Hf).
  unfold close_tx, set_db. cbn. rewrite Hf. reflexivity.
Qed.

Lemma UpdateBalance_no_fault_ok (id : Z) (amount : float) (w : World) (row : Account) :
  faults w = [] -> accounts (db w) !! id = Some row ->
  (acc_Balance row + amount <? 0)%float = false ->
  AccountRepo.UpdateBalance id amount w
  = (None, mkWorld (balance_added id amount (db w)) [] (open_tx w)).
Proof.
  intros Hf Hrow Hneg. rewrite (UpdateBalance_no_fault id amount w row Hf Hrow), Hneg.
  rewrite (exec_SetBalance_balance_added _ _ _ _ Hrow). reflexivity.
Qed.

(** An error that is not one of the named failures. *)
Ltac not_those :=
  repeat (split; [let e := fresh "e" in let H := fresh "H" in intros e H; discriminate H|]).

Lemma AccountSvc_GetByID_error (id userID : Z) (w w' : World) (e : error) :
  AccountSvc.GetByID id userID w = (inl e, w') ->
  (exists e', e = Wrap "failed to get account" e')
  \/ e = New "access denied: account belongs to another user".
Proof.
  unfold AccountSvc.GetByID.
  destruct (AccountRepo.GetByID id w) as [[e0|account] w1].
  - intros [= <- <-]. left. eauto.
  - destruct (negb (acc_UserID account =? userID)); intros [= <- <-]. right. reflexivity.
Qed.

(** X5. [Deposit], for every state and every script of driver faults.  On
    success the balance of the account has been raised by the amount, one
    record built from the request has been appended (it keeps the status
    PENDING and names the account of the request as destination), and the
    account is an active one of the caller.  On an error the tables are as
    they were, except that a failure to write the record leaves the raised
    balance and a failure to commit leaves the raised balance and the
    record.  With a driver that does not fail, a positive amount on an
    active account of the caller whose balance is not below zero is
    deposited. *)
Theorem Deposit_outcome (now : Time) (accountID userID : Z) (deposit : DepositRequest)
    (w : World) :
  let r := AccountSvc.Deposit now accountID userID deposit w in
  let paid := balance_added accountID (dr_Amount deposit) (db w) in
  let record := DepositRequest_ToTransaction now deposit in
  (forall id, fst r = inr id ->
     id = next_transaction_id (db w)
     /\ db (snd r) = record_added record paid
     /\ exists row, accounts (db w) !! accountID = Some row
                    /\ acc_UserID row = userID /\ acc_IsActive row = true)
  /\ (forall err, fst r = inl err ->
        ((forall e, err <> Wrap "failed to create transaction record" e)
         /\ (forall e, err <> Wrap "failed to commit transaction" e)
         /\ db (snd r) = db w)
        \/ ((exists e, err = Wrap "failed to create transaction record" e)
            /\ db (snd r) = paid)
        \/ ((exists e, err = Wrap "failed to commit transaction" e)
            /\ db (snd r) = record_added record paid))
  /\ (faults w = [] ->
      forall row, accounts (db w) !! accountID = Some row ->
        acc_UserID row = userID -> acc_IsActive row = true ->
        (dr_Amount deposit <=? 0)%float = false ->
        (acc_Balance row <? 0)%float = false ->
        fst r = inr (next_transaction_id (db w))).
Proof.
  cbv zeta. split; [|split].
  - (* success *)
    intros id. unfold AccountSvc.Deposit.
    destruct (ValidateDepositRequest deposit); [discriminate|].
    destruct (AccountSvc.GetByID _ _ w) as [[e|account] w1] eqn:E1; [discriminate|].
    apply AccountSvc_GetByID_inv in E1 as [D1 Hacc].
    destruct (Hacc account eq_refl) as (row & Hrow & -> & Hown).
    cbn [acc_IsActive acc_set_ID].
    destruct (acc_IsActive row) eqn:Hact; cbn [negb]; [|discriminate].
    destruct (BeginTx w1) as [[e|tx] w2] eqn:E2; [discriminate|].
    apply BeginTx_inv in E2 as [D2 Htx]. specialize (Htx tx eq_refl). subst tx.
    destruct (AccountRepo.UpdateBalance _ _ w2) as [[e|] w3] eqn:E3; [discriminate|].
    apply UpdateBalance_cases in E3 as [D3 _].
    destruct (TransactionRepo.Create _ w3) as [[e|tid] w4] eqn:E4; [discriminate|].
    apply TransactionRepo_Create_cases in E4 as [Hid D4].
    destruct (Tx_Commit _ w4) as [[e|] w5] eqn:E5; [discriminate|].
    apply Tx_Commit_empty_cases in E5.
    cbn [fst snd]. intros [= <-].
    assert (Hdb3 : db w3 = balance_added accountID (dr_Amount deposit) (db w))
      by congruence.
    split; [|split].
    + rewrite Hid, Hdb3. reflexivity.
    + rewrite E5, D4, Hdb3. reflexivity.
    + exists row. repeat split; assumption.
  - (* failure *)
    intros err. unfold AccountSvc.Deposit.
    destruct (ValidateDepositRequest deposit); [cbn [fst snd]; intros [= <-]; left; not_those; reflexivity|].
    destruct (AccountSvc.GetByID _ _ w) as [[e|account] w1] eqn:E1;
      [pose proof (AccountSvc_GetByID_error _ _ _ _ _ E1) as He|];
      apply AccountSvc_GetByID_inv in E1 as [D1 Hacc];
      [cbn [fst snd]; intros [= <-]; left; destruct He as [[e' ->]| ->]; not_those;
       exact D1|].
    destruct (negb (acc_IsActive account)); [cbn [fst snd]; intros [= <-]; left; not_those; exact D1|].
    destruct (BeginTx w1) as [[e|tx] w2] eqn:E2;
      apply BeginTx_inv in E2 as [D2 Htx]; [cbn [fst snd]; intros [= <-]; left; not_those; congruence|].
    specialize (Htx tx eq_refl). subst tx.
    destruct (AccountRepo.UpdateBalance _ _ w2) as [[e|] w3] eqn:E3;
      apply UpdateBalance_cases in E3.
    { cbn [fst snd]. intros [= <-]. left. not_those.
      unfold Tx_Rollback, close_tx. cbn [db]. congruence. }
    destruct E3 as [D3 _].
    assert (Hdb3 : db w3 = balance_added accountID (dr_Amount deposit) (db w))
      by congruence.
    destruct (TransactionRepo.Create _ w3) as [[e|tid] w4] eqn:E4;
      apply TransactionRepo_Create_cases in E4.
    { cbn [fst snd]. intros [= <-]. right. left. split; [eauto|].
      unfold Tx_Rollback, close_tx. cbn [db]. congruence. }
    destruct E4 as [Hid D4].
    destruct (Tx_Commit _ w4) as [[e|] w5] eqn:E5;
      apply Tx_Commit_empty_cases in E5; cbn [fst snd]; [|discriminate].
    intros [= <-]. right. right. split; [eauto|]. rewrite E5, D4, Hdb3. reflexivity.
  - (* a driver that does not fail *)
    intros Hf row Hrow Hown Hact Hamt Hbal. unfold AccountSvc.Deposit, AccountSvc.GetByID.
    unfold ValidateDepositRequest. rewrite Hamt.
    rewrite (AccountRepo_GetByID_no_fault _ _ _ Hf Hrow).
    cbn [acc_UserID acc_set_ID]. rewrite Hown, Z.eqb_refl.
    cbn [negb acc_IsActive acc_set_ID]. rewrite Hact. cbn [negb].
    rewrite (BeginTx_no_fault w Hf).
    rewrite (UpdateBalance_no_fault_ok accountID (dr_Amount deposit)
               (mkWorld (db w) [] (S (open_tx w))) row eq_refl Hrow
               (ltb_add_pos_nonneg _ _ Hbal Hamt)).
    rewrite (TransactionRepo_Create_no_fault _ (mkWorld _ [] _) eq_refl).
    rewrite (Tx_Commit_empty_no_fault (mkWorld _ [] _) eq_refl).
    reflexivity.
Qed.

(** X6. [Withdraw], for every state and every script of driver faults.  On
    success the balance of the account, which covered the amount, has been
    lowered by it and one record built from the request has been appended;
    the account is an active one of the caller.  On an error the tables
    are as they were, except that a failure to write the record leaves the
    lowered balance and a failure to commit leaves the lowered balance and
    the record.  With a driver that does not fail, a positive amount that
    the balance of an active account of the caller covers is withdrawn. *)
Theorem Withdraw_outcome (now : Time) (accountID userID : Z)
    (withdrawal : WithdrawalRequest) (w : World) :
  let r := AccountSvc.Withdraw now accountID userID withdrawal w in
  let paid := balance_added accountID (- wr_Amount withdrawal) (db w) in
  let record := WithdrawalRequest_ToTransaction now withdrawal in
  (forall id, fst r = inr id ->
     id = next_transaction_id (db w)
     /\ db (snd r) = record_added record paid
     /\ exists row, accounts (db w) !! accountID = Some row
                    /\ acc_UserID row = userID /\ acc_IsActive row = true
                    /\ (acc_Balance row <? wr_Amount withdrawal)%float = false)
  /\ (forall err, fst r = inl err ->
        ((forall e, err <> Wrap "failed to create transaction record" e)
         /\ (forall e, err <> Wrap "failed to commit transaction" e)
         /\ db (snd r) = db w)
        \/ ((exists e, err = Wrap "failed to create transaction record" e)
            /\ db (snd r) = paid)
        \/ ((exists e, err = Wrap "failed to commit transaction" e)
            /\ db (snd r) = record_added record paid))
  /\ (faults w = [] ->
      forall row, accounts (db w) !! accountID = Some row ->
        acc_UserID row = userID -> acc_IsActive row = true ->
        (wr_Amount withdrawal <=? 0)%float = false ->
        (acc_Balance row <? wr_Amount withdrawal)%float = false ->
        fst r = inr (next_transaction_id (db w))).
Proof.
  cbv zeta. split; [|split].
  - (* success *)
    intros id. unfold AccountSvc.Withdraw.
    destruct (ValidateWithdrawalRequest withdrawal); [discriminate|].
    destruct (AccountSvc.GetByID _ _ w) as [[e|account] w1] eqn:E1; [discriminate|].
    apply AccountSvc_GetByID_inv in E1 as [D1 Hacc].
    destruct (Hacc account eq_refl) as (row & Hrow & -> & Hown).
    cbn [acc_IsActive acc_Balance acc_set_ID].
    destruct (acc_IsActive row) eqn:Hact; cbn [negb]; [|discriminate].
    destruct (acc_Balance row <? wr_Amount withdrawal)%float eqn:Hbal; [discriminate|].
    destruct (BeginTx w1) as [[e|tx] w2] eqn:E2; [discriminate|].
    apply BeginTx_inv in E2 as [D2 Htx]. specialize (Htx tx eq_refl). subst tx.
    destruct (AccountRepo.UpdateBalance _ _ w2) as [[e|] w3] eqn:E3; [discriminate|].
    apply UpdateBalance_cases in E3 as [D3 _].
    destruct (TransactionRepo.Create _ w3) as [[e|tid] w4] eqn:E4; [discriminate|].
    apply TransactionRepo_Create_cases in E4 as [Hid D4].
    destruct (Tx_Commit _ w4) as [[e|] w5] eqn:E5; [discriminate|].
    apply Tx_Commit_empty_cases in E5.
    cbn [fst snd]. intros [= <-].
    assert (Hdb3 : db w3 = balance_added accountID (- wr_Amount withdrawal) (db w))
      by congruence.
    split; [|split].
    + rewrite Hid, Hdb3. reflexivity.
    + rewrite E5, D4, Hdb3. reflexivity.
    + exists row. repeat split; assumption.
  - (* failure *)
    intros err. unfold AccountSvc.Withdraw.
    destruct (ValidateWithdrawalRequest withdrawal); [cbn [fst snd]; intros [= <-]; left; not_those; reflexivity|].
    destruct (AccountSvc.GetByID _ _ w) as [[e|account] w1] eqn:E1;
      [pose proof (AccountSvc_GetByID_error _ _ _ _ _ E1) as He|];
      apply AccountSvc_GetByID_inv in E1 as [D1 Hacc];
      [cbn [fst snd]; intros [= <-]; left; destruct He as [[e' ->]| ->]; not_those;
       exact D1|].
    destruct (negb (acc_IsActive account)); [cbn [fst snd]; intros [= <-]; left; not_those; exact D1|].
    destruct (acc_Balance account <? wr_Amount withdrawal)%float; [cbn [fst snd]; intros [= <-]; left; not_those; exact D1|].
    destruct (BeginTx w1) as [[e|tx] w2] eqn:E2;
      apply BeginTx_inv in E2 as [D2 Htx]; [cbn [fst snd]; intros [= <-]; left; not_those; congruence|].
    specialize (Htx tx eq_refl). subst tx.
    destruct (AccountRepo.UpdateBalance _ _ w2) as [[e|] w3] eqn:E3;
      apply UpdateBalance_cases in E3.
    { cbn [fst snd]. intros [= <-]. left. not_those.
      unfold Tx_Rollback, close_tx. cbn [db]. congruence. }
    destruct E3 as [D3 _].
    assert (Hdb3 : db w3 = balance_added accountID (- wr_Amount withdrawal) (db w))
      by congruence.
    destruct (TransactionRepo.Create _ w3) as [[e|tid] w4] eqn:E4;
      apply TransactionRepo_Create_cases in E4.
    { cbn [fst snd]. intros [= <-]. right. left. split; [eauto|].
      unfold Tx_Rollback, close_tx. cbn [db]. congruence. }
    destruct E4 as [Hid D4].
    destruct (Tx_Commit _ w4) as [[e|] w5] eqn:E5;
      apply Tx_Commit_empty_cases in E5; cbn [fst snd]; [|discriminate].
    intros [= <-]. right. right. split; [eauto|]. rewrite E5, D4, Hdb3. reflexivity.
  - (* a driver that does not fail *)
    intros Hf row Hrow Hown Hact Hamt Hbal.
    unfold AccountSvc.Withdraw, AccountSvc.GetByID.
    unfold ValidateWithdrawalRequest. rewrite Hamt.
    rewrite (AccountRepo_GetByID_no_fault _ _ _ Hf Hrow).
    cbn [acc_UserID acc_set_ID]. rewrite Hown, Z.eqb_refl.
    cbn [negb acc_IsActive acc_Balance acc_set_ID]. rewrite Hact, Hbal. cbn [negb].
    rewrite (BeginTx_no_fault w Hf).
    rewrite (UpdateBalance_no_fault_ok accountID (- wr_Amount withdrawal)
               (mkWorld (db w) [] (S (open_tx w))) row eq_refl Hrow
               (ltb_add_opp_nonneg _ _ Hbal)).
    rewrite (TransactionRepo_Create_no_fault _ (mkWorld _ [] _) eq_refl).
    rewrite (Tx_Commit_empty_no_fault (mkWorld _ [] _) eq_refl).
    reflexivity.
Qed.

Lemma CardRepo_GetByID_inv (cards : gmap Z Card) (id : Z) (w w' : World)
    (r : error + Card) :
  CardRepo.GetByID cards id w = (r, w') ->
  db w' = db w
  /\ forall card, r = inr card ->
       exists row, cards !! id = Some row /\ card = card_set_ID id row.
Proof.
  unfold CardRepo.GetByID.
  destruct (driver_call w) as [f w1] eqn:E. apply driver_call_inv in E.
  destruct f.
  - intros [= <- <-]. split; [exact E|]. intros c [=].
  - destruct (cards !! id) as [row|] eqn:Hrow; intros [= <- <-];
      (split; [exact E|]); intros c [=]. subst c. exists row. split; reflexivity.
Qed.

Lemma CardRepo_GetByID_no_fault (cards : gmap Z Card) (id : Z) (w : World) (row : Card) :
  faults w = [] -> cards !! id = Some row ->
  CardRepo.GetByID cards id w = (inr (card_set_ID id row), w).
Proof.
  intros Hf Hrow. unfold CardRepo.GetByID.
  rewrite (driver_call_no_fault w Hf), Hrow. reflexivity.
Qed.

(** X7. [Pay], for every state and every script of driver faults.  On
    success the account is an active one of the caller and covered the
    amount, the card is an active card of that account, the balance has
    been lowered by the amount and one COMPLETED record in the currency of
    the account has been appended.  On an error the tables are as they
    were, except that a failure to write the record leaves the lowered
    balance and a failure to commit leaves the lowered balance and the
    record.  With a driver that does not fail, a positive amount covered
    by the balance, paid with an active card of an active account of the
    caller, goes through. *)
Theorem Pay_outcome (now : Time) (cards : gmap Z Card) (payment : PaymentRequest)
    (userID : Z) (w : World) :
  let r := TransactionSvc.Pay now cards payment userID w in
  let accountID := pr_AccountID payment in
  let paid := balance_added accountID (- pr_Amount payment) (db w) in
  (forall id, fst r = inr id ->
     exists row card,
       accounts (db w) !! accountID = Some row
       /\ acc_UserID row = userID /\ acc_IsActive row = true
       /\ (acc_Balance row <? pr_Amount payment)%float = false
       /\ cards !! pr_CardID payment = Some card
       /\ card_AccountID card = accountID /\ card_IsActive card = true
       /\ id = next_transaction_id (db w)
       /\ db (snd r)
          = record_added
              (txn_set_Status TransactionStatusCompleted
                 (txn_set_Currency (acc_Currency row)
                    (PaymentRequest_ToTransaction now payment))) paid)
  /\ (forall err, fst r = inl err ->
        ((forall e, err <> Wrap "failed to create transaction record" e)
         /\ (forall e, err <> Wrap "failed to commit transaction" e)
         /\ db (snd r) = db w)
        \/ ((exists e, err = Wrap "failed to create transaction record" e)
            /\ db (snd r) = paid)
        \/ ((exists e, err = Wrap "failed to commit transaction" e)
            /\ exists row,
                 accounts (db w) !! accountID = Some row
                 /\ db (snd r)
                    = record_added
                        (txn_set_Status TransactionStatusCompleted
                           (txn_set_Currency (acc_Currency row)
                              (PaymentRequest_ToTransaction now payment))) paid))
  /\ (faults w = [] ->
      forall row card, accounts (db w) !! accountID = Some row ->
        acc_UserID row = userID -> acc_IsActive row = true ->
        cards !! pr_CardID payment = Some card ->
        card_AccountID card = accountID -> card_IsActive card = true ->
        (pr_Amount payment <=? 0)%float = false ->
        (acc_Balance row <? pr_Amount payment)%float = false ->
        fst r = inr (next_transaction_id (db w))).
Proof.
  cbv zeta. split; [|split].
  - (* success *)
    intros id. unfold TransactionSvc.Pay.
    destruct (ValidatePaymentRequest payment); [discriminate|].
    destruct (AccountRepo.GetByID _ w) as [[e|account] w1] eqn:E1; [discriminate|].
    apply AccountRepo_GetByID_inv in E1 as [D1 Hacc].
    destruct (Hacc account eq_refl) as (row & Hrow & ->).
    cbn [acc_UserID acc_IsActive acc_Balance acc_Currency acc_set_ID].
    destruct (Z.eqb_spec (acc_UserID row) userID) as [Hown|]; cbn [negb]; [|discriminate].
    destruct (acc_IsActive row) eqn:Hact; cbn [negb]; [|discriminate].
    destruct (CardRepo.GetByID _ _ w1) as [[e|card] w1'] eqn:E1'; [discriminate|].
    apply CardRepo_GetByID_inv in E1' as [D1' Hcard].
    destruct (Hcard card eq_refl) as (crow & Hcrow & ->).
    cbn [card_AccountID card_IsActive card_set_ID].
    destruct (Z.eqb_spec (card_AccountID crow) (pr_AccountID payment)) as [Hca|];
      cbn [negb]; [|discriminate].
    destruct (card_IsActive crow) eqn:Hcact; cbn [negb]; [|discriminate].
    destruct (acc_Balance row <? pr_Amount payment)%float eqn:Hbal; [discriminate|].
    destruct (BeginTx w1') as [[e|tx] w2] eqn:E2; [discriminate|].
    apply BeginTx_inv in E2 as [D2 Htx]. specialize (Htx tx eq_refl). subst tx.
    destruct (AccountRepo.UpdateBalance _ _ w2) as [[e|] w3] eqn:E3; [discriminate|].
    apply UpdateBalance_cases in E3 as [D3 _].
    destruct (TransactionRepo.Create _ w3) as [[e|tid] w4] eqn:E4; [discriminate|].
    apply TransactionRepo_Create_cases in E4 as [Hid D4].
    destruct (Tx_Commit _ w4) as [[e|] w5] eqn:E5; [discriminate|].
    apply Tx_Commit_empty_cases in E5.
    cbn [fst snd]. intros [= <-].
    assert (Hdb3 : db w3 = balance_added (pr_AccountID payment) (- pr_Amount payment) (db w))
      by congruence.
    exists row, crow. repeat split; try assumption.
    + rewrite Hid, Hdb3. reflexivity.
    + rewrite E5, D4, Hdb3. reflexivity.
  - (* failure *)
    intros err. unfold TransactionSvc.Pay.
    destruct (ValidatePaymentRequest payment); [cbn [fst snd]; intros [= <-]; left; not_those; reflexivity|].
    destruct (AccountRepo.GetByID _ w) as [[e|account] w1] eqn:E1;
      apply AccountRepo_GetByID_inv in E1 as [D1 Hacc]; [cbn [fst snd]; intros [= <-]; left; not_those; exact D1|].
    destruct (Hacc account eq_refl) as (row & Hrow & ->).
    cbn [acc_UserID acc_IsActive acc_Balance acc_Currency acc_set_ID].
    destruct (negb (acc_UserID row =? userID)); [cbn [fst snd]; intros [= <-]; left; not_those; exact D1|].
    destruct (negb (acc_IsActive row)); [cbn [fst snd]; intros [= <-]; left; not_those; exact D1|].
    destruct (CardRepo.GetByID _ _ w1) as [[e|card] w1'] eqn:E1';
      apply CardRepo_GetByID_inv in E1' as [D1' Hcard];
      [cbn [fst snd]; intros [= <-]; left; not_those; congruence|].
    destruct (negb (card_AccountID card =? pr_AccountID payment));
      [cbn [fst snd]; intros [= <-]; left; not_those; congruence|].
    destruct (negb (card_IsActive card)); [cbn [fst snd]; intros [= <-]; left; not_those; congruence|].
    destruct (acc_Balance row <? pr_Amount payment)%float;
      [cbn [fst snd]; intros [= <-]; left; not_those; congruence|].
    destruct (BeginTx w1') as [[e|tx] w2] eqn:E2;
      apply BeginTx_inv in E2 as [D2 Htx]; [cbn [fst snd]; intros [= <-]; left; not_those; congruence|].
    specialize (Htx tx eq_refl). subst tx.
    destruct (AccountRepo.UpdateBalance _ _ w2) as [[e|] w3] eqn:E3;
      apply UpdateBalance_cases in E3.
    { cbn [fst snd]. intros [= <-]. left. not_those.
      unfold Tx_Rollback, close_tx. cbn [db]. congruence. }
    destruct E3 as [D3 _].
    assert (Hdb3 : db w3 = balance_added (pr_AccountID payment) (- pr_Amount payment) (db w))
      by congruence.
    destruct (TransactionRepo.Create _ w3) as [[e|tid] w4] eqn:E4;
      apply TransactionRepo_Create_cases in E4.
    { cbn [fst snd]. intros [= <-]. right. left. split; [eauto|].
      unfold Tx_Rollback, close_tx. cbn [db]. congruence. }
    destruct E4 as [Hid D4].
    destruct (Tx_Commit _ w4) as [[e|] w5] eqn:E5;
      apply Tx_Commit_empty_cases in E5; cbn [fst snd]; [|discriminate].
    intros [= <-]. right. right. split; [eauto|]. exists row. split; [exact Hrow|].
    rewrite E5, D4, Hdb3. reflexivity.
  - (* a driver that does not fail *)
    intros Hf row card Hrow Hown Hact Hcard Hca Hcact Hamt Hbal.
    unfold TransactionSvc.Pay. unfold ValidatePaymentRequest. rewrite Hamt.
    rewrite (AccountRepo_GetByID_no_fault _ _ _ Hf Hrow).
    cbn [acc_UserID acc_set_ID]. rewrite Hown, Z.eqb_refl.
    cbn [negb acc_IsActive acc_Balance acc_set_ID]. rewrite Hact. cbn [negb].
    rewrite (CardRepo_GetByID_no_fault _ _ _ _ Hf Hcard).
    cbn [card_AccountID card_set_ID]. rewrite Hca, Z.eqb_refl.
    cbn [negb card_IsActive card_set_ID]. rewrite Hcact, Hbal. cbn [negb].
    rewrite (BeginTx_no_fault w Hf).
    rewrite (UpdateBalance_no_fault_ok (pr_AccountID payment) (- pr_Amount payment)
               (mkWorld (db w) [] (S (open_tx w))) row eq_refl Hrow
               (ltb_add_opp_nonneg _ _ Hbal)).
    rewrite (TransactionRepo_Create_no_fault _ (mkWorld _ [] _) eq_refl).
    rewrite (Tx_Commit_empty_no_fault (mkWorld _ [] _) eq_refl).
    reflexivity.
Qed.

Lemma lookup_balance_added_ne (id id' : Z) (amount : float) (d : DB) :
  id <> id' -> accounts (balance_added id amount d) !! id' = accounts d !! id'.
Proof. intros Hne. unfold balance_added. cbn. apply lookup_alter_ne. exact Hne. Qed.

(** The record [Transfer] writes for a source account [row]. *)
Lemma transfer_record_eq (now : Time) (transfer : TransferRequest) (id : Z) (row : Account) :
  txn_set_Status TransactionStatusCompleted
    (txn_set_Currency (acc_Currency (acc_set_ID id row)) (ToTransaction now transfer))
  = txn_set_Status TransactionStatusCompleted
      (txn_set_Currency (acc_Currency row) (ToTransaction now transfer)).
Proof. reflexivity. Qed.

(** X8. [Transfer], for every state and every script of driver faults.  On
    success the two accounts are different, active and of one currency,
    the source is the caller's and covered the amount, the amount has been
    taken from the source and added to the destination, and one COMPLETED
    record has been appended.  On an error the tables are as they were,
    except that a failed credit of the destination leaves the debit, a
    failure to write the record leaves both balances changed, and a
    failure to commit leaves them changed and the record written.  With a
    driver that does not fail, a positive amount covered by the source
    goes through. *)
Theorem Transfer_outcome (now : Time) (transfer : TransferRequest) (userID : Z)
    (w : World) :
  let r := TransactionSvc.Transfer now transfer userID w in
  let src := tr_SourceAccountID transfer in
  let dst := tr_DestinationAccountID transfer in
  let debited := balance_added src (- tr_Amount transfer) (db w) in
  let moved := balance_added dst (tr_Amount transfer) debited in
  let record := fun row : Account =>
    txn_set_Status TransactionStatusCompleted
      (txn_set_Currency (acc_Currency row) (ToTransaction now transfer)) in
  (forall id, fst r = inr id ->
     exists srow drow,
       accounts (db w) !! src = Some srow /\ accounts (db w) !! dst = Some drow
       /\ src <> dst
       /\ acc_UserID srow = userID /\ acc_IsActive srow = true
       /\ acc_IsActive drow = true /\ acc_Currency srow = acc_Currency drow
       /\ (acc_Balance srow <? tr_Amount transfer)%float = false
       /\ id = next_transaction_id (db w)
       /\ db (snd r) = record_added (record srow) moved)
  /\ (forall err, fst r = inl err ->
        ((forall e, err <> Wrap "failed to update destination account balance" e)
         /\ (forall e, err <> Wrap "failed to create transaction record" e)
         /\ (forall e, err <> Wrap "failed to commit transaction" e)
         /\ db (snd r) = db w)
        \/ ((exists e, err = Wrap "failed to update destination account balance" e)
            /\ db (snd r) = debited)
        \/ ((exists e, err = Wrap "failed to create transaction record" e)
            /\ db (snd r) = moved)
        \/ ((exists e, err = Wrap "failed to commit transaction" e)
            /\ exists srow, accounts (db w) !! src = Some srow
                            /\ db (snd r) = record_added (record srow) moved))
  /\ (faults w = [] ->
      forall srow drow,
        accounts (db w) !! src = Some srow -> accounts (db w) !! dst = Some drow ->
        src <> dst ->
        acc_UserID srow = userID -> acc_IsActive srow = true ->
        acc_IsActive drow = true -> acc_Currency srow = acc_Currency drow ->
        (tr_Amount transfer <=? 0)%float = false ->
        (acc_Balance srow <? tr_Amount transfer)%float = false ->
        (acc_Balance drow <? 0)%float = false ->
        fst r = inr (next_transaction_id (db w))).
Proof.
  cbv zeta. split; [|split].
  - (* success *)
    intros id. unfold TransactionSvc.Transfer, ValidateTransferRequest.
    destruct (Z.eqb_spec (tr_SourceAccountID transfer) (tr_DestinationAccountID transfer))
      as [|Hne]; [discriminate|].
    destruct (tr_Amount transfer <=? 0)%float; [discriminate|].
    destruct (AccountRepo.GetByID _ w) as [[e|sourceAccount] w1] eqn:E1; [discriminate|].
    apply AccountRepo_GetByID_inv in E1 as [D1 Hacc].
    destruct (Hacc sourceAccount eq_refl) as (srow & Hsrow & ->).
    cbn [acc_UserID acc_IsActive acc_Balance acc_Currency acc_set_ID].
    destruct (Z.eqb_spec (acc_UserID srow) userID) as [Hown|]; cbn [negb]; [|discriminate].
    destruct (acc_IsActive srow) eqn:Hact; cbn [negb]; [|discriminate].
    destruct (acc_Balance srow <? tr_Amount transfer)%float eqn:Hbal; [discriminate|].
    destruct (AccountRepo.GetByID _ w1) as [[e|destAccount] w1'] eqn:E1'; [discriminate|].
    apply AccountRepo_GetByID_inv in E1' as [D1' Hacc'].
    destruct (Hacc' destAccount eq_refl) as (drow & Hdrow & ->).
    cbn [acc_UserID acc_IsActive acc_Balance acc_Currency acc_set_ID].
    destruct (acc_IsActive drow) eqn:Hdact; cbn [negb]; [|discriminate].
    case_bool_decide as Hcur; cbn [negb]; [|discriminate].
    destruct (BeginTx w1') as [[e|tx] w2] eqn:E2; [discriminate|].
    apply BeginTx_inv in E2 as [D2 Htx]. specialize (Htx tx eq_refl). subst tx.
    destruct (AccountRepo.UpdateBalance _ _ w2) as [[e|] w3] eqn:E3; [discriminate|].
    apply UpdateBalance_cases in E3 as [D3 _].
    destruct (AccountRepo.UpdateBalance _ _ w3) as [[e|] w3'] eqn:E3'; [discriminate|].
    apply UpdateBalance_cases in E3' as [D3' _].
    destruct (TransactionRepo.Create _ w3') as [[e|tid] w4] eqn:E4; [discriminate|].
    apply TransactionRepo_Create_cases in E4 as [Hid D4].
    destruct (Tx_Commit _ w4) as [[e|] w5] eqn:E5; [discriminate|].
    apply Tx_Commit_empty_cases in E5.
    cbn [fst snd]. intros [= <-].
    assert (Hdb3 : db w3' = balance_added (tr_DestinationAccountID transfer)
                              (tr_Amount transfer)
                              (balance_added (tr_SourceAccountID transfer)
                                 (- tr_Amount transfer) (db w)))
      by congruence.
    exists srow, drow. rewrite D1 in Hdrow. repeat split; try assumption.
    + rewrite Hid, Hdb3. reflexivity.
    + rewrite E5, D4, Hdb3. reflexivity.
  - (* failure *)
    intros err. unfold TransactionSvc.Transfer.
    destruct (ValidateTransferRequest transfer); [cbn [fst snd]; intros [= <-]; left; not_those; reflexivity|].
    destruct (AccountRepo.GetByID _ w) as [[e|sourceAccount] w1] eqn:E1;
      apply AccountRepo_GetByID_inv in E1 as [D1 Hacc]; [cbn [fst snd]; intros [= <-]; left; not_those; exact D1|].
    destruct (Hacc sourceAccount eq_refl) as (srow & Hsrow & ->).
    cbn [acc_UserID acc_IsActive acc_Balance acc_Currency acc_set_ID].
    destruct (negb (acc_UserID srow =? userID)); [cbn [fst snd]; intros [= <-]; left; not_those; exact D1|].
    destruct (negb (acc_IsActive srow)); [cbn [fst snd]; intros [= <-]; left; not_those; exact D1|].
    destruct (acc_Balance srow <? tr_Amount transfer)%float; [cbn [fst snd]; intros [= <-]; left; not_those; exact D1|].
    destruct (AccountRepo.GetByID _ w1) as [[e|destAccount] w1'] eqn:E1';
      apply AccountRepo_GetByID_inv in E1' as [D1' Hacc'];
      [cbn [fst snd]; intros [= <-]; left; not_those; congruence|].
    destruct (negb (acc_IsActive destAccount)); [cbn [fst snd]; intros [= <-]; left; not_those; congruence|].
    destruct (negb (bool_decide _)); [cbn [fst snd]; intros [= <-]; left; not_those; congruence|].
    destruct (BeginTx w1') as [[e|tx] w2] eqn:E2;
      apply BeginTx_inv in E2 as [D2 Htx]; [cbn [fst snd]; intros [= <-]; left; not_those; congruence|].
    specialize (Htx tx eq_refl). subst tx.
    destruct (AccountRepo.UpdateBalance _ _ w2) as [[e|] w3] eqn:E3;
      apply UpdateBalance_cases in E3.
    { cbn [fst snd]. intros [= <-]. left. not_those.
      unfold Tx_Rollback, close_tx. cbn [db]. congruence. }
    destruct E3 as [D3 _].
    assert (Hdb3 : db w3 = balance_added (tr_SourceAccountID transfer)
                             (- tr_Amount transfer) (db w)) by congruence.
    destruct (AccountRepo.UpdateBalance _ _ w3) as [[e|] w3'] eqn:E3';
      apply UpdateBalance_cases in E3'.
    { cbn [fst snd]. intros [= <-]. right. left. split; [eauto|].
      unfold Tx_Rollback, close_tx. cbn [db]. congruence. }
    destruct E3' as [D3' _].
    assert (Hdb3' : db w3' = balance_added (tr_DestinationAccountID transfer)
                               (tr_Amount transfer)
                               (balance_added (tr_SourceAccountID transfer)
                                  (- tr_Amount transfer) (db w))) by congruence.
    destruct (TransactionRepo.Create _ w3') as [[e|tid] w4] eqn:E4;
      apply TransactionRepo_Create_cases in E4.
    { cbn [fst snd]. intros [= <-]. right. right. left. split; [eauto|].
      unfold Tx_Rollback, close_tx. cbn [db]. congruence. }
    destruct E4 as [Hid D4].
    destruct (Tx_Commit _ w4) as [[e|] w5] eqn:E5;
      apply Tx_Commit_empty_cases in E5; cbn [fst snd]; [|discriminate].
    intros [= <-]. right. right. right. split; [eauto|].
    exists srow. split; [exact Hsrow|]. rewrite E5, D4, Hdb3'. reflexivity.
  - (* a driver that does not fail *)
    intros Hf srow drow Hsrow Hdrow Hne Hown Hact Hdact Hcur Hamt Hbal Hdbal.
    unfold TransactionSvc.Transfer, ValidateTransferRequest.
    destruct (Z.eqb_spec (tr_SourceAccountID transfer) (tr_DestinationAccountID transfer))
      as [|_]; [contradiction|].
    rewrite Hamt.
    rewrite (AccountRepo_GetByID_no_fault _ _ _ Hf Hsrow).
    cbn [acc_UserID acc_set_ID]. rewrite Hown, Z.eqb_refl.
    cbn [negb acc_IsActive acc_Balance acc_set_ID]. rewrite Hact, Hbal. cbn [negb].
    rewrite (AccountRepo_GetByID_no_fault _ _ _ Hf Hdrow).
    cbn [acc_IsActive acc_Currency acc_set_ID]. rewrite Hdact. cbn [negb].
    rewrite (bool_decide_eq_true_2 _ Hcur). cbn [negb].
    rewrite (BeginTx_no_fault w Hf).
    rewrite (UpdateBalance_no_fault_ok (tr_SourceAccountID transfer)
               (- tr_Amount transfer)
               (mkWorld (db w) [] (S (open_tx w))) srow eq_refl Hsrow
               (ltb_add_opp_nonneg _ _ Hbal)).
    cbn [db open_tx].
    assert (Hdrow' : accounts (db (mkWorld (balance_added (tr_SourceAccountID transfer)
                                             (- tr_Amount transfer) (db w)) []
                                     (S (open_tx w))))
                     !! tr_DestinationAccountID transfer = Some drow).
    { cbn [db]. rewrite lookup_balance_added_ne by exact Hne. exact Hdrow. }
    rewrite (UpdateBalance_no_fault_ok (tr_DestinationAccountID transfer)
               (tr_Amount transfer) (mkWorld _ [] _) drow eq_refl Hdrow'
               (ltb_add_pos_nonneg _ _ Hdbal Hamt)).
    rewrite (TransactionRepo_Create_no_fault _ (mkWorld _ [] _) eq_refl).
    rewrite (Tx_Commit_empty_no_fault (mkWorld _ [] _) eq_refl).
    reflexivity.
Qed.

Lemma Deposit_outcome_witness :
  fst (AccountSvc.Deposit 0 1 7 (mkDepositRequest 1 25 "cash") (mkWorld two_accounts [] 0))
  = inr 1.
Proof.
  apply (proj2 (proj2 (Deposit_outcome 0 1 7 (mkDepositRequest 1 25 "cash")
                         (mkWorld two_accounts [] 0)))
           eq_refl (checking_account 7 100)); reflexivity.
Defined.

Lemma Withdraw_outcome_witness :
  fst (AccountSvc.Withdraw 0 1 7 (mkWithdrawalRequest 1 25 "cash")
         (mkWorld two_accounts [] 0))
  = inr 1.
Proof.
  apply (proj2 (proj2 (Withdraw_outcome 0 1 7 (mkWithdrawalRequest 1 25 "cash")
                         (mkWorld two_accounts [] 0)))
           eq_refl (checking_account 7 100)); reflexivity.
Defined.

Lemma Pay_outcome_witness :
  fst (TransactionSvc.Pay 0 one_card (mkPaymentRequest 1 3 25 "shop") 7
         (mkWorld two_accounts [] 0))
  = inr 1.
Proof.
  apply (proj2 (proj2 (Pay_outcome 0 one_card (mkPaymentRequest 1 3 25 "shop") 7
                         (mkWorld two_accounts [] 0)))
           eq_refl (checking_account 7 100)
           (mkCard 0 1 "2200012345678901" "01/30" "123" "debit" true)); reflexivity.
Defined.

Lemma Transfer_outcome_witness :
  fst (TransactionSvc.Transfer 0 transfer_30 7 (mkWorld two_accounts [] 0)) = inr 1.
Proof.
  apply (proj2 (proj2 (Transfer_outcome 0 transfer_30 7 (mkWorld two_accounts [] 0)))
           eq_refl (checking_account 7 100) (checking_account 8 50));
    first [reflexivity | discriminate].
Defined.

(* ===================================================================== *)
(** ** The accounts table under the money-moving services                 *)
(* ===================================================================== *)

Lemma account_kept_refl (row : Account) : account_kept row row.
Proof. unfold account_kept. repeat split; try reflexivity. left. reflexivity. Qed.

Lemma account_kept_trans (r1 r2 r3 : Account) :
  account_kept r1 r2 -> account_kept r2 r3 -> account_kept r1 r3.
Proof.
  unfold account_kept. intros (A1 & A2 & A3 & A4 & A5 & A6) (B1 & B2 & B3 & B4 & B5 & B6).
  repeat split; try congruence.
  destruct B6 as [B6|B6]; [|right; exact B6].
  destruct A6 as [A6|A6]; [left; congruence | right; congruence].
Qed.

Lemma accounts_kept_refl (d : DB) : accounts_kept d d.
Proof.
  intros id. destruct (accounts d !! id) as [row|] eqn:E; [|reflexivity].
  exists row. split; [reflexivity | apply account_kept_refl].
Qed.

Lemma accounts_kept_trans (d1 d2 d3 : DB) :
  accounts_kept d1 d2 -> accounts_kept d2 d3 -> accounts_kept d1 d3.
Proof.
  intros H12 H23 id. specialize (H12 id). specialize (H23 id).
  destruct (accounts d1 !! id) as [r1|].
  - destruct H12 as (r2 & E2 & K12). rewrite E2 in H23.
    destruct H23 as (r3 & E3 & K23). exists r3. split; [exact E3|].
    eapply account_kept_trans; eassumption.
  - rewrite H12 in H23. exact H23.
Qed.

Lemma accounts_kept_eq (d d' : DB) : accounts d' = accounts d -> accounts_kept d d'.
Proof.
  intros Heq id. rewrite Heq. destruct (accounts d !! id) as [row|]; [|reflexivity].
  exists row. split; [reflexivity | apply account_kept_refl].
Qed.

Lemma accounts_kept_db_eq (d d' : DB) : d' = d -> accounts_kept d d'.
Proof. intros ->. apply accounts_kept_refl. Qed.

Lemma accounts_kept_balance_added (d : DB) (id : Z) (amount : float) (row : Account) :
  accounts d !! id = Some row ->
  (acc_Balance row + amount <? 0)%float = false ->
  accounts_kept d (balance_added id amount d).
Proof.
  intros Hrow Hneg k. unfold balance_added. cbn [accounts].
  destruct (decide (k = id)) as [->|Hne].
  - rewrite Hrow, lookup_alter_eq, Hrow. cbn. eexists. split; [reflexivity|].
    unfold account_kept. cbn. repeat split; try reflexivity. right. exact Hneg.
  - rewrite lookup_alter_ne by congruence.
    destruct (accounts d !! k) as [r|]; [|reflexivity].
    exists r. split; [reflexivity | apply account_kept_refl].
Qed.

Lemma accounts_kept_nonneg (d d' : DB) :
  accounts_kept d d' -> nonneg_balances d -> nonneg_balances d'.
Proof.
  intros HK Hd id row' Hrow'. specialize (HK id).
  destruct (accounts d !! id) as [row|] eqn:Hrow; [|congruence].
  destruct HK as (row'' & E & K). assert (row'' = row') by congruence. subst row''.
  destruct K as (_ & _ & _ & _ & _ & [Hb|Hb]); [|exact Hb].
  rewrite Hb. eapply Hd. exact Hrow.
Qed.


Lemma ledger_kept_refl (d : DB) : ledger_kept d d.
Proof. split; [apply accounts_kept_refl | reflexivity]. Qed.

Lemma ledger_kept_trans (d1 d2 d3 : DB) :
  ledger_kept d1 d2 -> ledger_kept d2 d3 -> ledger_kept d1 d3.
Proof.
  intros [A12 T12] [A23 T23]. split.
  - eapply accounts_kept_trans; eassumption.
  - etransitivity; eassumption.
Qed.

Lemma ledger_kept_db_eq (d d' : DB) : d' = d -> ledger_kept d d'.
Proof. intros ->. apply ledger_kept_refl. Qed.

Lemma UpdateBalance_kept (id : Z) (amount : float) (w w' : World) (r : option error) :
  AccountRepo.UpdateBalance id amount w = (r, w') -> ledger_kept (db w) (db w').
Proof.
  intros E. apply UpdateBalance_cases in E. destruct r as [e|].
  - apply ledger_kept_db_eq. exact E.
  - destruct E as (-> & row & Hrow & Hneg). split.
    + eapply accounts_kept_balance_added; eassumption.
    + reflexivity.
Qed.

Lemma TransactionRepo_Create_kept (t : Transaction) (w w' : World) (r : error + Z) :
  TransactionRepo.Create t w = (r, w') -> ledger_kept (db w) (db w').
Proof.
  intros E. apply TransactionRepo_Create_inv in E as (A & _ & _ & T). split.
  - apply accounts_kept_eq, A.
  - destruct r as [e|id]; rewrite T; [reflexivity | apply prefix_app_r; reflexivity].
Qed.

(** The steps that leave the tables, or at least the accounts, alone. *)
Lemma AccountRepo_GetByID_kept (id : Z) (w w' : World) (r : error + Account) :
  AccountRepo.GetByID id w = (r, w') -> ledger_kept (db w) (db w').
Proof. intros E. apply AccountRepo_GetByID_inv in E as [D _]. apply ledger_kept_db_eq, D. Qed.

Lemma AccountSvc_GetByID_kept (id userID : Z) (w w' : World) (r : error + Account) :
  AccountSvc.GetByID id userID w = (r, w') -> ledger_kept (db w) (db w').
Proof. intros E. apply AccountSvc_GetByID_inv in E as [D _]. apply ledger_kept_db_eq, D. Qed.

Lemma CardRepo_GetByID_kept (cards : gmap Z Card) (id : Z) (w w' : World)
    (r : error + Card) :
  CardRepo.GetByID cards id w = (r, w') -> ledger_kept (db w) (db w').
Proof. intros E. apply CardRepo_GetByID_inv in E as [D _]. apply ledger_kept_db_eq, D. Qed.

Lemma CreditRepo_GetByID_kept (id : Z) (w w' : World) (r : error + Credit) :
  CreditRepo.GetByID id w = (r, w') -> ledger_kept (db w) (db w').
Proof. intros E. apply CreditRepo_GetByID_inv in E as [D _]. apply ledger_kept_db_eq, D. Qed.

Lemma BeginTx_kept (w w' : World) (r : error + Tx) :
  BeginTx w = (r, w') ->
  ledger_kept (db w) (db w') /\ forall tx, r = inr tx -> tx = mkTx [].
Proof.
  intros E. apply BeginTx_inv in E as [D H]. split; [apply ledger_kept_db_eq, D | exact H].
Qed.

Lemma Tx_Commit_empty_kept (w w' : World) (r : option error) :
  Tx_Commit (mkTx []) w = (r, w') -> ledger_kept (db w) (db w').
Proof. intros E. apply Tx_Commit_empty_cases in E. apply ledger_kept_db_eq, E. Qed.

Lemma PaymentScheduleRepo_Update_kept (p : PaymentSchedule) (w w' : World)
    (r : option error) :
  PaymentScheduleRepo.Update p w = (r, w') -> ledger_kept (db w) (db w').
Proof.
  intros E. apply PaymentScheduleRepo_Update_inv in E as (A & _ & T & _). split.
  - apply accounts_kept_eq, A.
  - rewrite T. reflexivity.
Qed.

Lemma CreditRepo_Update_kept (c : Credit) (w w' : World) (r : option error) :
  CreditRepo.Update c w = (r, w') -> ledger_kept (db w) (db w').
Proof.
  intros E. apply CreditRepo_Update_inv in E as (A & _ & T & _). split.
  - apply accounts_kept_eq, A.
  - rewrite T. reflexivity.
Qed.

(** One more step on a chain of kept accounts. *)
Tactic Notation "kept_on" hyp(K) hyp(E) :=
  let K' := fresh "K'" in
  pose proof (ledger_kept_trans _ _ _ K E) as K'; clear K E; rename K' into K.

Lemma Deposit_kept (now : Time) (accountID userID : Z) (deposit : DepositRequest)
    (w : World) :
  ledger_kept (db w) (db (snd (AccountSvc.Deposit now accountID userID deposit w))).
Proof.
  pose proof (ledger_kept_refl (db w)) as K.
  unfold AccountSvc.Deposit.
  destruct (ValidateDepositRequest deposit); [exact K|].
  destruct (AccountSvc.GetByID _ _ w) as [[e|account] w1] eqn:E;
    apply AccountSvc_GetByID_kept in E; kept_on K E; [assumption|].
  destruct (negb (acc_IsActive account)); [assumption|].
  destruct (BeginTx w1) as [[e|tx] w2] eqn:E;
    apply BeginTx_kept in E as [E Htx]; kept_on K E; [assumption|].
  specialize (Htx tx eq_refl). subst tx.
  destruct (AccountRepo.UpdateBalance _ _ w2) as [[e|] w3] eqn:E;
    apply UpdateBalance_kept in E; kept_on K E; [assumption|].
  destruct (TransactionRepo.Create _ w3) as [[e|tid] w4] eqn:E;
    apply TransactionRepo_Create_kept in E; kept_on K E; [assumption|].
  destruct (Tx_Commit _ w4) as [[e|] w5] eqn:E;
    apply Tx_Commit_empty_kept in E; kept_on K E; assumption.
Qed.

Lemma Withdraw_kept (now : Time) (accountID userID : Z) (withdrawal : WithdrawalRequest)
    (w : World) :
  ledger_kept (db w) (db (snd (AccountSvc.Withdraw now accountID userID withdrawal w))).
Proof.
  pose proof (ledger_kept_refl (db w)) as K.
  unfold AccountSvc.Withdraw.
  destruct (ValidateWithdrawalRequest withdrawal); [exact K|].
  destruct (AccountSvc.GetByID _ _ w) as [[e|account] w1] eqn:E;
    apply AccountSvc_GetByID_kept in E; kept_on K E; [assumption|].
  destruct (negb (acc_IsActive account)); [assumption|].
  destruct (acc_Balance account <? wr_Amount withdrawal)%float; [assumption|].
  destruct (BeginTx w1) as [[e|tx] w2] eqn:E;
    apply BeginTx_kept in E as [E Htx]; kept_on K E; [assumption|].
  specialize (Htx tx eq_refl). subst tx.
  destruct (AccountRepo.UpdateBalance _ _ w2) as [[e|] w3] eqn:E;
    apply UpdateBalance_kept in E; kept_on K E; [assumption|].
  destruct (TransactionRepo.Create _ w3) as [[e|tid] w4] eqn:E;
    apply TransactionRepo_Create_kept in E; kept_on K E; [assumption|].
  destruct (Tx_Commit _ w4) as [[e|] w5] eqn:E;
    apply Tx_Commit_empty_kept in E; kept_on K E; assumption.
Qed.

Lemma Pay_kept (now : Time) (cards : gmap Z Card) (payment : PaymentRequest)
    (userID : Z) (w : World) :
  ledger_kept (db w) (db (snd (TransactionSvc.Pay now cards payment userID w))).
Proof.
  pose proof (ledger_kept_refl (db w)) as K.
  unfold TransactionSvc.Pay.
  destruct (ValidatePaymentRequest payment); [exact K|].
  destruct (AccountRepo.GetByID _ w) as [[e|account] w1] eqn:E;
    apply AccountRepo_GetByID_kept in E; kept_on K E; [assumption|].
  destruct (negb (acc_UserID account =? userID)); [assumption|].
  destruct (negb (acc_IsActive account)); [assumption|].
  destruct (CardRepo.GetByID _ _ w1) as [[e|card] w1'] eqn:E;
    apply CardRepo_GetByID_kept in E; kept_on K E; [assumption|].
  destruct (negb (card_AccountID card =? pr_AccountID payment)); [assumption|].
  destruct (negb (card_IsActive card)); [assumption|].
  destruct (acc_Balance account <? pr_Amount payment)%float; [assumption|].
  destruct (BeginTx w1') as [[e|tx] w2] eqn:E;
    apply BeginTx_kept in E as [E Htx]; kept_on K E; [assumption|].
  specialize (Htx tx eq_refl). subst tx.
  destruct (AccountRepo.UpdateBalance _ _ w2) as [[e|] w3] eqn:E;
    apply UpdateBalance_kept in E; kept_on K E; [assumption|].
  destruct (TransactionRepo.Create _ w3) as [[e|tid] w4] eqn:E;
    apply TransactionRepo_Create_kept in E; kept_on K E; [assumption|].
  destruct (Tx_Commit _ w4) as [[e|] w5] eqn:E;
    apply Tx_Commit_empty_kept in E; kept_on K E; assumption.
Qed.

Lemma Transfer_kept (now : Time) (transfer : TransferRequest) (userID : Z) (w : World) :
  ledger_kept (db w) (db (snd (TransactionSvc.Transfer now transfer userID w))).
Proof.
  pose proof (ledger_kept_refl (db w)) as K.
  unfold TransactionSvc.Transfer.
  destruct (ValidateTransferRequest transfer); [exact K|].
  destruct (AccountRepo.GetByID _ w) as [[e|sourceAccount] w1] eqn:E;
    apply AccountRepo_GetByID_kept in E; kept_on K E; [assumption|].
  destruct (negb (acc_UserID sourceAccount =? userID)); [assumption|].
  destruct (negb (acc_IsActive sourceAccount)); [assumption|].
  destruct (acc_Balance sourceAccount <? tr_Amount transfer)%float; [assumption|].
  destruct (AccountRepo.GetByID _ w1) as [[e|destAccount] w1'] eqn:E;
    apply AccountRepo_GetByID_kept in E; kept_on K E; [assumption|].
  destruct (negb (acc_IsActive destAccount)); [assumption|].
  destruct (negb (bool_decide _)); [assumption|].
  destruct (BeginTx w1') as [[e|tx] w2] eqn:E;
    apply BeginTx_kept in E as [E Htx]; kept_on K E; [assumption|].
  specialize (Htx tx eq_refl). subst tx.
  destruct (AccountRepo.UpdateBalance _ _ w2) as [[e|] w3] eqn:E;
    apply UpdateBalance_kept in E; kept_on K E; [assumption|].
  destruct (AccountRepo.UpdateBalance _ _ w3) as [[e|] w3'] eqn:E;
    apply UpdateBalance_kept in E; kept_on K E; [assumption|].
  destruct (TransactionRepo.Create _ w3') as [[e|tid] w4] eqn:E;
    apply TransactionRepo_Create_kept in E; kept_on K E; [assumption|].
  destruct (Tx_Commit _ w4) as [[e|] w5] eqn:E;
    apply Tx_Commit_empty_kept in E; kept_on K E; assumption.
Qed.

Lemma mark_overdue_kept (p : PaymentSchedule) (c : Credit) (w : World) :
  ledger_kept (db w) (db (CreditSvc.mark_overdue p c w)).
Proof.
  destruct (mark_overdue_step p c w) as (_ & _ & A & T). cbv zeta in A, T. split.
  - apply accounts_kept_eq, A.
  - rewrite T. reflexivity.
Qed.

Lemma process_payment_kept (now : Time) (w : World) (p : PaymentSchedule) :
  ledger_kept (db w) (db (CreditSvc.process_payment now w p)).
Proof.
  pose proof (ledger_kept_refl (db w)) as K.
  unfold CreditSvc.process_payment.
  destruct (CreditRepo.GetByID _ w) as [[e|credit] w1] eqn:E;
    apply CreditRepo_GetByID_kept in E; kept_on K E; [assumption|].
  destruct (AccountRepo.GetByID _ w1) as [[e|account] w2] eqn:E;
    apply AccountRepo_GetByID_kept in E; kept_on K E; [assumption|].
  destruct (BeginTx w2) as [[e|tx] w3] eqn:E;
    apply BeginTx_kept in E as [E Htx]; kept_on K E; [assumption|].
  specialize (Htx tx eq_refl). subst tx.
  destruct (AccountRepo.UpdateBalance _ _ w3) as [[err|] w4] eqn:E;
    apply UpdateBalance_kept in E; kept_on K E.
  - destruct (Contains _ _); [|exact K].
    eapply ledger_kept_trans; [exact K|].
    exact (mark_overdue_kept _ _ (Tx_Rollback (mkTx []) w4)).
  - destruct (TransactionRepo.Create _ w4) as [[e|tid] w5] eqn:E;
      apply TransactionRepo_Create_kept in E; kept_on K E; [assumption|].
    destruct (PaymentScheduleRepo.Update _ w5) as [[e|] w6] eqn:E;
      apply PaymentScheduleRepo_Update_kept in E; kept_on K E; [assumption|].
    eapply ledger_kept_trans; [eassumption|].
    apply ledger_kept_db_eq, Tx_Commit_empty_db.
Qed.

Lemma sweep_kept (now : Time) (l : list PaymentSchedule) (w : World) :
  ledger_kept (db w) (db (foldl (CreditSvc.process_payment now) w l)).
Proof.
  revert w. induction l as [|p l IH]; intros w; cbn [foldl]; [apply ledger_kept_refl|].
  eapply ledger_kept_trans; [apply process_payment_kept | apply IH].
Qed.

Lemma ProcessPayments_kept (now : Time) (w : World) :
  ledger_kept (db w) (db (snd (CreditSvc.ProcessPayments now w))).
Proof.
  unfold CreditSvc.ProcessPayments, PaymentScheduleRepo.GetPendingPayments.
  destruct (driver_call w) as [f w1] eqn:E. apply driver_call_inv in E.
  destruct f; cbn [snd].
  - apply ledger_kept_db_eq, E.
  - rewrite <- E. apply sweep_kept.
Qed.

(** X9. No money-moving service ([UpdateBalance], [Deposit], [Withdraw],
    [Pay], [Transfer], [ProcessPayments]) creates or removes an account,
    changes anything of an account but its balance, or stores a balance
    below zero; none changes or removes a transaction record.  So balances
    that are not below zero stay so. *)
Theorem ledger_keeps_accounts_and_records (w : World) :
  (forall id amount,
      ledger_kept (db w) (db (snd (AccountRepo.UpdateBalance id amount w))))
  /\ (forall now accountID userID deposit,
        ledger_kept (db w)
          (db (snd (AccountSvc.Deposit now accountID userID deposit w))))
  /\ (forall now accountID userID withdrawal,
        ledger_kept (db w)
          (db (snd (AccountSvc.Withdraw now accountID userID withdrawal w))))
  /\ (forall now cards payment userID,
        ledger_kept (db w) (db (snd (TransactionSvc.Pay now cards payment userID w))))
  /\ (forall now transfer userID,
        ledger_kept (db w) (db (snd (TransactionSvc.Transfer now transfer userID w))))
  /\ (forall now, ledger_kept (db w) (db (snd (CreditSvc.ProcessPayments now w))))
  /\ (forall d', ledger_kept (db w) d' ->
        nonneg_balances (db w) -> nonneg_balances d').
Proof.
  split; [|split; [|split; [|split; [|split; [|split]]]]].
  - intros id amount.
    destruct (AccountRepo.UpdateBalance id amount w) as [r w'] eqn:E.
    apply UpdateBalance_kept in E. exact E.
  - intros. apply Deposit_kept.
  - intros. apply Withdraw_kept.
  - intros. apply Pay_kept.
  - intros. apply Transfer_kept.
  - intros. apply ProcessPayments_kept.
  - intros d' [HK _]. apply accounts_kept_nonneg. exact HK.
Qed.

(* ===================================================================== *)
(** ** Reading a transaction, updating and deleting an account            *)
(* ===================================================================== *)

Lemma owned_by_inv (userID : Z) (accountIDs : list Z) (w w' : World) (b : bool) :
  TransactionSvc.owned_by userID accountIDs w = (b, w') ->
  db w' = db w
  /\ (b = true ->
      exists accountID row,
        accountID ∈ accountIDs /\ accounts (db w) !! accountID = Some row
        /\ acc_UserID row = userID).
Proof.
  revert w. induction accountIDs as [|a l IH]; intros w; cbn [TransactionSvc.owned_by].
  - intros [= <- <-]. split; [reflexivity | discriminate].
  - destruct (AccountRepo.GetByID a w) as [[e|account] w1] eqn:E;
      apply AccountRepo_GetByID_inv in E as [D Hacc].
    + intros H. apply IH in H as [D' H]. split; [congruence|].
      intros Hb. destruct (H Hb) as (x & row & Hin & Hrow & Hown).
      exists x, row. rewrite D in Hrow. repeat split; [right|..]; assumption.
    + destruct (Hacc account eq_refl) as (row & Hrow & ->). cbn [acc_UserID acc_set_ID].
      destruct (Z.eqb_spec (acc_UserID row) userID) as [Hown|Hown].
      * intros [= <- <-]. split; [exact D|]. intros _.
        exists a, row. repeat split; [left|..]; assumption.
      * intros H. apply IH in H as [D' H]. split; [congruence|].
        intros Hb. destruct (H Hb) as (x & row' & Hin & Hrow' & Hown').
        exists x, row'. rewrite D in Hrow'. repeat split; [right|..]; assumption.
Qed.

Lemma owned_by_no_fault (userID : Z) (accountIDs : list Z) (w : World)
    (accountID : Z) (row : Account) :
  faults w = [] ->
  accountID ∈ accountIDs -> accounts (db w) !! accountID = Some row ->
  acc_UserID row = userID ->
  TransactionSvc.owned_by userID accountIDs w = (true, w).
Proof.
  intros Hf Hin Hrow Hown.
  induction accountIDs as [|a l IH]; [inversion Hin|].
  cbn [TransactionSvc.owned_by]. unfold AccountRepo.GetByID.
  rewrite (driver_call_no_fault w Hf).
  destruct (accounts (db w) !! a) as [row'|] eqn:Hrow'.
  - cbn [acc_UserID acc_set_ID].
    destruct (Z.eqb_spec (acc_UserID row') userID) as [|Hne]; [reflexivity|].
    apply IH. apply elem_of_cons in Hin as [->|Hin]; [congruence | exact Hin].
  - apply IH. apply elem_of_cons in Hin as [->|Hin]; [congruence | exact Hin].
Qed.

(** The accounts a transaction record names. *)
Lemma transaction_accounts_spec (t : Transaction) (accountID : Z) :
  accountID ∈ (match txn_DestinationAccountID t with
               | Some d =>
                   match txn_SourceAccountID t with Some s => [s] | None => [] end ++ [d]
               | None => match txn_SourceAccountID t with Some s => [s] | None => [] end
               end)
  <-> txn_SourceAccountID t = Some accountID \/ txn_DestinationAccountID t = Some accountID.
Proof.
  destruct (txn_SourceAccountID t) as [s|], (txn_DestinationAccountID t) as [d|]; cbn;
    rewrite ?elem_of_cons, ?elem_of_nil; split; intros H;
    repeat match goal with
           | H : _ \/ _ |- _ => destruct H
           | H : Some _ = Some _ |- _ => injection H as ->
           | H : False |- _ => destruct H
           end; subst; try discriminate; auto.
Qed.

(** X10. [TransactionSvc.GetByID] writes nothing and hands out a record
    only to a user who owns the source or the destination account it
    names; with a driver that does not fail, such a user gets the
    record. *)
Theorem transaction_read_access (id userID : Z) (w : World) :
  let r := TransactionSvc.GetByID id userID w in
  db (snd r) = db w
  /\ (forall t, fst r = inr t ->
        List.find (fun t => txn_ID t =? id) (transactions (db w)) = Some t
        /\ exists accountID row,
             (txn_SourceAccountID t = Some accountID
              \/ txn_DestinationAccountID t = Some accountID)
             /\ accounts (db w) !! accountID = Some row
             /\ acc_UserID row = userID)
  /\ (faults w = [] ->
      forall t accountID row,
        List.find (fun t => txn_ID t =? id) (transactions (db w)) = Some t ->
        (txn_SourceAccountID t = Some accountID
         \/ txn_DestinationAccountID t = Some accountID) ->
        accounts (db w) !! accountID = Some row -> acc_UserID row = userID ->
        fst r = inr t).
Proof.
  cbv zeta. unfold TransactionSvc.GetByID, TransactionRepo.GetByID.
  destruct (driver_call w) as [f w1] eqn:E.
  destruct f.
  - (* the query failed *)
    pose proof (driver_call_inv _ _ _ E) as D. cbn [fst snd]. split; [exact D|]. split.
    + intros t [=].
    + intros Hf. rewrite (driver_call_no_fault w Hf) in E. discriminate.
  - assert (D : db w1 = db w) by (apply driver_call_inv in E; exact E).
    rewrite D.
    destruct (List.find _ (transactions (db w))) as [t|] eqn:Hfind.
    2:{ cbn [fst snd]. split; [exact D|]. split; [intros t [=]|].
        intros _ t a row [=]. }
    set (ids := match txn_DestinationAccountID t with
                | Some d => _ | None => _ end).
    destruct (length ids =? 0)%nat eqn:Hlen.
    { cbn [fst snd]. split; [exact D|]. split; [intros t' [=]|].
      intros _ t' a row [= <-] Hor. 
      apply (transaction_accounts_spec t a) in Hor. fold ids in Hor.
      destruct ids; [inversion Hor | discriminate]. }
    destruct (TransactionSvc.owned_by userID ids w1) as [owned w2] eqn:E2.
    pose proof (owned_by_inv _ _ _ _ _ E2) as [D2 Hown].
    split; [|split].
    + destruct owned; cbn [negb snd]; congruence.
    + intros t'. destruct owned; cbn [negb fst]; [|discriminate]. intros [= <-].
      split; [reflexivity|].
      destruct (Hown eq_refl) as (a & row & Hin & Hrow & Ho).
      exists a, row. rewrite D in Hrow. repeat split; try assumption.
      apply (transaction_accounts_spec t a). exact Hin.
    + intros Hf t' a row [= <-] Hor Hrow Ho.
      rewrite (driver_call_no_fault w Hf) in E. injection E as <-.
      apply (transaction_accounts_spec t a) in Hor. fold ids in Hor.
      rewrite (owned_by_no_fault userID ids w a row Hf Hor Hrow Ho) in E2.
      injection E2 as <- <-. reflexivity.
Qed.

(** X11. [AccountSvc.Update] writes the currency, the type and the active
    flag of the request to the row of an account of the caller and nothing
    else: the owner, the number and the balance of the request are
    dropped.  An error leaves the tables as they were. *)
Theorem account_update_fields (account : Account) (userID : Z) (w : World) :
  let r := AccountSvc.Update account userID w in
  (forall err, fst r = Some err -> db (snd r) = db w)
  /\ (fst r = None ->
      exists row,
        accounts (db w) !! acc_ID account = Some row
        /\ acc_UserID row = userID
        /\ db (snd r)
           = mkDB (<[acc_ID account :=
                       acc_set_IsActive (acc_IsActive account)
                         (acc_set_AccountType (acc_AccountType account)
                            (acc_set_Currency (acc_Currency account) row))]>
                     (accounts (db w)))
                  (credits (db w)) (payment_schedules (db w)) (transactions (db w)))
  /\ (faults w = [] ->
      forall row, accounts (db w) !! acc_ID account = Some row ->
        acc_UserID row = userID -> fst r = None).
Proof.
  cbv zeta. unfold AccountSvc.Update.
  destruct (AccountSvc.GetByID _ _ w) as [[e|originalAccount] w1] eqn:E1.
  - pose proof (AccountSvc_GetByID_inv _ _ _ _ _ E1) as [D1 _].
    cbn [fst snd]. split; [intros; exact D1|]. split; [discriminate|].
    intros Hf row Hrow Hown. exfalso. revert E1.
    unfold AccountSvc.GetByID. rewrite (AccountRepo_GetByID_no_fault _ _ _ Hf Hrow).
    cbn [acc_UserID acc_set_ID]. rewrite Hown, Z.eqb_refl. discriminate.
  - pose proof (AccountSvc_GetByID_inv _ _ _ _ _ E1) as [D1 Hacc].
    destruct (Hacc originalAccount eq_refl) as (row & Hrow & -> & Hown).
    unfold AccountRepo.Update.
    cbn [acc_ID acc_Currency acc_AccountType acc_IsActive acc_set_Balance
         acc_set_AccountNumber acc_set_UserID].
    destruct (driver_call w1) as [f w2] eqn:E2.
    pose proof (driver_call_inv _ _ _ E2) as D2.
    destruct f; cbn [fst snd].
    + split; [intros; congruence|]. split; [discriminate|].
      intros Hf row' Hrow' Hown'. exfalso. revert E1.
      unfold AccountSvc.GetByID. rewrite (AccountRepo_GetByID_no_fault _ _ _ Hf Hrow').
      cbn [acc_UserID acc_set_ID]. rewrite Hown', Z.eqb_refl. cbn [negb].
      intros H. assert (Hw : w = w1) by congruence. subst w1.
      rewrite (driver_call_no_fault w Hf) in E2. discriminate.
    + rewrite D2, D1, Hrow. cbn [fst snd]. split; [discriminate|]. split.
      * intros _. exists row. split; [reflexivity|]. split; [exact Hown|].
        unfold set_db. cbn [db]. rewrite ?D2, ?D1. reflexivity.
      * reflexivity.
Qed.

Lemma CardRepo_GetByAccountID_inv (cards : gmap Z Card) (accountID : Z) (w w' : World)
    (r : error + list Card) :
  CardRepo.GetByAccountID cards accountID w = (r, w') ->
  db w' = db w
  /\ forall l, r = inr l ->
       forall c, c ∈ l <->
         exists id row, cards !! id = Some row /\ c = card_set_ID id row
                        /\ card_AccountID row = accountID.
Proof.
  unfold CardRepo.GetByAccountID.
  destruct (driver_call w) as [f w1] eqn:E. apply driver_call_inv in E.
  destruct f; intros [= <- <-]; (split; [exact E|]); intros l [=]. subst l.
  intros c. rewrite list_elem_of_In, filter_In, in_map_iff. split.
  - intros [([id row] & Heq & Hin) Hacc]. cbn in Heq. subst c.
    apply list_elem_of_In, elem_of_map_to_list in Hin.
    exists id, row. cbn in Hacc. apply Z.eqb_eq in Hacc. auto.
  - intros (id & row & Hrow & -> & Hacc). split.
    + exists (id, row). split; [reflexivity|].
      apply list_elem_of_In, elem_of_map_to_list. exact Hrow.
    + cbn. apply Z.eqb_eq. exact Hacc.
Qed.

(** What [AccountRepo.Delete] does to the tables and to the count of open
    transactions. *)
Lemma AccountRepo_Delete_cases (id : Z) (w w' : World) (r : option error) :
  AccountRepo.Delete id w = (r, w') ->
  match r with
  | None =>
      open_tx w' = open_tx w
      /\ exists row,
           accounts (db w) !! id = Some row /\ (0 <? acc_Balance row)%float = false
           /\ db w' = mkDB (delete id (accounts (db w))) (credits (db w))
                          (payment_schedules (db w)) (transactions (db w))
  | Some err =>
      db w' = db w
      /\ (err = New "cannot delete account with non-zero balance" ->
          open_tx w' = S (open_tx w)
          /\ exists row, accounts (db w) !! id = Some row
                         /\ (0 <? acc_Balance row)%float = true)
      /\ (err <> New "cannot delete account with non-zero balance" ->
          open_tx w' = open_tx w)
  end.
Proof.
  unfold AccountRepo.Delete, BeginTx, Tx_QueryRow_balance, Tx_Commit, Tx_Rollback,
    close_tx, set_db.
  destruct (driver_call w) as [f1 w1] eqn:E1.
  assert (O1 : open_tx w1 = open_tx w)
    by (revert E1; unfold driver_call; destruct (faults w); intros [= <- <-]; reflexivity).
  apply driver_call_inv in E1. destruct f1.
  { intros [= <- <-]. split; [exact E1|]. split; [discriminate|]. intros _. exact O1. }
  cbn [tx_writes foldl db faults open_tx].
  destruct (driver_call (mkWorld (db w1) (faults w1) (S (open_tx w1)))) as [f2 w2] eqn:E2.
  assert (O2 : open_tx w2 = S (open_tx w))
    by (revert E2; unfold driver_call; cbn; destruct (faults w1); intros [= <- <-];
        cbn; congruence).
  apply driver_call_inv in E2. cbn [db] in E2. destruct f2.
  { intros [= <- <-]. cbn [db open_tx]. split; [congruence|]. split; [discriminate|].
    intros _. rewrite O2. reflexivity. }
  destruct (accounts (db w2) !! id) as [row|] eqn:Hrow.
  2:{ intros [= <- <-]. cbn [db open_tx]. split; [congruence|]. split; [discriminate|].
      intros _. rewrite O2. reflexivity. }
  destruct (0 <? acc_Balance row)%float eqn:Hbal.
  { intros [= <- <-]. split; [congruence|]. split.
    - intros _. split; [exact O2|]. exists row. split; [congruence | exact Hbal].
    - congruence. }
  destruct (driver_call w2) as [f3 w3] eqn:E3.
  assert (O3 : open_tx w3 = S (open_tx w))
    by (revert E3; unfold driver_call; destruct (faults w2); intros [= <- <-];
        cbn; congruence).
  apply driver_call_inv in E3. destruct f3.
  { intros [= <- <-]. cbn [db open_tx]. split; [congruence|]. split; [discriminate|].
    intros _. rewrite O3. reflexivity. }
  destruct (driver_call w3) as [f4 w4] eqn:E4.
  assert (O4 : open_tx w4 = S (open_tx w))
    by (revert E4; unfold driver_call; destruct (faults w3); intros [= <- <-];
        cbn; congruence).
  apply driver_call_inv in E4. destruct f4.
  { intros [= <- <-]. cbn [db open_tx]. split; [congruence|]. split; [discriminate|].
    intros _. rewrite O4. reflexivity. }
  intros [= <- <-]. cbn [db open_tx]. split; [rewrite O4; reflexivity|].
  exists row. split; [congruence|]. split; [exact Hbal|].
  replace (db w4) with (db w) by congruence. reflexivity.
Qed.

Lemma AccountRepo_Delete_no_fault (id : Z) (w : World) (row : Account) :
  faults w = [] -> accounts (db w) !! id = Some row ->
  AccountRepo.Delete id w
  = if (0 <? acc_Balance row)%float
    then (Some (New "cannot delete account with non-zero balance"),
          mkWorld (db w) [] (S (open_tx w)))
    else (None,
          mkWorld (mkDB (delete id (accounts (db w))) (credits (db w))
                        (payment_schedules (db w)) (transactions (db w)))
                  [] (open_tx w)).
Proof.
  intros Hf Hrow. destruct w as [d fs n]. cbn in Hf, Hrow. subst fs.
  unfold AccountRepo.Delete, BeginTx, Tx_QueryRow_balance, Tx_Commit, Tx_Rollback,
    close_tx, set_db, driver_call. cbn. rewrite Hrow. cbn.
  destruct (0 <? acc_Balance row)%float; reflexivity.
Qed.

(** X12. [AccountSvc.Delete]: an account is deleted only if it is the
    caller's, its balance is not above zero and no active card is attached
    to it; a refusal leaves the tables as they were.  With a driver that
    does not fail, an account with a positive balance is refused and the
    transaction opened for the check stays open; otherwise the account is
    deleted. *)
Theorem account_delete_outcome (cards : gmap Z Card) (id userID : Z) (w : World) :
  let r := AccountSvc.Delete cards id userID w in
  let no_active_card :=
    forall cid card, cards !! cid = Some card -> card_AccountID card = id ->
                     card_IsActive card = false in
  (fst r = None ->
     exists row,
       accounts (db w) !! id = Some row /\ acc_UserID row = userID
       /\ (0 <? acc_Balance row)%float = false
       /\ no_active_card
       /\ db (snd r) = mkDB (delete id (accounts (db w))) (credits (db w))
                            (payment_schedules (db w)) (transactions (db w)))
  /\ (forall err, fst r = Some err -> db (snd r) = db w)
  /\ (faults w = [] ->
      forall row, accounts (db w) !! id = Some row -> acc_UserID row = userID ->
        no_active_card ->
        if (0 <? acc_Balance row)%float
        then fst r = Some (Wrap "failed to delete account"
                             (New "cannot delete account with non-zero balance"))
             /\ open_tx (snd r) = S (open_tx w)
        else fst r = None /\ open_tx (snd r) = open_tx w).
Proof.
  cbv zeta. unfold AccountSvc.Delete. split; [|split].
  - destruct (AccountSvc.GetByID _ _ w) as [[e|account] w1] eqn:E1; [discriminate|].
    apply AccountSvc_GetByID_inv in E1 as [D1 Hacc].
    destruct (Hacc account eq_refl) as (row & Hrow & -> & Hown).
    destruct (CardRepo.GetByAccountID _ _ w1) as [[e|accountCards] w2] eqn:E2;
      [discriminate|].
    apply CardRepo_GetByAccountID_inv in E2 as [D2 Hcards].
    specialize (Hcards accountCards eq_refl).
    destruct (existsb card_IsActive accountCards) eqn:Hex; [discriminate|].
    destruct (AccountRepo.Delete id w2) as [[e|] w3] eqn:E3; [discriminate|].
    apply AccountRepo_Delete_cases in E3 as (_ & row' & Hrow' & Hbal & D3).
    intros _. cbn [snd]. exists row.
    assert (row' = row) by congruence. subst row'.
    split; [exact Hrow|]. split; [exact Hown|]. split; [exact Hbal|]. split.
    + intros cid card Hcard Hcacc.
      destruct (card_IsActive card) eqn:Hact; [|reflexivity].
      assert (Hin : card_set_ID cid card ∈ accountCards)
        by (apply Hcards; eauto).
      apply not_true_iff_false in Hex. exfalso. apply Hex.
      apply existsb_exists. exists (card_set_ID cid card).
      split; [apply list_elem_of_In, Hin | exact Hact].
    + rewrite D3. congruence.
  - intros err.
    destruct (AccountSvc.GetByID _ _ w) as [[e|account] w1] eqn:E1;
      apply AccountSvc_GetByID_inv in E1 as [D1 _]; [intros _; exact D1|].
    destruct (CardRepo.GetByAccountID _ _ w1) as [[e|accountCards] w2] eqn:E2;
      apply CardRepo_GetByAccountID_inv in E2 as [D2 _];
      [intros _; cbn [snd]; congruence|].
    destruct (existsb card_IsActive accountCards); [intros _; cbn [snd]; congruence|].
    destruct (AccountRepo.Delete id w2) as [[e|] w3] eqn:E3; [|discriminate].
    apply AccountRepo_Delete_cases in E3 as (D3 & _). intros _. cbn [snd]. congruence.
  - intros Hf row Hrow Hown Hnone. unfold AccountSvc.GetByID.
    rewrite (AccountRepo_GetByID_no_fault _ _ _ Hf Hrow).
    cbn [acc_UserID acc_set_ID]. rewrite Hown, Z.eqb_refl. cbn [negb].
    unfold CardRepo.GetByAccountID. rewrite (driver_call_no_fault w Hf).
    replace (existsb card_IsActive _) with false.
    2:{ symmetry. apply not_true_iff_false. intros Hex.
        apply existsb_exists in Hex as (c & Hin & Hact).
        apply filter_In in Hin as [Hin Hcacc].
        apply in_map_iff in Hin as ([cid card] & <- & Hin).
        apply list_elem_of_In, elem_of_map_to_list in Hin.
        cbn in Hcacc, Hact. apply Z.eqb_eq in Hcacc.
        rewrite (Hnone cid card Hin Hcacc) in Hact. discriminate. }
    rewrite (AccountRepo_Delete_no_fault id w row Hf Hrow).
    destruct (0 <? acc_Balance row)%float; cbn [fst snd open_tx]; split; reflexivity.
Qed.

Lemma driver_call_open_tx (w w' : World) (f : bool) :
  driver_call w = (f, w') -> open_tx w' = open_tx w.
Proof.
  unfold driver_call. destruct (faults w); intros [= <- <-]; reflexivity.
Qed.

(** X13. [UpdateBalance] leaves its transaction open exactly when it reports
    insufficient funds: every other way out commits it or rolls it
    back. *)
Theorem UpdateBalance_open_transaction (id : Z) (amount : float) (w : World) :
  let r := AccountRepo.UpdateBalance id amount w in
  (fst r = Some (New "insufficient funds") -> open_tx (snd r) = S (open_tx w))
  /\ (fst r <> Some (New "insufficient funds") -> open_tx (snd r) = open_tx w).
Proof.
  cbv zeta.
  unfold AccountRepo.UpdateBalance, BeginTx, Tx_QueryRow_balance, Tx_Exec,
    Tx_Commit, Tx_Rollback, close_tx, set_db.
  destruct (driver_call w) as [f1 w1] eqn:E1. apply driver_call_open_tx in E1.
  destruct f1; cbn [fst snd].
  { split; [discriminate | intros _; exact E1]. }
  destruct (driver_call (mkWorld _ _ _)) as [f2 w2] eqn:E2.
  apply driver_call_open_tx in E2. cbn [open_tx] in E2.
  destruct f2; cbn [fst snd open_tx].
  { split; [discriminate | intros _; rewrite E2; cbn; congruence]. }
  destruct (accounts _ !! id) as [row|]; cbn [fst snd open_tx].
  2:{ split; [discriminate | intros _; rewrite E2; cbn; congruence]. }
  destruct (acc_Balance row + amount <? 0)%float; cbn [fst snd].
  { split; [intros _; congruence | congruence]. }
  destruct (driver_call w2) as [f3 w3] eqn:E3. apply driver_call_open_tx in E3.
  destruct f3; cbn [fst snd open_tx].
  { split; [discriminate | intros _; rewrite E3, E2; cbn; congruence]. }
  destruct (driver_call w3) as [f4 w4] eqn:E4. apply driver_call_open_tx in E4.
  destruct f4; cbn [fst snd open_tx];
    (split; [discriminate | intros _; rewrite E4, E3, E2; cbn; congruence]).
Qed.

(* ===================================================================== *)
(** ** Looking at a schedule: [GetSchedule]                               *)
(* ===================================================================== *)

Lemma UpdateScheduleStatus_unchanged (now : Time) (p : PaymentSchedule) :
  bool_decide (ps_Status p = PaymentStatusPending) && After now (ps_PaymentDate p) = false ->
  UpdateScheduleStatus now p = p.
Proof. intros H. unfold UpdateScheduleStatus. rewrite H. reflexivity. Qed.

Lemma UpdateScheduleStatus_flagged (now : Time) (p : PaymentSchedule) :
  bool_decide (ps_Status p = PaymentStatusPending) && After now (ps_PaymentDate p) = true ->
  ps_Status (UpdateScheduleStatus now p) = PaymentStatusOverdue
  /\ ps_IsOverdue (UpdateScheduleStatus now p) = true.
Proof.
  intros H. unfold UpdateScheduleStatus. rewrite H.
  destruct (1 <? _); split; reflexivity.
Qed.

Lemma UpdateScheduleStatus_set_ID (now : Time) (k : Z) (row : PaymentSchedule) :
  UpdateScheduleStatus now (ps_set_ID k row) = ps_set_ID k (UpdateScheduleStatus now row).
Proof.
  unfold UpdateScheduleStatus. cbn [ps_Status ps_PaymentDate ps_set_ID].
  destruct (_ && _); [|reflexivity].
  cbn [ps_PaymentDate ps_set_IsOverdue ps_set_Status ps_set_ID].
  destruct (1 <? _); reflexivity.
Qed.

Lemma schedule_row_written_UpdateScheduleStatus (now : Time) (k : Z)
    (row : PaymentSchedule) :
  schedule_row_written (UpdateScheduleStatus now (ps_set_ID k row)) row
  = UpdateScheduleStatus now row.
Proof.
  rewrite UpdateScheduleStatus_set_ID. unfold UpdateScheduleStatus.
  destruct (_ && _); [destruct (1 <? _)|]; destruct row; reflexivity.
Qed.

(** The list [GetSchedule] goes on with: every struct as
    [UpdateScheduleStatus] leaves it, whatever the updates of the rows did. *)
Lemma refresh_schedules_list (now : Time) (l : list PaymentSchedule) (u : bool) (w : World) :
  fst (fst (CreditSvc.refresh_schedules now l u w)) = map (UpdateScheduleStatus now) l.
Proof.
  revert u w. induction l as [|s l IH]; intros u w; cbn [CreditSvc.refresh_schedules map];
    [reflexivity|].
  destruct (bool_decide (ps_Status s = PaymentStatusPending)) eqn:Hp.
  - destruct (negb (bool_decide (ps_Status s = ps_Status (UpdateScheduleStatus now s)))).
    + destruct (PaymentScheduleRepo.Update _ w) as [[e|] w1].
      * specialize (IH u w1). destruct (CreditSvc.refresh_schedules now l u w1) as [[l' u'] w'].
        cbn [fst] in *. congruence.
      * specialize (IH true w1).
        destruct (CreditSvc.refresh_schedules now l true w1) as [[l' u'] w'].
        cbn [fst] in *. congruence.
    + specialize (IH u w). destruct (CreditSvc.refresh_schedules now l u w) as [[l' u'] w'].
      cbn [fst] in *. congruence.
  - specialize (IH u w). destruct (CreditSvc.refresh_schedules now l u w) as [[l' u'] w'].
    cbn [fst] in *. rewrite IH. f_equal. symmetry.
    apply UpdateScheduleStatus_unchanged. rewrite Hp. reflexivity.
Qed.

(** The first loop writes to the table of installments only. *)
Lemma refresh_schedules_frame (now : Time) (l : list PaymentSchedule) (u : bool) (w : World) :
  let w' := snd (CreditSvc.refresh_schedules now l u w) in
  accounts (db w') = accounts (db w)
  /\ credits (db w') = credits (db w)
  /\ transactions (db w') = transactions (db w).
Proof.
  revert u w. induction l as [|s l IH]; intros u w; cbn [CreditSvc.refresh_schedules];
    [repeat split|].
  assert (Hsame : forall u0,
             let w' := snd (let '(rest, updated, w0) := CreditSvc.refresh_schedules now l u0 w in
                            (UpdateScheduleStatus now s :: rest, updated, w0)) in
             accounts (db w') = accounts (db w) /\ credits (db w') = credits (db w)
             /\ transactions (db w') = transactions (db w)).
  { intros u0. specialize (IH u0 w).
    destruct (CreditSvc.refresh_schedules now l u0 w) as [[l' u'] w']. exact IH. }
  destruct (bool_decide (ps_Status s = PaymentStatusPending)) eqn:Hp.
  - destruct (negb (bool_decide (ps_Status s = ps_Status (UpdateScheduleStatus now s)))).
    + destruct (PaymentScheduleRepo.Update _ w) as [[e|] w1] eqn:E;
        apply PaymentScheduleRepo_Update_inv in E as (A & C & T & _).
      * specialize (IH u w1).
        destruct (CreditSvc.refresh_schedules now l u w1) as [[l' u'] w'].
        cbn [snd] in *. destruct IH as (IA & IC & IT). repeat split; congruence.
      * specialize (IH true w1).
        destruct (CreditSvc.refresh_schedules now l true w1) as [[l' u'] w'].
        cbn [snd] in *. destruct IH as (IA & IC & IT). repeat split; congruence.
    + apply Hsame.
  - specialize (IH u w). destruct (CreditSvc.refresh_schedules now l u w) as [[l' u'] w'].
    exact IH.
Qed.

Lemma elem_of_credit_rows (creditID : Z) (d : DB) (p : PaymentSchedule) :
  p ∈ PaymentScheduleRepo.credit_rows creditID d
  <-> exists row,
        payment_schedules d !! ps_ID p = Some row
        /\ p = ps_set_ID (ps_ID p) row
        /\ ps_CreditID row = creditID.
Proof.
  unfold PaymentScheduleRepo.credit_rows, PaymentScheduleRepo.scan_rows.
  rewrite merge_sort_Permutation, list_elem_of_In, filter_In, in_map_iff.
  split.
  - intros [([k row] & Heq & Hin) Hcr].
    apply list_elem_of_In, elem_of_map_to_list in Hin.
    cbn in Heq. subst p. cbn in *. apply Z.eqb_eq in Hcr.
    exists row. repeat split; assumption.
  - intros (row & Hrow & Heq & Hcr). split.
    + exists (ps_ID p, row). split; [symmetry; exact Heq|].
      apply list_elem_of_In, elem_of_map_to_list. exact Hrow.
    + rewrite Heq. cbn. apply Z.eqb_eq. exact Hcr.
Qed.

Lemma NoDup_ids_credit_rows (creditID : Z) (d : DB) :
  NoDup (ps_ID <$> PaymentScheduleRepo.credit_rows creditID d).
Proof.
  unfold PaymentScheduleRepo.credit_rows.
  rewrite merge_sort_Permutation. apply NoDup_ids_filter.
  unfold PaymentScheduleRepo.scan_rows.
  change (map ?f ?l) with (f <$> l). rewrite <- list_fmap_compose.
  apply (NoDup_fst_map_to_list (payment_schedules d)).
Qed.

Lemma CreditSvc_GetByID_inv (id userID : Z) (w w' : World) (r : error + Credit) :
  CreditSvc.GetByID id userID w = (r, w') ->
  db w' = db w
  /\ forall credit, r = inr credit ->
       exists row, credits (db w) !! id = Some row
                   /\ credit = cr_set_ID id row /\ cr_UserID row = userID.
Proof.
  unfold CreditSvc.GetByID.
  destruct (CreditRepo.GetByID id w) as [[e|credit] w1] eqn:E;
    apply CreditRepo_GetByID_inv in E as [D Hcr].
  - intros [= <- <-]. split; [exact D|]. intros a [=].
  - destruct (Hcr credit eq_refl) as (row & Hrow & ->).
    cbn [cr_UserID cr_set_ID].
    destruct (Z.eqb_spec (cr_UserID row) userID) as [Hown|Hown]; cbn [negb];
      intros [= <- <-]; (split; [exact D|]); intros a [=]. subst a.
    exists row. repeat split; assumption.
Qed.

(** X14. What [GetSchedule] shows, for every state and every script of
    driver faults: the installments of the credit in the order of their due
    dates, each as [UpdateScheduleStatus] leaves it, numbered from 1, and
    the summary of these; no installment shown as PENDING is past due.  It
    answers only the owner of the credit, never touches an account or a
    transaction record, and an error leaves the tables as they were. *)
Theorem GetSchedule_view (now : Time) (creditID userID : Z) (w : World) :
  let r := CreditSvc.GetSchedule now creditID userID w in
  let schedules :=
    map (UpdateScheduleStatus now) (PaymentScheduleRepo.credit_rows creditID (db w)) in
  (forall err, fst r = inl err -> db (snd r) = db w)
  /\ (forall responses summary, fst r = inr (responses, summary) ->
        (exists row, credits (db w) !! creditID = Some row /\ cr_UserID row = userID)
        /\ responses
           = imap (fun i s => ToPaymentScheduleResponse s (Z.of_nat i + 1)) schedules
        /\ summary = CalculatePaymentScheduleSummary schedules
        /\ accounts (db (snd r)) = accounts (db w)
        /\ transactions (db (snd r)) = transactions (db w)
        /\ forall i resp, responses !! i = Some resp ->
             psr_PaymentNumber resp = Z.of_nat i + 1
             /\ psr_CreditID resp = creditID
             /\ (psr_Status resp = PaymentStatusPending -> now <= psr_PaymentDate resp)).
Proof.
  cbv zeta. unfold CreditSvc.GetSchedule.
  destruct (CreditSvc.GetByID _ _ w) as [[e|credit] w1] eqn:E1;
    apply CreditSvc_GetByID_inv in E1 as [D1 Hcr].
  { cbn [fst snd]. split; [intros; exact D1 | discriminate]. }
  destruct (Hcr credit eq_refl) as (crow & Hcrow & -> & Hown).
  unfold PaymentScheduleRepo.GetByCreditID.
  destruct (driver_call w1) as [f w2] eqn:E2. apply driver_call_inv in E2.
  destruct f.
  { cbn [fst snd]. split; [intros; congruence | discriminate]. }
  replace (db w2) with (db w) by congruence.
  pose proof (refresh_schedules_list now (PaymentScheduleRepo.credit_rows creditID (db w))
                false w2) as Hlist.
  pose proof (refresh_schedules_frame now (PaymentScheduleRepo.credit_rows creditID (db w))
                false w2) as (FA & FC & FT).
  destruct (CreditSvc.refresh_schedules now _ false w2) as [[l' u'] w3].
  cbn [fst snd] in Hlist, FA, FC, FT. subst l'.
  cbn [fst snd]. split; [discriminate|].
  intros responses summary [= <- <-].
  split; [eauto|]. split; [reflexivity|]. split; [reflexivity|].
  assert (HA : accounts (db (if u' then snd (CreditRepo.Update
                                              (cr_set_Status CreditStatusOverdue
                                                 (cr_set_ID creditID crow)) w3)
                             else w3)) = accounts (db w)
               /\ transactions (db (if u' then snd (CreditRepo.Update
                                              (cr_set_Status CreditStatusOverdue
                                                 (cr_set_ID creditID crow)) w3)
                             else w3)) = transactions (db w)).
  { destruct u'; [|split; congruence].
    destruct (CreditRepo.Update _ w3) as [r4 w4] eqn:E4.
    apply CreditRepo_Update_inv in E4 as (A4 & _ & T4 & _). cbn [snd].
    split; congruence. }
  destruct HA as [HA HT]. split; [exact HA|]. split; [exact HT|].
  intros i resp. rewrite list_lookup_imap, list_lookup_fmap.
  destruct (PaymentScheduleRepo.credit_rows creditID (db w) !! i) as [s|] eqn:Hs;
    [|discriminate].
  cbn. intros [= <-]. cbn.
  split; [reflexivity|].
  assert (Hin : s ∈ PaymentScheduleRepo.credit_rows creditID (db w))
    by (eapply list_elem_of_lookup_2; exact Hs).
  apply elem_of_credit_rows in Hin as (row & _ & Heq & Hcr').
  split.
  - unfold UpdateScheduleStatus. rewrite Heq.
    destruct (_ && _); [destruct (1 <? _)|]; cbn; exact Hcr'.
  - destruct (bool_decide (ps_Status s = PaymentStatusPending)
              && After now (ps_PaymentDate s)) eqn:Hdue.
    + destruct (UpdateScheduleStatus_flagged now s Hdue) as [Hst _]. congruence.
    + rewrite (UpdateScheduleStatus_unchanged now s Hdue). intros Hst.
      rewrite Hst, bool_decide_eq_true_2 in Hdue by reflexivity.
      cbn in Hdue. unfold After in Hdue. apply Z.ltb_ge in Hdue. exact Hdue.
Qed.

Lemma PaymentScheduleRepo_Update_no_fault (p row : PaymentSchedule) (w : World) :
  faults w = [] -> payment_schedules (db w) !! ps_ID p = Some row ->
  PaymentScheduleRepo.Update p w
  = (None,
     mkWorld (mkDB (accounts (db w)) (credits (db w))
                   (<[ps_ID p := schedule_row_written p row]> (payment_schedules (db w)))
                   (transactions (db w)))
             [] (open_tx w)).
Proof.
  intros Hf Hrow. unfold PaymentScheduleRepo.Update.
  rewrite (driver_call_no_fault w Hf), Hrow. unfold set_db. rewrite Hf. reflexivity.
Qed.

Lemma CreditRepo_Update_no_fault (c row : Credit) (w : World) :
  faults w = [] -> credits (db w) !! cr_ID c = Some row ->
  CreditRepo.Update c w
  = (None,
     mkWorld (mkDB (accounts (db w))
                   (<[cr_ID c := credit_row_written c row]> (credits (db w)))
                   (payment_schedules (db w)) (transactions (db w)))
             [] (open_tx w)).
Proof.
  intros Hf Hrow. unfold CreditRepo.Update.
  rewrite (driver_call_no_fault w Hf), Hrow. unfold set_db. rewrite Hf. reflexivity.
Qed.

Lemma past_due_set_ID (now : Time) (k : Z) (row : PaymentSchedule) :
  past_due now (ps_set_ID k row) = past_due now row.
Proof. reflexivity. Qed.

Lemma UpdateScheduleStatus_past_due (now : Time) (p : PaymentSchedule) :
  past_due now p = false -> UpdateScheduleStatus now p = p.
Proof. apply UpdateScheduleStatus_unchanged. Qed.

(** The first loop of [GetSchedule] with a driver that does not fail, over
    rows fetched from the table: each of them is written as
    [UpdateScheduleStatus] leaves it. *)
Lemma refresh_schedules_no_fault (now : Time) (l : list PaymentSchedule) (u : bool)
    (w : World) :
  faults w = [] ->
  NoDup (ps_ID <$> l) ->
  (forall s, s ∈ l ->
     exists row, payment_schedules (db w) !! ps_ID s = Some row
                 /\ s = ps_set_ID (ps_ID s) row) ->
  let r := CreditSvc.refresh_schedules now l u w in
  faults (snd r) = []
  /\ snd (fst r) = u || existsb (past_due now) l
  /\ forall k,
       payment_schedules (db (snd r)) !! k
       = (fun row => if bool_decide (k ∈ ps_ID <$> l)
                     then UpdateScheduleStatus now row else row)
           <$> payment_schedules (db w) !! k.
Proof.
  revert u w. induction l as [|s l IH]; intros u w Hf Hnd Hrows;
    cbn [CreditSvc.refresh_schedules].
  { cbn. split; [exact Hf|]. split; [rewrite orb_false_r; reflexivity|].
    intros k. destruct (payment_schedules (db w) !! k); reflexivity. }
  rewrite fmap_cons in Hnd. apply NoDup_cons in Hnd as [Hnotin Hnd].
  destruct (Hrows s ltac:(left)) as (row0 & Hrow0 & Hs).
  set (k0 := ps_ID s) in *.
  assert (Htail : forall w1,
             (forall k, k <> k0 ->
                payment_schedules (db w1) !! k = payment_schedules (db w) !! k) ->
             forall s2, s2 ∈ l ->
               exists row, payment_schedules (db w1) !! ps_ID s2 = Some row
                           /\ s2 = ps_set_ID (ps_ID s2) row).
  { intros w1 Hw1 s2 Hin. destruct (Hrows s2 ltac:(right; exact Hin)) as (row & Hrow & Heq).
    exists row. split; [|exact Heq]. rewrite Hw1; [exact Hrow|].
    intros Heqk. apply Hnotin. rewrite <- Heqk.
    apply list_elem_of_fmap. exists s2. split; [reflexivity | exact Hin]. }
  (* the iteration that writes nothing *)
  assert (Hskip : past_due now s = false ->
            let r := (let '(rest, updated, w0) := CreditSvc.refresh_schedules now l u w in
                      (UpdateScheduleStatus now s :: rest, updated, w0)) in
            faults (snd r) = []
            /\ snd (fst r) = u || existsb (past_due now) (s :: l)
            /\ forall k,
                 payment_schedules (db (snd r)) !! k
                 = (fun row => if bool_decide (k ∈ ps_ID <$> s :: l)
                               then UpdateScheduleStatus now row else row)
                     <$> payment_schedules (db w) !! k).
  { intros Hpd. specialize (IH u w Hf Hnd (Htail w (fun _ _ => eq_refl))).
    destruct (CreditSvc.refresh_schedules now l u w) as [[l' u'] w'].
    cbn [fst snd] in IH |- *. destruct IH as (IF & IU & IK).
    split; [exact IF|]. split; [cbn [existsb]; rewrite Hpd; exact IU|].
    intros k. rewrite IK. destruct (payment_schedules (db w) !! k) as [row|] eqn:Hrow;
      [|reflexivity].
    rewrite fmap_cons. fold k0. cbn [fmap option_fmap option_map]. f_equal.
    destruct (decide (k = k0)) as [->|Hne].
    - rewrite (bool_decide_eq_false_2 _ Hnotin).
      rewrite bool_decide_eq_true_2 by (left; reflexivity).
      assert (row = row0) by congruence. subst row.
      symmetry. apply UpdateScheduleStatus_past_due.
      rewrite <- (past_due_set_ID now k0 row0), <- Hs. exact Hpd.
    - apply (f_equal (fun b : bool => if b then _ else _)).
      apply bool_decide_ext. rewrite elem_of_cons. intuition congruence. }
  destruct (bool_decide (ps_Status s = PaymentStatusPending)) eqn:Hp.
  2:{ assert (Hpd : past_due now s = false) by (unfold past_due; rewrite Hp; reflexivity).
      pose proof (Hskip Hpd) as H.
      rewrite (UpdateScheduleStatus_past_due now s Hpd) in H. exact H. }
  destruct (past_due now s) eqn:Hpd.
  2:{ rewrite (UpdateScheduleStatus_past_due now s Hpd).
      apply bool_decide_eq_true in Hp.
      rewrite bool_decide_eq_true_2 by reflexivity. cbn [negb].
      pose proof (Hskip eq_refl) as H.
      rewrite (UpdateScheduleStatus_past_due now s Hpd) in H. exact H. }
  (* the iteration that flags the installment *)
  destruct (UpdateScheduleStatus_flagged now s Hpd) as [Hst _].
  apply bool_decide_eq_true in Hp.
  rewrite bool_decide_eq_false_2 by congruence. cbn [negb].
  assert (Hid : ps_ID (UpdateScheduleStatus now s) = k0) by apply UpdateScheduleStatus_ID.
  rewrite (PaymentScheduleRepo_Update_no_fault _ row0 w Hf) by (rewrite Hid; exact Hrow0).
  rewrite Hid.
  assert (Hw : schedule_row_written (UpdateScheduleStatus now s) row0
               = UpdateScheduleStatus now row0)
    by (rewrite Hs at 1; apply schedule_row_written_UpdateScheduleStatus).
  rewrite Hw.
  set (w1 := mkWorld _ [] _).
  assert (Hw1 : forall k, k <> k0 ->
            payment_schedules (db w1) !! k = payment_schedules (db w) !! k)
    by (intros k Hne; subst w1; cbn; apply lookup_insert_ne; congruence).
  specialize (IH true w1 eq_refl Hnd (Htail w1 Hw1)).
  destruct (CreditSvc.refresh_schedules now l true w1) as [[l' u'] w'].
  cbn [fst snd] in IH |- *. destruct IH as (IF & IU & IK).
  split; [exact IF|]. split.
  { cbn [existsb]. rewrite Hpd, IU. destruct u; reflexivity. }
  intros k. rewrite IK. rewrite fmap_cons. fold k0.
  destruct (decide (k = k0)) as [->|Hne].
  - subst w1. cbn [db payment_schedules]. rewrite lookup_insert_eq, Hrow0.
    cbn [fmap option_fmap option_map].
    rewrite (bool_decide_eq_false_2 _ Hnotin).
    rewrite bool_decide_eq_true_2 by (left; reflexivity). reflexivity.
  - rewrite Hw1 by exact Hne.
    destruct (payment_schedules (db w) !! k) as [row|]; [|reflexivity].
    cbn [fmap option_fmap option_map]. f_equal.
    apply (f_equal (fun b : bool => if b then _ else _)).
    apply bool_decide_ext. rewrite elem_of_cons. intuition congruence.
Qed.

Lemma CreditRepo_GetByID_no_fault (id : Z) (w : World) (row : Credit) :
  faults w = [] -> credits (db w) !! id = Some row ->
  CreditRepo.GetByID id w = (inr (cr_set_ID id row), w).
Proof.
  intros Hf Hrow. unfold CreditRepo.GetByID.
  rewrite (driver_call_no_fault w Hf), Hrow. reflexivity.
Qed.

Lemma UpdateScheduleStatus_CreditID (now : Time) (p : PaymentSchedule) :
  ps_CreditID (UpdateScheduleStatus now p) = ps_CreditID p.
Proof.
  unfold UpdateScheduleStatus. destruct (_ && _); [destruct (1 <? _)|]; reflexivity.
Qed.

Lemma UpdateScheduleStatus_pending (now : Time) (p : PaymentSchedule) :
  ps_Status (UpdateScheduleStatus now p) = PaymentStatusPending ->
  UpdateScheduleStatus now p = p /\ ps_Status p = PaymentStatusPending
  /\ now <= ps_PaymentDate p.
Proof.
  destruct (past_due now p) eqn:Hpd.
  - destruct (UpdateScheduleStatus_flagged now p Hpd) as [Hst _]. congruence.
  - rewrite (UpdateScheduleStatus_past_due now p Hpd). intros Hst.
    split; [reflexivity|]. split; [exact Hst|].
    unfold past_due in Hpd. rewrite Hst, bool_decide_eq_true_2 in Hpd by reflexivity.
    cbn in Hpd. unfold After in Hpd. apply Z.ltb_ge in Hpd. exact Hpd.
Qed.

(** [GetSchedule] with a driver that does not fail. *)
Lemma GetSchedule_no_fault (now : Time) (creditID userID : Z) (w : World)
    (crow : Credit) :
  faults w = [] ->
  credits (db w) !! creditID = Some crow -> cr_UserID crow = userID ->
  let r := CreditSvc.GetSchedule now creditID userID w in
  (exists view, fst r = inr view)
  /\ payment_schedules (db (snd r)) = refreshed now creditID <$> payment_schedules (db w)
  /\ credits (db (snd r))
     = (if existsb (past_due now) (PaymentScheduleRepo.credit_rows creditID (db w))
        then <[creditID := cr_set_Status CreditStatusOverdue crow]> (credits (db w))
        else credits (db w))
  /\ accounts (db (snd r)) = accounts (db w)
  /\ transactions (db (snd r)) = transactions (db w).
Proof.
  intros Hf Hcrow Hown.
  cbv zeta. unfold CreditSvc.GetSchedule, CreditSvc.GetByID.
  rewrite (CreditRepo_GetByID_no_fault _ _ _ Hf Hcrow).
  cbn [cr_UserID cr_set_ID]. rewrite Hown, Z.eqb_refl. cbn [negb].
  unfold PaymentScheduleRepo.GetByCreditID. rewrite (driver_call_no_fault w Hf).
  set (l := PaymentScheduleRepo.credit_rows creditID (db w)).
  pose proof (refresh_schedules_no_fault now l false w Hf
                (NoDup_ids_credit_rows creditID (db w))) as Hr.
  pose proof (refresh_schedules_frame now l false w) as (FA & FC & FT).
  destruct (CreditSvc.refresh_schedules now l false w) as [[l' u'] w3].
  cbn [fst snd] in Hr, FA, FC, FT.
  destruct Hr as (Hf3 & Hu & Hk).
  { intros s Hin. apply elem_of_credit_rows in Hin as (row & Hrow & Heq & _). eauto. }
  cbn [orb] in Hu. subst u'.
  assert (HS : payment_schedules (db w3)
               = refreshed now creditID <$> payment_schedules (db w)).
  { apply map_eq. intros k. rewrite Hk, lookup_fmap.
    destruct (payment_schedules (db w) !! k) as [row|] eqn:Hrow; [|reflexivity].
    cbn [fmap option_fmap option_map]. f_equal. unfold refreshed.
    destruct (Z.eqb_spec (ps_CreditID row) creditID) as [Hc|Hc].
    - rewrite bool_decide_eq_true_2; [reflexivity|].
      apply list_elem_of_fmap. exists (ps_set_ID k row). split; [reflexivity|].
      apply elem_of_credit_rows. exists row. cbn. repeat split; assumption.
    - rewrite bool_decide_eq_false_2; [reflexivity|].
      intros Hin. apply list_elem_of_fmap in Hin as (s & -> & Hin).
      apply elem_of_credit_rows in Hin as (row' & Hrow' & _ & Hc').
      congruence. }
  cbn [fst snd]. split; [eauto|].
  destruct (existsb (past_due now) l).
  - rewrite (CreditRepo_Update_no_fault _ crow w3 Hf3)
      by (cbn [cr_ID cr_set_Status cr_set_ID]; rewrite FC; exact Hcrow).
    cbn [snd db payment_schedules credits accounts transactions cr_ID cr_set_Status
         cr_set_ID].
    rewrite FC. split; [exact HS|]. split; [reflexivity|split; assumption].
  - repeat split; assumption.
Qed.

(** X15. [GetSchedule] by the owner with a driver that does not fail: every
    pending installment of the credit that is past due is stored as
    [UpdateScheduleStatus] flags it, every other row is left alone, and
    the credit is stored as OVERDUE if there was such an installment.
    Afterwards no sweep fetches an installment of this credit that was due
    before the moment of the view. *)
Theorem GetSchedule_flags_past_due (now : Time) (creditID userID : Z) (w : World)
    (crow : Credit) :
  faults w = [] ->
  credits (db w) !! creditID = Some crow -> cr_UserID crow = userID ->
  let r := CreditSvc.GetSchedule now creditID userID w in
  (exists view, fst r = inr view)
  /\ payment_schedules (db (snd r)) = refreshed now creditID <$> payment_schedules (db w)
  /\ credits (db (snd r))
     = (if existsb (past_due now) (PaymentScheduleRepo.credit_rows creditID (db w))
        then <[creditID := cr_set_Status CreditStatusOverdue crow]> (credits (db w))
        else credits (db w))
  /\ accounts (db (snd r)) = accounts (db w)
  /\ transactions (db (snd r)) = transactions (db w)
  /\ (forall date p,
        p ∈ PaymentScheduleRepo.pending_rows date (db (snd r)) ->
        ps_CreditID p = creditID -> now <= ps_PaymentDate p).
Proof.
  intros Hf Hcrow Hown. cbv zeta.
  pose proof (GetSchedule_no_fault now creditID userID w crow Hf Hcrow Hown) as Hmain.
  cbv zeta in Hmain. destruct Hmain as (H1 & H2 & H3 & H4 & H5).
  repeat split; try assumption.
  intros date p Hin Hcr.
  apply elem_of_pending_rows in Hin as (row & Hrow & Heq & Hdue).
  apply is_pending_due_spec in Hdue as (Hst & _ & _).
  rewrite H2, lookup_fmap in Hrow.
  destruct (payment_schedules (db w) !! ps_ID p) as [row0|]; [|discriminate].
  cbn in Hrow. injection Hrow as <-.
  rewrite Heq in Hst, Hcr |- *. cbn [ps_Status ps_CreditID ps_PaymentDate ps_set_ID] in *.
  unfold refreshed in *.
  destruct (Z.eqb_spec (ps_CreditID row0) creditID) as [Hc|Hc].
  - destruct (UpdateScheduleStatus_pending now row0 Hst) as (-> & _ & Hle). exact Hle.
  - congruence.
Qed.

Lemma GetSchedule_flags_past_due_witness :
  (ps_Status <$> payment_schedules
     (db (snd (CreditSvc.GetSchedule 1000 10 7 (mkWorld one_due_installment [] 0)))) !! 5)
  = Some PaymentStatusOverdue
  /\ (cr_Status <$> credits
        (db (snd (CreditSvc.GetSchedule 1000 10 7 (mkWorld one_due_installment [] 0)))) !! 10)
     = Some CreditStatusOverdue.
Proof.
  destruct (GetSchedule_flags_past_due 1000 10 7 (mkWorld one_due_installment [] 0)
              credit_on_account_1 eq_refl eq_refl eq_refl) as (_ & H2 & H3 & _).
  rewrite H2, H3. split; vm_compute; reflexivity.
Defined.

(* ===================================================================== *)
(** ** [UpdateScheduleStatus], applied again                             *)
(* ===================================================================== *)

(** X16. [UpdateScheduleStatus] acts on an installment once: applied again,
    at any time, to an installment it has flagged, it changes nothing.  So
    an installment first looked at no more than one day late is OVERDUE
    without the penalty, and no later call adds it. *)
Theorem UpdateScheduleStatus_first_flag_is_final (now later : Time) (p : PaymentSchedule) :
  UpdateScheduleStatus later (UpdateScheduleStatus now p)
  = (if past_due now p then UpdateScheduleStatus now p else UpdateScheduleStatus later p)
  /\ (past_due now p = true -> daysOverdue now (ps_PaymentDate p) <= 1 ->
        ps_Status (UpdateScheduleStatus later (UpdateScheduleStatus now p))
        = PaymentStatusOverdue
        /\ ps_PenaltyAmount (UpdateScheduleStatus later (UpdateScheduleStatus now p))
           = ps_PenaltyAmount p).
Proof.
  assert (Hfirst : UpdateScheduleStatus later (UpdateScheduleStatus now p)
                   = (if past_due now p then UpdateScheduleStatus now p
                      else UpdateScheduleStatus later p)).
  { destruct (past_due now p) eqn:Hpd.
    - destruct (UpdateScheduleStatus_flagged now p Hpd) as (Hst & _).
      apply UpdateScheduleStatus_unchanged.
      rewrite Hst, bool_decide_eq_false_2 by discriminate. reflexivity.
    - rewrite (UpdateScheduleStatus_past_due now p Hpd). reflexivity. }
  split; [exact Hfirst|].
  intros Hpd Hgrace. rewrite Hfirst, Hpd.
  destruct (UpdateScheduleStatus_flagged now p Hpd) as (Hst & _).
  split; [exact Hst|].
  unfold UpdateScheduleStatus. unfold past_due in Hpd. rewrite Hpd.
  change (F64.to_int _) with (daysOverdue now (ps_PaymentDate p)).
  destruct (Z.ltb_spec 1 (daysOverdue now (ps_PaymentDate p))); [lia|reflexivity].
Qed.

(* ===================================================================== *)
(** ** The sweep: an installment that is covered                         *)
(* ===================================================================== *)

(** One iteration of the sweep on a fetched installment whose account
    covers the amount, with a driver that does not fail, in terms of the
    struct as [UpdateScheduleStatus] leaves it. *)
Lemma process_payment_covered :
  forall (now : Time) (w : World) (payment : PaymentSchedule) (c : Credit) (a : Account),
    faults w = [] ->
    payment ∈ PaymentScheduleRepo.pending_rows now (db w) ->
    credits (db w) !! ps_CreditID payment = Some c ->
    accounts (db w) !! cr_AccountID c = Some a ->
    let due := UpdateScheduleStatus now payment in
    (acc_Balance a <? CreditSvc.totalAmount due)%float = false ->
    let w' := CreditSvc.process_payment now w payment in
    (exists row',
       payment_schedules (db w') !! ps_ID payment = Some row'
       /\ ps_Status row' = PaymentStatusPaid
       /\ ps_IsOverdue row' = ps_IsOverdue due
       /\ ps_PenaltyAmount row' = ps_PenaltyAmount due
       /\ forall k, k <> ps_ID payment ->
                    payment_schedules (db w') !! k = payment_schedules (db w) !! k)
    /\ accounts (db w')
       = <[cr_AccountID c :=
             acc_set_Balance (acc_Balance a + - CreditSvc.totalAmount due) a]>
           (accounts (db w))
    /\ credits (db w') = credits (db w)
    /\ transactions (db w')
       = transactions (db w)
         ++ [ {| txn_ID := next_transaction_id (db w);
                 txn_TransactionType := TransactionTypePayment;
                 txn_SourceAccountID := Some (cr_AccountID c);
                 txn_DestinationAccountID := None;
                 txn_Amount := CreditSvc.totalAmount due;
                 txn_Currency := CurrencyRUB;
                 txn_Description :=
                   ("Credit payment for credit #" ++ pretty (ps_CreditID payment))%string;
                 txn_Status := TransactionStatusCompleted;
                 txn_CardID := None;
                 txn_TransactionDate := now |} ]
    /\ open_tx w' = open_tx w.
Proof.
  intros now w payment c a Hf Hin Hc Ha due Hlt w'. subst due w'.
  pose proof (ltb_add_opp_nonneg _ _ Hlt) as Hneg.
  destruct (pending_row_is_pending _ _ _ Hin) as (row & Hrow & _ & _).
  destruct w as [d fs n]. cbn [db faults open_tx] in *. subst fs.
  unfold CreditSvc.process_payment, CreditRepo.GetByID, driver_call. cbn.
  rewrite Hc. cbn.
  unfold AccountRepo.GetByID, driver_call. cbn. rewrite Ha. cbn.
  unfold BeginTx, driver_call. cbn.
  rewrite (UpdateBalance_no_fault _ _ (mkWorld d [] (S n)) a eq_refl Ha). rewrite Hneg.
  unfold TransactionRepo.Create, PaymentScheduleRepo.Update, Tx_Commit,
    close_tx, set_db, driver_call.
  cbn [db faults open_tx Nat.pred exec_stmt accounts credits payment_schedules
       transactions ps_ID ps_set_Status fst snd].
  rewrite UpdateScheduleStatus_ID, Hrow.
  cbn [db faults open_tx Nat.pred exec_stmt accounts credits payment_schedules
       transactions fst snd foldl tx_writes cr_ID cr_set_ID acc_ID acc_set_ID].
  split; [|split; [|split; [|split]]].
  - eexists. split; [apply lookup_insert_eq|].
    cbn [schedule_row_written ps_Status ps_IsOverdue ps_PenaltyAmount ps_set_Status
         ps_set_IsOverdue ps_set_PenaltyAmount].
    split; [reflexivity|]. split; [reflexivity|]. split; [reflexivity|].
    intros k Hk. apply lookup_insert_ne. congruence.
  - apply alter_alt_Some. exact Ha.
  - reflexivity.
  - reflexivity.
  - reflexivity.
Qed.

(** What [UpdateScheduleStatus] leaves in the overdue flag, the penalty
    and the total of an installment that was PENDING. *)
Lemma UpdateScheduleStatus_fields (now : Time) (p : PaymentSchedule) :
  ps_Status p = PaymentStatusPending ->
  ps_TotalAmount (UpdateScheduleStatus now p) = ps_TotalAmount p
  /\ ps_IsOverdue (UpdateScheduleStatus now p)
     = After now (ps_PaymentDate p) || ps_IsOverdue p
  /\ ps_PenaltyAmount (UpdateScheduleStatus now p)
     = (if After now (ps_PaymentDate p) && (1 <? daysOverdue now (ps_PaymentDate p))
        then roundToTwoDecimal (ps_TotalAmount p * 0.1)%float
        else ps_PenaltyAmount p).
Proof.
  intros Hst. unfold UpdateScheduleStatus, daysOverdue.
  rewrite Hst, bool_decide_eq_true_2 by reflexivity. cbn [andb].
  destruct (After now (ps_PaymentDate p)); cbn [andb orb];
    [|repeat split; reflexivity].
  cbn [ps_PaymentDate ps_set_IsOverdue ps_set_Status].
  destruct (1 <? _); cbn; repeat split; reflexivity.
Qed.

(** X17. An installment the sweep has fetched whose account covers the
    amount collected, processed with a driver that does not fail.  The
    installment counts as late when its due date lies before [now]; its
    penalty is then 10% of its total, rounded to the cent, if more than one
    day has gone by, and the penalty it already had otherwise.  The amount
    collected is the total plus that penalty if the installment is late or
    was flagged overdue before, and the total alone otherwise.  The stored
    installment is PAID with that flag and that penalty; the balance of the
    account of the credit is lowered by the amount collected; one COMPLETED
    payment record in RUB for that amount is appended; no other installment
    and no credit changes (the credit is not closed), and no transaction
    stays open. *)
Theorem sweep_collects_covered_installment :
  forall (now : Time) (w : World) (payment : PaymentSchedule) (c : Credit) (a : Account),
    faults w = [] ->
    payment ∈ PaymentScheduleRepo.pending_rows now (db w) ->
    credits (db w) !! ps_CreditID payment = Some c ->
    accounts (db w) !! cr_AccountID c = Some a ->
    let late := After now (ps_PaymentDate payment) in
    let penalty :=
      if late && (1 <? daysOverdue now (ps_PaymentDate payment))
      then roundToTwoDecimal (ps_TotalAmount payment * 0.1)%float
      else ps_PenaltyAmount payment in
    let collected :=
      if late || ps_IsOverdue payment
      then (ps_TotalAmount payment + penalty)%float
      else ps_TotalAmount payment in
    (acc_Balance a <? collected)%float = false ->
    let w' := CreditSvc.process_payment now w payment in
    (exists row',
       payment_schedules (db w') !! ps_ID payment = Some row'
       /\ ps_Status row' = PaymentStatusPaid
       /\ ps_IsOverdue row' = late || ps_IsOverdue payment
       /\ ps_PenaltyAmount row' = penalty
       /\ forall k, k <> ps_ID payment ->
                    payment_schedules (db w') !! k = payment_schedules (db w) !! k)
    /\ accounts (db w')
       = <[cr_AccountID c := acc_set_Balance (acc_Balance a + - collected) a]>
           (accounts (db w))
    /\ credits (db w') = credits (db w)
    /\ transactions (db w')
       = transactions (db w)
         ++ [ {| txn_ID := next_transaction_id (db w);
                 txn_TransactionType := TransactionTypePayment;
                 txn_SourceAccountID := Some (cr_AccountID c);
                 txn_DestinationAccountID := None;
                 txn_Amount := collected;
                 txn_Currency := CurrencyRUB;
                 txn_Description :=
                   ("Credit payment for credit #" ++ pretty (ps_CreditID payment))%string;
                 txn_Status := TransactionStatusCompleted;
                 txn_CardID := None;
                 txn_TransactionDate := now |} ]
    /\ open_tx w' = open_tx w.
Proof.
  intros now w payment c a Hf Hin Hc Ha late penalty collected Hlt w'.
  assert (Hst : ps_Status payment = PaymentStatusPending).
  { destruct (pending_row_is_pending _ _ _ Hin) as (row & _ & -> & Hst & _).
    exact Hst. }
  destruct (UpdateScheduleStatus_fields now payment Hst) as (Htot & Hover & Hpen).
  fold late in Hover, Hpen. fold penalty in Hpen.
  assert (Hamount : CreditSvc.totalAmount (UpdateScheduleStatus now payment) = collected).
  { unfold CreditSvc.totalAmount. rewrite Hover, Htot, Hpen. reflexivity. }
  pose proof (process_payment_covered now w payment c a Hf Hin Hc Ha) as Hmain.
  cbv zeta in Hmain. rewrite Hamount, Hover, Hpen in Hmain.
  exact (Hmain Hlt).
Qed.

Lemma sweep_collects_covered_installment_witness :
  (payment_schedules
     (db (CreditSvc.process_payment (3 * nsPerDay) (mkWorld one_due_installment [] 0)
            fetched_installment)) !! 5)
  = Some (mkPaymentSchedule 5 10 0 80 8.85 88.85 PaymentStatusPaid true 8.89)
  /\ (acc_Balance <$> accounts
        (db (CreditSvc.process_payment (3 * nsPerDay) (mkWorld one_due_installment [] 0)
               fetched_installment)) !! 1) = Some (300 + - (88.85 + 8.89))%float
  /\ (txn_Amount <$> transactions
        (db (CreditSvc.process_payment (3 * nsPerDay) (mkWorld one_due_installment [] 0)
               fetched_installment))) = [(88.85 + 8.89)%float].
Proof.
  destruct (sweep_collects_covered_installment (3 * nsPerDay)
              (mkWorld one_due_installment [] 0)
              fetched_installment credit_on_account_1 (checking_account 7 300))
    as (_ & Hacc & _ & Htx & _);
    [reflexivity | vm_compute; apply list_elem_of_here | reflexivity | reflexivity
    | vm_compute; reflexivity |].
  split; [vm_compute; reflexivity|]. split.
  - rewrite Hacc. vm_compute. reflexivity.
  - rewrite Htx. vm_compute. reflexivity.
Defined.

(* ===================================================================== *)
(** ** Generated numbers                                                 *)
(* ===================================================================== *)

Lemma list_ascii_of_string_app (s t : string) :
  list_ascii_of_string (s ++ t)
  = (list_ascii_of_string s ++ list_ascii_of_string t)%list.
Proof. induction s as [|c s IH]; [reflexivity|]. simpl. rewrite IH. reflexivity. Qed.

Lemma string_length_list (s : string) :
  String.length s = length (list_ascii_of_string s).
Proof. induction s as [|c s IH]; [reflexivity|]. simpl. rewrite IH. reflexivity. Qed.

Lemma append_random_digits_chars (rnd : nat -> Z) (count i : nat) (s : string) :
  list_ascii_of_string (append_random_digits rnd i count s)
  = (list_ascii_of_string s ++ ((fun k => digit_char (rnd k)) <$> seq i count))%list.
Proof.
  revert i s. induction count as [|count IH]; intros i s; cbn [append_random_digits seq].
  - cbn. rewrite app_nil_r. reflexivity.
  - rewrite IH, list_ascii_of_string_app, <- app_assoc. reflexivity.
Qed.

Lemma is_digit_digit_char (d : Z) : 0 <= d <= 9 -> is_digit (digit_char d) = true.
Proof.
  intros Hd.
  assert (Hc : d = 0 \/ d = 1 \/ d = 2 \/ d = 3 \/ d = 4 \/ d = 5 \/ d = 6 \/ d = 7
               \/ d = 8 \/ d = 9) by lia.
  repeat (destruct Hc as [->|Hc]); [..|subst d]; reflexivity.
Qed.

Lemma digit_char_value (d : Z) :
  0 <= d <= 9 -> (Z.of_N (N_of_ascii (digit_char d)) - zero_rune) mod 256 = d.
Proof.
  intros Hd.
  assert (Hc : d = 0 \/ d = 1 \/ d = 2 \/ d = 3 \/ d = 4 \/ d = 5 \/ d = 6 \/ d = 7
               \/ d = 8 \/ d = 9) by lia.
  repeat (destruct Hc as [->|Hc]); [..|subst d]; reflexivity.
Qed.

Lemma all_digits_random (rnd : nat -> Z) (count i : nat) (s : string) :
  digit_draws rnd -> all_digits s = true ->
  all_digits (append_random_digits rnd i count s) = true.
Proof.
  intros Hrnd Hs. unfold all_digits in *.
  rewrite append_random_digits_chars, forallb_app, Hs. cbn [andb].
  apply forallb_forall. intros c Hin.
  apply in_map_iff in Hin as (k & <- & _). apply is_digit_digit_char, Hrnd.
Qed.

Lemma length_random (rnd : nat -> Z) (count i : nat) (s : string) :
  String.length (append_random_digits rnd i count s) = (String.length s + count)%nat.
Proof.
  rewrite !string_length_list, append_random_digits_chars, length_app, length_fmap,
    length_seq. reflexivity.
Qed.

Lemma prefix_app (p s t : string) :
  String.prefix p s = true -> String.prefix p (s ++ t) = true.
Proof.
  revert s. induction p as [|c p IHp]; intros s Hp.
  - destruct (s ++ t)%string; reflexivity.
  - destruct s as [|c' s]; [discriminate|]. simpl in Hp |- *.
    destruct (ascii_dec c c'); [|discriminate]. apply IHp. exact Hp.
Qed.

Lemma prefix_random (rnd : nat -> Z) (count i : nat) (p s : string) :
  String.prefix p s = true ->
  String.prefix p (append_random_digits rnd i count s) = true.
Proof.
  revert i s. induction count as [|count IH]; intros i s Hp; cbn [append_random_digits].
  - exact Hp.
  - apply IH, prefix_app, Hp.
Qed.

Lemma luhn_step_digit (sum : Z) (alternate : bool) (d : Z) :
  0 <= d <= 9 ->
  luhn_step (sum, alternate) (digit_char d)
  = (sum + (if alternate then luhn_double d else d), negb alternate).
Proof.
  intros Hd. unfold luhn_step.
  rewrite (digit_char_value d Hd). destruct alternate; reflexivity.
Qed.

Lemma luhn_step_nonneg (acc : Z * bool) (c : ascii) :
  0 <= fst acc -> 0 <= fst (luhn_step acc c).
Proof.
  destruct acc as [sum alternate]. unfold luhn_step. cbn [fst]. intros Hs.
  pose proof (Z.mod_pos_bound (Z.of_N (N_of_ascii c) - zero_rune) 256 eq_refl) as Hm.
  destruct alternate; [destruct (Z.ltb_spec 9 ((Z.of_N (N_of_ascii c) - zero_rune) mod 256 * 2))|];
    cbn [fst]; lia.
Qed.

Lemma luhn_sum_nonneg (s : string) : 0 <= luhn_sum s.
Proof.
  unfold luhn_sum.
  assert (H : forall l acc, 0 <= fst acc -> 0 <= fst (foldl luhn_step acc l)).
  { induction l as [|c l IH]; intros acc Hacc; [exact Hacc|].
    cbn [foldl]. apply IH, luhn_step_nonneg, Hacc. }
  apply H. cbn. lia.
Qed.

(** The check digit is a digit. *)
Lemma check_digit_bounds (sum : Z) :
  0 <= sum -> 0 <= Z.rem (10 - Z.rem sum 10) 10 <= 9.
Proof.
  intros Hs. rewrite (Z.rem_mod_nonneg sum 10) by lia.
  pose proof (Z.mod_pos_bound sum 10 eq_refl).
  rewrite Z.rem_mod_nonneg by lia.
  pose proof (Z.mod_pos_bound (10 - sum mod 10) 10 eq_refl). lia.
Qed.

Lemma rune_string_digit (d : Z) :
  rune_string (zero_rune + d) = String (digit_char d) EmptyString.
Proof. reflexivity. Qed.

(** X18. With draws that are digits, [GenerateAccountNumber] returns 17
    decimal digits that start with 40817, [GenerateCardNumber] 16 decimal
    digits that start with 2200, and [GenerateCVV] 3 decimal digits. *)
Theorem generated_numbers_shape (rnd : nat -> Z) :
  digit_draws rnd ->
  (String.length (GenerateAccountNumber rnd) = 17%nat
   /\ all_digits (GenerateAccountNumber rnd) = true
   /\ String.prefix "40817" (GenerateAccountNumber rnd) = true)
  /\ (String.length (GenerateCardNumber rnd) = 16%nat
      /\ all_digits (GenerateCardNumber rnd) = true
      /\ String.prefix "2200" (GenerateCardNumber rnd) = true)
  /\ (String.length (GenerateCVV rnd) = 3%nat
      /\ all_digits (GenerateCVV rnd) = true).
Proof.
  intros Hrnd. split; [|split].
  - unfold GenerateAccountNumber. split; [|split].
    + rewrite length_random. reflexivity.
    + apply all_digits_random; [exact Hrnd|reflexivity].
    + apply prefix_random. reflexivity.
  - unfold GenerateCardNumber. cbv zeta.
    set (payload := append_random_digits rnd 0 11 "2200").
    pose proof (check_digit_bounds _ (luhn_sum_nonneg payload)) as Hc.
    rewrite rune_string_digit.
    split; [|split].
    + rewrite string_length_list, list_ascii_of_string_app, length_app,
        <- !string_length_list. subst payload. rewrite length_random. reflexivity.
    + unfold all_digits. rewrite list_ascii_of_string_app, forallb_app.
      apply andb_true_intro. split.
      * apply all_digits_random; [exact Hrnd|reflexivity].
      * cbn [list_ascii_of_string forallb]. rewrite (is_digit_digit_char _ Hc). reflexivity.
    + apply prefix_app, prefix_random. reflexivity.
  - unfold GenerateCVV. split.
    + rewrite length_random. reflexivity.
    + apply all_digits_random; [exact Hrnd|reflexivity].
Qed.

Lemma generated_numbers_shape_witness :
  digit_draws (fun k => Z.of_nat k mod 10)
  /\ String.length (GenerateAccountNumber (fun k => Z.of_nat k mod 10)) = 17%nat
  /\ String.length (GenerateCardNumber (fun k => Z.of_nat k mod 10)) = 16%nat
  /\ all_digits (GenerateCVV (fun k => Z.of_nat k mod 10)) = true.
Proof.
  assert (H : digit_draws (fun k => Z.of_nat k mod 10)).
  { intros k. pose proof (Z.mod_pos_bound (Z.of_nat k) 10 eq_refl). lia. }
  destruct (generated_numbers_shape _ H) as ((H1 & _) & (H2 & _) & (_ & H3)).
  split; [exact H|]. split; [exact H1|]. split; [exact H2|exact H3].
Defined.

(* ===================================================================== *)
(** ** The check digit                                                   *)
(* ===================================================================== *)

Lemma payload_chars (rnd : nat -> Z) :
  list_ascii_of_string (append_random_digits rnd 0 11 "2200")
  = digit_char <$> [2; 2; 0; 0; rnd 0%nat; rnd 1%nat; rnd 2%nat; rnd 3%nat; rnd 4%nat;
                    rnd 5%nat; rnd 6%nat; rnd 7%nat; rnd 8%nat; rnd 9%nat; rnd 10%nat].
Proof. rewrite append_random_digits_chars. reflexivity. Qed.

Lemma luhn_sum_payload (rnd : nat -> Z) :
  digit_draws rnd ->
  luhn_sum (append_random_digits rnd 0 11 "2200")
  = rnd 10%nat + luhn_double (rnd 9%nat) + rnd 8%nat + luhn_double (rnd 7%nat)
    + rnd 6%nat + luhn_double (rnd 5%nat) + rnd 4%nat + luhn_double (rnd 3%nat)
    + rnd 2%nat + luhn_double (rnd 1%nat) + rnd 0%nat + 6.
Proof.
  intros Hrnd. unfold luhn_sum. rewrite payload_chars.
  cbn [fmap list_fmap rev app foldl].
  repeat (rewrite luhn_step_digit by (apply Hrnd || lia); cbn [negb]).
  cbn [fst]. change (luhn_double 0) with 0. change (luhn_double 2) with 4. lia.
Qed.

Lemma luhn_sum_number (rnd : nat -> Z) :
  digit_draws rnd ->
  luhn_sum (GenerateCardNumber rnd)
  = Z.rem (10 - Z.rem (luhn_sum (append_random_digits rnd 0 11 "2200")) 10) 10
    + luhn_double (rnd 10%nat) + rnd 9%nat + luhn_double (rnd 8%nat) + rnd 7%nat
    + luhn_double (rnd 6%nat) + rnd 5%nat + luhn_double (rnd 4%nat) + rnd 3%nat
    + luhn_double (rnd 2%nat) + rnd 1%nat + luhn_double (rnd 0%nat) + 6.
Proof.
  intros Hrnd. unfold GenerateCardNumber. cbv zeta.
  pose proof (check_digit_bounds _
                (luhn_sum_nonneg (append_random_digits rnd 0 11 "2200"))) as Hc.
  set (c := Z.rem _ 10) in *.
  unfold luhn_sum at 1.
  rewrite list_ascii_of_string_app, payload_chars, rune_string_digit.
  cbn [fmap list_fmap list_ascii_of_string rev app foldl].
  repeat (rewrite luhn_step_digit by (apply Hrnd || lia); cbn [negb]).
  cbn [fst]. change (luhn_double 0) with 0. change (luhn_double 2) with 4. lia.
Qed.

Lemma luhn_double_nonneg (d : Z) : 0 <= d -> 0 <= luhn_double d.
Proof. intros Hd. unfold luhn_double. destruct (Z.ltb_spec 9 (d * 2)); lia. Qed.

(** The check digit computed from a sum in which the last digit [d]
    counts once, put into a sum in which it counts double. *)
Lemma check_digit_shift (A B d1 d2 : Z) :
  0 <= A -> 1 <= d1 -> d1 < d2 -> d2 <= 8 ->
  (Z.rem (10 - Z.rem (d1 + A) 10) 10 + luhn_double d1 + B) mod 10 = 0 ->
  (Z.rem (10 - Z.rem (d2 + A) 10) 10 + luhn_double d2 + B) mod 10 <> 0.
Proof.
  intros HA H1 H12 H2.
  assert (Hc : forall d, 1 <= d <= 8 ->
            (Z.rem (10 - Z.rem (d + A) 10) 10 + luhn_double d + B) mod 10
            = (luhn_double d - d + B - A) mod 10).
  { intros d Hd. rewrite (Z.rem_mod_nonneg (d + A) 10) by lia.
    pose proof (Z.mod_pos_bound (d + A) 10 eq_refl).
    rewrite Z.rem_mod_nonneg by lia.
    Z.div_mod_to_equations. lia. }
  rewrite !Hc by lia. unfold luhn_double.
  destruct (Z.ltb_spec 9 (d1 * 2)), (Z.ltb_spec 9 (d2 * 2));
    Z.div_mod_to_equations; lia.
Qed.

(** X19. The check digit of [GenerateCardNumber] is computed from a sum in
    which the doubled positions are one off from those of the Luhn check of
    the complete number.  Whatever the other draws are, of two numbers that
    differ in the last drawn digit only, both from 1 to 8, at most one
    passes the Luhn check. *)
Theorem GenerateCardNumber_check_digit (rnd : nat -> Z) (d1 d2 : Z) :
  digit_draws rnd -> 1 <= d1 -> d1 < d2 -> d2 <= 8 ->
  luhn_valid (GenerateCardNumber (with_draw 10 d1 rnd)) = true ->
  luhn_valid (GenerateCardNumber (with_draw 10 d2 rnd)) = false.
Proof.
  intros Hrnd H1 H12 H2.
  assert (Hw : forall d, 0 <= d <= 9 -> digit_draws (with_draw 10 d rnd)).
  { intros d Hd k. unfold with_draw. destruct (k =? 10)%nat; [exact Hd|apply Hrnd]. }
  unfold luhn_valid.
  rewrite !luhn_sum_number, !luhn_sum_payload by (apply Hw; lia).
  unfold with_draw. cbn [Nat.eqb].
  pose (A := luhn_double (rnd 9%nat) + rnd 8%nat + luhn_double (rnd 7%nat)
             + rnd 6%nat + luhn_double (rnd 5%nat) + rnd 4%nat + luhn_double (rnd 3%nat)
             + rnd 2%nat + luhn_double (rnd 1%nat) + rnd 0%nat + 6).
  pose (B := rnd 9%nat + luhn_double (rnd 8%nat) + rnd 7%nat
             + luhn_double (rnd 6%nat) + rnd 5%nat + luhn_double (rnd 4%nat) + rnd 3%nat
             + luhn_double (rnd 2%nat) + rnd 1%nat + luhn_double (rnd 0%nat) + 6).
  assert (HA : 0 <= A).
  { subst A.
    pose proof (Hrnd 0%nat); pose proof (Hrnd 2%nat); pose proof (Hrnd 4%nat);
    pose proof (Hrnd 6%nat); pose proof (Hrnd 8%nat).
    pose proof (luhn_double_nonneg (rnd 1%nat) (proj1 (Hrnd 1%nat)));
    pose proof (luhn_double_nonneg (rnd 3%nat) (proj1 (Hrnd 3%nat)));
    pose proof (luhn_double_nonneg (rnd 5%nat) (proj1 (Hrnd 5%nat)));
    pose proof (luhn_double_nonneg (rnd 7%nat) (proj1 (Hrnd 7%nat)));
    pose proof (luhn_double_nonneg (rnd 9%nat) (proj1 (Hrnd 9%nat))). lia. }
  intros Hv. apply Z.eqb_eq in Hv. apply Z.eqb_neq.
  assert (E1 : forall d,
            d + luhn_double (rnd 9%nat) + rnd 8%nat + luhn_double (rnd 7%nat)
            + rnd 6%nat + luhn_double (rnd 5%nat) + rnd 4%nat + luhn_double (rnd 3%nat)
            + rnd 2%nat + luhn_double (rnd 1%nat) + rnd 0%nat + 6 = d + A)
    by (intros d; subst A; lia).
  assert (E2 : forall c d,
            c + luhn_double d + rnd 9%nat + luhn_double (rnd 8%nat) + rnd 7%nat
            + luhn_double (rnd 6%nat) + rnd 5%nat + luhn_double (rnd 4%nat) + rnd 3%nat
            + luhn_double (rnd 2%nat) + rnd 1%nat + luhn_double (rnd 0%nat) + 6
            = c + luhn_double d + B)
    by (intros c d; subst B; lia).
  rewrite E1, E2 in Hv |- *.
  exact (check_digit_shift A B d1 d2 HA H1 H12 H2 Hv).
Qed.

Lemma GenerateCardNumber_check_digit_witness :
  luhn_valid (GenerateCardNumber (with_draw 10 1 (with_draw 9 1 (fun _ => 0)))) = true
  /\ luhn_valid (GenerateCardNumber (with_draw 10 2 (with_draw 9 1 (fun _ => 0)))) = false.
Proof.
  assert (Hrnd : digit_draws (with_draw 9 1 (fun _ => 0))).
  { intros k. unfold with_draw. destruct (k =? 9)%nat; lia. }
  assert (Hv : luhn_valid (GenerateCardNumber (with_draw 10 1 (with_draw 9 1 (fun _ => 0))))
               = true) by (vm_compute; reflexivity).
  split; [exact Hv|].
  apply (GenerateCardNumber_check_digit _ 1 2 Hrnd); [lia | lia | lia | exact Hv].
Defined.

(* ===================================================================== *)
(** ** Masking of a card number                                          *)
(* ===================================================================== *)

Lemma string_length_app (s t : string) :
  String.length (s ++ t) = (String.length s + String.length t)%nat.
Proof. rewrite !string_length_list, list_ascii_of_string_app, length_app. reflexivity. Qed.

Lemma substring_length (s : string) (n m : nat) :
  (n + m <= String.length s)%nat -> String.length (substring n m s) = m.
Proof.
  revert n m. induction s as [|c s IH]; intros n m H.
  - cbn in H. assert (n = 0%nat) by lia. assert (m = 0%nat) by lia. subst. reflexivity.
  - destruct n as [|n].
    + destruct m as [|m]; [reflexivity|]. simpl. f_equal.
      apply (IH 0%nat m). cbn in H. lia.
    + simpl. apply IH. cbn in H. lia.
Qed.

Lemma get_beyond (s : string) (i : nat) :
  (String.length s <= i)%nat -> String.get i s = None.
Proof.
  revert i. induction s as [|c s IH]; intros i H; [reflexivity|].
  destruct i as [|i]; [cbn in H; lia|]. simpl. apply IH. cbn in H. lia.
Qed.

(** X20. [ToCardResponse] keeps the length of the card number.  Of a number
    of 16 bytes or more it shows the bytes at the positions 6 to 11
    (counted from 0) as asterisks and every other byte as it is; a shorter
    number is shown in full. *)
Theorem ToCardResponse_mask (c : Card) :
  let number := card_CardNumber c in
  let shown := cres_CardNumber (ToCardResponse c) in
  String.length shown = String.length number
  /\ (forall i,
        String.get i shown
        = if (16 <=? String.length number)%nat && (6 <=? i)%nat && (i <? 12)%nat
          then Some "*"%char
          else String.get i number).
Proof.
  cbv zeta. unfold ToCardResponse. cbn [cres_CardNumber].
  set (number := card_CardNumber c).
  destruct (Nat.leb_spec 16 (String.length number)) as [Hlen|Hlen]; cbn [andb];
    [|split; reflexivity].
  split.
  - rewrite !string_length_app, !substring_length by lia. cbn. lia.
  - intros i.
    destruct (Nat.leb_spec 6 i) as [H6|H6]; cbn [andb].
    + replace i with ((i - 6) + String.length (substring 0 6 number))%nat at 1
        by (rewrite substring_length by lia; lia).
      rewrite <- append_correct2.
      destruct (Nat.ltb_spec i 12) as [H12|H12].
      * rewrite <- append_correct1 by (cbn; lia).
        assert (Hc : (i - 6 = 0 \/ i - 6 = 1 \/ i - 6 = 2 \/ i - 6 = 3 \/ i - 6 = 4
                      \/ i - 6 = 5)%nat) by lia.
        repeat (destruct Hc as [->|Hc]); [..|rewrite Hc]; reflexivity.
      * replace (i - 6)%nat with ((i - 12) + String.length "******")%nat by (cbn; lia).
        rewrite <- append_correct2.
        destruct (Nat.lt_ge_cases i (String.length number)) as [Hi|Hi].
        -- rewrite substring_correct1 by lia. f_equal. lia.
        -- rewrite substring_correct2 by lia. symmetry. apply get_beyond. exact Hi.
    + rewrite <- append_correct1 by (rewrite substring_length by lia; lia).
      rewrite substring_correct1 by lia. f_equal. lia.
Qed.

(* ===================================================================== *)
(** ** Issuing a credit: [CreditSvc.Create]                               *)
(* ===================================================================== *)

Lemma le_foldr_max (l : list Z) (k : Z) : k ∈ l -> k <= foldr Z.max 0 l.
Proof.
  induction l as [|x l IH]; intros Hin; [inversion Hin|].
  cbn [foldr]. apply elem_of_cons in Hin as [->|Hin]; [lia|].
  specialize (IH Hin). lia.
Qed.

Lemma next_id_fresh {A : Type} (m : gmap Z A) : m !! next_id m = None.
Proof.
  destruct (m !! next_id m) as [v|] eqn:E; [|reflexivity]. exfalso.
  assert (Hin : next_id m ∈ fst <$> map_to_list m).
  { apply list_elem_of_fmap. exists (next_id m, v). split; [reflexivity|].
    apply elem_of_map_to_list. exact E. }
  apply le_foldr_max in Hin. unfold next_id in Hin at 1. lia.
Qed.

Lemma insert_rows_spec (items : list PaymentSchedule) (m : gmap Z PaymentSchedule) :
  exists ids,
    length ids = length items /\ NoDup ids /\ (forall id, id ∈ ids -> m !! id = None)
    /\ PaymentScheduleRepo.insert_rows items m = rows_inserted ids items m.
Proof.
  revert m. induction items as [|x items IH]; intros m.
  - exists []. split; [reflexivity|]. split; [constructor|]. split.
    + intros id Hin. inversion Hin.
    + unfold rows_inserted. cbn. rewrite (left_id_L ∅ (∪)). reflexivity.
  - cbn [PaymentScheduleRepo.insert_rows].
    destruct (IH (<[next_id m := ps_set_ID (next_id m) x]> m))
      as (ids & Hlen & Hnd & Hfresh & Heq).
    assert (Hnot : next_id m ∉ ids).
    { intros Hin. apply Hfresh in Hin. rewrite lookup_insert_eq in Hin. discriminate. }
    exists (next_id m :: ids). split; [cbn; lia|]. split; [constructor; assumption|].
    split.
    + intros id Hin. apply elem_of_cons in Hin as [->|Hin]; [apply next_id_fresh|].
      specialize (Hfresh id Hin).
      apply lookup_insert_None in Hfresh as [Hfresh _]. exact Hfresh.
    + rewrite Heq. unfold rows_inserted.
      change (zip (next_id m :: ids) (zip_with ps_set_ID (next_id m :: ids) (x :: items)))
        with ((next_id m, ps_set_ID (next_id m) x)
                :: zip ids (zip_with ps_set_ID ids items)).
      rewrite list_to_map_cons, <- insert_union_l. rewrite insert_union_r; [reflexivity|].
      apply not_elem_of_list_to_map. intros Hin. apply Hnot.
      apply list_elem_of_fmap in Hin as ([k v] & -> & Hin).
      apply elem_of_zip_l in Hin. exact Hin.
Qed.

Lemma UserRepo_GetByID_no_fault (users : gmap Z User) (id : Z) (w : World) (row : User) :
  faults w = [] -> users !! id = Some row ->
  UserRepo.GetByID users id w = (inr (usr_set_ID id row), w).
Proof.
  intros Hf Hrow. unfold UserRepo.GetByID.
  rewrite (driver_call_no_fault w Hf), Hrow. reflexivity.
Qed.

Lemma AccountRepo_Create_no_fault (account : Account) (w : World) :
  faults w = [] ->
  AccountRepo.Create account w
  = (inr (next_id (accounts (db w))),
     mkWorld (mkDB (<[next_id (accounts (db w))
                      := acc_set_ID (next_id (accounts (db w))) account]> (accounts (db w)))
                   (credits (db w)) (payment_schedules (db w)) (transactions (db w)))
             [] (open_tx w)).
Proof.
  intros Hf. unfold AccountRepo.Create. rewrite (driver_call_no_fault w Hf).
  unfold set_db. rewrite Hf. reflexivity.
Qed.

Lemma CreditRepo_Create_no_fault (credit : Credit) (w : World) :
  faults w = [] ->
  CreditRepo.Create credit w
  = (inr (next_id (credits (db w))),
     mkWorld (mkDB (accounts (db w))
                   (<[next_id (credits (db w))
                      := cr_set_ID (next_id (credits (db w))) credit]> (credits (db w)))
                   (payment_schedules (db w)) (transactions (db w)))
             [] (open_tx w)).
Proof.
  intros Hf. unfold CreditRepo.Create. rewrite (driver_call_no_fault w Hf).
  unfold set_db. rewrite Hf. reflexivity.
Qed.

Lemma CreateBatch_no_fault (schedules : list PaymentSchedule) (w : World) :
  faults w = [] -> schedules <> [] ->
  PaymentScheduleRepo.CreateBatch schedules w
  = (None,
     mkWorld (mkDB (accounts (db w)) (credits (db w))
                   (PaymentScheduleRepo.insert_rows schedules (payment_schedules (db w)))
                   (transactions (db w)))
             [] (open_tx w)).
Proof.
  intros Hf Hne. unfold PaymentScheduleRepo.CreateBatch.
  rewrite (BeginTx_no_fault w Hf).
  rewrite driver_call_no_fault by reflexivity.
  rewrite bool_decide_eq_false_2 by exact Hne. cbn [orb].
  rewrite Tx_Commit_empty_no_fault by reflexivity.
  unfold set_db. reflexivity.
Qed.

Lemma ValidateCreditRequest_ok (c : CreditRequest) :
  ValidateCreditRequest c = None ->
  (rq_Amount c <=? 0)%float = false /\ 1 <= rq_TermMonths c <= 360
  /\ (rq_InterestRate c <? 0)%float = false.
Proof.
  unfold ValidateCreditRequest.
  destruct (rq_Amount c <=? 0)%float; [discriminate|].
  destruct (Z.ltb_spec (rq_TermMonths c) 1); [discriminate|].
  destruct (Z.ltb_spec 360 (rq_TermMonths c)); [discriminate|]. cbn [orb].
  destruct (rq_InterestRate c <? 0)%float; [discriminate|].
  intros _. repeat split; lia.
Qed.

(** [Create] with a driver that does not fail. *)
Lemma Create_no_fault (now later : Time) (users : gmap Z User)
    (keyRate : error + float) (rnd : nat -> Z) (creditReq : CreditRequest) (w : World)
    (user : User) :
  faults w = [] ->
  ValidateCreditRequest creditReq = None ->
  users !! rq_UserID creditReq = Some user ->
  let accountID := next_id (accounts (db w)) in
  let creditID := next_id (credits (db w)) in
  let credit := cr_set_ID creditID (ToCredit now creditReq accountID (base_rate keyRate)) in
  CreditSvc.Create now later users keyRate rnd creditReq w
  = (inr creditID,
     mkWorld
       (mkDB (<[accountID := acc_set_Balance (0 + rq_Amount creditReq)%float
                               (acc_set_ID accountID (credit_account rnd creditReq))]>
                (accounts (db w)))
             (<[creditID := credit]> (credits (db w)))
             (PaymentScheduleRepo.insert_rows (GeneratePaymentSchedule credit)
                (payment_schedules (db w)))
             (transactions (db w)
              ++ [txn_set_ID (next_transaction_id (db w))
                    (issue_record later creditReq accountID creditID)]))
       [] (open_tx w)).
Proof.
  intros Hf Hvalid Huser. cbv zeta.
  destruct (ValidateCreditRequest_ok _ Hvalid) as (Hamount & Hterm & _).
  set (accountID := next_id (accounts (db w))).
  set (creditID := next_id (credits (db w))).
  set (credit := cr_set_ID creditID (ToCredit now creditReq accountID (base_rate keyRate))).
  unfold CreditSvc.Create. rewrite Hvalid.
  rewrite (UserRepo_GetByID_no_fault _ _ _ _ Hf Huser).
  rewrite (BeginTx_no_fault w Hf).
  rewrite AccountRepo_Create_no_fault by reflexivity.
  cbn [db accounts credits payment_schedules transactions open_tx].
  rewrite CreditRepo_Create_no_fault by reflexivity.
  cbn [db accounts credits payment_schedules transactions open_tx].
  fold accountID creditID. change (match keyRate with inl _ => 7%float | inr b => b end)
    with (base_rate keyRate). fold credit.
  assert (Hne : GeneratePaymentSchedule credit <> []).
  { intros Hnil. apply (f_equal length) in Hnil.
    unfold GeneratePaymentSchedule in Hnil. rewrite schedule_loop_length in Hnil.
    cbn in Hnil. lia. }
  rewrite CreateBatch_no_fault by (reflexivity || exact Hne).
  cbn [db accounts credits payment_schedules transactions open_tx].
  erewrite UpdateBalance_no_fault_ok;
    [| reflexivity | cbn [db accounts]; apply lookup_insert_eq
     | cbn [acc_Balance acc_set_ID]; apply ltb_add_pos_nonneg; [reflexivity|exact Hamount] ].
  rewrite TransactionRepo_Create_no_fault by reflexivity.
  rewrite Tx_Commit_empty_no_fault by reflexivity.
  cbn [fst snd db accounts credits payment_schedules transactions open_tx Nat.pred
       balance_added record_added].
  unfold record_added, balance_added.
  cbn [accounts credits payment_schedules transactions].
  rewrite alter_insert_eq. reflexivity.
Qed.

(** X21. [CreditSvc.Create] for a valid request of an existing user, with a
    driver that does not fail, returns the id of the new credit.  A new
    active RUB credit account of the user holds the amount; the credit row
    is what [ToCredit] computes from the request, the new account and the
    base rate (7 when the key rate cannot be had); one installment for each
    month is stored under a new id, as [GeneratePaymentSchedule] lists
    them; one COMPLETED deposit record to the new account is appended; no
    transaction stays open. *)
Theorem Create_issues_credit (now later : Time) (users : gmap Z User)
    (keyRate : error + float) (rnd : nat -> Z) (creditReq : CreditRequest) (w : World)
    (user : User) :
  faults w = [] ->
  ValidateCreditRequest creditReq = None ->
  users !! rq_UserID creditReq = Some user ->
  let r := CreditSvc.Create now later users keyRate rnd creditReq w in
  exists accountID creditID ids,
    fst r = inr creditID
    /\ accounts (db w) !! accountID = None
    /\ credits (db w) !! creditID = None
    /\ (let credit :=
          cr_set_ID creditID (ToCredit now creditReq accountID (base_rate keyRate)) in
        accounts (db (snd r))
        = <[accountID := {| acc_ID := accountID;
                            acc_UserID := rq_UserID creditReq;
                            acc_AccountNumber := GenerateAccountNumber rnd;
                            acc_Balance := (0 + rq_Amount creditReq)%float;
                            acc_Currency := CurrencyRUB;
                            acc_AccountType := AccountTypeCredit;
                            acc_IsActive := true |}]> (accounts (db w))
        /\ credits (db (snd r)) = <[creditID := credit]> (credits (db w))
        /\ length ids = Z.to_nat (rq_TermMonths creditReq) /\ NoDup ids
        /\ (forall id, id ∈ ids -> payment_schedules (db w) !! id = None)
        /\ payment_schedules (db (snd r))
           = rows_inserted ids (GeneratePaymentSchedule credit) (payment_schedules (db w))
        /\ transactions (db (snd r))
           = transactions (db w)
             ++ [ {| txn_ID := next_transaction_id (db w);
                     txn_TransactionType := TransactionTypeDeposit;
                     txn_SourceAccountID := None;
                     txn_DestinationAccountID := Some accountID;
                     txn_Amount := rq_Amount creditReq;
                     txn_Currency := CurrencyRUB;
                     txn_Description :=
                       ("Credit #" ++ pretty creditID ++ " issued")%string;
                     txn_Status := TransactionStatusCompleted;
                     txn_CardID := None;
                     txn_TransactionDate := later |} ]
        /\ open_tx (snd r) = open_tx w /\ faults (snd r) = []).
Proof.
  intros Hf Hvalid Huser. cbv zeta.
  rewrite (Create_no_fault now later users keyRate rnd creditReq w user Hf Hvalid Huser).
  exists (next_id (accounts (db w))), (next_id (credits (db w))).
  set (accountID := next_id (accounts (db w))).
  set (creditID := next_id (credits (db w))).
  set (credit := cr_set_ID creditID (ToCredit now creditReq accountID (base_rate keyRate))).
  destruct (insert_rows_spec (GeneratePaymentSchedule credit) (payment_schedules (db w)))
    as (ids & Hlen & Hnd & Hfresh & Hrows).
  exists ids.
  cbn [fst snd db accounts credits payment_schedules transactions open_tx faults].
  split; [reflexivity|]. split; [apply next_id_fresh|]. split; [apply next_id_fresh|].
  split; [reflexivity|]. split; [reflexivity|].
  split.
  { rewrite Hlen. unfold GeneratePaymentSchedule. rewrite schedule_loop_length.
    reflexivity. }
  split; [exact Hnd|]. split; [exact Hfresh|]. split; [exact Hrows|].
  split; [reflexivity|]. split; reflexivity.
Qed.

Lemma Create_issues_credit_witness :
  exists accountID creditID,
    fst (CreditSvc.Create 0 1 one_user (inl ErrDriver) (fun _ => 0) request_without_rate
           (mkWorld two_accounts [] 0)) = inr creditID
    /\ accounts two_accounts !! accountID = None
    /\ (cr_InterestRate
          <$> credits (db (snd (CreditSvc.Create 0 1 one_user (inl ErrDriver) (fun _ => 0)
                                  request_without_rate (mkWorld two_accounts [] 0)))) !! creditID)
       = Some 12%float
    /\ (acc_Balance
          <$> accounts (db (snd (CreditSvc.Create 0 1 one_user (inl ErrDriver) (fun _ => 0)
                                   request_without_rate (mkWorld two_accounts [] 0)))) !! accountID)
       = Some 1000%float.
Proof.
  destruct (Create_issues_credit 0 1 one_user (inl ErrDriver) (fun _ => 0)
              request_without_rate (mkWorld two_accounts [] 0) ann
              eq_refl eq_refl eq_refl)
    as (accountID & creditID & ids & H1 & H2 & _ & H4 & H5 & _).
  exists accountID, creditID. split; [exact H1|]. split; [exact H2|].
  rewrite H4, H5, !lookup_insert_eq. split; vm_compute; reflexivity.
Defined.

(** The repositories, for every script of driver faults. *)
Lemma UserRepo_GetByID_inv (users : gmap Z User) (id : Z) (w w' : World) (r : error + User) :
  UserRepo.GetByID users id w = (r, w') -> db w' = db w.
Proof.
  unfold UserRepo.GetByID. destruct (driver_call w) as [f w1] eqn:E.
  apply driver_call_inv in E. destruct f; [intros [= <- <-]; exact E|].
  destruct (users !! id); intros [= <- <-]; exact E.
Qed.

Lemma AccountRepo_Create_cases (account : Account) (w w' : World) (r : error + Z) :
  AccountRepo.Create account w = (r, w') ->
  match r with
  | inl _ => db w' = db w
  | inr id => id = next_id (accounts (db w)) /\ db w' = account_added account (db w)
  end.
Proof.
  unfold AccountRepo.Create. destruct (driver_call w) as [f w1] eqn:E.
  apply driver_call_inv in E. destruct f; intros [= <- <-]; cbn; [exact E|].
  unfold account_added. rewrite E. split; reflexivity.
Qed.

Lemma CreditRepo_Create_cases (credit : Credit) (w w' : World) (r : error + Z) :
  CreditRepo.Create credit w = (r, w') ->
  match r with
  | inl _ => db w' = db w
  | inr id => id = next_id (credits (db w)) /\ db w' = credit_added credit (db w)
  end.
Proof.
  unfold CreditRepo.Create. destruct (driver_call w) as [f w1] eqn:E.
  apply driver_call_inv in E. destruct f; intros [= <- <-]; cbn; [exact E|].
  unfold credit_added. rewrite E. split; reflexivity.
Qed.

Lemma CreateBatch_cases (schedules : list PaymentSchedule) (w w' : World)
    (r : option error) :
  PaymentScheduleRepo.CreateBatch schedules w = (r, w') ->
  match r with
  | Some _ => db w' = db w
  | None => db w' = schedule_added schedules (db w)
  end.
Proof.
  unfold PaymentScheduleRepo.CreateBatch.
  destruct (BeginTx w) as [[e|tx] w1] eqn:E1; apply BeginTx_inv in E1 as [D1 Htx];
    [intros [= <- <-]; exact D1|].
  specialize (Htx tx eq_refl). subst tx.
  destruct (driver_call w1) as [f w2] eqn:E2. apply driver_call_inv in E2.
  destruct (f || bool_decide (schedules = [])).
  { intros [= <- <-]. unfold Tx_Rollback, close_tx. cbn [db]. congruence. }
  destruct (Tx_Commit (mkTx []) w2) as [[e|] w3] eqn:E3;
    apply Tx_Commit_empty_cases in E3; intros [= <- <-].
  - congruence.
  - unfold set_db, schedule_added. cbn [db]. rewrite E3, E2, D1. reflexivity.
Qed.

(** X22. [CreditSvc.Create], for every state and every script of driver
    faults.  It succeeds only with the account, the credit, the schedule,
    the balance and the record written.  A failure is not undone: the
    tables hold what was written before the step that failed, that is the
    account when the credit could not be stored, the account and the credit
    when the schedule could not, these and the schedule when the balance
    could not be raised, and so on; an error with any other message (a
    rejected request, an unknown user, a failure up to and including the
    insert of the account) leaves the tables as they were. *)
Theorem Create_outcome (now later : Time) (users : gmap Z User)
    (keyRate : error + float) (rnd : nat -> Z) (creditReq : CreditRequest) (w : World) :
  let r := CreditSvc.Create now later users keyRate rnd creditReq w in
  let accountID := next_id (accounts (db w)) in
  let creditID := next_id (credits (db w)) in
  let credit := ToCredit now creditReq accountID (base_rate keyRate) in
  let opened := account_added (credit_account rnd creditReq) (db w) in
  let stored := credit_added credit opened in
  let scheduled :=
    schedule_added (GeneratePaymentSchedule (cr_set_ID creditID credit)) stored in
  let paid_out := balance_added accountID (rq_Amount creditReq) scheduled in
  let recorded := record_added (issue_record later creditReq accountID creditID) paid_out in
  (forall id, fst r = inr id -> id = creditID /\ db (snd r) = recorded)
  /\ (forall err, fst r = inl err ->
        ((forall e, err <> Wrap "failed to create credit" e)
         /\ (forall e, err <> Wrap "failed to create payment schedule" e)
         /\ (forall e, err <> Wrap "failed to update credit account balance" e)
         /\ (forall e, err <> Wrap "failed to create deposit transaction" e)
         /\ (forall e, err <> Wrap "failed to commit transaction" e)
         /\ db (snd r) = db w)
        \/ ((exists e, err = Wrap "failed to create credit" e) /\ db (snd r) = opened)
        \/ ((exists e, err = Wrap "failed to create payment schedule" e)
            /\ db (snd r) = stored)
        \/ ((exists e, err = Wrap "failed to update credit account balance" e)
            /\ db (snd r) = scheduled)
        \/ ((exists e, err = Wrap "failed to create deposit transaction" e)
            /\ db (snd r) = paid_out)
        \/ ((exists e, err = Wrap "failed to commit transaction" e)
            /\ db (snd r) = recorded)).
Proof.
  cbv zeta.
  unfold CreditSvc.Create.
  change (match keyRate with inl _ => 7%float | inr b => b end) with (base_rate keyRate).
  destruct (ValidateCreditRequest creditReq).
  { split; [discriminate|]. cbn [fst snd]. intros err [= <-]. left. not_those.
    reflexivity. }
  destruct (UserRepo.GetByID _ _ w) as [[e|user] w1] eqn:E1;
    apply UserRepo_GetByID_inv in E1.
  { split; [discriminate|]. cbn [fst snd]. intros err [= <-]. left. not_those.
    exact E1. }
  destruct (BeginTx w1) as [[e|tx] w2] eqn:E2; apply BeginTx_inv in E2 as [D2 Htx].
  { split; [discriminate|]. cbn [fst snd]. intros err [= <-]. left. not_those.
    congruence. }
  specialize (Htx tx eq_refl). subst tx.
  assert (Hdb2 : db w2 = db w) by congruence.
  destruct (AccountRepo.Create _ w2) as [[e|accountID] w3] eqn:E3;
    apply AccountRepo_Create_cases in E3.
  { split; [discriminate|]. cbn [fst snd]. intros err [= <-]. left. not_those.
    unfold Tx_Rollback, close_tx. cbn [db]. congruence. }
  destruct E3 as [Hacc D3]. rewrite Hdb2 in Hacc, D3. subst accountID.
  change {| acc_ID := 0; acc_UserID := rq_UserID creditReq;
            acc_AccountNumber := GenerateAccountNumber rnd; acc_Balance := 0;
            acc_Currency := CurrencyRUB; acc_AccountType := AccountTypeCredit;
            acc_IsActive := true |} with (credit_account rnd creditReq) in D3.
  destruct (CreditRepo.Create _ w3) as [[e|creditID] w4] eqn:E4;
    apply CreditRepo_Create_cases in E4.
  { split; [discriminate|]. cbn [fst snd]. intros err [= <-]. right. left.
    split; [eauto|]. unfold Tx_Rollback, close_tx. cbn [db]. congruence. }
  destruct E4 as [Hcr D4]. rewrite D3 in Hcr, D4. cbn [credits account_added] in Hcr.
  subst creditID.
  destruct (PaymentScheduleRepo.CreateBatch _ w4) as [[e|] w5] eqn:E5;
    apply CreateBatch_cases in E5.
  { split; [discriminate|]. cbn [fst snd]. intros err [= <-]. right. right. left.
    split; [eauto|]. unfold Tx_Rollback, close_tx. cbn [db]. congruence. }
  rewrite D4 in E5.
  destruct (AccountRepo.UpdateBalance _ _ w5) as [[e|] w6] eqn:E6;
    apply UpdateBalance_cases in E6.
  { split; [discriminate|]. cbn [fst snd]. intros err [= <-]. right. right. right. left.
    split; [eauto|]. unfold Tx_Rollback, close_tx. cbn [db]. congruence. }
  destruct E6 as [D6 _]. rewrite E5 in D6.
  change {| txn_ID := 0; txn_TransactionType := TransactionTypeDeposit;
            txn_SourceAccountID := None;
            txn_DestinationAccountID := Some (next_id (accounts (db w)));
            txn_Amount := rq_Amount creditReq; txn_Currency := CurrencyRUB;
            txn_Description :=
              ("Credit #" ++ pretty (next_id (credits (db w))) ++ " issued")%string;
            txn_Status := TransactionStatusCompleted; txn_CardID := None;
            txn_TransactionDate := later |}
    with (issue_record later creditReq (next_id (accounts (db w)))
            (next_id (credits (db w)))).
  destruct (TransactionRepo.Create _ w6) as [[e|tid] w7] eqn:E7;
    apply TransactionRepo_Create_cases in E7.
  { split; [discriminate|]. cbn [fst snd]. intros err [= <-].
    right. right. right. right. left.
    split; [eauto|]. unfold Tx_Rollback, close_tx. cbn [db]. congruence. }
  destruct E7 as [_ D7]. rewrite D6 in D7.
  destruct (Tx_Commit _ w7) as [[e|] w8] eqn:E8; apply Tx_Commit_empty_cases in E8;
    cbn [fst snd].
  - split; [discriminate|]. intros err [= <-]. right. right. right. right. right.
    split; [eauto|]. congruence.
  - split; [|discriminate]. intros id [= <-]. split; [reflexivity|]. congruence.
Qed.

(* ===================================================================== *)
(** ** A new credit, looked at                                           *)
(* ===================================================================== *)

Lemma rows_inserted_lookup (ids : list Z) (items : list PaymentSchedule)
    (m : gmap Z PaymentSchedule) (k : nat) (id : Z) (item : PaymentSchedule) :
  length ids = length items ->
  NoDup ids -> ids !! k = Some id -> items !! k = Some item ->
  rows_inserted ids items m !! id = Some (ps_set_ID id item).
Proof.
  intros Hlen Hnd Hid Hitem. unfold rows_inserted.
  apply lookup_union_Some_l. apply elem_of_list_to_map.
  - rewrite fst_zip; [exact Hnd|].
    rewrite length_zip_with. lia.
  - apply list_elem_of_lookup. exists k.
    apply lookup_zip_with_Some. exists id, (ps_set_ID id item).
    split; [reflexivity|]. split; [exact Hid|].
    apply lookup_zip_with_Some. exists id, item. repeat split; assumption.
Qed.

(** X23. The first installment of a new credit is due at the moment the
    credit is issued.  So when the owner looks at the schedule at any later
    moment (the driver not failing), [GetSchedule] stores that installment
    and the credit, which was ACTIVE, as OVERDUE. *)
Theorem new_credit_overdue_at_first_view (now later view : Time) (users : gmap Z User)
    (keyRate : error + float) (rnd : nat -> Z) (creditReq : CreditRequest) (w : World)
    (user : User) :
  faults w = [] ->
  ValidateCreditRequest creditReq = None ->
  users !! rq_UserID creditReq = Some user ->
  now < view ->
  let issued := CreditSvc.Create now later users keyRate rnd creditReq w in
  exists creditID,
    fst issued = inr creditID
    /\ (cr_Status <$> credits (db (snd issued)) !! creditID) = Some CreditStatusActive
    /\ (let viewed :=
          CreditSvc.GetSchedule view creditID (rq_UserID creditReq) (snd issued) in
        (exists v, fst viewed = inr v)
        /\ (cr_Status <$> credits (db (snd viewed)) !! creditID)
           = Some CreditStatusOverdue
        /\ exists id row,
             payment_schedules (db (snd viewed)) !! id = Some row
             /\ ps_CreditID row = creditID
             /\ ps_PaymentDate row = now
             /\ ps_Status row = PaymentStatusOverdue
             /\ ps_IsOverdue row = true).
Proof.
  intros Hf Hvalid Huser Hview. cbv zeta.
  rewrite (Create_no_fault now later users keyRate rnd creditReq w user Hf Hvalid Huser).
  set (accountID := next_id (accounts (db w))).
  set (creditID := next_id (credits (db w))).
  set (credit := cr_set_ID creditID (ToCredit now creditReq accountID (base_rate keyRate))).
  exists creditID. cbn [fst snd db credits].
  split; [reflexivity|]. split; [rewrite lookup_insert_eq; reflexivity|].
  match goal with |- context [CreditSvc.GetSchedule _ _ _ ?w'] => set (w1 := w') end.
  destruct (ValidateCreditRequest_ok _ Hvalid) as (_ & Hterm & _).
  destruct (insert_rows_spec (GeneratePaymentSchedule credit) (payment_schedules (db w)))
    as (ids & Hlen & Hnd & Hfresh & Hrows).
  (* the first installment *)
  assert (Hlen' : length (GeneratePaymentSchedule credit)
                  = Z.to_nat (rq_TermMonths creditReq))
    by (unfold GeneratePaymentSchedule; rewrite schedule_loop_length; reflexivity).
  destruct (GeneratePaymentSchedule credit) as [|item items] eqn:Hsched;
    [cbn in Hlen'; lia|].
  destruct ids as [|id ids]; [discriminate|].
  assert (Hitem : ps_CreditID item = creditID /\ ps_Status item = PaymentStatusPending
                  /\ ps_PaymentDate item = now).
  { assert (Hk : GeneratePaymentSchedule credit !! 0%nat = Some item)
      by (rewrite Hsched; reflexivity).
    apply schedule_loop_lookup in Hk as (_ & Hc & Hst & _ & _ & Hd).
    repeat split; assumption. }
  destruct Hitem as (Hic & Hist & Hid).
  assert (Hrow : payment_schedules (db w1) !! id = Some (ps_set_ID id item)).
  { subst w1. cbn [db payment_schedules]. rewrite Hrows.
    apply (rows_inserted_lookup _ _ _ 0%nat); [exact Hlen|exact Hnd|reflexivity|reflexivity]. }
  assert (Hpd : past_due view (ps_set_ID id item) = true).
  { unfold past_due. cbn [ps_Status ps_PaymentDate ps_set_ID].
    rewrite Hist, Hid, bool_decide_eq_true_2 by reflexivity.
    unfold After. apply Z.ltb_lt. exact Hview. }
  destruct (GetSchedule_no_fault view creditID (rq_UserID creditReq) w1 credit)
    as (H1 & H2 & H3 & _); [reflexivity| subst w1; apply lookup_insert_eq | reflexivity |].
  split; [exact H1|]. split.
  - rewrite H3.
    assert (Hex : existsb (past_due view) (PaymentScheduleRepo.credit_rows creditID (db w1))
                  = true).
    { apply existsb_exists. exists (ps_set_ID id item). split; [|exact Hpd].
      apply list_elem_of_In, elem_of_credit_rows. exists (ps_set_ID id item).
      cbn [ps_ID ps_set_ID]. split; [exact Hrow|]. split; [reflexivity|exact Hic]. }
    rewrite Hex, lookup_insert_eq. reflexivity.
  - exists id, (UpdateScheduleStatus view (ps_set_ID id item)).
    rewrite H2, lookup_fmap, Hrow. cbn [fmap option_fmap option_map].
    unfold refreshed. cbn [ps_CreditID ps_set_ID]. rewrite Hic, Z.eqb_refl.
    destruct (UpdateScheduleStatus_flagged view (ps_set_ID id item)) as (Hst & Hov).
    { unfold past_due in Hpd. exact Hpd. }
    split; [reflexivity|]. rewrite UpdateScheduleStatus_CreditID.
    split; [exact Hic|]. split; [|split; assumption].
    rewrite <- Hid. unfold UpdateScheduleStatus.
    destruct (_ && _); [destruct (1 <? _)|]; reflexivity.
Qed.

Lemma new_credit_overdue_at_first_view_witness :
  exists creditID,
    fst (CreditSvc.Create 0 1 one_user (inl ErrDriver) (fun _ => 0) request_without_rate
           (mkWorld two_accounts [] 0)) = inr creditID
    /\ (cr_Status
          <$> credits
                (db (snd (CreditSvc.GetSchedule 2 creditID 1
                            (snd (CreditSvc.Create 0 1 one_user (inl ErrDriver) (fun _ => 0)
                                    request_without_rate (mkWorld two_accounts [] 0))))))
              !! creditID)
       = Some CreditStatusOverdue.
Proof.
  destruct (new_credit_overdue_at_first_view 0 1 2 one_user (inl ErrDriver) (fun _ => 0)
              request_without_rate (mkWorld two_accounts [] 0)
              ann
              eq_refl eq_refl eq_refl eq_refl)
    as (creditID & H1 & _ & _ & H2 & _).
  exists creditID. split; [exact H1|exact H2].
Defined.

(* ===================================================================== *)
(** ** A new credit: the schedule as it is read back                     *)
(* ===================================================================== *)

Lemma by_payment_date_trans : Transitive PaymentScheduleRepo.by_payment_date.
Proof. intros p q r. unfold PaymentScheduleRepo.by_payment_date. lia. Qed.

Lemma by_payment_date_total : Total PaymentScheduleRepo.by_payment_date.
Proof. intros p q. unfold PaymentScheduleRepo.by_payment_date. lia. Qed.

Lemma rows_inserted_lookup_inv (ids : list Z) (items : list PaymentSchedule)
    (m : gmap Z PaymentSchedule) (id : Z) (row : PaymentSchedule) :
  rows_inserted ids items m !! id = Some row ->
  (exists k item, ids !! k = Some id /\ items !! k = Some item /\ row = ps_set_ID id item)
  \/ m !! id = Some row.
Proof.
  unfold rows_inserted. intros H. apply lookup_union_Some_raw in H as [H|[_ H]];
    [left|right; exact H].
  apply elem_of_list_to_map_2, list_elem_of_lookup in H as (k & H).
  apply lookup_zip_with_Some in H as (id' & row' & Heq & Hid & Hrow).
  injection Heq as <- <-.
  apply lookup_zip_with_Some in Hrow as (id'' & item & -> & Hid' & Hitem).
  assert (id'' = id) by congruence. subst id''.
  exists k, item. repeat split; assumption.
Qed.

(** What [GetByCreditID] finds for a credit whose installments have just
    been stored, when no row of the table named that credit before. *)
Lemma credit_rows_of_new_schedule (creditID : Z) (ids : list Z) (credit : Credit)
    (d d' : DB) :
  cr_ID credit = creditID ->
  length ids = length (GeneratePaymentSchedule credit) ->
  NoDup ids ->
  (forall id, id ∈ ids -> payment_schedules d !! id = None) ->
  (forall k row, payment_schedules d !! k = Some row -> ps_CreditID row <> creditID) ->
  payment_schedules d'
  = rows_inserted ids (GeneratePaymentSchedule credit) (payment_schedules d) ->
  PaymentScheduleRepo.credit_rows creditID d'
  = zip_with ps_set_ID ids (GeneratePaymentSchedule credit).
Proof.
  intros Hcid Hlen Hnd Hfresh Hold Hd'.
  set (items := GeneratePaymentSchedule credit) in *.
  set (T := zip_with ps_set_ID ids items).
  assert (HT : forall k x, T !! k = Some x <->
                 exists id item, ids !! k = Some id /\ items !! k = Some item
                                 /\ x = ps_set_ID id item).
  { intros k x. unfold T. rewrite lookup_zip_with_Some. split.
    - intros (id & item & -> & Hid & Hitem). eauto.
    - intros (id & item & Hid & Hitem & ->). eauto. }
  assert (Hmem : forall x, x ∈ PaymentScheduleRepo.credit_rows creditID d' <-> x ∈ T).
  { intros x. rewrite elem_of_credit_rows, list_elem_of_lookup. split.
    - intros (row & Hrow & Hx & Hc). rewrite Hd' in Hrow.
      apply rows_inserted_lookup_inv in Hrow
        as [(k & item & Hid & Hitem & ->)|Hrow].
      + exists k. apply HT. exists (ps_ID x), item.
        split; [exact Hid|]. split; [exact Hitem|exact Hx].
      + exfalso. exact (Hold _ _ Hrow Hc).
    - intros (k & Hk). apply HT in Hk as (id & item & Hid & Hitem & ->).
      cbn [ps_ID ps_set_ID]. exists (ps_set_ID id item).
      split; [|split; [reflexivity|]].
      + rewrite Hd'. apply (rows_inserted_lookup _ _ _ k); assumption.
      + cbn [ps_CreditID ps_set_ID].
        apply schedule_loop_lookup in Hitem as (_ & Hc & _). congruence. }
  assert (HdateT : forall j k x y, T !! j = Some x -> T !! k = Some y -> (j < k)%nat ->
                     ps_PaymentDate x < ps_PaymentDate y).
  { intros j k x y Hx Hy Hjk.
    apply HT in Hx as (idx & itemx & _ & Hix & ->).
    apply HT in Hy as (idy & itemy & _ & Hiy & ->).
    cbn [ps_PaymentDate ps_set_ID]. exact (schedule_dates_increase credit j k _ _ Hjk Hix Hiy). }
  apply (StronglySorted_unique_strong PaymentScheduleRepo.by_payment_date).
  - intros x1 x2 Hx1 Hx2 H12 H21. apply Hmem in Hx1.
    apply list_elem_of_lookup in Hx1 as (j & Hj), Hx2 as (k & Hk).
    unfold PaymentScheduleRepo.by_payment_date in H12, H21.
    destruct (Nat.lt_trichotomy j k) as [Hlt|[->|Hlt]].
    + pose proof (HdateT _ _ _ _ Hj Hk Hlt). lia.
    + congruence.
    + pose proof (HdateT _ _ _ _ Hk Hj Hlt). lia.
  - apply (@StronglySorted_merge_sort _ PaymentScheduleRepo.by_payment_date _
             by_payment_date_trans by_payment_date_total).
  - (* the rows as they were made are in order *)
    assert (Hs : forall l, (forall j k x y, l !! j = Some x -> l !! k = Some y ->
                              (j < k)%nat -> ps_PaymentDate x < ps_PaymentDate y) ->
                           StronglySorted PaymentScheduleRepo.by_payment_date l).
    { induction l as [|x l IH]; intros Hl; constructor.
      - apply IH. intros j k a b Ha Hb Hjk. apply (Hl (S j) (S k)); [exact Ha|exact Hb|lia].
      - apply Forall_lookup. intros k y Hy. unfold PaymentScheduleRepo.by_payment_date.
        pose proof (Hl 0%nat (S k) x y eq_refl Hy ltac:(lia)). lia. }
    apply Hs. exact HdateT.
  - apply NoDup_Permutation.
    + apply (NoDup_fmap_1 ps_ID). apply NoDup_ids_credit_rows.
    + apply NoDup_alt. intros j k x Hj Hk.
      destruct (Nat.lt_trichotomy j k) as [Hlt|[->|Hlt]]; [|reflexivity|].
      * pose proof (HdateT _ _ _ _ Hj Hk Hlt). lia.
      * pose proof (HdateT _ _ _ _ Hk Hj Hlt). lia.
    + exact Hmem.
Qed.

(** What a successful [GetSchedule] returns. *)
Lemma GetSchedule_result (now : Time) (creditID userID : Z) (w : World)
    (responses : list PaymentScheduleResponse) (summary : PaymentScheduleSummary) :
  fst (CreditSvc.GetSchedule now creditID userID w) = inr (responses, summary) ->
  responses
  = imap (fun i s => ToPaymentScheduleResponse s (Z.of_nat i + 1))
      (map (UpdateScheduleStatus now) (PaymentScheduleRepo.credit_rows creditID (db w)))
  /\ summary
     = CalculatePaymentScheduleSummary
         (map (UpdateScheduleStatus now) (PaymentScheduleRepo.credit_rows creditID (db w))).
Proof.
  unfold CreditSvc.GetSchedule.
  destruct (CreditSvc.GetByID _ _ w) as [[e|credit] w1] eqn:E1;
    apply CreditSvc_GetByID_inv in E1 as [D1 Hcr]; [discriminate|].
  unfold PaymentScheduleRepo.GetByCreditID.
  destruct (driver_call w1) as [f w2] eqn:E2. apply driver_call_inv in E2.
  destruct f; [discriminate|].
  replace (db w2) with (db w) by congruence.
  pose proof (refresh_schedules_list now (PaymentScheduleRepo.credit_rows creditID (db w))
                false w2) as Hlist.
  destruct (CreditSvc.refresh_schedules now _ false w2) as [[l' u'] w3].
  cbn [fst snd] in Hlist. subst l'. cbn [fst]. intros [= <- <-]. split; reflexivity.
Qed.

Lemma UpdateScheduleStatus_of_pending (now : Time) (p : PaymentSchedule) :
  ps_Status p = PaymentStatusPending ->
  ps_Status (UpdateScheduleStatus now p)
  = (if After now (ps_PaymentDate p) then PaymentStatusOverdue else PaymentStatusPending)
  /\ ps_PaymentDate (UpdateScheduleStatus now p) = ps_PaymentDate p
  /\ ps_PrincipalAmount (UpdateScheduleStatus now p) = ps_PrincipalAmount p
  /\ ps_InterestAmount (UpdateScheduleStatus now p) = ps_InterestAmount p
  /\ ps_TotalAmount (UpdateScheduleStatus now p) = ps_TotalAmount p
  /\ ps_CreditID (UpdateScheduleStatus now p) = ps_CreditID p
  /\ ps_ID (UpdateScheduleStatus now p) = ps_ID p.
Proof.
  intros Hst. unfold UpdateScheduleStatus.
  rewrite Hst, bool_decide_eq_true_2 by reflexivity. cbn [andb].
  destruct (After now (ps_PaymentDate p)); [destruct (1 <? _)|];
    cbn; rewrite ?Hst; repeat split; reflexivity.
Qed.

(** X24. A credit issued with a driver that does not fail, in a database
    whose installments all belong to existing credits, and then looked at
    by its owner: [GetSchedule] shows one installment for each month of the
    term, in the order of their making, numbered from 1; the [k]-th (from
    0) is due [k] steps of [addOneMonth] after the moment of issue, carries
    the amounts [GeneratePaymentSchedule] computed, and is OVERDUE if that
    date lies before the moment of the view and PENDING otherwise. *)
Theorem new_credit_schedule_as_viewed (now later view : Time) (users : gmap Z User)
    (keyRate : error + float) (rnd : nat -> Z) (creditReq : CreditRequest) (w : World)
    (user : User) :
  faults w = [] ->
  ValidateCreditRequest creditReq = None ->
  users !! rq_UserID creditReq = Some user ->
  (forall k row, payment_schedules (db w) !! k = Some row ->
                 is_Some (credits (db w) !! ps_CreditID row)) ->
  let issued := CreditSvc.Create now later users keyRate rnd creditReq w in
  exists creditID accountID,
    fst issued = inr creditID
    /\ (let credit :=
          cr_set_ID creditID (ToCredit now creditReq accountID (base_rate keyRate)) in
        let viewed :=
          CreditSvc.GetSchedule view creditID (rq_UserID creditReq) (snd issued) in
        exists responses summary,
          fst viewed = inr (responses, summary)
          /\ length responses = Z.to_nat (rq_TermMonths creditReq)
          /\ sm_TotalPayments summary = rq_TermMonths creditReq
          /\ (forall k resp, responses !! k = Some resp ->
                exists item,
                  GeneratePaymentSchedule credit !! k = Some item
                  /\ psr_PaymentNumber resp = Z.of_nat k + 1
                  /\ psr_CreditID resp = creditID
                  /\ psr_PaymentDate resp = Nat.iter k addOneMonth now
                  /\ psr_PrincipalAmount resp = ps_PrincipalAmount item
                  /\ psr_InterestAmount resp = ps_InterestAmount item
                  /\ psr_TotalAmount resp = ps_TotalAmount item
                  /\ psr_Status resp
                     = (if After view (Nat.iter k addOneMonth now)
                        then PaymentStatusOverdue else PaymentStatusPending))).
Proof.
  intros Hf Hvalid Huser Hfk. cbv zeta.
  rewrite (Create_no_fault now later users keyRate rnd creditReq w user Hf Hvalid Huser).
  set (accountID := next_id (accounts (db w))).
  set (creditID := next_id (credits (db w))).
  set (credit := cr_set_ID creditID (ToCredit now creditReq accountID (base_rate keyRate))).
  exists creditID, accountID. cbn [fst snd]. split; [reflexivity|].
  match goal with |- context [CreditSvc.GetSchedule _ _ _ ?w'] => set (w1 := w') end.
  destruct (ValidateCreditRequest_ok _ Hvalid) as (_ & Hterm & _).
  destruct (insert_rows_spec (GeneratePaymentSchedule credit) (payment_schedules (db w)))
    as (ids & Hlen & Hnd & Hfresh & Hrows).
  assert (Hlen' : length (GeneratePaymentSchedule credit)
                  = Z.to_nat (rq_TermMonths creditReq))
    by (unfold GeneratePaymentSchedule; rewrite schedule_loop_length; reflexivity).
  assert (Hread : PaymentScheduleRepo.credit_rows creditID (db w1)
                  = zip_with ps_set_ID ids (GeneratePaymentSchedule credit)).
  { apply (credit_rows_of_new_schedule creditID ids credit (db w) (db w1));
      [reflexivity | exact Hlen | exact Hnd | exact Hfresh | | exact Hrows].
    intros k row Hrow Hc. destruct (Hfk k row Hrow) as [c Hcr].
    rewrite Hc in Hcr. unfold creditID in Hcr. rewrite next_id_fresh in Hcr.
    discriminate. }
  destruct (GetSchedule_no_fault view creditID (rq_UserID creditReq) w1 credit)
    as ([[responses summary] Hview] & _);
    [reflexivity | subst w1; apply lookup_insert_eq | reflexivity |].
  exists responses, summary. split; [exact Hview|].
  apply GetSchedule_result in Hview as [-> ->]. rewrite Hread.
  split; [|split].
  - rewrite length_imap, length_map, length_zip_with. lia.
  - unfold CalculatePaymentScheduleSummary.
    destruct (summary_counts (map (UpdateScheduleStatus view)
                                (zip_with ps_set_ID ids (GeneratePaymentSchedule credit)))
                (empty_summary (Z.of_nat (length (map (UpdateScheduleStatus view)
                   (zip_with ps_set_ID ids (GeneratePaymentSchedule credit)))))))
      as (H1 & _).
    cbv zeta in H1. rewrite H1. cbn [sm_TotalPayments empty_summary].
    rewrite length_map, length_zip_with. lia.
  - intros k resp. rewrite list_lookup_imap, list_lookup_fmap.
    destruct (zip_with ps_set_ID ids (GeneratePaymentSchedule credit) !! k) as [s|] eqn:Hs;
      [|discriminate].
    cbn [fmap option_fmap option_map]. intros [= <-].
    apply lookup_zip_with_Some in Hs as (id & item & -> & Hid & Hitem).
    exists item. split; [exact Hitem|].
    apply schedule_loop_lookup in Hitem as (_ & Hc & Hst & _ & _ & Hd).
    destruct (UpdateScheduleStatus_of_pending view (ps_set_ID id item) Hst)
      as (E1 & E2 & E3 & E4 & E5 & E6 & _).
    cbn [ToPaymentScheduleResponse psr_PaymentNumber psr_CreditID psr_PaymentDate
         psr_PrincipalAmount psr_InterestAmount psr_TotalAmount psr_Status].
    rewrite E1, E2, E3, E4, E5, E6. cbn [ps_PaymentDate ps_set_ID ps_CreditID
      ps_PrincipalAmount ps_InterestAmount ps_TotalAmount].
    rewrite Hd. repeat split; try reflexivity. exact Hc.
Qed.

Lemma new_credit_schedule_as_viewed_witness :
  exists creditID,
    fst (CreditSvc.Create 5 6 one_user (inl ErrDriver) (fun _ => 0) request_without_rate
           (mkWorld one_due_installment [] 0)) = inr creditID
    /\ exists responses summary,
         fst (CreditSvc.GetSchedule 5 creditID 1
                (snd (CreditSvc.Create 5 6 one_user (inl ErrDriver) (fun _ => 0)
                        request_without_rate (mkWorld one_due_installment [] 0))))
         = inr (responses, summary)
         /\ length responses = 12%nat.
Proof.
  destruct (new_credit_schedule_as_viewed 5 6 5 one_user (inl ErrDriver) (fun _ => 0)
              request_without_rate (mkWorld one_due_installment [] 0) ann
              eq_refl eq_refl eq_refl)
    as (creditID & accountID & H1 & responses & summary & H2 & H3 & _).
  - intros k row Hrow. cbn [db one_due_installment payment_schedules credits] in *.
    apply lookup_insert_Some in Hrow as [[<- <-]|[_ Hrow]]; [|discriminate].
    cbn. rewrite lookup_insert_eq. eauto.
  - exists creditID. split; [exact H1|]. exists responses, summary.
    split; [exact H2|exact H3].
Defined.
